(** * RouteCraft: graph store, binary persistence, priority queue and A* search

    A shallow embedding of [graph.c], [astar.c] and the route search of
    [main.c].

    Conventions of the embedding.
    - A C [int] is a [Z]; the fixed-size arrays of [Graph] are lists that
      carry their full capacity, read and written by index.  Reading or
      writing a C array out of bounds is undefined behaviour; [aget] then
      yields the given default and [aset] leaves the array alone.
    - A C [float] is an element of a carrier [F] with the operations of the
      class [FloatOps].  The carrier [binary32] computes with the IEEE 754
      single-precision format bit for bit; the laws of order and addition
      that the properties of the queue and of the search rely on are proved
      of it.
    - Files are byte streams; [fread] consumes a prefix of the stream.
    - [malloc]/[calloc] are taken to succeed; a null [graph] pointer is not
      modelled. *)

From Stdlib Require Import ZArith List Bool Lia.
From Stdlib Require Import Strings.Byte.
From Stdlib Require Import Floats.SpecFloat.
From stdpp Require Import base tactics option list numbers.

Local Open Scope Z_scope.

(* ===================================================================== *)
(** ** Arrays indexed by C integers *)

Definition aget {A} (d : A) (a : list A) (i : Z) : A :=
  if decide (0 <= i) then default d (a !! Z.to_nat i) else d.

Definition aset {A} (a : list A) (i : Z) (v : A) : list A :=
  if decide (0 <= i) then <[Z.to_nat i := v]> a else a.

(* ===================================================================== *)
(** ** Bytes, and the object representation of [int] and [bool] *)

#[export] Instance byte_eq_dec : EqDecision byte.
Proof.
  intros a b. destruct (decide (Byte.to_N a = Byte.to_N b)) as [e|n].
  - left. apply (f_equal Byte.of_N) in e. rewrite !Byte.of_to_N in e. congruence.
  - right. congruence.
Defined.

Definition byte_of_Z (z : Z) : byte :=
  default "000"%byte (Byte.of_N (Z.to_N (z mod 256))).

Definition Z_of_byte (b : byte) : Z := Z.of_N (Byte.to_N b).

(** Little-endian value of a byte string. *)
Fixpoint le_value (bs : list byte) : Z :=
  match bs with
  | [] => 0
  | b :: bs' => Z_of_byte b + 256 * le_value bs'
  end.

(** The [n] low-order bytes of [z], least significant first. *)
Fixpoint le_bytes (n : nat) (z : Z) : list byte :=
  match n with
  | O => []
  | S n' => byte_of_Z z :: le_bytes n' (z / 256)
  end.

(** [sizeof(int) = 4], two's complement, host (little-endian) order. *)
Definition int_bytes (z : Z) : list byte := le_bytes 4 (z mod 2 ^ 32).

Definition int_of_bytes (bs : list byte) : Z :=
  let u := le_value (take 4 bs) in
  if decide (u < 2 ^ 31) then u else u - 2 ^ 32.

(** [sizeof(bool) = 1]. *)
Definition bool_bytes (b : bool) : list byte :=
  [if b then "001"%byte else "000"%byte].

Definition bool_of_bytes (bs : list byte) : bool :=
  match bs with
  | b :: _ => negb (Z_of_byte b =? 0)
  | [] => false
  end.

Definition ints_bytes (l : list Z) : list byte := concat (map int_bytes l).

Fixpoint ints_of_bytes (n : nat) (bs : list byte) : list Z :=
  match n with
  | O => []
  | S n' => int_of_bytes (take 4 bs) :: ints_of_bytes n' (drop 4 bs)
  end.

(* ===================================================================== *)
(** ** The C [float] *)

Class FloatOps (F : Type) := {
  f_zero : F;                      (* 0.0f *)
  f_one : F;                       (* 1.0f *)
  FLT_MAX : F;
  f_add : F -> F -> F;
  f_sub : F -> F -> F;
  f_mul : F -> F -> F;
  f_lt : F -> F -> bool;           (* a < b *)
  f_le : F -> F -> bool;           (* a <= b *)
  fabsf : F -> F;
  sqrtf : F -> F;
  fmaxf : F -> F -> F;
  f_bytes : F -> list byte;        (* object representation, 4 bytes *)
  f_of_bytes : list byte -> F;
}.

(** *** IEEE 754 binary32, bit for bit *)

Module Binary32.

Definition prec : Z := 24.
Definition emax : Z := 128.

(** A float is its four bytes in memory, least significant first. *)
Definition t : Type := byte * byte * byte * byte.

Definition bits (x : t) : Z :=
  let '(b0, b1, b2, b3) := x in le_value [b0; b1; b2; b3].

Definition of_bits (z : Z) : t :=
  (byte_of_Z z, byte_of_Z (z / 2 ^ 8), byte_of_Z (z / 2 ^ 16), byte_of_Z (z / 2 ^ 24)).

Definition to_bytes (x : t) : list byte :=
  let '(b0, b1, b2, b3) := x in [b0; b1; b2; b3].

Definition of_bytes (bs : list byte) : t :=
  match bs with
  | b0 :: b1 :: b2 :: b3 :: _ => (b0, b1, b2, b3)
  | _ => of_bits 0
  end.

Definition decode (x : t) : spec_float :=
  let z := bits x in
  let s := Z.testbit z 31 in
  let e := (z / 2 ^ 23) mod 2 ^ 8 in
  let m := z mod 2 ^ 23 in
  if e =? 0 then
    match m with
    | Zpos p => S754_finite s p (-149)
    | _ => S754_zero s
    end
  else if e =? 255 then
    (if m =? 0 then S754_infinity s else S754_nan)
  else
    match m + 2 ^ 23 with
    | Zpos p => S754_finite s p (e - 150)
    | _ => S754_nan
    end.

Definition sign_bit (s : bool) : Z := if s then 2 ^ 31 else 0.

Definition encode (f : spec_float) : t :=
  of_bits
    match f with
    | S754_zero s => sign_bit s
    | S754_infinity s => sign_bit s + 255 * 2 ^ 23
    | S754_nan => 255 * 2 ^ 23 + 2 ^ 22
    | S754_finite s m e =>
        if Zpos m <? 2 ^ 23 then sign_bit s + Zpos m
        else sign_bit s + (e + 150) * 2 ^ 23 + (Zpos m - 2 ^ 23)
    end.

Definition lift2 (op : spec_float -> spec_float -> spec_float) (a b : t) : t :=
  encode (op (decode a) (decode b)).

Definition add : t -> t -> t := lift2 (SFadd prec emax).
Definition sub : t -> t -> t := lift2 (SFsub prec emax).
Definition mul : t -> t -> t := lift2 (SFmul prec emax).
Definition lt (a b : t) : bool := SFltb (decode a) (decode b).
Definition le (a b : t) : bool := SFleb (decode a) (decode b).
Definition abs (a : t) : t := encode (SFabs (decode a)).
Definition sqrt (a : t) : t := encode (SFsqrt prec emax (decode a)).

(** [fmaxf]: the larger argument; a NaN argument is treated as missing. *)
Definition max (a b : t) : t :=
  match decode a, decode b with
  | S754_nan, _ => b
  | _, S754_nan => a
  | _, _ => if lt a b then b else a
  end.

Definition is_nan (a : t) : bool :=
  match decode a with S754_nan => true | _ => false end.

Definition zero : t := of_bits 0.
Definition one : t := of_bits 0x3f800000.
Definition flt_max : t := of_bits 0x7f7fffff.
Definition nan : t := of_bits 0x7fc00000.

(** Small non-negative integers as floats ([(float)n]). *)
Definition of_Z (n : Z) : t :=
  encode (binary_normalize prec emax n 0 false).

End Binary32.

#[export] Instance binary32_ops : FloatOps Binary32.t := {
  f_zero := Binary32.zero;
  f_one := Binary32.one;
  FLT_MAX := Binary32.flt_max;
  f_add := Binary32.add;
  f_sub := Binary32.sub;
  f_mul := Binary32.mul;
  f_lt := Binary32.lt;
  f_le := Binary32.le;
  fabsf := Binary32.abs;
  sqrtf := Binary32.sqrt;
  fmaxf := Binary32.max;
  f_bytes := Binary32.to_bytes;
  f_of_bytes := Binary32.of_bytes;
}.

(* ===================================================================== *)
(** ** graph.h: the data model *)

Definition MAX_NODES : Z := 1000.
Definition MAX_EDGES_PER_NODE : Z := 20.
Definition MAX_NAME_LENGTH : Z := 128.

Record Node (F : Type) := mkNode {
  node_id : Z;
  node_name : list byte;           (* char name[MAX_NAME_LENGTH] *)
  node_x : F;
  node_y : F;
  node_active : bool;
}.
Arguments mkNode {F}.
Arguments node_id {F}.
Arguments node_name {F}.
Arguments node_x {F}.
Arguments node_y {F}.
Arguments node_active {F}.

Record Edge (F : Type) := mkEdge {
  edge_from : Z;
  edge_to : Z;
  edge_weight : F;
  edge_active : bool;
}.
Arguments mkEdge {F}.
Arguments edge_from {F}.
Arguments edge_to {F}.
Arguments edge_weight {F}.
Arguments edge_active {F}.

Record Graph (F : Type) := mkGraph {
  nodes : list (Node F);           (* Node nodes[MAX_NODES] *)
  nodeCount : Z;
  edges : list (list (Edge F));    (* Edge edges[MAX_NODES][MAX_EDGES_PER_NODE] *)
  edgeCounts : list Z;             (* int edgeCounts[MAX_NODES] *)
}.
Arguments mkGraph {F}.
Arguments nodes {F}.
Arguments nodeCount {F}.
Arguments edges {F}.
Arguments edgeCounts {F}.

Record PathResult (F : Type) := mkPathResult {
  path_nodes : list Z;             (* int* nodes; NULL is the empty list *)
  path_length : Z;
  totalCost : F;
  found : bool;
}.
Arguments mkPathResult {F}.
Arguments path_nodes {F}.
Arguments path_length {F}.
Arguments totalCost {F}.
Arguments found {F}.

(* ===================================================================== *)
(** ** graph.c *)

Section GraphStore.
Context {F : Type} `{FloatOps F}.

(** A float whose four bytes are zero, as [memset] leaves it. *)
Definition f_zero_bits : F := f_of_bytes (replicate 4 "000"%byte).

Definition zero_node : Node F :=
  mkNode 0 (replicate (Z.to_nat MAX_NAME_LENGTH) "000"%byte) f_zero_bits f_zero_bits false.

Definition zero_edge : Edge F := mkEdge 0 0 f_zero_bits false.

Definition node_at (g : Graph F) (i : Z) : Node F := aget zero_node (nodes g) i.

Definition edge_at (g : Graph F) (i j : Z) : Edge F :=
  aget zero_edge (aget [] (edges g) i) j.

Definition edgeCount_at (g : Graph F) (i : Z) : Z := aget 0 (edgeCounts g) i.

Definition set_node (g : Graph F) (i : Z) (n : Node F) : Graph F :=
  mkGraph (aset (nodes g) i n) (nodeCount g) (edges g) (edgeCounts g).

Definition set_edge (g : Graph F) (i j : Z) (e : Edge F) : Graph F :=
  mkGraph (nodes g) (nodeCount g)
          (aset (edges g) i (aset (aget [] (edges g) i) j e)) (edgeCounts g).

Definition set_edgeCount (g : Graph F) (i : Z) (c : Z) : Graph F :=
  mkGraph (nodes g) (nodeCount g) (edges g) (aset (edgeCounts g) i c).

Definition set_nodeCount (g : Graph F) (c : Z) : Graph F :=
  mkGraph (nodes g) c (edges g) (edgeCounts g).

Definition graph_init : Graph F :=
  mkGraph (replicate (Z.to_nat MAX_NODES) zero_node)
          0
          (replicate (Z.to_nat MAX_NODES)
                     (replicate (Z.to_nat MAX_EDGES_PER_NODE) zero_edge))
          (replicate (Z.to_nat MAX_NODES) 0).

(** The characters of a C string: the bytes before the first NUL. *)
Fixpoint c_str (s : list byte) : list byte :=
  match s with
  | [] => []
  | b :: s' => if Z_of_byte b =? 0 then [] else b :: c_str s'
  end.

(** [strncpy(dst, src, n)] writes exactly [n] bytes: the characters of
    [src], cut at [n], then NUL padding. *)
Definition strncpy (dst src : list byte) (n : nat) : list byte :=
  let cs := take n (c_str src) in
  cs ++ replicate (n - length cs) "000"%byte ++ drop n dst.

Definition graph_add_node (g : Graph F) (name : list byte) (x y : F)
  : Z * Graph F :=
  if decide (nodeCount g >= MAX_NODES) then (-1, g)
  else
    let id := nodeCount g in
    let nm := strncpy (node_name (node_at g id)) name
                      (Z.to_nat (MAX_NAME_LENGTH - 1)) in
    let nm := aset nm (MAX_NAME_LENGTH - 1) "000"%byte in
    let g := set_node g id (mkNode id nm x y true) in
    (id, set_nodeCount g (nodeCount g + 1)).

(** Inner loop of [graph_remove_node]: deactivate, in the adjacency list of
    [i], every stored edge that points to [nodeId]. *)
Definition deactivate_edges_to (nodeId i : Z) (g : Graph F) : Graph F :=
  foldl (fun g j =>
           if decide (edge_to (edge_at g i j) = nodeId)
           then
             let e := edge_at g i j in
             set_edge g i j (mkEdge (edge_from e) (edge_to e) (edge_weight e) false)
           else g)
        g (seqZ 0 (edgeCount_at g i)).

Definition graph_remove_node (g : Graph F) (nodeId : Z) : bool * Graph F :=
  if decide (nodeId < 0 \/ nodeId >= nodeCount g) then (false, g)
  else
    let n := node_at g nodeId in
    let g := set_node g nodeId
               (mkNode (node_id n) (node_name n) (node_x n) (node_y n) false) in
    let g := set_edgeCount g nodeId 0 in
    let g := foldl (fun g i =>
                      if decide (i = nodeId) then g
                      else deactivate_edges_to nodeId i g)
                   g (seqZ 0 (nodeCount g)) in
    (true, g).

(** [graph_get_node]: [None] is the NULL pointer. *)
Definition graph_get_node (g : Graph F) (nodeId : Z) : option (Node F) :=
  if decide (nodeId < 0 \/ nodeId >= nodeCount g) then None
  else if negb (node_active (node_at g nodeId)) then None
  else Some (node_at g nodeId).

Definition graph_has_edge (g : Graph F) (from to : Z) : bool :=
  if decide (from < 0 \/ from >= nodeCount g) then false
  else
    existsb (fun i => bool_decide (edge_to (edge_at g from i) = to)
                      && edge_active (edge_at g from i))
            (seqZ 0 (edgeCount_at g from)).

Definition graph_add_edge (g : Graph F) (from to : Z) (weight : F)
  : bool * Graph F :=
  if decide (from < 0 \/ from >= nodeCount g) then (false, g)
  else if decide (to < 0 \/ to >= nodeCount g) then (false, g)
  else if decide (edgeCount_at g from >= MAX_EDGES_PER_NODE) then (false, g)
  else if graph_has_edge g from to then (false, g)
  else
    let idx := edgeCount_at g from in
    let g := set_edge g from idx (mkEdge from to weight true) in
    (true, set_edgeCount g from (edgeCount_at g from + 1)).

Definition graph_add_edge_bidirectional (g : Graph F) (from to : Z) (weight : F)
  : bool * Graph F :=
  let '(a, g) := graph_add_edge g from to weight in
  let '(b, g) := graph_add_edge g to from weight in
  (a || b, g).

Definition graph_remove_edge (g : Graph F) (from to : Z) : bool * Graph F :=
  if decide (from < 0 \/ from >= nodeCount g) then (false, g)
  else
    match
      find (fun i => bool_decide (edge_to (edge_at g from i) = to)
                     && edge_active (edge_at g from i))
           (seqZ 0 (edgeCount_at g from))
    with
    | Some i =>
        let e := edge_at g from i in
        (true, set_edge g from i
                 (mkEdge (edge_from e) (edge_to e) (edge_weight e) false))
    | None => (false, g)
    end.

(** [graph_get_neighbors]: the ids written to [neighbors]; the returned
    count is the length of the list. *)
Fixpoint get_neighbors_loop (g : Graph F) (nodeId maxNeighbors : Z)
         (idxs : list Z) (out : list Z) : list Z :=
  match idxs with
  | [] => out
  | i :: idxs' =>
      if decide (Z.of_nat (length out) < maxNeighbors) then
        let e := edge_at g nodeId i in
        if edge_active e && node_active (node_at g (edge_to e))
        then get_neighbors_loop g nodeId maxNeighbors idxs' (out ++ [edge_to e])
        else get_neighbors_loop g nodeId maxNeighbors idxs' out
      else out
  end.

Definition graph_get_neighbors (g : Graph F) (nodeId maxNeighbors : Z)
  : Z * list Z :=
  if decide (nodeId < 0 \/ nodeId >= nodeCount g) then (0, [])
  else
    let out := get_neighbors_loop g nodeId maxNeighbors
                                  (seqZ 0 (edgeCount_at g nodeId)) [] in
    (Z.of_nat (length out), out).

Definition path_result_create : PathResult F := mkPathResult [] 0 f_zero false.

End GraphStore.

(* ===================================================================== *)
(** ** graph.c: binary persistence

    A file is the list of its bytes; a stream is the list of the bytes not
    yet consumed.  [fopen] failing is the stream [None]. *)

Section Persistence.
Context {F : Type} `{FloatOps F}.

Definition magic : list byte := ["R"; "C"; "G"; "R"; "A"; "P"; "H"; "1"]%byte.

(** [fread(ptr, size, count, file)] into an object whose bytes are [old]:
    the bytes of the object afterwards, the number of complete items read
    and the rest of the stream.  The bytes of a partially read item are
    stored as far as they came. *)
Definition fread (old : list byte) (size count : nat) (file : list byte)
  : list byte * Z * list byte :=
  let bs := take (size * count) file in
  (bs ++ drop (length bs) old, Z.of_nat (length bs / size), drop (size * count) file).

Definition node_bytes (n : Node F) : list byte :=
  int_bytes (node_id n) ++ node_name n ++ f_bytes (node_x n)
    ++ f_bytes (node_y n) ++ bool_bytes (node_active n).

Definition edge_bytes (e : Edge F) : list byte :=
  int_bytes (edge_from e) ++ int_bytes (edge_to e) ++ f_bytes (edge_weight e)
    ++ bool_bytes (edge_active e).

(** The bytes [graph_save] writes once [fopen] has succeeded. *)
Definition graph_save (g : Graph F) : list byte :=
  magic
  ++ int_bytes (nodeCount g)
  ++ flat_map (fun i => node_bytes (node_at g i)) (seqZ 0 (nodeCount g))
  ++ flat_map (fun i => int_bytes (edgeCount_at g i)) (seqZ 0 MAX_NODES)
  ++ flat_map (fun i =>
                 flat_map (fun j => edge_bytes (edge_at g i j))
                          (seqZ 0 (edgeCount_at g i)))
              (seqZ 0 (nodeCount g)).

(** Body of the node loop of [graph_load]: five unchecked reads. *)
Definition load_node (gf : Graph F * list byte) (i : Z) : Graph F * list byte :=
  let '(g, file) := gf in
  let n := node_at g i in
  let '(b_id, _, file) := fread (int_bytes (node_id n)) 4 1 file in
  let '(b_name, _, file) := fread (node_name n) 1 (Z.to_nat MAX_NAME_LENGTH) file in
  let '(b_x, _, file) := fread (f_bytes (node_x n)) 4 1 file in
  let '(b_y, _, file) := fread (f_bytes (node_y n)) 4 1 file in
  let '(b_active, _, file) := fread (bool_bytes (node_active n)) 1 1 file in
  (set_node g i (mkNode (int_of_bytes b_id) b_name (f_of_bytes b_x)
                        (f_of_bytes b_y) (bool_of_bytes b_active)),
   file).

(** Body of the inner edge loop of [graph_load]: four unchecked reads. *)
Definition load_edge (i : Z) (gf : Graph F * list byte) (j : Z)
  : Graph F * list byte :=
  let '(g, file) := gf in
  let e := edge_at g i j in
  let '(b_from, _, file) := fread (int_bytes (edge_from e)) 4 1 file in
  let '(b_to, _, file) := fread (int_bytes (edge_to e)) 4 1 file in
  let '(b_weight, _, file) := fread (f_bytes (edge_weight e)) 4 1 file in
  let '(b_active, _, file) := fread (bool_bytes (edge_active e)) 1 1 file in
  (set_edge g i j (mkEdge (int_of_bytes b_from) (int_of_bytes b_to)
                          (f_of_bytes b_weight) (bool_of_bytes b_active)),
   file).

Definition load_edges (gf : Graph F * list byte) (i : Z) : Graph F * list byte :=
  foldl (load_edge i) gf (seqZ 0 (edgeCount_at (fst gf) i)).

Definition graph_load (g : Graph F) (file : option (list byte)) : bool * Graph F :=
  match file with
  | None => (false, g)
  | Some file =>
      let '(b_magic, n, file) := fread (replicate 8 "000"%byte) 1 8 file in
      if decide (n <> 8 \/ b_magic <> magic) then (false, g)
      else
        let g := graph_init in
        let '(b_count, n, file) := fread (int_bytes (nodeCount g)) 4 1 file in
        let g := set_nodeCount g (int_of_bytes b_count) in
        if decide (n <> 1) then (false, g)
        else
          let '(g, file) := foldl load_node (g, file) (seqZ 0 (nodeCount g)) in
          let '(b_counts, _, file) :=
            fread (flat_map int_bytes (edgeCounts g)) 4 (Z.to_nat MAX_NODES) file in
          let g := mkGraph (nodes g) (nodeCount g) (edges g)
                           (ints_of_bytes (Z.to_nat MAX_NODES) b_counts) in
          let '(g, _) := foldl load_edges (g, file) (seqZ 0 (nodeCount g)) in
          (true, g)
  end.

End Persistence.

(* ===================================================================== *)
(** ** astar.h, astar.c: the priority queue *)

Record PQNode (F : Type) := mkPQNode {
  pq_nodeId : Z;
  pq_fScore : F;
}.
Arguments mkPQNode {F}.
Arguments pq_nodeId {F}.
Arguments pq_fScore {F}.

Record PriorityQueue (F : Type) := mkPQ {
  pq_nodes : list (PQNode F);      (* PQNode* nodes, [capacity] slots *)
  pq_size : Z;
  pq_capacity : Z;
}.
Arguments mkPQ {F}.
Arguments pq_nodes {F}.
Arguments pq_size {F}.
Arguments pq_capacity {F}.

Section Queue.
Context {F : Type} `{FloatOps F}.

Definition pq_blank : PQNode F := mkPQNode 0 f_zero.

Definition pq_at (ns : list (PQNode F)) (i : Z) : PQNode F := aget pq_blank ns i.

(** [pq_create]: the slots hold whatever [malloc] returned; the model
    fills them with [pq_blank]. *)
Definition pq_create (capacity : Z) : PriorityQueue F :=
  mkPQ (replicate (Z.to_nat capacity) pq_blank) 0 capacity.

Definition pq_swap (ns : list (PQNode F)) (a b : Z) : list (PQNode F) :=
  let temp := pq_at ns a in
  let ns := aset ns a (pq_at ns b) in
  aset ns b temp.

(** The loop of [pq_heapify_up]; [idx] at least halves in every round, so
    [idx] rounds of fuel are never used up. *)
Fixpoint heapify_up_loop (fuel : nat) (ns : list (PQNode F)) (idx : Z)
  : list (PQNode F) :=
  match fuel with
  | O => ns
  | S fuel' =>
      if decide (idx > 0) then
        let parent := (idx - 1) `quot` 2 in
        if f_lt (pq_fScore (pq_at ns idx)) (pq_fScore (pq_at ns parent))
        then heapify_up_loop fuel' (pq_swap ns idx parent) parent
        else ns
      else ns
  end.

Definition pq_heapify_up (pq : PriorityQueue F) (idx : Z) : PriorityQueue F :=
  mkPQ (heapify_up_loop (Z.to_nat idx) (pq_nodes pq) idx) (pq_size pq) (pq_capacity pq).

(** The loop of [pq_heapify_down]; [idx] grows in every round and stays
    below [size]. *)
Fixpoint heapify_down_loop (fuel : nat) (size : Z) (ns : list (PQNode F)) (idx : Z)
  : list (PQNode F) :=
  match fuel with
  | O => ns
  | S fuel' =>
      let smallest := idx in
      let left := 2 * idx + 1 in
      let right := 2 * idx + 2 in
      let smallest :=
        if bool_decide (left < size)
           && f_lt (pq_fScore (pq_at ns left)) (pq_fScore (pq_at ns smallest))
        then left else smallest in
      let smallest :=
        if bool_decide (right < size)
           && f_lt (pq_fScore (pq_at ns right)) (pq_fScore (pq_at ns smallest))
        then right else smallest in
      if decide (smallest <> idx)
      then heapify_down_loop fuel' size (pq_swap ns idx smallest) smallest
      else ns
  end.

Definition pq_heapify_down (pq : PriorityQueue F) (idx : Z) : PriorityQueue F :=
  mkPQ (heapify_down_loop (Z.to_nat (pq_size pq)) (pq_size pq) (pq_nodes pq) idx)
       (pq_size pq) (pq_capacity pq).

Definition pq_push (pq : PriorityQueue F) (nodeId : Z) (fScore : F)
  : bool * PriorityQueue F :=
  if decide (pq_size pq >= pq_capacity pq) then (false, pq)
  else
    let pq := mkPQ (aset (pq_nodes pq) (pq_size pq) (mkPQNode nodeId fScore))
                   (pq_size pq) (pq_capacity pq) in
    let pq := pq_heapify_up pq (pq_size pq) in
    (true, mkPQ (pq_nodes pq) (pq_size pq + 1) (pq_capacity pq)).

(** [pq_pop]: [None] is the result [false]; otherwise the values stored
    through [nodeId] and [fScore], and the queue afterwards. *)
Definition pq_pop (pq : PriorityQueue F) : option (Z * F * PriorityQueue F) :=
  if decide (pq_size pq = 0) then None
  else
    let nodeId := pq_nodeId (pq_at (pq_nodes pq) 0) in
    let fScore := pq_fScore (pq_at (pq_nodes pq) 0) in
    let pq := mkPQ (pq_nodes pq) (pq_size pq - 1) (pq_capacity pq) in
    let pq :=
      if decide (pq_size pq > 0) then
        pq_heapify_down
          (mkPQ (aset (pq_nodes pq) 0 (pq_at (pq_nodes pq) (pq_size pq)))
                (pq_size pq) (pq_capacity pq))
          0
      else pq in
    Some (nodeId, fScore, pq).

Definition pq_empty (pq : PriorityQueue F) : bool := bool_decide (pq_size pq = 0).

(** The linear scan of [pq_decrease_priority]: the first slot below [size]
    that holds [nodeId]. *)
Definition pq_find (pq : PriorityQueue F) (nodeId : Z) : option Z :=
  find (fun i => bool_decide (pq_nodeId (pq_at (pq_nodes pq) i) = nodeId))
       (seqZ 0 (pq_size pq)).

Definition pq_decrease_priority (pq : PriorityQueue F) (nodeId : Z) (newFScore : F)
  : PriorityQueue F :=
  match pq_find pq nodeId with
  | Some i =>
      if f_lt newFScore (pq_fScore (pq_at (pq_nodes pq) i)) then
        let pq := mkPQ (aset (pq_nodes pq) i
                             (mkPQNode (pq_nodeId (pq_at (pq_nodes pq) i)) newFScore))
                       (pq_size pq) (pq_capacity pq) in
        pq_heapify_up pq i
      else pq
  | None => snd (pq_push pq nodeId newFScore)
  end.

End Queue.

(* ===================================================================== *)
(** ** astar.h, astar.c: the search *)

Inductive HeuristicType :=
| HEURISTIC_EUCLIDEAN
| HEURISTIC_MANHATTAN
| HEURISTIC_CHEBYSHEV
| HEURISTIC_ZERO.

(** [searchTimeMs], a wall-clock reading, is left out. *)
Record AStarStats := mkStats {
  nodesExplored : Z;
  nodesInOpenSet : Z;
  maxOpenSetSize : Z;
}.

Record AStarConfig (F : Type) := mkConfig {
  heuristic : HeuristicType;
  heuristicWeight : F;
  allowDiagonal : bool;
}.
Arguments mkConfig {F}.
Arguments heuristic {F}.
Arguments heuristicWeight {F}.
Arguments allowDiagonal {F}.

(** A record of the calls [astar_find_path] makes to its queue; it is kept
    beside the working arrays and never read by the search. *)
Inductive QueueCall :=
| QPush (nodeId : Z) (accepted : bool) (size_after : Z)
    (* pq_push, its result, the queue size on return *)
| QDecrease (nodeId : Z) (present : bool)
    (* pq_decrease_priority, and whether its scan found the node *)
| QPop (nodeId : Z).

(** The working storage of one call of [astar_find_path]. *)
Record Search (F : Type) := mkSearch {
  gScore : list F;
  fScore : list F;
  cameFrom : list Z;
  inClosedSet : list bool;
  inOpenSet : list bool;
  openSet : PriorityQueue F;
  localStats : AStarStats;
  queue_calls : list QueueCall;
}.
Arguments mkSearch {F}.
Arguments gScore {F}.
Arguments fScore {F}.
Arguments cameFrom {F}.
Arguments inClosedSet {F}.
Arguments inOpenSet {F}.
Arguments openSet {F}.
Arguments localStats {F}.
Arguments queue_calls {F}.

(** What a call returns: the [PathResult], the statistics stored through
    [stats] ([None] when the call returns before storing them) and the
    record of queue calls. *)
Record SearchRun (F : Type) := mkRun {
  run_result : PathResult F;
  run_stats : option AStarStats;
  run_calls : list QueueCall;
}.
Arguments mkRun {F}.
Arguments run_result {F}.
Arguments run_stats {F}.
Arguments run_calls {F}.

Section AStar.
Context {F : Type} `{FloatOps F}.

Definition astar_heuristic (a b : Node F) (type : HeuristicType) : F :=
  let dx := fabsf (f_sub (node_x b) (node_x a)) in
  let dy := fabsf (f_sub (node_y b) (node_y a)) in
  match type with
  | HEURISTIC_EUCLIDEAN => sqrtf (f_add (f_mul dx dx) (f_mul dy dy))
  | HEURISTIC_MANHATTAN => f_add dx dy
  | HEURISTIC_CHEBYSHEV => fmaxf dx dy
  | HEURISTIC_ZERO => f_zero
  end.

Definition astar_default_config : AStarConfig F :=
  mkConfig HEURISTIC_EUCLIDEAN f_one true.

(** First loop of [reconstruct_path]: count the links from the goal back
    to the start; at most [nodeCount] rounds. *)
Fixpoint count_path (fuel : nat) (cameFrom : list Z) (startId nodeCount : Z)
         (length current : Z) : Z * Z :=
  match fuel with
  | O => (length, current)
  | S fuel' =>
      if decide (current <> startId /\ current <> -1 /\ length < nodeCount)
      then count_path fuel' cameFrom startId nodeCount
                      (length + 1) (aget 0 cameFrom current)
      else (length, current)
  end.

(** Second loop of [reconstruct_path]: [nodes[length-1]], ..., [nodes[0]]
    are filled from the goal backwards. *)
Fixpoint fill_path (n : nat) (cameFrom : list Z) (current : Z) (out : list Z)
  : list Z :=
  match n with
  | O => out
  | S n' => fill_path n' cameFrom (aget 0 cameFrom current) (current :: out)
  end.

Definition reconstruct_path (cameFrom : list Z) (gScore : list F)
           (startId goalId nodeCount : Z) : PathResult F :=
  let result := path_result_create in
  let '(length, current) :=
    count_path (Z.to_nat nodeCount) cameFrom startId nodeCount 0 goalId in
  let length := if decide (current = startId) then length + 1 else length in
  if decide (current <> startId) then result
  else
    mkPathResult (fill_path (Z.to_nat length) cameFrom goalId [])
                 length (aget f_zero gScore goalId) true.

(** Body of the neighbour loop, for the edge in slot [i] of [currentId]. *)
Definition relax (g : Graph F) (goalId : Z) (cfg : AStarConfig F)
           (currentId : Z) (st : Search F) (i : Z) : Search F :=
  let edge := edge_at g currentId i in
  if negb (edge_active edge) then st
  else
    let neighborId := edge_to edge in
    if negb (node_active (node_at g neighborId)) then st
    else if aget false (inClosedSet st) neighborId then st
    else
      let tentativeG := f_add (aget f_zero (gScore st) currentId) (edge_weight edge) in
      if f_lt tentativeG (aget f_zero (gScore st) neighborId) then
        let cameFrom' := aset (cameFrom st) neighborId currentId in
        let gScore' := aset (gScore st) neighborId tentativeG in
        let h := f_mul (astar_heuristic (node_at g neighborId) (node_at g goalId)
                                        (heuristic cfg))
                       (heuristicWeight cfg) in
        let fScore' := aset (fScore st) neighborId (f_add tentativeG h) in
        let f := aget f_zero fScore' neighborId in
        if negb (aget false (inOpenSet st) neighborId) then
          let '(accepted, q) := pq_push (openSet st) neighborId f in
          let stats := localStats st in
          let stats :=
            if decide (pq_size q > maxOpenSetSize stats)
            then mkStats (nodesExplored stats) (nodesInOpenSet stats) (pq_size q)
            else stats in
          mkSearch gScore' fScore' cameFrom' (inClosedSet st)
                   (aset (inOpenSet st) neighborId true) q stats
                   (queue_calls st ++ [QPush neighborId accepted (pq_size q)])
        else
          mkSearch gScore' fScore' cameFrom' (inClosedSet st) (inOpenSet st)
                   (pq_decrease_priority (openSet st) neighborId f) (localStats st)
                   (queue_calls st
                      ++ [QDecrease neighborId
                                    (bool_decide (is_Some (pq_find (openSet st) neighborId)))])
      else st.

(** The main loop.  [None]: the fuel ran out before the loop ended. *)
Fixpoint astar_loop (fuel : nat) (g : Graph F) (startId goalId : Z)
         (cfg : AStarConfig F) (st : Search F)
  : option (PathResult F * Search F) :=
  match fuel with
  | O => None
  | S fuel' =>
      match pq_pop (openSet st) with
      | None => Some (path_result_create, st)
      | Some (currentId, currentFScore, q) =>
          let stats := localStats st in
          let stats := mkStats (nodesExplored stats + 1) (nodesInOpenSet stats)
                               (maxOpenSetSize stats) in
          let st := mkSearch (gScore st) (fScore st) (cameFrom st) (inClosedSet st)
                             (aset (inOpenSet st) currentId false) q stats
                             (queue_calls st ++ [QPop currentId]) in
          if decide (currentId = goalId) then
            let result := reconstruct_path (cameFrom st) (gScore st)
                                           startId goalId (nodeCount g) in
            let stats := mkStats (nodesExplored stats) (pq_size q)
                                 (maxOpenSetSize stats) in
            Some (result,
                  mkSearch (gScore st) (fScore st) (cameFrom st) (inClosedSet st)
                           (inOpenSet st) q stats (queue_calls st))
          else if aget false (inClosedSet st) currentId then
            astar_loop fuel' g startId goalId cfg st
          else
            let st := mkSearch (gScore st) (fScore st) (cameFrom st)
                               (aset (inClosedSet st) currentId true)
                               (inOpenSet st) (openSet st) (localStats st)
                               (queue_calls st) in
            let st := foldl (relax g goalId cfg currentId) st
                            (seqZ 0 (edgeCount_at g currentId)) in
            astar_loop fuel' g startId goalId cfg st
      end
  end.

(** The state on entry to the main loop. *)
Definition astar_start (g : Graph F) (startId goalId : Z) (cfg : AStarConfig F)
  : Search F :=
  let nodeCount := nodeCount g in
  let n := Z.to_nat nodeCount in
  let gScore := replicate n FLT_MAX in
  let fScore := replicate n FLT_MAX in
  let cameFrom := replicate n (-1) in
  let inClosedSet := replicate n false in
  let inOpenSet := replicate n false in
  let gScore := aset gScore startId f_zero in
  let h := f_mul (astar_heuristic (node_at g startId) (node_at g goalId) (heuristic cfg))
                 (heuristicWeight cfg) in
  let fScore := aset fScore startId h in
  let openSet := pq_create nodeCount in
  let '(accepted, openSet') := pq_push openSet startId (aget f_zero fScore startId) in
  let inOpenSet := aset inOpenSet startId true in
  mkSearch gScore fScore cameFrom inClosedSet inOpenSet openSet'
           (mkStats 0 0 1) [QPush startId accepted (pq_size openSet')].

(** [astar_find_path]; [config = None] is the NULL pointer.  The result is
    [None] only when [fuel] rounds of the main loop were not enough. *)
Definition astar_find_path (fuel : nat) (g : Graph F) (startId goalId : Z)
           (config : option (AStarConfig F)) : option (SearchRun F) :=
  let result := path_result_create in
  if decide (startId < 0 \/ goalId < 0
             \/ startId >= nodeCount g \/ goalId >= nodeCount g)
  then Some (mkRun result None [])
  else
    let cfg := default astar_default_config config in
    match astar_loop fuel g startId goalId cfg (astar_start g startId goalId cfg) with
    | None => None
    | Some (result, st) => Some (mkRun result (Some (localStats st)) (queue_calls st))
    end.

End AStar.

(* ===================================================================== *)
(** ** graph.c: lookups by edge, by position and by name *)

(** The literal [-1.0f], which [FloatOps] has no name for. *)
Class FloatLiterals (F : Type) := {
  f_minus_one : F;
}.

#[export] Instance binary32_literals : FloatLiterals Binary32.t := {
  f_minus_one := Binary32.of_bits 0xbf800000;
}.

(** Case folding of the letters [A] to [Z], as the substring loop of
    [graph_find_node_by_name] writes it out and as [strcasecmp] does it in
    the C locale (the program never calls [setlocale]). *)
Definition fold_case (c : byte) : byte :=
  if decide (65 <= Z_of_byte c <= 90) then byte_of_Z (Z_of_byte c + 32) else c.

Definition strlen (s : list byte) : Z := Z.of_nat (length (c_str s)).

(** [strcasecmp(a, b) == 0]. *)
Definition strcasecmp_is_zero (a b : list byte) : bool :=
  bool_decide (fold_case <$> c_str a = fold_case <$> c_str b).

(** [size_t] has 64 bits (the [#else] branch is the one for POSIX hosts). *)
Definition SIZE_MAX : Z := 2 ^ 64 - 1.

(** The [k] loop of the substring search: [name] holds the characters
    [name[k]], [name[k+1]], ... still to compare and [pos] is [j + k].
    [None]: the read of [haystack[j + k]] is outside the array. *)
Fixpoint match_at (haystack name : list byte) (pos : Z) : option bool :=
  match name with
  | [] => Some true
  | c2 :: name' =>
      match haystack !! Z.to_nat pos with
      | None => None
      | Some c1 =>
          if decide (fold_case c1 = fold_case c2)
          then match_at haystack name' (pos + 1)
          else Some false
      end
  end.

Inductive Scan :=
| ScanMatch      (* a window matched: [return i] *)
| ScanEnd        (* [j] went past [hayLen - nameLen] *)
| ScanOutside.   (* a read outside [haystack] *)

(** The [j] loop, [last] being the value of [hayLen - nameLen].  Round [j]
    reads [haystack[j]] unless [name] is empty, so the loop is over, one way
    or another, after at most [length haystack + 1] rounds. *)
Fixpoint scan_loop (fuel : nat) (haystack name : list byte) (last j : Z) : Scan :=
  match fuel with
  | O => ScanOutside
  | S fuel' =>
      if decide (j <= last) then
        match match_at haystack name j with
        | None => ScanOutside
        | Some true => ScanMatch
        | Some false => scan_loop fuel' haystack name last (j + 1)
        end
      else ScanEnd
  end.

Section GraphQueries.
Context {F : Type} `{FloatOps F} `{FloatLiterals F}.

(** [graph_free] resets the graph to the initial state. *)
Definition graph_free (g : Graph F) : Graph F := graph_init.

Definition graph_get_edge_weight (g : Graph F) (from to : Z) : F :=
  if decide (from < 0 \/ from >= nodeCount g) then f_minus_one
  else
    match
      find (fun i => bool_decide (edge_to (edge_at g from i) = to)
                     && edge_active (edge_at g from i))
           (seqZ 0 (edgeCount_at g from))
    with
    | Some i => edge_weight (edge_at g from i)
    | None => f_minus_one
    end.

(** [graph_calculate_distance]; [None] is a NULL node pointer. *)
Definition graph_calculate_distance (a b : option (Node F)) : F :=
  match a, b with
  | Some a, Some b =>
      let dx := f_sub (node_x b) (node_x a) in
      let dy := f_sub (node_y b) (node_y a) in
      sqrtf (f_add (f_mul dx dx) (f_mul dy dy))
  | _, _ => f_zero
  end.

(** Body of the loop of [graph_find_node_at_position]; the state is
    [(closest, closestDist)]. *)
Definition nearer (g : Graph F) (x y : F) (st : Z * F) (i : Z) : Z * F :=
  if negb (node_active (node_at g i)) then st
  else
    let dx := f_sub (node_x (node_at g i)) x in
    let dy := f_sub (node_y (node_at g i)) y in
    let distSq := f_add (f_mul dx dx) (f_mul dy dy) in
    if f_lt distSq (snd st) then (i, distSq) else st.

Definition graph_find_node_at_position (g : Graph F) (x y radius : F) : Z :=
  let radiusSq := f_mul radius radius in
  fst (foldl (nearer g x y) (-1, radiusSq) (seqZ 0 (nodeCount g))).

(** Second loop of [graph_find_node_by_name]: the first active node whose
    name has [name] as a substring, letters folded.  [None]: the search read
    outside a name array, which is undefined behaviour. *)
Fixpoint find_partial (g : Graph F) (name : list byte) (idxs : list Z) : option Z :=
  match idxs with
  | [] => Some (-1)
  | i :: idxs' =>
      if node_active (node_at g i) then
        let haystack := node_name (node_at g i) in
        let nameLen := strlen name in
        let hayLen := strlen haystack in
        match scan_loop (S (length haystack)) haystack (c_str name)
                        ((hayLen - nameLen) mod (SIZE_MAX + 1)) 0 with
        | ScanMatch => Some i
        | ScanEnd => find_partial g name idxs'
        | ScanOutside => None
        end
      else find_partial g name idxs'
  end.

(** [graph_find_node_by_name], for a non-NULL [name]: an exact match first
    ([strcasecmp]), then a substring match. *)
Definition graph_find_node_by_name (g : Graph F) (name : list byte) : option Z :=
  match
    find (fun i => node_active (node_at g i)
                   && strcasecmp_is_zero (node_name (node_at g i)) name)
         (seqZ 0 (nodeCount g))
  with
  | Some i => Some i
  | None => find_partial g name (seqZ 0 (nodeCount g))
  end.

(** [path_result_free]: the node array is released and the length reset;
    [found] and [totalCost] stay. *)
Definition path_result_free (r : PathResult F) : PathResult F :=
  match path_nodes r with
  | [] => r
  | _ :: _ => mkPathResult [] 0 (totalCost r) (found r)
  end.

End GraphQueries.

(* ===================================================================== *)
(** ** astar.c: the exploration order *)

(** The working storage of one call of [astar_get_exploration_order];
    [ex_explored] is [explored[0 .. exploredCount-1]]. *)
Record Exploration (F : Type) := mkExploration {
  ex_gScore : list F;
  ex_inClosedSet : list bool;
  ex_inOpenSet : list bool;
  ex_openSet : PriorityQueue F;
  ex_explored : list Z;
}.
Arguments mkExploration {F}.
Arguments ex_gScore {F}.
Arguments ex_inClosedSet {F}.
Arguments ex_inOpenSet {F}.
Arguments ex_openSet {F}.
Arguments ex_explored {F}.

Section ExplorationOrder.
Context {F : Type} `{FloatOps F}.

(** Body of the neighbour loop, for the edge in slot [i] of [currentId].
    A better score of a node already in the open set is stored in [gScore],
    and its queue entry is left as it is. *)
Definition explore_relax (g : Graph F) (goalId currentId : Z)
           (st : Exploration F) (i : Z) : Exploration F :=
  let edge := edge_at g currentId i in
  if negb (edge_active edge) then st
  else
    let neighborId := edge_to edge in
    if negb (node_active (node_at g neighborId)) then st
    else if aget false (ex_inClosedSet st) neighborId then st
    else
      let tentativeG :=
        f_add (aget f_zero (ex_gScore st) currentId) (edge_weight edge) in
      if f_lt tentativeG (aget f_zero (ex_gScore st) neighborId) then
        let gScore' := aset (ex_gScore st) neighborId tentativeG in
        let h := astar_heuristic (node_at g neighborId) (node_at g goalId)
                                 HEURISTIC_EUCLIDEAN in
        let fScore := f_add tentativeG h in
        if negb (aget false (ex_inOpenSet st) neighborId) then
          mkExploration gScore' (ex_inClosedSet st)
                        (aset (ex_inOpenSet st) neighborId true)
                        (snd (pq_push (ex_openSet st) neighborId fScore))
                        (ex_explored st)
        else
          mkExploration gScore' (ex_inClosedSet st) (ex_inOpenSet st)
                        (ex_openSet st) (ex_explored st)
      else st.

(** The main loop; it runs while the queue is not empty and
    [exploredCount < maxNodes].  [None]: the fuel ran out first. *)
Fixpoint explore_loop (fuel : nat) (g : Graph F) (goalId maxNodes : Z)
         (st : Exploration F) : option (Exploration F) :=
  match fuel with
  | O => None
  | S fuel' =>
      if decide (Z.of_nat (length (ex_explored st)) < maxNodes) then
        match pq_pop (ex_openSet st) with
        | None => Some st
        | Some (currentId, currentFScore, q) =>
            let st := mkExploration (ex_gScore st) (ex_inClosedSet st)
                                    (aset (ex_inOpenSet st) currentId false) q
                                    (ex_explored st) in
            if aget false (ex_inClosedSet st) currentId then
              explore_loop fuel' g goalId maxNodes st
            else
              let st := mkExploration (ex_gScore st)
                                      (aset (ex_inClosedSet st) currentId true)
                                      (ex_inOpenSet st) (ex_openSet st)
                                      (ex_explored st ++ [currentId]) in
              if decide (currentId = goalId) then Some st
              else
                explore_loop fuel' g goalId maxNodes
                             (foldl (explore_relax g goalId currentId) st
                                    (seqZ 0 (edgeCount_at g currentId)))
        end
      else Some st
  end.

(** The state on entry to the loop. *)
Definition explore_start (g : Graph F) (startId goalId : Z) : Exploration F :=
  let nodeCount := nodeCount g in
  let n := Z.to_nat nodeCount in
  let gScore := replicate n FLT_MAX in
  let inClosedSet := replicate n false in
  let inOpenSet := replicate n false in
  let gScore := aset gScore startId f_zero in
  let openSet := pq_create nodeCount in
  let h := astar_heuristic (node_at g startId) (node_at g goalId)
                           HEURISTIC_EUCLIDEAN in
  let openSet := snd (pq_push openSet startId h) in
  let inOpenSet := aset inOpenSet startId true in
  mkExploration gScore inClosedSet inOpenSet openSet [].

(** [astar_get_exploration_order], for a non-NULL [explored]: the count
    returned and the ids written.  The ids are not checked against
    [nodeCount]; [None] only when [fuel] rounds were not enough. *)
Definition astar_get_exploration_order (fuel : nat) (g : Graph F)
           (startId goalId maxNodes : Z) : option (Z * list Z) :=
  if decide (startId < 0 \/ goalId < 0) then Some (0, [])
  else
    match explore_loop fuel g goalId maxNodes (explore_start g startId goalId) with
    | None => None
    | Some st => Some (Z.of_nat (length (ex_explored st)), ex_explored st)
    end.

End ExplorationOrder.

(* ===================================================================== *)
(** ** main.c: the route search of the application

    Of the global [AppState], the fields that [app_perform_search] and
    [app_clear_path] read or write; [searchFromInput] and [searchToInput]
    are the [text] arrays of the two input fields, [exploredNodes] is the
    buffer of [MAX_NODES] ids allocated by [app_init].  [ui_notify] belongs
    to the user interface: a call of it is recorded by its arguments. *)

Inductive NotifyType :=
| NOTIFY_INFO
| NOTIFY_SUCCESS
| NOTIFY_WARNING
| NOTIFY_ERROR.

(** The messages [app_perform_search] hands to [ui_notify]:
    - [EnterBothLocations]: Please enter both From and To locations
    - [OriginNotFound]: Origin location not found
    - [DestinationNotFound]: Destination location not found
    - [RouteFound]: Route found! Distance: %.1f, Nodes explored: %d,
      which [snprintf] formats from [currentPath.totalCost] and
      [pathStats.nodesExplored]
    - [NoRouteFound]: No route found between these locations *)
Inductive Message (F : Type) :=
| EnterBothLocations
| OriginNotFound
| DestinationNotFound
| RouteFound (totalCost : F) (nodesExplored : Z)
| NoRouteFound.
Arguments EnterBothLocations {F}.
Arguments OriginNotFound {F}.
Arguments DestinationNotFound {F}.
Arguments RouteFound {F}.
Arguments NoRouteFound {F}.

Record AppState (F : Type) := mkAppState {
  graph : Graph F;
  searchStartNode : Z;
  searchEndNode : Z;
  currentPath : PathResult F;
  pathStats : AStarStats;
  pathAnimating : bool;
  pathAnimProgress : F;
  exploredNodes : list Z;
  exploredCount : Z;
  explorationAnimProgress : F;
  showExploration : bool;
  searchFromInput : list byte;
  searchToInput : list byte;
}.
Arguments mkAppState {F}.
Arguments graph {F}.
Arguments searchStartNode {F}.
Arguments searchEndNode {F}.
Arguments currentPath {F}.
Arguments pathStats {F}.
Arguments pathAnimating {F}.
Arguments pathAnimProgress {F}.
Arguments exploredNodes {F}.
Arguments exploredCount {F}.
Arguments explorationAnimProgress {F}.
Arguments showExploration {F}.
Arguments searchFromInput {F}.
Arguments searchToInput {F}.

(** Why a call does not come back with a notification: a lookup by name
    read outside a name array, or the fuel of a search loop ran out. *)
Inductive Stop :=
| ReadOutsideName
| OutOfFuel.

Section RouteSearch.
Context {F : Type} `{FloatOps F}.

Definition app_clear_path (app : AppState F) : AppState F :=
  let freed := path_result_free (currentPath app) in
  mkAppState (graph app) (-1) (-1) path_result_create (pathStats app)
             false f_zero (exploredNodes app) 0 f_zero false
             (searchFromInput app) (searchToInput app).

(** [app_perform_search]: the state afterwards and the one call of
    [ui_notify] it makes. *)
Definition app_perform_search (fuel : nat) (app : AppState F)
  : Stop + AppState F * (Message F * NotifyType) :=
  let fromName := searchFromInput app in
  let toName := searchToInput app in
  if decide (strlen fromName = 0 \/ strlen toName = 0)
  then inr (app, (EnterBothLocations, NOTIFY_WARNING))
  else
    match graph_find_node_by_name (graph app) fromName with
    | None => inl ReadOutsideName
    | Some fromId =>
        match graph_find_node_by_name (graph app) toName with
        | None => inl ReadOutsideName
        | Some toId =>
            if decide (fromId < 0) then inr (app, (OriginNotFound, NOTIFY_ERROR))
            else if decide (toId < 0)
            then inr (app, (DestinationNotFound, NOTIFY_ERROR))
            else
              let app := app_clear_path app in
              match astar_get_exploration_order fuel (graph app) fromId toId
                                                MAX_NODES with
              | None => inl OutOfFuel
              | Some (count, written) =>
                  let explored :=
                    written ++ drop (length written) (exploredNodes app) in
                  let config := astar_default_config in
                  match astar_find_path fuel (graph app) fromId toId (Some config) with
                  | None => inl OutOfFuel
                  | Some run =>
                      let path := run_result run in
                      let stats := default (pathStats app) (run_stats run) in
                      if found path then
                        inr (mkAppState (graph app) fromId toId path stats
                                        true f_zero explored count f_zero true
                                        (searchFromInput app) (searchToInput app),
                             (RouteFound (totalCost path) (nodesExplored stats),
                              NOTIFY_SUCCESS))
                      else
                        inr (mkAppState (graph app) (searchStartNode app)
                                        (searchEndNode app) path stats
                                        (pathAnimating app) (pathAnimProgress app)
                                        explored count f_zero true
                                        (searchFromInput app) (searchToInput app),
                             (NoRouteFound, NOTIFY_ERROR))
                  end
              end
        end
    end.

End RouteSearch.

(* ===================================================================== *)
(** * Properties *)

(** ** Arrays *)

Lemma aget_aset_eq {A} (d : A) (a : list A) (i : Z) (v : A) :
  0 <= i < Z.of_nat (length a) -> aget d (aset a i v) i = v.
Proof.
  intros Hi. unfold aget, aset. destruct (decide (0 <= i)); [|lia].
  rewrite list_lookup_insert_eq by lia. reflexivity.
Qed.

Lemma aget_aset_ne {A} (d : A) (a : list A) (i j : Z) (v : A) :
  i <> j -> aget d (aset a i v) j = aget d a j.
Proof.
  intros Hne. unfold aget, aset.
  destruct (decide (0 <= j)); [|reflexivity].
  destruct (decide (0 <= i)); [|reflexivity].
  rewrite list_lookup_insert_ne by lia. reflexivity.
Qed.

Lemma aget_aset {A} (d : A) (a : list A) (i j : Z) (v : A) :
  aget d (aset a i v) j
  = if decide (i = j /\ 0 <= i < Z.of_nat (length a)) then v else aget d a j.
Proof.
  destruct (decide (i = j /\ 0 <= i < Z.of_nat (length a))) as [[-> Hi]|Hn].
  - apply aget_aset_eq, Hi.
  - destruct (decide (i = j)) as [->|Hne]; [|apply aget_aset_ne, Hne].
    unfold aget, aset. destruct (decide (0 <= j)); [|reflexivity].
    rewrite list_insert_ge by lia. reflexivity.
Qed.

Lemma length_aset {A} (a : list A) (i : Z) (v : A) :
  length (aset a i v) = length a.
Proof. unfold aset. destruct (decide (0 <= i)); [apply length_insert|reflexivity]. Qed.

Lemma aset_aget_id {A} (d : A) (a : list A) (i : Z) :
  aset a i (aget d a i) = a.
Proof.
  unfold aset, aget. destruct (decide (0 <= i)); [|reflexivity].
  destruct (a !! Z.to_nat i) as [x|] eqn:E; simpl.
  - apply list_insert_id, E.
  - apply list_insert_ge. apply lookup_ge_None. exact E.
Qed.

Lemma aget_replicate {A} (d v : A) (n : nat) (i : Z) :
  0 <= i < Z.of_nat n -> aget d (replicate n v) i = v.
Proof.
  intros Hi. unfold aget. destruct (decide (0 <= i)); [|lia].
  rewrite lookup_replicate_2 by lia. reflexivity.
Qed.

Lemma aget_out {A} (d : A) (a : list A) (i : Z) :
  ~ (0 <= i < Z.of_nat (length a)) -> aget d a i = d.
Proof.
  intros Hi. unfold aget. destruct (decide (0 <= i)); [|reflexivity].
  rewrite (proj2 (lookup_ge_None a (Z.to_nat i))) by lia. reflexivity.
Qed.

(** An invariant of a [for] loop, indexed by the rounds already run. *)
Lemma foldl_invariant {A B} (f : A -> B -> A) (I : list B -> A -> Prop)
      (l : list B) (a : A) :
  I [] a ->
  (forall done x rest a', l = done ++ x :: rest -> I done a' -> I (done ++ [x]) (f a' x)) ->
  I l (foldl f a l).
Proof.
  intros H0 Hstep.
  assert (forall rest done a', l = done ++ rest -> I done a' ->
                               I (done ++ rest) (foldl f a' rest)) as Hgen.
  { induction rest as [|x rest IH]; intros done a' Hl Hd.
    - rewrite app_nil_r. exact Hd.
    - simpl. replace (done ++ x :: rest) with ((done ++ [x]) ++ rest)
        by (rewrite <- app_assoc; reflexivity).
      apply IH.
      + rewrite <- app_assoc. exact Hl.
      + eapply Hstep; eauto. }
  apply (Hgen l [] a); [reflexivity|exact H0].
Qed.

Lemma foldl_preserves {A B} (f : A -> B -> A) (P : A -> Prop) (l : list B) (a : A) :
  P a -> (forall a' x, x ∈ l -> P a' -> P (f a' x)) -> P (foldl f a l).
Proof.
  intros H0 Hstep.
  apply (foldl_invariant f (fun _ => P)); [exact H0|].
  intros done x rest a' Hl. apply Hstep. rewrite Hl.
  apply elem_of_app. right. apply elem_of_cons. left. reflexivity.
Qed.

Lemma Forall_elem {A} (P : A -> Prop) (l : list A) (x : A) :
  Forall P l -> x ∈ l -> P x.
Proof.
  induction 1 as [|y l Hy _ IH]; intros Hx.
  - inversion Hx.
  - apply elem_of_cons in Hx as [->|Hx]; [exact Hy|apply IH, Hx].
Qed.

Lemma Forall_of_elem {A} (P : A -> Prop) (l : list A) :
  (forall x, x ∈ l -> P x) -> Forall P l.
Proof.
  induction l as [|y l IH]; intros Hl; constructor.
  - apply Hl. apply elem_of_cons. auto.
  - apply IH. intros x Hx. apply Hl. apply elem_of_cons. auto.
Qed.

Lemma elem_of_seqZ_0 (n i : Z) : i ∈ seqZ 0 n <-> 0 <= i < n.
Proof. rewrite elem_of_seqZ. lia. Qed.

(* ===================================================================== *)
(** ** Graph store *)

Section GraphStoreFacts.
Context {F : Type} `{FloatOps F}.

Definition deactivated (e : Edge F) : Edge F :=
  mkEdge (edge_from e) (edge_to e) (edge_weight e) false.

Lemma deactivated_zero_edge : deactivated zero_edge = zero_edge.
Proof. reflexivity. Qed.

Lemma deactivated_idem e : deactivated (deactivated e) = deactivated e.
Proof. reflexivity. Qed.

Lemma edge_at_out_row (g : Graph F) i j :
  ~ (0 <= i < Z.of_nat (length (edges g))) -> edge_at g i j = zero_edge.
Proof.
  intros Hi. unfold edge_at. rewrite (aget_out [] (edges g) i Hi).
  apply aget_out. simpl. lia.
Qed.

Lemma edge_at_set_edge_ne (g : Graph F) i j e i' j' :
  ~ (i' = i /\ j' = j) -> edge_at (set_edge g i j e) i' j' = edge_at g i' j'.
Proof.
  intros Hne. unfold edge_at, set_edge. simpl. rewrite aget_aset.
  destruct (decide (i = i' /\ 0 <= i < Z.of_nat (length (edges g)))) as [[-> _]|_];
    [|reflexivity].
  apply aget_aset_ne. intros ->. apply Hne. split; reflexivity.
Qed.

Lemma edge_at_deactivate (g : Graph F) i j :
  edge_at (set_edge g i j (deactivated (edge_at g i j))) i j
  = deactivated (edge_at g i j).
Proof.
  destruct (decide (0 <= i < Z.of_nat (length (edges g)))) as [Hi|Hi].
  - unfold set_edge, edge_at at 1. simpl. rewrite aget_aset_eq by exact Hi.
    rewrite aget_aset.
    destruct (decide (j = j /\ 0 <= j < Z.of_nat (length (aget [] (edges g) i))))
      as [_|Hj]; [reflexivity|].
    fold (edge_at g i j).
    assert (edge_at g i j = zero_edge) as ->; [|reflexivity].
    unfold edge_at. apply aget_out. intros Hj'. apply Hj. split; [reflexivity|exact Hj'].
  - rewrite !edge_at_out_row; [reflexivity|exact Hi|simpl].
    unfold aset. destruct (decide (0 <= i)); [|exact Hi].
    rewrite length_insert. exact Hi.
Qed.

(** [g'] stores the edges of [g], some of them deactivated; nothing else
    differs. *)
Definition fades (g g' : Graph F) : Prop :=
  nodes g' = nodes g /\ nodeCount g' = nodeCount g /\ edgeCounts g' = edgeCounts g
  /\ forall i j, edge_at g' i j = edge_at g i j
                 \/ edge_at g' i j = deactivated (edge_at g i j).

Lemma fades_refl g : fades g g.
Proof. repeat split. intros. left. reflexivity. Qed.

Lemma fades_trans g1 g2 g3 : fades g1 g2 -> fades g2 g3 -> fades g1 g3.
Proof.
  intros (Hn & Hc & He & Hx) (Hn' & Hc' & He' & Hx').
  repeat split; try congruence.
  intros i j. destruct (Hx' i j) as [->| ->], (Hx i j) as [->| ->]; auto.
Qed.

Lemma fades_deactivate g i j :
  fades g (set_edge g i j (deactivated (edge_at g i j))).
Proof.
  repeat split. intros i' j'.
  destruct (decide (i' = i /\ j' = j)) as [[-> ->]|Hne].
  - right. apply edge_at_deactivate.
  - left. apply edge_at_set_edge_ne, Hne.
Qed.

Lemma fades_edgeCount_at g g' i : fades g g' -> edgeCount_at g' i = edgeCount_at g i.
Proof. intros (_ & _ & He & _). unfold edgeCount_at. rewrite He. reflexivity. Qed.

Lemma fades_inactive g g' i j :
  fades g g' -> edge_active (edge_at g i j) = false ->
  edge_active (edge_at g' i j) = false.
Proof. intros (_ & _ & _ & Hx) Ha. destruct (Hx i j) as [->| ->]; [exact Ha|reflexivity]. Qed.

Lemma fades_edge_to g g' i j :
  fades g g' -> edge_to (edge_at g' i j) = edge_to (edge_at g i j).
Proof. intros (_ & _ & _ & Hx). destruct (Hx i j) as [->| ->]; reflexivity. Qed.

(** The inner loop of [graph_remove_node]. *)
Lemma deactivate_edges_to_spec (x i : Z) (g : Graph F) :
  fades g (deactivate_edges_to x i g)
  /\ forall j, 0 <= j < edgeCount_at g i ->
               edge_to (edge_at g i j) = x ->
               edge_active (edge_at (deactivate_edges_to x i g) i j) = false.
Proof.
  unfold deactivate_edges_to.
  match goal with |- context [foldl ?f g ?l] =>
    pose proof (foldl_invariant f
      (fun done g' => fades g g'
                      /\ forall j, j ∈ done -> edge_to (edge_at g i j) = x ->
                                   edge_active (edge_at g' i j) = false) l g) as Hinv
  end.
  destruct Hinv as [Hf Hd].
  - split; [apply fades_refl|]. intros j Hj. inversion Hj.
  - intros done j rest g' _ [Hf Hd]. simpl.
    destruct (decide (edge_to (edge_at g' i j) = x)) as [Ht|Ht].
    + assert (fades g (set_edge g' i j (deactivated (edge_at g' i j)))) as Hf'
          by (eapply fades_trans; [exact Hf|apply fades_deactivate]).
      split; [exact Hf'|].
      intros j' Hj' Hto. apply elem_of_app in Hj' as [Hj'|Hj'].
      * eapply fades_inactive; [apply fades_deactivate|]. apply Hd; assumption.
      * apply list_elem_of_singleton in Hj' as ->.
        rewrite edge_at_deactivate. reflexivity.
    + split; [exact Hf|].
      intros j' Hj' Hto. apply elem_of_app in Hj' as [Hj'|Hj'].
      * apply Hd; assumption.
      * apply list_elem_of_singleton in Hj' as ->.
        rewrite (fades_edge_to g g') in Ht by exact Hf. contradiction.
  - split; [exact Hf|]. intros j Hj. apply Hd. apply elem_of_seqZ_0. exact Hj.
Qed.

(** The outer loop of [graph_remove_node]. *)
Lemma remove_node_loop_spec (x : Z) (g : Graph F) (n : Z) :
  let g' := foldl (fun g i => if decide (i = x) then g
                              else deactivate_edges_to x i g) g (seqZ 0 n) in
  fades g g'
  /\ forall i j, 0 <= i < n -> i <> x -> 0 <= j < edgeCount_at g i ->
                 edge_to (edge_at g i j) = x ->
                 edge_active (edge_at g' i j) = false.
Proof.
  match goal with |- context [foldl ?f g ?l] =>
    pose proof (foldl_invariant f
      (fun done g' => fades g g'
                      /\ forall i j, i ∈ done -> i <> x -> 0 <= j < edgeCount_at g i ->
                                     edge_to (edge_at g i j) = x ->
                                     edge_active (edge_at g' i j) = false) l g) as Hinv
  end.
  destruct Hinv as [Hf Hd].
  - split; [apply fades_refl|]. intros i j Hi. inversion Hi.
  - intros done i rest g' _ [Hf Hd]. simpl.
    destruct (decide (i = x)) as [->|Hix].
    + split; [exact Hf|]. intros i j Hi Hne. apply elem_of_app in Hi as [Hi|Hi].
      * apply Hd; assumption.
      * apply list_elem_of_singleton in Hi. contradiction.
    + destruct (deactivate_edges_to_spec x i g') as [Hf' Hd'].
      split; [eapply fades_trans; eassumption|].
      intros i' j Hi' Hne Hj Hto. apply elem_of_app in Hi' as [Hi'|Hi'].
      * eapply fades_inactive; [exact Hf'|]. apply Hd; assumption.
      * apply list_elem_of_singleton in Hi' as ->. apply Hd'.
        -- rewrite (fades_edgeCount_at g g') by exact Hf. exact Hj.
        -- rewrite (fades_edge_to g g') by exact Hf. exact Hto.
  - simpl. split; [exact Hf|]. intros i j Hi. apply Hd. apply elem_of_seqZ_0. exact Hi.
Qed.

(** The inner loop leaves every other stored edge as it was. *)
Lemma deactivate_edges_to_frame (x i : Z) (g : Graph F) (a j : Z) :
  ~ (a = i /\ 0 <= j < edgeCount_at g i /\ edge_to (edge_at g a j) = x) ->
  edge_at (deactivate_edges_to x i g) a j = edge_at g a j.
Proof.
  intros Hne. unfold deactivate_edges_to.
  match goal with |- context [foldl ?f g ?l] =>
    pose proof (foldl_invariant f
      (fun _ g' => fades g g' /\ edge_at g' a j = edge_at g a j) l g) as Hinv
  end.
  destruct Hinv as [_ Hsame]; [| |exact Hsame].
  - split; [apply fades_refl|reflexivity].
  - intros done k rest g' Hl [Hf Hsame]. simpl.
    destruct (decide (edge_to (edge_at g' i k) = x)) as [Hto|_]; [|split; assumption].
    split; [eapply fades_trans; [exact Hf|apply fades_deactivate]|].
    rewrite edge_at_set_edge_ne; [exact Hsame|].
    intros [-> ->]. apply Hne. split; [reflexivity|]. split.
    + apply elem_of_seqZ_0. rewrite Hl. apply elem_of_app. right.
      apply elem_of_cons. auto.
    + rewrite <- (fades_edge_to g g') by exact Hf. exact Hto.
Qed.

(** The outer loop changes no edge but the ones it is after: those stored in
    a used slot of another row that point to [x]. *)
Lemma remove_node_loop_frame (x : Z) (g : Graph F) (n : Z) (a j : Z) :
  ~ (a <> x /\ 0 <= a < n /\ 0 <= j < edgeCount_at g a
     /\ edge_to (edge_at g a j) = x) ->
  edge_at (foldl (fun g i => if decide (i = x) then g
                             else deactivate_edges_to x i g) g (seqZ 0 n)) a j
  = edge_at g a j.
Proof.
  intros Hne.
  match goal with |- context [foldl ?f g ?l] =>
    pose proof (foldl_invariant f
      (fun _ g' => fades g g' /\ edge_at g' a j = edge_at g a j) l g) as Hinv
  end.
  destruct Hinv as [_ Hsame]; [| |exact Hsame].
  - split; [apply fades_refl|reflexivity].
  - intros done i rest g' Hl [Hf Hsame]. simpl.
    destruct (decide (i = x)) as [_|Hix]; [split; assumption|].
    destruct (deactivate_edges_to_spec x i g') as [Hf' _].
    split; [eapply fades_trans; eassumption|].
    rewrite deactivate_edges_to_frame; [exact Hsame|].
    intros (-> & Hj & Hto). apply Hne.
    split; [exact Hix|]. split; [|split].
    + apply elem_of_seqZ_0. rewrite Hl. apply elem_of_app. right.
      apply elem_of_cons. auto.
    + rewrite <- (fades_edgeCount_at g g') by exact Hf. exact Hj.
    + rewrite <- (fades_edge_to g g') by exact Hf. exact Hto.
Qed.

Lemma deactivated_inactive (e : Edge F) : edge_active e = false -> deactivated e = e.
Proof. destruct e. simpl. intros ->. reflexivity. Qed.

(** The edges after [graph_remove_node]: the edges stored in a used slot of
    another in-range row that point to [id] are deactivated; every other
    slot is as it was. *)
Lemma graph_remove_node_edge_at (g : Graph F) (id i j : Z) :
  0 <= id < nodeCount g ->
  edge_at (snd (graph_remove_node g id)) i j
  = if decide (i <> id /\ 0 <= i < nodeCount g /\ 0 <= j < edgeCount_at g i
               /\ edge_to (edge_at g i j) = id)
    then deactivated (edge_at g i j)
    else edge_at g i j.
Proof.
  intros Hid. unfold graph_remove_node.
  destruct (decide (id < 0 \/ id >= nodeCount g)) as [Hbad|_]; [lia|].
  cbn [snd].
  match goal with |- context [foldl ?f ?g0 (seqZ 0 ?n)] =>
    pose proof (remove_node_loop_spec id g0 n) as [Hf Hd];
    pose proof (remove_node_loop_frame id g0 n i j) as Hframe;
    set (g' := foldl f g0 (seqZ 0 n)) in *
  end.
  match type of Hf with fades ?g0 _ => set (g1 := g0) in * end.
  assert (edge_at g1 i j = edge_at g i j) as He by reflexivity.
  assert (i <> id -> edgeCount_at g1 i = edgeCount_at g i) as Hc.
  { intros Hne. unfold edgeCount_at, g1. simpl. apply aget_aset_ne. congruence. }
  change (nodeCount g1) with (nodeCount g) in *.
  destruct (decide (i <> id /\ 0 <= i < nodeCount g /\ 0 <= j < edgeCount_at g i
                    /\ edge_to (edge_at g i j) = id)) as [(Hne & Hi & Hj & Hto)|Hn].
  - assert (edge_active (edge_at g' i j) = false) as Hoff.
    { apply Hd; [exact Hi|exact Hne|rewrite Hc by exact Hne; exact Hj|].
      rewrite He. exact Hto. }
    rewrite <- He. destruct Hf as (_ & _ & _ & Hx).
    destruct (Hx i j) as [Hsame|Hoff']; [|exact Hoff'].
    rewrite <- Hsame. symmetry. apply deactivated_inactive, Hoff.
  - rewrite <- He. apply Hframe.
    intros (Hne & Hi & Hj & Hto). apply Hn.
    split; [exact Hne|]. split; [exact Hi|]. split; [|rewrite <- He; exact Hto].
    rewrite <- Hc by exact Hne. exact Hj.
Qed.

End GraphStoreFacts.

(** *** Sample graphs over binary32 *)

Module Samples.

Definition flt (n : Z) : Binary32.t := Binary32.of_Z n.

(** Nodes A(0,0), B(10,0), C(10,10); edges A->B 10, B->C 10, A->C 30. *)
Definition triangle : Graph Binary32.t :=
  let g := graph_init in
  let g := snd (graph_add_node g ["A"]%byte (flt 0) (flt 0)) in
  let g := snd (graph_add_node g ["B"]%byte (flt 10) (flt 0)) in
  let g := snd (graph_add_node g ["C"]%byte (flt 10) (flt 10)) in
  let g := snd (graph_add_edge g 0 1 (flt 10)) in
  let g := snd (graph_add_edge g 1 2 (flt 10)) in
  snd (graph_add_edge g 0 2 (flt 30)).

(** Two nodes, the first of them removed. *)
Definition first_removed : Graph Binary32.t :=
  let g := graph_init in
  let g := snd (graph_add_node g ["A"]%byte (flt 0) (flt 0)) in
  let g := snd (graph_add_node g ["B"]%byte (flt 10) (flt 0)) in
  snd (graph_remove_node g 0).

(** [first_removed] with edges added from B to the removed A and back. *)
Definition reconnected : Graph Binary32.t :=
  let g := first_removed in
  let g := snd (graph_add_edge g 1 0 (flt 1)) in
  snd (graph_add_edge g 0 1 (flt 1)).

End Samples.

(** ** Sanity checks of the binary32 arithmetic and of the search *)

Example binary32_one_plus_two :
  Binary32.add Binary32.one (Binary32.of_Z 2) = Binary32.of_bits 0x40400000.
Proof. vm_compute. reflexivity. Qed.

Example binary32_sqrt_two :
  Binary32.sqrt (Binary32.of_Z 2) = Binary32.of_bits 0x3fb504f3.
Proof. vm_compute. reflexivity. Qed.

Example binary32_tenth :
  Binary32.bits (Binary32.mul (Binary32.of_bits 0x3dcccccd) (Binary32.of_Z 3))
  = 0x3e99999a.
Proof. vm_compute. reflexivity. Qed.

Example binary32_flt_max_overflow :
  Binary32.add Binary32.flt_max Binary32.flt_max = Binary32.of_bits 0x7f800000.
Proof. vm_compute. reflexivity. Qed.

Example triangle_search :
  (fun run => (path_nodes (run_result run), Binary32.bits (totalCost (run_result run))))
    <$> astar_find_path 4 Samples.triangle 0 2 None
  = Some ([0; 1; 2], 0x41a00000).
Proof. vm_compute. reflexivity. Qed.

Example triangle_search_without_first_edge :
  (fun run => (path_nodes (run_result run), Binary32.bits (totalCost (run_result run))))
    <$> astar_find_path 4 (snd (graph_remove_edge Samples.triangle 0 1)) 0 2 None
  = Some ([0; 2], 0x41f00000).
Proof. vm_compute. reflexivity. Qed.

Example triangle_search_backwards :
  (found ∘ run_result) <$> astar_find_path 4 Samples.triangle 2 0 None = Some false.
Proof. vm_compute. reflexivity. Qed.

Section GraphStoreClaims.
Context {F : Type} `{FloatOps F}.

(** C3 (as amended).  Removing an in-range node that is already inactive
    reports success: [graph_remove_node] returns [true], leaves [nodes] and
    [nodeCount] as they were, stores 0 in [edgeCounts[id]], and deactivates
    the edges that point to [id] from the used slots of the other in-range
    rows; every other edge slot is left as it was. *)
Theorem graph_remove_node_inactive (g : Graph F) (id : Z) :
  0 <= id < nodeCount g ->
  node_active (node_at g id) = false ->
  fst (graph_remove_node g id) = true
  /\ nodes (snd (graph_remove_node g id)) = nodes g
  /\ nodeCount (snd (graph_remove_node g id)) = nodeCount g
  /\ edgeCounts (snd (graph_remove_node g id)) = aset (edgeCounts g) id 0
  /\ forall i j,
       edge_at (snd (graph_remove_node g id)) i j
       = if decide (i <> id /\ 0 <= i < nodeCount g /\ 0 <= j < edgeCount_at g i
                    /\ edge_to (edge_at g i j) = id)
         then deactivated (edge_at g i j)
         else edge_at g i j.
Proof.
  intros Hid Hact.
  split; [|split; [|split; [|split]]];
    [| | | |intros i j; apply graph_remove_node_edge_at, Hid];
    unfold graph_remove_node;
    (destruct (decide (id < 0 \/ id >= nodeCount g)) as [Hbad|_]; [lia|]);
    [reflexivity|..]; cbn [snd];
    match goal with |- context [foldl ?f ?g0 (seqZ 0 ?n)] =>
      destruct (remove_node_loop_spec id g0 n) as [(Hn & Hc & He & _) _];
      set (g' := foldl f g0 (seqZ 0 n)) in *
    end.
  - rewrite Hn. simpl.
    assert (mkNode (node_id (node_at g id)) (node_name (node_at g id))
                   (node_x (node_at g id)) (node_y (node_at g id)) false
            = node_at g id) as ->.
    { destruct (node_at g id); simpl in *. congruence. }
    unfold node_at. apply aset_aget_id.
  - rewrite Hc. reflexivity.
  - rewrite He. reflexivity.
Qed.

(** C4 (as amended).  [graph_add_edge] fails, returning [false] and leaving
    the graph unchanged, whenever an endpoint id is out of range.  (An
    in-range endpoint is accepted whether or not its node is active.) *)
Theorem graph_add_edge_out_of_range (g : Graph F) (from to : Z) (weight : F) :
  from < 0 \/ from >= nodeCount g \/ to < 0 \/ to >= nodeCount g ->
  graph_add_edge g from to weight = (false, g).
Proof.
  intros Hbad. unfold graph_add_edge.
  destruct (decide (from < 0 \/ from >= nodeCount g)); [reflexivity|].
  destruct (decide (to < 0 \/ to >= nodeCount g)); [reflexivity|lia].
Qed.

(** C8.  After a successful [graph_remove_node(graph, x)], [graph_has_edge]
    finds no edge from any other node to [x] and [graph_get_neighbors] of
    [x] reports no neighbour. *)
Theorem graph_remove_node_cuts_edges (g g' : Graph F) (x : Z) :
  0 <= x < nodeCount g ->
  graph_remove_node g x = (true, g') ->
  (forall y, y <> x -> graph_has_edge g' y x = false)
  /\ (forall maxNeighbors, graph_get_neighbors g' x maxNeighbors = (0, [])).
Proof.
  intros Hx. unfold graph_remove_node.
  destruct (decide (x < 0 \/ x >= nodeCount g)) as [Hbad|_]; [lia|].
  intros Heq. injection Heq as Heq.
  match type of Heq with foldl ?f ?g0 (seqZ 0 ?n) = _ =>
    destruct (remove_node_loop_spec x g0 n) as [Hf Hd]
  end.
  rewrite Heq in Hf, Hd. clear Heq.
  match type of Hf with fades ?g0 _ => set (g1 := g0) in * end.
  assert (edgeCount_at g' x = 0) as Hcx.
  { rewrite (fades_edgeCount_at g1 g') by exact Hf.
    unfold edgeCount_at, g1. simpl. rewrite aget_aset.
    destruct (decide (x = x /\ 0 <= x < Z.of_nat (length (edgeCounts g)))) as [_|Hn];
      [reflexivity|].
    apply aget_out. intros Hr. apply Hn. split; [reflexivity|exact Hr]. }
  split.
  - intros y Hy. unfold graph_has_edge.
    destruct (decide (y < 0 \/ y >= nodeCount g')) as [_|Hr]; [reflexivity|].
    apply not_true_is_false. intros Hex.
    apply existsb_exists in Hex as (j & Hj & Hb).
    apply andb_prop in Hb as [Hto Hact].
    apply bool_decide_eq_true in Hto.
    apply list_elem_of_In, elem_of_seqZ_0 in Hj.
    pose proof Hf as (_ & Hc & _).
    rewrite (fades_edgeCount_at g1 g') in Hj by exact Hf.
    rewrite (fades_edge_to g1 g') in Hto by exact Hf.
    rewrite Hd in Hact; [discriminate| |exact Hy|exact Hj|exact Hto].
    rewrite Hc in Hr. unfold g1 in Hr. simpl in Hr |- *. lia.
  - intros maxNeighbors. unfold graph_get_neighbors.
    destruct (decide (x < 0 \/ x >= nodeCount g')); [reflexivity|].
    rewrite Hcx. reflexivity.
Qed.

End GraphStoreClaims.

(** C3, as stated, fails: node 0 of [reconnected] is in range and inactive,
    and removing it again returns [true], not [false], and changes the
    graph: the edge from 1 to 0 was active and is no longer, and the edge
    count of node 0 was 1 and is 0. *)
Lemma graph_remove_node_inactive_not_a_noop :
  0 <= 0 < nodeCount Samples.reconnected
  /\ node_active (node_at Samples.reconnected 0) = false
  /\ fst (graph_remove_node Samples.reconnected 0) <> false
  /\ edge_active (edge_at Samples.reconnected 1 0) = true
  /\ edge_active (edge_at (snd (graph_remove_node Samples.reconnected 0)) 1 0) = false
  /\ edgeCount_at Samples.reconnected 0 = 1
  /\ edgeCount_at (snd (graph_remove_node Samples.reconnected 0)) 0 = 0.
Proof. vm_compute. repeat split; congruence. Qed.

Lemma graph_remove_node_inactive_witness :
  fst (graph_remove_node Samples.reconnected 0) = true
  /\ nodes (snd (graph_remove_node Samples.reconnected 0)) = nodes Samples.reconnected
  /\ nodeCount (snd (graph_remove_node Samples.reconnected 0))
     = nodeCount Samples.reconnected
  /\ edgeCounts (snd (graph_remove_node Samples.reconnected 0))
     = aset (edgeCounts Samples.reconnected) 0 0
  /\ forall i j,
       edge_at (snd (graph_remove_node Samples.reconnected 0)) i j
       = if decide (i <> 0 /\ 0 <= i < nodeCount Samples.reconnected
                    /\ 0 <= j < edgeCount_at Samples.reconnected i
                    /\ edge_to (edge_at Samples.reconnected i j) = 0)
         then deactivated (edge_at Samples.reconnected i j)
         else edge_at Samples.reconnected i j.
Proof.
  apply (graph_remove_node_inactive Samples.reconnected 0).
  - vm_compute. split; congruence.
  - vm_compute. reflexivity.
Defined.

(** C4, as stated, fails: node 0 of [first_removed] is inactive, yet an edge
    from it and an edge to it are both created. *)
Lemma graph_add_edge_accepts_inactive :
  node_active (node_at Samples.first_removed 0) = false
  /\ fst (graph_add_edge Samples.first_removed 0 1 (Samples.flt 1)) <> false
  /\ fst (graph_add_edge Samples.first_removed 1 0 (Samples.flt 1)) <> false
  /\ graph_has_edge
       (snd (graph_add_edge Samples.first_removed 1 0 (Samples.flt 1))) 1 0 = true.
Proof. vm_compute. repeat split; congruence. Qed.

Lemma graph_add_edge_out_of_range_witness :
  graph_add_edge Samples.first_removed 0 2 (Samples.flt 1)
  = (false, Samples.first_removed).
Proof.
  apply graph_add_edge_out_of_range.
  right. right. right. vm_compute. congruence.
Defined.

Lemma graph_remove_node_cuts_edges_witness :
  (forall y, y <> 2 ->
             graph_has_edge (snd (graph_remove_node Samples.triangle 2)) y 2 = false)
  /\ (forall maxNeighbors,
         graph_get_neighbors (snd (graph_remove_node Samples.triangle 2)) 2 maxNeighbors
         = (0, [])).
Proof.
  apply (graph_remove_node_cuts_edges Samples.triangle).
  - vm_compute. split; congruence.
  - vm_compute. reflexivity.
Defined.

(* ===================================================================== *)
(** ** The search: entry checks and the trivial search *)

Section AStarEntry.
Context {F : Type} `{FloatOps F}.

(** C2 (as amended).  When the start id or the goal id is out of range,
    [astar_find_path] returns at once, before any search step, the empty
    result: [found = false], length 0, [totalCost] 0, no path, and nothing
    stored through [stats].  (The [active] flag of the start and goal
    nodes is not consulted.) *)
Theorem astar_find_path_out_of_range (fuel : nat) (g : Graph F) (startId goalId : Z)
        (config : option (AStarConfig F)) :
  startId < 0 \/ startId >= nodeCount g \/ goalId < 0 \/ goalId >= nodeCount g ->
  astar_find_path fuel g startId goalId config
  = Some (mkRun (mkPathResult [] 0 f_zero false) None []).
Proof.
  intros Hbad. unfold astar_find_path.
  destruct (decide (startId < 0 \/ goalId < 0
                    \/ startId >= nodeCount g \/ goalId >= nodeCount g));
    [reflexivity|lia].
Qed.

Lemma astar_start_shape (g : Graph F) (s t : Z) (cfg : AStarConfig F) :
  0 <= s < nodeCount g ->
  let n := Z.to_nat (nodeCount g) in
  let h := f_mul (astar_heuristic (node_at g s) (node_at g t) (heuristic cfg))
                 (heuristicWeight cfg) in
  astar_start g s t cfg
  = mkSearch (aset (replicate n FLT_MAX) s f_zero)
             (aset (replicate n FLT_MAX) s h)
             (replicate n (-1))
             (replicate n false)
             (aset (replicate n false) s true)
             (mkPQ (aset (replicate n pq_blank) 0 (mkPQNode s h)) 1 (nodeCount g))
             (mkStats 0 0 1)
             [QPush s true 1].
Proof.
  intros Hs n h. unfold astar_start, pq_push, pq_create. simpl pq_size. simpl pq_capacity.
  destruct (decide (0 >= nodeCount g)) as [Hbad|_]; [lia|].
  fold n. fold h.
  rewrite aget_aset_eq by (rewrite length_replicate; lia).
  reflexivity.
Qed.

(** C7.  For an in-range id [s] of an active node, the search from [s] to
    [s] finds the one-element path [s] of cost 0, whatever the edges of the
    graph are; one round of the main loop is enough. *)
Theorem astar_find_path_start_is_goal (fuel : nat) (g : Graph F) (s : Z)
        (config : option (AStarConfig F)) :
  0 <= s < nodeCount g ->
  node_active (node_at g s) = true ->
  (0 < fuel)%nat ->
  exists run,
    astar_find_path fuel g s s config = Some run
    /\ found (run_result run) = true
    /\ path_nodes (run_result run) = [s]
    /\ path_length (run_result run) = 1
    /\ totalCost (run_result run) = f_zero.
Proof.
  intros Hs _ Hfuel. unfold astar_find_path.
  destruct (decide (s < 0 \/ s < 0 \/ s >= nodeCount g \/ s >= nodeCount g));
    [lia|].
  rewrite astar_start_shape by exact Hs.
  destruct fuel as [|fuel]; [lia|].
  set (cnt := Z.to_nat (nodeCount g)).
  assert (0 < Z.of_nat cnt) as Hn by lia.
  unfold astar_loop. unfold pq_pop. simpl pq_size.
  destruct (decide (1 = 0)) as [Hbad|_]; [lia|].
  simpl pq_nodes. unfold pq_at.
  rewrite aget_aset_eq by (rewrite length_replicate; lia).
  simpl pq_nodeId.
  destruct (decide (1 - 1 > 0)) as [Hbad|_]; [lia|].
  destruct (decide (s = s)) as [_|Hbad]; [|contradiction].
  simpl gScore. simpl cameFrom.
  unfold reconstruct_path. fold cnt.
  assert (count_path cnt (replicate cnt (-1)) s (nodeCount g) 0 s = (0, s)) as ->.
  { destruct cnt as [|cnt']; [lia|]. simpl.
    destruct (decide (s <> s /\ s <> -1 /\ 0 < nodeCount g)) as [[Hbad _]|_];
      [contradiction|reflexivity]. }
  destruct (decide (s = s)) as [_|Hbad]; [|contradiction].
  destruct (decide (s <> s)) as [Hbad|_]; [contradiction|].
  eexists. split; [reflexivity|]. simpl.
  repeat split.
  apply aget_aset_eq. rewrite length_replicate. lia.
Qed.

End AStarEntry.

(** C2, as stated, fails: node 0 of [first_removed] is inactive, and the
    search from 0 to 0 is not rejected: it reports a path. *)
Lemma astar_find_path_accepts_inactive :
  node_active (node_at Samples.first_removed 0) = false
  /\ (found ∘ run_result) <$> astar_find_path 1 Samples.first_removed 0 0 None
     = Some true.
Proof. vm_compute. split; reflexivity. Qed.

Lemma astar_find_path_out_of_range_witness :
  astar_find_path 0 Samples.triangle 0 3 None
  = Some (mkRun (mkPathResult [] 0 f_zero false) None []).
Proof.
  apply astar_find_path_out_of_range.
  right. right. right. vm_compute. congruence.
Defined.

Lemma astar_find_path_start_is_goal_witness :
  exists run,
    astar_find_path 1 Samples.triangle 1 1 None = Some run
    /\ found (run_result run) = true
    /\ path_nodes (run_result run) = [1]
    /\ path_length (run_result run) = 1
    /\ totalCost (run_result run) = f_zero.
Proof.
  apply astar_find_path_start_is_goal.
  - vm_compute. split; congruence.
  - vm_compute. reflexivity.
  - lia.
Defined.

(* ===================================================================== *)
(** ** Object representations *)

Definition int_range (z : Z) : Prop := - 2 ^ 31 <= z < 2 ^ 31.

Lemma Z_of_byte_range (b : byte) : 0 <= Z_of_byte b < 256.
Proof. unfold Z_of_byte. pose proof (Byte.to_N_bounded b). lia. Qed.

Lemma Z_of_byte_of_Z (z : Z) : Z_of_byte (byte_of_Z z) = z mod 256.
Proof.
  unfold Z_of_byte, byte_of_Z.
  pose proof (Z.mod_pos_bound z 256 ltac:(lia)) as Hm.
  destruct (Byte.of_N (Z.to_N (z mod 256))) as [b|] eqn:E; simpl.
  - apply Byte.to_of_N in E. rewrite E. lia.
  - apply Byte.of_N_None_iff in E. lia.
Qed.

Lemma byte_of_Z_of_byte (b : byte) : byte_of_Z (Z_of_byte b) = b.
Proof.
  unfold byte_of_Z. rewrite Z.mod_small by apply Z_of_byte_range.
  unfold Z_of_byte. rewrite N2Z.id, Byte.of_to_N. reflexivity.
Qed.

Lemma length_le_bytes (n : nat) (z : Z) : length (le_bytes n z) = n.
Proof. revert z. induction n as [|n IH]; intros z; simpl; [|rewrite IH]; reflexivity. Qed.

Lemma le_value_le_bytes (n : nat) (z : Z) :
  le_value (le_bytes n z) = z mod 256 ^ Z.of_nat n.
Proof.
  revert z. induction n as [|n IH]; intros z.
  - simpl. rewrite Z.mod_1_r. reflexivity.
  - cbn [le_bytes le_value]. rewrite IH, Z_of_byte_of_Z.
    rewrite Nat2Z.inj_succ, Z.pow_succ_r by lia.
    rewrite Z.rem_mul_r by lia. reflexivity.
Qed.

Lemma length_int_bytes (z : Z) : length (int_bytes z) = 4%nat.
Proof. apply length_le_bytes. Qed.

Lemma int_of_bytes_int_bytes (z : Z) : int_range z -> int_of_bytes (int_bytes z) = z.
Proof.
  unfold int_range, int_of_bytes, int_bytes. intros Hz.
  rewrite firstn_all2 by (rewrite length_le_bytes; lia).
  rewrite le_value_le_bytes. change (256 ^ Z.of_nat 4) with (2 ^ 32).
  rewrite Z.mod_mod by lia.
  destruct (decide (z mod 2 ^ 32 < 2 ^ 31)) as [Hlt|Hge].
  - destruct (decide (0 <= z)).
    + apply Z.mod_small. lia.
    + rewrite <- (Z.mod_add z 1) in Hlt by lia.
      rewrite Z.mod_small in Hlt by lia. lia.
  - destruct (decide (0 <= z)).
    + rewrite Z.mod_small in Hge by lia. lia.
    + rewrite <- (Z.mod_add z 1) by lia. rewrite Z.mod_small by lia. lia.
Qed.

Lemma length_bool_bytes (b : bool) : length (bool_bytes b) = 1%nat.
Proof. reflexivity. Qed.

Lemma bool_of_bytes_bool_bytes (b : bool) : bool_of_bytes (bool_bytes b) = b.
Proof. destruct b; reflexivity. Qed.

Lemma ints_of_bytes_flat_map (l : list Z) :
  Forall int_range l ->
  ints_of_bytes (length l) (flat_map int_bytes l) = l.
Proof.
  induction 1 as [|z l Hz _ IH]; [reflexivity|].
  cbn [length ints_of_bytes flat_map].
  rewrite take_app_length' by (symmetry; apply length_int_bytes).
  rewrite drop_app_length' by (symmetry; apply length_int_bytes).
  rewrite IH. f_equal.
  apply int_of_bytes_int_bytes, Hz.
Qed.

Lemma length_flat_map_const {A B} (f : A -> list B) (l : list A) (k : nat) :
  (forall x, x ∈ l -> length (f x) = k) ->
  length (flat_map f l) = (k * length l)%nat.
Proof.
  induction l as [|x l IH]; intros Hk; simpl; [lia|].
  rewrite length_app, IH.
  - rewrite (Hk x) by (apply elem_of_cons; auto). lia.
  - intros y Hy. apply Hk. apply elem_of_cons. auto.
Qed.

(** A read that finds all the bytes it asks for. *)
Lemma fread_exact (old bs rest : list byte) (size count : nat) :
  length bs = (size * count)%nat ->
  (length old <= length bs)%nat ->
  (0 < size)%nat ->
  fread old size count (bs ++ rest) = (bs, Z.of_nat count, rest).
Proof.
  intros Hlen Hold Hsize. unfold fread.
  rewrite take_app_length' by (symmetry; exact Hlen).
  rewrite drop_app_length' by (symmetry; exact Hlen).
  rewrite drop_ge by exact Hold. rewrite app_nil_r.
  rewrite Hlen, Nat.mul_comm, Nat.div_mul by lia. reflexivity.
Qed.

(** A read at the end of the stream. *)
Lemma fread_eof (old : list byte) (size count : nat) :
  fread old size count [] = (old, 0, []).
Proof.
  unfold fread. rewrite take_nil, drop_nil. simpl.
  rewrite drop_0. destruct size; reflexivity.
Qed.

(* ===================================================================== *)
(** ** Persistence: what [graph_load] reads back *)

Section Roundtrip.
Context {F : Type} `{FloatOps F}.

(** The object representation of a float has four bytes and determines the
    float. *)
Hypothesis f_bytes_length : forall x : F, length (f_bytes x) = 4%nat.
Hypothesis f_of_bytes_bytes : forall x : F, f_of_bytes (f_bytes x) = x.

(** The graphs a C [Graph] can hold: counts within the capacities, [int]
    fields within the range of [int], names of [MAX_NAME_LENGTH] bytes. *)
Definition node_storable (n : Node F) : Prop :=
  int_range (node_id n) /\ length (node_name n) = Z.to_nat MAX_NAME_LENGTH.

Definition edge_storable (e : Edge F) : Prop :=
  int_range (edge_from e) /\ int_range (edge_to e).

Definition storable (g : Graph F) : Prop :=
  0 <= nodeCount g <= MAX_NODES
  /\ Forall (fun i => node_storable (node_at g i)) (seqZ 0 (nodeCount g))
  /\ Forall (fun i => int_range (edgeCount_at g i)) (seqZ 0 MAX_NODES)
  /\ Forall (fun i => edgeCount_at g i <= MAX_EDGES_PER_NODE
                      /\ Forall (fun j => edge_storable (edge_at g i j))
                                (seqZ 0 (edgeCount_at g i)))
            (seqZ 0 (nodeCount g)).

(** The arrays of [g] have (at least) the dimensions of the C arrays. *)
Definition dimensioned (g : Graph F) : Prop :=
  Z.of_nat (length (nodes g)) = MAX_NODES
  /\ Z.of_nat (length (edges g)) = MAX_NODES
  /\ (forall i, 0 <= i < MAX_NODES ->
                Z.of_nat (length (aget [] (edges g) i)) = MAX_EDGES_PER_NODE)
  /\ (forall i, (length (node_name (node_at g i)) <= Z.to_nat MAX_NAME_LENGTH)%nat).

Lemma node_at_set_node (g : Graph F) i n k :
  node_at (set_node g i n) k
  = if decide (i = k /\ 0 <= i < Z.of_nat (length (nodes g))) then n else node_at g k.
Proof. unfold node_at, set_node. simpl. apply aget_aset. Qed.

Lemma edge_at_set_edge_eq (g : Graph F) i j e :
  0 <= i < Z.of_nat (length (edges g)) ->
  0 <= j < Z.of_nat (length (aget [] (edges g) i)) ->
  edge_at (set_edge g i j e) i j = e.
Proof.
  intros Hi Hj. unfold edge_at, set_edge. simpl.
  rewrite aget_aset_eq by exact Hi. apply aget_aset_eq, Hj.
Qed.

Lemma dimensioned_set_node g i n :
  dimensioned g -> (length (node_name n) <= Z.to_nat MAX_NAME_LENGTH)%nat ->
  dimensioned (set_node g i n).
Proof.
  intros (Hn & He & Hr & Hs) Hlen. repeat split; simpl.
  - rewrite length_aset. exact Hn.
  - exact He.
  - exact Hr.
  - intros k. rewrite node_at_set_node. destruct (decide _); [exact Hlen|apply Hs].
Qed.

Lemma dimensioned_set_edge g i j e : dimensioned g -> dimensioned (set_edge g i j e).
Proof.
  intros (Hn & He & Hr & Hs). repeat split; simpl.
  - exact Hn.
  - rewrite length_aset. exact He.
  - intros k Hk. rewrite aget_aset. destruct (decide _) as [[-> _]|_]; [|apply Hr, Hk].
    rewrite length_aset. apply Hr, Hk.
  - exact Hs.
Qed.

Lemma dimensioned_graph_init : dimensioned (graph_init (F := F)).
Proof.
  unfold dimensioned, node_at, graph_init. cbn [nodes edges].
  rewrite !length_replicate. repeat split.
  - intros i Hi. rewrite aget_replicate by (unfold MAX_NODES in *; lia).
    rewrite length_replicate. reflexivity.
  - intros i.
    destruct (decide (0 <= i < Z.of_nat (Z.to_nat MAX_NODES))) as [Hi|Hi].
    + rewrite aget_replicate by exact Hi. cbn [zero_node node_name].
      rewrite length_replicate. lia.
    + rewrite aget_out by (rewrite length_replicate; exact Hi).
      cbn [zero_node node_name]. rewrite length_replicate. lia.
Qed.

(** One round of the node loop on the bytes [graph_save] wrote for [n]. *)
Lemma load_node_node_bytes (g : Graph F) (n : Node F) (i : Z) (rest : list byte) :
  dimensioned g -> node_storable n ->
  load_node (g, node_bytes n ++ rest) i = (set_node g i n, rest).
Proof.
  intros (_ & _ & _ & Hs) [Hid Hname].
  unfold load_node, node_bytes. rewrite <- !app_assoc.
  rewrite fread_exact by (rewrite ?length_int_bytes; lia).
  rewrite fread_exact by (specialize (Hs i); lia).
  rewrite fread_exact by (rewrite ?f_bytes_length; lia).
  rewrite fread_exact by (rewrite ?f_bytes_length; lia).
  rewrite fread_exact by (rewrite ?length_bool_bytes; lia).
  rewrite int_of_bytes_int_bytes by exact Hid.
  rewrite !f_of_bytes_bytes, bool_of_bytes_bool_bytes.
  destruct n; reflexivity.
Qed.

Lemma load_nodes (g0 : Graph F) (l : list Z) (g : Graph F) (rest : list byte) :
  dimensioned g -> Forall (fun i => node_storable (node_at g0 i)) l ->
  foldl load_node (g, flat_map (fun i => node_bytes (node_at g0 i)) l ++ rest) l
  = (foldl (fun a i => set_node a i (node_at g0 i)) g l, rest).
Proof.
  intros Hd Hl. revert g Hd. induction Hl as [|i l Hi _ IH]; intros g Hd.
  - reflexivity.
  - cbn [flat_map foldl]. rewrite <- app_assoc.
    rewrite load_node_node_bytes by assumption.
    apply IH. apply dimensioned_set_node; [exact Hd|]. destruct Hi as [_ ->]. lia.
Qed.

(** One round of the inner edge loop on the bytes written for [e]. *)
Lemma load_edge_edge_bytes (g : Graph F) (e : Edge F) (i j : Z) (rest : list byte) :
  edge_storable e ->
  load_edge i (g, edge_bytes e ++ rest) j = (set_edge g i j e, rest).
Proof.
  intros [Hfrom Hto].
  unfold load_edge, edge_bytes. rewrite <- !app_assoc.
  rewrite fread_exact by (rewrite ?length_int_bytes; lia).
  rewrite fread_exact by (rewrite ?length_int_bytes; lia).
  rewrite fread_exact by (rewrite ?f_bytes_length; lia).
  rewrite fread_exact by (rewrite ?length_bool_bytes; lia).
  rewrite !int_of_bytes_int_bytes by assumption.
  rewrite f_of_bytes_bytes, bool_of_bytes_bool_bytes.
  destruct e; reflexivity.
Qed.

Definition store_row (g0 : Graph F) (i : Z) (g : Graph F) (js : list Z) : Graph F :=
  foldl (fun a j => set_edge a i j (edge_at g0 i j)) g js.

Lemma load_row (g0 : Graph F) (i : Z) (js : list Z) (g : Graph F) (rest : list byte) :
  Forall (fun j => edge_storable (edge_at g0 i j)) js ->
  foldl (load_edge i) (g, flat_map (fun j => edge_bytes (edge_at g0 i j)) js ++ rest) js
  = (store_row g0 i g js, rest).
Proof.
  intros Hl. revert g. induction Hl as [|j js Hj _ IH]; intros g.
  - reflexivity.
  - unfold store_row. cbn [flat_map foldl]. rewrite <- app_assoc.
    rewrite load_edge_edge_bytes by assumption. apply IH.
Qed.

Lemma store_row_edgeCounts g0 i g js : edgeCounts (store_row g0 i g js) = edgeCounts g.
Proof.
  unfold store_row. apply (foldl_preserves _ (fun a => edgeCounts a = edgeCounts g));
    [reflexivity|]. intros a j _ Ha. exact Ha.
Qed.

Definition store_rows (g0 : Graph F) (g : Graph F) (l : list Z) : Graph F :=
  foldl (fun a i => store_row g0 i a (seqZ 0 (edgeCount_at g0 i))) g l.

Lemma store_rows_edgeCounts g0 g l : edgeCounts (store_rows g0 g l) = edgeCounts g.
Proof.
  unfold store_rows. apply (foldl_preserves _ (fun a => edgeCounts a = edgeCounts g));
    [reflexivity|]. intros a j _ Ha. rewrite store_row_edgeCounts. exact Ha.
Qed.

Lemma load_rows (g0 : Graph F) (l : list Z) (g : Graph F) (rest : list byte) :
  Forall (fun i => edgeCount_at g i = edgeCount_at g0 i
                   /\ Forall (fun j => edge_storable (edge_at g0 i j))
                             (seqZ 0 (edgeCount_at g0 i))) l ->
  foldl load_edges
        (g, flat_map (fun i => flat_map (fun j => edge_bytes (edge_at g0 i j))
                                        (seqZ 0 (edgeCount_at g0 i))) l ++ rest) l
  = (store_rows g0 g l, rest).
Proof.
  intros Hl. revert g Hl. induction l as [|i l IH]; intros g Hl.
  - reflexivity.
  - inversion Hl as [|? ? [Hc Hi] Hl']; subst. clear Hl. rename Hl' into Hl.
    unfold store_rows. cbn [flat_map foldl]. rewrite <- app_assoc.
    unfold load_edges at 2. cbn [fst]. rewrite Hc.
    rewrite load_row by exact Hi.
    apply IH. eapply Forall_impl; [|exact Hl].
    intros k [Hk Hk']. split; [|exact Hk'].
    unfold edgeCount_at in *. rewrite store_row_edgeCounts. exact Hk.
Qed.

Definition store_nodes (g0 : Graph F) (g : Graph F) (l : list Z) : Graph F :=
  foldl (fun a i => set_node a i (node_at g0 i)) g l.

Lemma store_nodes_spec (g0 g : Graph F) (l : list Z) :
  let g' := store_nodes g0 g l in
  nodeCount g' = nodeCount g /\ edges g' = edges g /\ edgeCounts g' = edgeCounts g
  /\ length (nodes g') = length (nodes g)
  /\ forall k, k ∈ l -> 0 <= k < Z.of_nat (length (nodes g)) ->
                 node_at g' k = node_at g0 k.
Proof.
  unfold store_nodes.
  apply (foldl_invariant _
    (fun done a =>
       nodeCount a = nodeCount g /\ edges a = edges g /\ edgeCounts a = edgeCounts g
       /\ length (nodes a) = length (nodes g)
       /\ forall k, k ∈ done -> 0 <= k < Z.of_nat (length (nodes g)) ->
                      node_at a k = node_at g0 k)).
  - repeat split. intros k Hk. inversion Hk.
  - intros done x rest a _ (Hc & He & Hec & Hlen & Hk). cbn [set_node nodeCount edges edgeCounts nodes].
    repeat split; try assumption.
    + rewrite length_aset. exact Hlen.
    + intros k Hin Hr. rewrite node_at_set_node.
      destruct (decide (x = k /\ 0 <= x < Z.of_nat (length (nodes a)))) as [[-> _]|Hne];
        [reflexivity|].
      apply elem_of_app in Hin as [Hin|Hin]; [apply Hk; assumption|].
      apply list_elem_of_singleton in Hin as ->. exfalso. apply Hne. rewrite Hlen. auto.
Qed.

Lemma store_row_spec (g0 : Graph F) (i : Z) (g : Graph F) (js : list Z) :
  dimensioned g ->
  let g' := store_row g0 i g js in
  dimensioned g' /\ nodes g' = nodes g /\ nodeCount g' = nodeCount g
  /\ (forall i' j, i' <> i -> edge_at g' i' j = edge_at g i' j)
  /\ (forall j, j ∈ js -> 0 <= i < MAX_NODES -> 0 <= j < MAX_EDGES_PER_NODE ->
                 edge_at g' i j = edge_at g0 i j).
Proof.
  intros Hd. unfold store_row.
  apply (foldl_invariant _
    (fun done a =>
       dimensioned a /\ nodes a = nodes g /\ nodeCount a = nodeCount g
       /\ (forall i' j, i' <> i -> edge_at a i' j = edge_at g i' j)
       /\ (forall j, j ∈ done -> 0 <= i < MAX_NODES -> 0 <= j < MAX_EDGES_PER_NODE ->
                      edge_at a i j = edge_at g0 i j))).
  - repeat split; try apply Hd. intros j Hj. inversion Hj.
  - intros done x rest a _ (Hda & Hn & Hc & Hfr & Hk).
    split; [apply dimensioned_set_edge, Hda|].
    split; [exact Hn|]. split; [exact Hc|]. split.
    + intros i' j Hne. rewrite edge_at_set_edge_ne by (intros [? _]; contradiction).
      apply Hfr, Hne.
    + intros j Hin Hi Hj.
      destruct (decide (j = x)) as [->|Hne].
      * destruct Hda as (_ & He & Hr & _).
        apply edge_at_set_edge_eq; [lia|]. rewrite Hr by exact Hi. exact Hj.
      * rewrite edge_at_set_edge_ne by (intros [_ ?]; contradiction).
        apply elem_of_app in Hin as [Hin|Hin]; [apply Hk; assumption|].
        apply list_elem_of_singleton in Hin. contradiction.
Qed.

Lemma store_rows_spec (g0 g : Graph F) (l : list Z) :
  dimensioned g ->
  let g' := store_rows g0 g l in
  dimensioned g' /\ nodes g' = nodes g /\ nodeCount g' = nodeCount g
  /\ (forall i j, i ∈ l -> 0 <= i < MAX_NODES ->
                   0 <= j < edgeCount_at g0 i -> j < MAX_EDGES_PER_NODE ->
                   edge_at g' i j = edge_at g0 i j).
Proof.
  intros Hd. unfold store_rows.
  apply (foldl_invariant _
    (fun done a =>
       dimensioned a /\ nodes a = nodes g /\ nodeCount a = nodeCount g
       /\ (forall i j, i ∈ done -> 0 <= i < MAX_NODES ->
                        0 <= j < edgeCount_at g0 i -> j < MAX_EDGES_PER_NODE ->
                        edge_at a i j = edge_at g0 i j))).
  - repeat split; try apply Hd. intros i j Hi. inversion Hi.
  - intros done x rest a _ (Hda & Hn & Hc & Hk).
    destruct (store_row_spec g0 x a (seqZ 0 (edgeCount_at g0 x)) Hda)
      as (Hd' & Hn' & Hc' & Hfr & Hrow).
    split; [exact Hd'|]. split; [congruence|]. split; [congruence|].
    intros i j Hin Hi Hj Hj'.
    destruct (decide (i = x)) as [->|Hne].
    + apply Hrow; [apply elem_of_seqZ_0; exact Hj|exact Hi|lia].
    + rewrite Hfr by exact Hne.
      apply elem_of_app in Hin as [Hin|Hin]; [apply Hk; assumption|].
      apply list_elem_of_singleton in Hin. contradiction.
Qed.

Lemma flat_map_of_map {A B C} (f : A -> B) (k : B -> list C) (l : list A) :
  flat_map k (map f l) = flat_map (fun x => k (f x)) l.
Proof. induction l as [|x l IH]; simpl; [|rewrite IH]; reflexivity. Qed.

Lemma aget_map_seqZ {A} (d : A) (f : Z -> A) (n i : Z) :
  0 <= i < n -> aget d (map f (seqZ 0 n)) i = f i.
Proof.
  intros Hi. unfold aget. destruct (decide (0 <= i)); [|lia].
  change (map f (seqZ 0 n)) with (f <$> seqZ 0 n).
  rewrite list_lookup_fmap, (lookup_seqZ_lt 0 n (Z.to_nat i)) by lia.
  simpl. f_equal. lia.
Qed.

(** C6.  For every graph a C [Graph] can hold, loading the bytes written by
    [graph_save] succeeds and yields a graph with the same [nodeCount], the
    same node in every slot below [nodeCount] (id, name, coordinates and
    [active] flag), the same [edgeCounts] and the same edge in every slot
    below the edge count of its node (from, to, weight and [active] flag);
    active and inactive entries alike are reproduced in place. *)
Theorem graph_save_load_roundtrip (g dst : Graph F) :
  storable g ->
  exists g',
    graph_load dst (Some (graph_save g)) = (true, g')
    /\ nodeCount g' = nodeCount g
    /\ (forall i, 0 <= i < nodeCount g -> node_at g' i = node_at g i)
    /\ (forall i, 0 <= i < MAX_NODES -> edgeCount_at g' i = edgeCount_at g i)
    /\ (forall i j, 0 <= i < nodeCount g -> 0 <= j < edgeCount_at g i ->
                     edge_at g' i j = edge_at g i j).
Proof.
  intros (Hcount & Hnodes & Hcounts & Hedges).
  pose proof dimensioned_graph_init as Hd0.
  unfold graph_load, graph_save.
  rewrite fread_exact by (try rewrite length_replicate; cbn; lia).
  cbv beta iota.
  destruct (decide (Z.of_nat 8 <> 8 \/ magic <> magic)) as [[Hbad|Hbad]|_];
    [lia|contradiction|].
  rewrite fread_exact by (rewrite ?length_int_bytes; lia).
  cbv beta iota.
  rewrite int_of_bytes_int_bytes by (unfold int_range, MAX_NODES in *; lia).
  destruct (decide (Z.of_nat 1 <> 1)) as [Hbad|_]; [lia|].
  cbn [set_nodeCount nodeCount].
  set (g1 := mkGraph (nodes graph_init) (nodeCount g) (edges graph_init)
                     (edgeCounts graph_init)).
  assert (dimensioned g1) as Hd1 by exact Hd0.
  rewrite (load_nodes g (seqZ 0 (nodeCount g)) g1) by assumption.
  destruct (store_nodes_spec g g1 (seqZ 0 (nodeCount g)))
    as (Hc2 & He2 & Hec2 & Hlen2 & Hn2).
  fold (store_nodes g g1 (seqZ 0 (nodeCount g))).
  set (g2 := store_nodes g g1 (seqZ 0 (nodeCount g))) in *.
  rewrite fread_exact.
  2:{ rewrite (length_flat_map_const _ _ 4) by (intros; apply length_int_bytes).
      rewrite length_seqZ. lia. }
  2:{ rewrite !(length_flat_map_const _ _ 4) by (intros; apply length_int_bytes).
      rewrite Hec2, length_seqZ. unfold g1, graph_init. cbn [edgeCounts].
      rewrite length_replicate. lia. }
  2:{ lia. }
  cbv beta iota.
  assert (ints_of_bytes (Z.to_nat MAX_NODES)
            (flat_map (fun i => int_bytes (edgeCount_at g i)) (seqZ 0 MAX_NODES))
          = map (edgeCount_at g) (seqZ 0 MAX_NODES)) as ->.
  { rewrite <- (flat_map_of_map (edgeCount_at g) int_bytes).
    replace (Z.to_nat MAX_NODES) with (length (map (edgeCount_at g) (seqZ 0 MAX_NODES)))
      by (rewrite length_map, length_seqZ; reflexivity).
    apply ints_of_bytes_flat_map. apply Forall_map. exact Hcounts. }
  cbn [nodeCount]. rewrite Hc2. unfold g1 at 1. cbn [nodeCount].
  set (g3 := mkGraph (nodes g2) (nodeCount g) (edges g2)
                     (map (edgeCount_at g) (seqZ 0 MAX_NODES))).
  assert (forall i, 0 <= i < MAX_NODES -> edgeCount_at g3 i = edgeCount_at g i) as Hec3.
  { intros i Hi. unfold edgeCount_at at 1, g3. cbn [edgeCounts].
    apply aget_map_seqZ, Hi. }
  assert (dimensioned g3) as Hd3.
  { destruct Hd1 as (Ha & Hb & Hc & Hdd). unfold dimensioned, g3, node_at.
    cbn [nodes edges]. rewrite Hlen2, He2.
    repeat split; try assumption.
    intros i. fold (node_at g2 i).
    destruct (decide (i ∈ seqZ 0 (nodeCount g)
                      /\ 0 <= i < Z.of_nat (length (nodes g1)))) as [[Hi Hr]|Hn].
    - rewrite Hn2 by assumption.
      destruct (Forall_elem _ _ i Hnodes Hi) as [_ ->]. lia.
    - unfold g2, store_nodes.
      apply (foldl_preserves _
        (fun a => (length (node_name (node_at a i)) <= Z.to_nat MAX_NAME_LENGTH)%nat)).
      + apply Hdd.
      + intros a x Hx Hle. rewrite node_at_set_node. destruct (decide _); [|exact Hle].
        destruct (Forall_elem _ _ x Hnodes Hx) as [_ ->]. lia. }
  match goal with |- context [foldl load_edges (?a, ?b) ?l] =>
    replace b with (b ++ []) by apply app_nil_r
  end.
  rewrite (load_rows g (seqZ 0 (nodeCount g)) g3).
  2:{ apply Forall_of_elem. intros i Hi.
      split; [|apply (Forall_elem _ _ i Hedges Hi)].
      apply Hec3. apply elem_of_seqZ_0 in Hi. lia. }
  destruct (store_rows_spec g g3 (seqZ 0 (nodeCount g)) Hd3) as (_ & Hn4 & Hc4 & He4).
  eexists. split; [reflexivity|].
  split; [exact Hc4|]. split; [|split].
  - intros i Hi. unfold node_at. rewrite Hn4. unfold g3. cbn [nodes].
    apply Hn2; [apply elem_of_seqZ_0; exact Hi|].
    destruct Hd1 as (Ha & _). lia.
  - intros i Hi. unfold edgeCount_at at 1. rewrite store_rows_edgeCounts.
    apply Hec3, Hi.
  - intros i j Hi Hj. apply He4; [apply elem_of_seqZ_0; exact Hi|lia|exact Hj|].
    destruct (Forall_elem _ _ i Hedges) as [Hle _]; [apply elem_of_seqZ_0; exact Hi|lia].
Qed.

End Roundtrip.

Lemma binary32_bytes_length (x : Binary32.t) : length (f_bytes x) = 4%nat.
Proof. destruct x as [[[b0 b1] b2] b3]. reflexivity. Qed.

Lemma binary32_of_bytes_bytes (x : Binary32.t) : f_of_bytes (f_bytes x) = x.
Proof. destruct x as [[[b0 b1] b2] b3]. reflexivity. Qed.

Lemma triangle_storable : storable Samples.triangle.
Proof.
  unfold storable, node_storable, edge_storable, int_range.
  repeat split; try (apply (bool_decide_unpack _); vm_compute; exact I).
Qed.

Lemma graph_save_load_roundtrip_witness :
  exists g',
    graph_load graph_init (Some (graph_save Samples.triangle)) = (true, g')
    /\ nodeCount g' = nodeCount Samples.triangle
    /\ (forall i, 0 <= i < nodeCount Samples.triangle ->
                  node_at g' i = node_at Samples.triangle i)
    /\ (forall i, 0 <= i < MAX_NODES ->
                  edgeCount_at g' i = edgeCount_at Samples.triangle i)
    /\ (forall i j, 0 <= i < nodeCount Samples.triangle ->
                    0 <= j < edgeCount_at Samples.triangle i ->
                    edge_at g' i j = edge_at Samples.triangle i j).
Proof.
  apply graph_save_load_roundtrip.
  - exact binary32_bytes_length.
  - exact binary32_of_bytes_bytes.
  - exact triangle_storable.
Defined.

(** ** Persistence: failures of [graph_load] *)

Section LoadFailures.
Context {F : Type} `{FloatOps F}.

(** A file that does not start with the eight magic bytes is rejected and
    the destination is left as it was. *)
Lemma graph_load_bad_magic (dst : Graph F) (file : list byte) :
  take 8 file <> magic -> graph_load dst (Some file) = (false, dst).
Proof.
  intros Hm. unfold graph_load, fread. cbv beta iota.
  destruct (decide _) as [_|Hok]; [reflexivity|].
  exfalso. apply Hok.
  destruct (decide (length (take 8 file) = 8%nat)) as [Hl|Hl].
  - right. change (1 * 8)%nat with 8%nat.
    rewrite drop_ge by (rewrite Hl, length_replicate; lia).
    rewrite app_nil_r. exact Hm.
  - left. change (1 * 8)%nat with 8%nat. rewrite Nat.div_1_r.
    pose proof (length_take_le file 8). lia.
Qed.

(** A file that ends within the node count is rejected. *)
Lemma graph_load_short_count (dst : Graph F) (rest : list byte) :
  (length rest < 4)%nat -> fst (graph_load dst (Some (magic ++ rest))) = false.
Proof.
  intros Hr. unfold graph_load.
  rewrite fread_exact by (try rewrite length_replicate; cbn; lia).
  cbv beta iota.
  destruct (decide (Z.of_nat 8 <> 8 \/ magic <> magic)) as [[Hbad|Hbad]|_];
    [lia|contradiction|].
  unfold fread. cbv beta iota.
  rewrite take_ge by lia.
  assert (length rest / 4 = 0)%nat as -> by (apply Nat.div_small; lia).
  destruct (decide (Z.of_nat 0 <> 1)) as [_|Hbad]; [reflexivity|lia].
Qed.

End LoadFailures.

(** C5 fails on the code.  The first twelve bytes of a saved three-node graph
    (magic and node count, every node record missing) make every later read
    short, yet [graph_load] returns [true]; the destination then claims three
    nodes and holds none. *)
Lemma graph_load_truncated_file :
  graph_load (F := Binary32.t) Samples.triangle
             (Some (take 12 (graph_save Samples.triangle)))
  = (true, set_nodeCount graph_init 3).
Proof. vm_compute. reflexivity. Qed.

(* ===================================================================== *)
(** ** The priority queue: shape and contents *)

Section QueueStructure.
Context {F : Type} `{FloatOps F}.

(** The entries in use: slots [0 .. size-1]. *)
Definition pq_entries (pq : PriorityQueue F) : list (PQNode F) :=
  take (Z.to_nat (pq_size pq)) (pq_nodes pq).

(** The slots in use lie within the allocated array, and so does every slot
    a push can claim. *)
Definition pq_wf (pq : PriorityQueue F) : Prop :=
  0 <= pq_size pq <= Z.of_nat (length (pq_nodes pq))
  /\ pq_capacity pq <= Z.of_nat (length (pq_nodes pq)).

Lemma pq_at_lookup (ns : list (PQNode F)) (i : Z) (e : PQNode F) :
  0 <= i -> ns !! Z.to_nat i = Some e -> pq_at ns i = e.
Proof.
  intros Hi He. unfold pq_at, aget. destruct (decide (0 <= i)); [|lia].
  rewrite He. reflexivity.
Qed.

Lemma lookup_pq_at (ns : list (PQNode F)) (i : Z) :
  0 <= i < Z.of_nat (length ns) -> ns !! Z.to_nat i = Some (pq_at ns i).
Proof.
  intros Hi. destruct (lookup_lt_is_Some_2 ns (Z.to_nat i)) as [e He]; [lia|].
  rewrite He. f_equal. symmetry. apply pq_at_lookup; [lia|exact He].
Qed.

Lemma length_pq_swap (ns : list (PQNode F)) (a b : Z) :
  length (pq_swap ns a b) = length ns.
Proof. unfold pq_swap. rewrite !length_aset. reflexivity. Qed.

Lemma pq_at_swap (ns : list (PQNode F)) (a b i : Z) :
  0 <= a < Z.of_nat (length ns) -> 0 <= b < Z.of_nat (length ns) ->
  pq_at (pq_swap ns a b) i
  = if decide (i = b) then pq_at ns a
    else if decide (i = a) then pq_at ns b
    else pq_at ns i.
Proof.
  intros Ha Hb. unfold pq_swap, pq_at. rewrite !aget_aset, !length_aset.
  repeat destruct (decide _); try reflexivity; lia.
Qed.

Lemma lookup_pq_swap (ns : list (PQNode F)) (a b : Z) (i : nat) :
  0 <= a < Z.of_nat (length ns) -> 0 <= b < Z.of_nat (length ns) ->
  pq_swap ns a b !! i
  = ns !! (if decide (i = Z.to_nat b) then Z.to_nat a
           else if decide (i = Z.to_nat a) then Z.to_nat b else i).
Proof.
  intros Ha Hb.
  destruct (decide (i < length ns)%nat) as [Hi|Hi].
  - assert (0 <= Z.of_nat i < Z.of_nat (length (pq_swap ns a b))) as Hi'
        by (rewrite length_pq_swap; lia).
    pose proof (lookup_pq_at _ _ Hi') as Hl. rewrite Nat2Z.id in Hl. rewrite Hl.
    rewrite pq_at_swap by assumption.
    destruct (decide (Z.of_nat i = b)) as [<-|Hib].
    + rewrite Nat2Z.id. destruct (decide (i = i)); [|contradiction].
      symmetry. apply lookup_pq_at, Ha.
    + destruct (decide (i = Z.to_nat b)); [lia|].
      destruct (decide (Z.of_nat i = a)) as [<-|Hia].
      * rewrite Nat2Z.id. destruct (decide (i = i)); [|contradiction].
        symmetry. apply lookup_pq_at, Hb.
      * destruct (decide (i = Z.to_nat a)); [lia|].
        symmetry. rewrite <- (Nat2Z.id i) at 1. apply lookup_pq_at. lia.
  - rewrite !(proj2 (lookup_ge_None _ _)); [reflexivity| |rewrite length_pq_swap; lia].
    repeat destruct (decide _); lia.
Qed.

(** Exchanging two slots in use permutes the entries in use. *)
Lemma take_pq_swap (ns : list (PQNode F)) (a b : Z) (n : nat) :
  0 <= a < Z.of_nat n -> 0 <= b < Z.of_nat n -> (n <= length ns)%nat ->
  take n (pq_swap ns a b) ≡ₚ take n ns.
Proof.
  intros Ha Hb Hn. apply Permutation_inj. split.
  - rewrite !length_take, length_pq_swap. reflexivity.
  - exists (fun i => if decide (i = Z.to_nat b) then Z.to_nat a
                     else if decide (i = Z.to_nat a) then Z.to_nat b else i).
    split.
    + intros i j. repeat destruct (decide _); lia.
    + intros i. rewrite !lookup_take, lookup_pq_swap by lia.
      repeat destruct (decide _); try reflexivity; lia.
Qed.

Lemma length_heapify_up_loop (fuel : nat) (ns : list (PQNode F)) (idx : Z) :
  length (heapify_up_loop fuel ns idx) = length ns.
Proof.
  revert ns idx. induction fuel as [|fuel IH]; intros ns idx; simpl; [reflexivity|].
  destruct (decide (idx > 0)); [|reflexivity].
  destruct (f_lt _ _); [|reflexivity].
  rewrite IH. apply length_pq_swap.
Qed.

Lemma take_heapify_up_loop (fuel : nat) (ns : list (PQNode F)) (idx : Z) (n : nat) :
  0 <= idx < Z.of_nat n -> (n <= length ns)%nat ->
  take n (heapify_up_loop fuel ns idx) ≡ₚ take n ns.
Proof.
  revert ns idx. induction fuel as [|fuel IH]; intros ns idx Hidx Hn; simpl;
    [reflexivity|].
  destruct (decide (idx > 0)); [|reflexivity].
  destruct (f_lt _ _); [|reflexivity].
  assert (0 <= (idx - 1) `quot` 2 < idx) as Hp by (split; [apply Z.quot_pos|apply Z.quot_lt_upper_bound]; lia).
  rewrite IH by (rewrite ?length_pq_swap; lia).
  apply take_pq_swap; lia.
Qed.

Lemma length_heapify_down_loop (fuel : nat) (size : Z) (ns : list (PQNode F)) (idx : Z) :
  length (heapify_down_loop fuel size ns idx) = length ns.
Proof.
  revert ns idx. induction fuel as [|fuel IH]; intros ns idx; simpl; [reflexivity|].
  destruct (decide _); [|reflexivity].
  rewrite IH. apply length_pq_swap.
Qed.

Lemma take_heapify_down_loop (fuel : nat) (size : Z) (ns : list (PQNode F)) (idx : Z) :
  0 <= idx < size -> size <= Z.of_nat (length ns) ->
  take (Z.to_nat size) (heapify_down_loop fuel size ns idx) ≡ₚ take (Z.to_nat size) ns.
Proof.
  revert ns idx. induction fuel as [|fuel IH]; intros ns idx Hidx Hn; simpl;
    [reflexivity|].
  match goal with |- context [decide (?s <> idx)] => set (smallest := s) end.
  assert (idx <= smallest < size) as Hs.
  { unfold smallest.
    destruct (bool_decide (2 * idx + 1 < size)) eqn:El;
      [apply bool_decide_eq_true in El|]; simpl;
    destruct (bool_decide (2 * idx + 2 < size)) eqn:Er;
      try (apply bool_decide_eq_true in Er); simpl;
    repeat destruct (f_lt _ _); simpl; lia. }
  destruct (decide (smallest <> idx)); [|reflexivity].
  rewrite IH by (rewrite ?length_pq_swap; lia).
  apply take_pq_swap; lia.
Qed.

End QueueStructure.

(* ===================================================================== *)
(** ** The priority queue: heap order *)

Definition pq_parent (i : Z) : Z := (i - 1) `quot` 2.

Lemma pq_parent_spec (i : Z) :
  0 < i -> i = 2 * pq_parent i + 1 \/ i = 2 * pq_parent i + 2.
Proof. intros Hi. unfold pq_parent. Z.to_euclidean_division_equations. lia. Qed.

Section QueueOrder.
Context {F : Type} `{FloatOps F}.

Definition pq_score (ns : list (PQNode F)) (i : Z) : F := pq_fScore (pq_at ns i).

(** [fScore[parent] <= fScore[child]] for every child slot in use. *)
Definition heap_ordered (ns : list (PQNode F)) (size : Z) : Prop :=
  forall i, 0 < i < size ->
            f_le (pq_score ns (pq_parent i)) (pq_score ns i) = true.

Definition pq_heap_ordered (pq : PriorityQueue F) : Prop :=
  heap_ordered (pq_nodes pq) (pq_size pq).

(** The scores on which [<] and [<=] behave as a total preorder and its
    strict part.  For binary32 these are the scores that are not NaN. *)
Variable ok : F -> Prop.
Hypothesis lt_le : forall a b, ok a -> ok b -> f_lt a b = negb (f_le b a).
Hypothesis le_total : forall a b, ok a -> ok b -> f_le a b = true \/ f_le b a = true.
Hypothesis le_trans :
  forall a b c, ok a -> ok b -> ok c ->
                f_le a b = true -> f_le b c = true -> f_le a c = true.

Definition all_ok (ns : list (PQNode F)) (size : Z) : Prop :=
  forall i, 0 <= i < size -> ok (pq_score ns i).

Lemma lt_true_le a b : ok a -> ok b -> f_lt a b = true -> f_le a b = true.
Proof.
  intros Ha Hb Hlt. rewrite lt_le in Hlt by assumption.
  destruct (le_total a b Ha Hb) as [Hab|Hba]; [exact Hab|].
  rewrite Hba in Hlt. discriminate.
Qed.

Lemma lt_false_le a b : ok a -> ok b -> f_lt a b = false -> f_le b a = true.
Proof.
  intros Ha Hb Hlt. rewrite lt_le in Hlt by assumption.
  destruct (f_le b a); [reflexivity|discriminate].
Qed.

Lemma le_refl a : ok a -> f_le a a = true.
Proof. intros Ha. destruct (le_total a a Ha Ha); assumption. Qed.

Lemma pq_score_swap (ns : list (PQNode F)) (a b i : Z) :
  0 <= a < Z.of_nat (length ns) -> 0 <= b < Z.of_nat (length ns) ->
  pq_score (pq_swap ns a b) i
  = if decide (i = b) then pq_score ns a
    else if decide (i = a) then pq_score ns b
    else pq_score ns i.
Proof.
  intros Ha Hb. unfold pq_score. rewrite pq_at_swap by assumption.
  repeat destruct (decide _); reflexivity.
Qed.

Lemma all_ok_swap (ns : list (PQNode F)) (size a b : Z) :
  size <= Z.of_nat (length ns) -> 0 <= a < size -> 0 <= b < size ->
  all_ok ns size -> all_ok (pq_swap ns a b) size.
Proof.
  intros Hn Ha Hb Hok i Hi. rewrite pq_score_swap by lia.
  repeat destruct (decide _); apply Hok; lia.
Qed.

(** Sifting up from [idx] restores the heap order when [idx] is the only
    slot that may be smaller than its parent. *)
Lemma heapify_up_ordered (fuel : nat) (ns : list (PQNode F)) (idx size : Z) :
  (Z.to_nat idx <= fuel)%nat ->
  0 <= idx < size -> size <= Z.of_nat (length ns) ->
  all_ok ns size ->
  (forall i, 0 < i < size -> i <> idx ->
             f_le (pq_score ns (pq_parent i)) (pq_score ns i) = true) ->
  (forall c, 0 < c < size -> pq_parent c = idx -> 0 < idx ->
             f_le (pq_score ns (pq_parent idx)) (pq_score ns c) = true) ->
  heap_ordered (heapify_up_loop fuel ns idx) size
  /\ all_ok (heapify_up_loop fuel ns idx) size.
Proof.
  revert ns idx. induction fuel as [|fuel IH]; intros ns idx Hfuel Hidx Hn Hok Hex Hgr.
  - simpl. split; [|exact Hok]. intros i Hi. apply Hex; lia.
  - simpl. destruct (decide (idx > 0)) as [Hpos|Hzero].
    2:{ split; [|exact Hok]. intros i Hi. apply Hex; lia. }
    fold (pq_parent idx). fold (pq_score ns idx). fold (pq_score ns (pq_parent idx)).
    pose proof (pq_parent_spec idx ltac:(lia)) as Hp.
    set (p := pq_parent idx) in *.
    assert (ok (pq_score ns idx)) as Hoi by (apply Hok; lia).
    assert (ok (pq_score ns p)) as Hop by (apply Hok; lia).
    destruct (f_lt (pq_score ns idx) (pq_score ns p)) eqn:Hlt.
    + apply lt_true_le in Hlt; [|assumption..].
      apply IH.
      * lia.
      * lia.
      * rewrite length_pq_swap. exact Hn.
      * apply all_ok_swap; [exact Hn|lia..|exact Hok].
      * intros i Hi Hip. rewrite !pq_score_swap by lia.
        pose proof (pq_parent_spec i ltac:(lia)) as Hq.
        destruct (decide (i = p)) as [|_]; [contradiction|].
        destruct (decide (i = idx)) as [->|Hii].
        -- fold p. destruct (decide (p = p)); [exact Hlt|contradiction].
        -- destruct (decide (pq_parent i = p)) as [Hqp|Hqp].
           ++ apply (le_trans _ (pq_score ns p)); try assumption.
              ** apply Hok; lia.
              ** rewrite <- Hqp. apply Hex; [lia|exact Hii].
           ++ destruct (decide (pq_parent i = idx)) as [Hqi|Hqi].
              ** apply Hgr; [lia|exact Hqi|lia].
              ** apply Hex; [lia|exact Hii].
      * intros c Hc Hcp Hppos. rewrite !pq_score_swap by lia.
        pose proof (pq_parent_spec p ltac:(lia)) as Hpp.
        destruct (decide (pq_parent p = p)) as [|_]; [lia|].
        destruct (decide (pq_parent p = idx)) as [|_]; [lia|].
        assert (f_le (pq_score ns (pq_parent p)) (pq_score ns p) = true) as Hpp_p
            by (apply Hex; lia).
        destruct (decide (c = p)) as [|_]; [pose proof (pq_parent_spec c); lia|].
        destruct (decide (c = idx)) as [_|Hci]; [exact Hpp_p|].
        apply (le_trans _ (pq_score ns p)); try assumption.
        -- apply Hok; lia.
        -- apply Hok; lia.
        -- rewrite <- Hcp. apply Hex; [lia|exact Hci].
    + apply lt_false_le in Hlt; [|assumption..].
      split; [|exact Hok]. intros i Hi.
      destruct (decide (i = idx)) as [->|Hii]; [exact Hlt|].
      apply Hex; [lia|exact Hii].
Qed.

(** Sifting down from [idx] restores the heap order when the children of
    [idx] are the only slots that may be smaller than their parent. *)
Lemma heapify_down_ordered (fuel : nat) (ns : list (PQNode F)) (idx size : Z) :
  (Z.to_nat (size - idx) <= fuel)%nat ->
  0 <= idx < size -> size <= Z.of_nat (length ns) ->
  all_ok ns size ->
  (forall i, 0 < i < size -> pq_parent i <> idx ->
             f_le (pq_score ns (pq_parent i)) (pq_score ns i) = true) ->
  (forall c, 0 < c < size -> pq_parent c = idx -> 0 < idx ->
             f_le (pq_score ns (pq_parent idx)) (pq_score ns c) = true) ->
  heap_ordered (heapify_down_loop fuel size ns idx) size
  /\ all_ok (heapify_down_loop fuel size ns idx) size.
Proof.
  revert ns idx. induction fuel as [|fuel IH]; intros ns idx Hfuel Hidx Hn Hok Hex Hgr.
  - lia.
  - cbn [heapify_down_loop].
    fold (pq_score ns (2 * idx + 1)). fold (pq_score ns idx).
    set (l := 2 * idx + 1). set (r := 2 * idx + 2).
    assert (forall i, 0 < i -> (pq_parent i = idx <-> i = l \/ i = r)) as Hkids.
    { intros i Hi. pose proof (pq_parent_spec i Hi). unfold l, r. lia. }
    assert (ok (pq_score ns idx)) as Hoi by (apply Hok; lia).
    (* the three ways the comparisons can come out *)
    assert ((forall c, 0 < c < size -> pq_parent c = idx ->
                       f_le (pq_score ns idx) (pq_score ns c) = true)
            -> heap_ordered ns size) as Hdone.
    { intros Hc i Hi. destruct (decide (pq_parent i = idx)) as [Hpi|Hpi].
      - rewrite Hpi. apply Hc; assumption.
      - apply Hex; assumption. }
    assert (forall s o, (s = l /\ o = r \/ s = r /\ o = l) -> s < size ->
              f_le (pq_score ns s) (pq_score ns idx) = true ->
              (o < size -> f_le (pq_score ns s) (pq_score ns o) = true) ->
              heap_ordered (heapify_down_loop fuel size (pq_swap ns idx s) s) size
              /\ all_ok (heapify_down_loop fuel size (pq_swap ns idx s) s) size) as Hswap.
    { intros s o Hso Hs Hsi Hsib.
      assert (idx < s /\ 0 < s /\ pq_parent s = idx) as (Hlt & Hspos & Hps)
          by (split; [unfold l, r in *; lia|split; [unfold l, r in *; lia|]];
              apply Hkids; [unfold l, r in *|]; lia).
      apply IH.
      - lia.
      - lia.
      - rewrite length_pq_swap. exact Hn.
      - apply all_ok_swap; [exact Hn|lia..|exact Hok].
      - intros i Hi Hpi. rewrite !pq_score_swap by lia.
        pose proof (pq_parent_spec i ltac:(lia)) as Hq.
        destruct (decide (pq_parent i = s)) as [|_]; [contradiction|].
        destruct (decide (i = s)) as [->|His].
        + rewrite Hps. destruct (decide (idx = idx)); [exact Hsi|contradiction].
        + destruct (decide (pq_parent i = idx)) as [Hpidx|Hpidx].
          * assert (i = o) as -> by (apply Hkids in Hpidx; lia).
            destruct (decide (o = idx)) as [|_]; [lia|]. apply Hsib. lia.
          * destruct (decide (i = idx)) as [->|Hii].
            -- apply Hgr; [lia|exact Hps|lia].
            -- apply Hex; [lia|exact Hpidx].
      - intros c Hc Hcp _. rewrite !pq_score_swap by lia.
        rewrite Hps. destruct (decide (idx = s)) as [|_]; [lia|].
        destruct (decide (idx = idx)) as [_|]; [|contradiction].
        pose proof (pq_parent_spec c ltac:(lia)) as Hcc.
        destruct (decide (c = s)) as [|_]; [lia|].
        destruct (decide (c = idx)) as [|_]; [lia|].
        rewrite <- Hcp. apply Hex; [lia|lia]. }
    destruct (bool_decide (l < size)) eqn:El;
      [apply bool_decide_eq_true in El|apply bool_decide_eq_false in El]; cbn [andb].
    + assert (ok (pq_score ns l)) as Hol by (apply Hok; unfold l in *; lia).
      destruct (f_lt (pq_score ns l) (pq_score ns idx)) eqn:Hl.
      * apply lt_true_le in Hl; [|assumption..].
        fold (pq_score ns r). fold (pq_score ns l).
        destruct (bool_decide (r < size)) eqn:Er;
          [apply bool_decide_eq_true in Er|apply bool_decide_eq_false in Er]; cbn [andb].
        -- assert (ok (pq_score ns r)) as Hor by (apply Hok; unfold r in *; lia).
           destruct (f_lt (pq_score ns r) (pq_score ns l)) eqn:Hr.
           ++ apply lt_true_le in Hr; [|assumption..].
              destruct (decide (r <> idx)) as [_|Hbad]; [|unfold r in *; lia].
              apply (Hswap r l); [auto|exact Er| |intros _; exact Hr].
              apply (le_trans _ (pq_score ns l)); assumption.
           ++ apply lt_false_le in Hr; [|assumption..].
              destruct (decide (l <> idx)) as [_|Hbad]; [|unfold l in *; lia].
              apply (Hswap l r); [auto|exact El|exact Hl|intros _; exact Hr].
        -- destruct (decide (l <> idx)) as [_|Hbad]; [|unfold l in *; lia].
           apply (Hswap l r); [auto|exact El|exact Hl|intros Hbad; lia].
      * apply lt_false_le in Hl; [|assumption..].
        fold (pq_score ns r). fold (pq_score ns idx).
        destruct (bool_decide (r < size)) eqn:Er;
          [apply bool_decide_eq_true in Er|apply bool_decide_eq_false in Er]; cbn [andb].
        -- assert (ok (pq_score ns r)) as Hor by (apply Hok; unfold r in *; lia).
           destruct (f_lt (pq_score ns r) (pq_score ns idx)) eqn:Hr.
           ++ apply lt_true_le in Hr; [|assumption..].
              destruct (decide (r <> idx)) as [_|Hbad]; [|unfold r in *; lia].
              apply (Hswap r l); [auto|exact Er|exact Hr|intros _].
              apply (le_trans _ (pq_score ns idx)); assumption.
           ++ apply lt_false_le in Hr; [|assumption..].
              destruct (decide (idx <> idx)) as [Hbad|_]; [contradiction|].
              split; [|exact Hok]. apply Hdone. intros c Hc Hpc.
              apply Hkids in Hpc as [->| ->]; [exact Hl|exact Hr|lia].
        -- destruct (decide (idx <> idx)) as [Hbad|_]; [contradiction|].
           split; [|exact Hok]. apply Hdone. intros c Hc Hpc.
           apply Hkids in Hpc as [->| ->]; [exact Hl|lia|lia].
    + fold (pq_score ns r). fold (pq_score ns idx).
      assert (bool_decide (r < size) = false) as ->
          by (apply bool_decide_eq_false; unfold l, r in *; lia).
      cbn [andb].
      destruct (decide (idx <> idx)) as [Hbad|_]; [contradiction|].
      split; [|exact Hok]. apply Hdone. intros c Hc Hpc.
      apply Hkids in Hpc as [->| ->]; unfold l, r in *; lia.
Qed.

(** The fuel given to the sifting loops is never used up: any larger
    amount yields the same array. *)
Lemma heapify_up_loop_fuel (fuel1 fuel2 : nat) (ns : list (PQNode F)) (idx : Z) :
  (Z.to_nat idx <= fuel1)%nat -> (Z.to_nat idx <= fuel2)%nat ->
  heapify_up_loop fuel1 ns idx = heapify_up_loop fuel2 ns idx.
Proof.
  revert fuel2 ns idx. induction fuel1 as [|fuel1 IH]; intros fuel2 ns idx H1 H2.
  - destruct fuel2 as [|fuel2]; [reflexivity|]. simpl.
    destruct (decide (idx > 0)); [lia|reflexivity].
  - destruct fuel2 as [|fuel2]; simpl.
    + destruct (decide (idx > 0)); [lia|reflexivity].
    + destruct (decide (idx > 0)); [|reflexivity].
      destruct (f_lt _ _); [|reflexivity].
      pose proof (pq_parent_spec idx ltac:(lia)). unfold pq_parent in *.
      apply IH; lia.
Qed.

Lemma heapify_down_loop_fuel (fuel1 fuel2 : nat) (size : Z) (ns : list (PQNode F))
      (idx : Z) :
  0 <= idx ->
  (Z.to_nat (size - idx) <= fuel1)%nat -> (Z.to_nat (size - idx) <= fuel2)%nat ->
  heapify_down_loop fuel1 size ns idx = heapify_down_loop fuel2 size ns idx.
Proof.
  assert (forall fuel ns idx, 0 <= idx -> size <= idx ->
                              heapify_down_loop fuel size ns idx = ns) as Hend.
  { intros [|fuel] ns' idx' Hi Hs; [reflexivity|]. cbn [heapify_down_loop].
    rewrite !(bool_decide_eq_false_2 (_ < size)) by lia. cbn [andb].
    destruct (decide (idx' <> idx')); [contradiction|reflexivity]. }
  revert fuel2 ns idx. induction fuel1 as [|fuel1 IH]; intros fuel2 ns idx Hi H1 H2.
  - rewrite !Hend by lia. reflexivity.
  - destruct fuel2 as [|fuel2]; [rewrite !Hend by lia; reflexivity|].
    cbn [heapify_down_loop].
    match goal with |- context [decide (?s <> idx)] => set (smallest := s) end.
    assert (smallest = idx \/ (idx < smallest /\ smallest < size)) as Hs.
    { unfold smallest.
      destruct (bool_decide (2 * idx + 1 < size)) eqn:El;
        [apply bool_decide_eq_true in El|]; cbn [andb];
      destruct (bool_decide (2 * idx + 2 < size)) eqn:Er;
        try (apply bool_decide_eq_true in Er); cbn [andb];
      repeat destruct (f_lt _ _); lia. }
    destruct (decide (smallest <> idx)); [|reflexivity].
    apply IH; lia.
Qed.

(** *** The three operations keep a well-formed, ordered queue *)

Definition pq_good (pq : PriorityQueue F) : Prop :=
  pq_wf pq /\ pq_heap_ordered pq /\ all_ok (pq_nodes pq) (pq_size pq).

Lemma pq_create_good (capacity : Z) : pq_good (pq_create capacity).
Proof.
  unfold pq_good, pq_wf, pq_heap_ordered, heap_ordered, all_ok, pq_create.
  cbn [pq_nodes pq_size pq_capacity]. rewrite length_replicate.
  repeat split; intros; lia.
Qed.

Lemma pq_score_aset (ns : list (PQNode F)) (i j : Z) (e : PQNode F) :
  pq_score (aset ns i e) j
  = if decide (i = j /\ 0 <= i < Z.of_nat (length ns)) then pq_fScore e
    else pq_score ns j.
Proof. unfold pq_score, pq_at. rewrite aget_aset. destruct (decide _); reflexivity. Qed.

Lemma pq_push_good (pq : PriorityQueue F) (nodeId : Z) (fScore : F) :
  pq_good pq -> ok fScore -> pq_good (snd (pq_push pq nodeId fScore)).
Proof.
  intros ([Hsz Hcap] & Hord & Hok) Hs. unfold pq_push.
  destruct (decide (pq_size pq >= pq_capacity pq)) as [|Hroom];
    [cbn [snd]; repeat split; try assumption; lia|].
  unfold pq_heapify_up. cbn [snd pq_nodes pq_size pq_capacity].
  set (ns1 := aset (pq_nodes pq) (pq_size pq) (mkPQNode nodeId fScore)).
  destruct (heapify_up_ordered (Z.to_nat (pq_size pq)) ns1 (pq_size pq) (pq_size pq + 1))
    as [Hord' Hok'].
  - lia.
  - lia.
  - unfold ns1. rewrite length_aset. lia.
  - intros i Hi. unfold ns1. rewrite pq_score_aset.
    destruct (decide _); [exact Hs|]. apply Hok. lia.
  - intros i Hi Hne. unfold ns1. rewrite !pq_score_aset.
    pose proof (pq_parent_spec i ltac:(lia)).
    destruct (decide _); [lia|]. destruct (decide _); [lia|].
    apply Hord. lia.
  - intros c Hc Hp _. pose proof (pq_parent_spec c ltac:(lia)). lia.
  - repeat split; cbn [pq_nodes pq_size pq_capacity];
      rewrite ?length_heapify_up_loop; unfold ns1; rewrite ?length_aset;
      try lia; assumption.
Qed.

Lemma pq_pop_good (pq : PriorityQueue F) (nodeId : Z) (fScore : F)
      (pq' : PriorityQueue F) :
  pq_good pq -> pq_pop pq = Some (nodeId, fScore, pq') -> pq_good pq'.
Proof.
  intros ([Hsz Hcap] & Hord & Hok). unfold pq_pop.
  destruct (decide (pq_size pq = 0)) as [|Hne]; [discriminate|].
  cbn [pq_nodes pq_size pq_capacity]. intros Heq. injection Heq as _ _ <-.
  destruct (decide (pq_size pq - 1 > 0)) as [Hpos|Hzero].
  - unfold pq_heapify_down. cbn [pq_nodes pq_size pq_capacity].
    set (ns1 := aset (pq_nodes pq) 0 (pq_at (pq_nodes pq) (pq_size pq - 1))).
    destruct (heapify_down_ordered (Z.to_nat (pq_size pq - 1)) ns1 0 (pq_size pq - 1))
      as [Hord' Hok'].
    + lia.
    + lia.
    + unfold ns1. rewrite length_aset. lia.
    + intros i Hi. unfold ns1. rewrite pq_score_aset.
      destruct (decide _); [apply Hok|apply Hok]; lia.
    + intros i Hi Hp. unfold ns1. rewrite !pq_score_aset.
      pose proof (pq_parent_spec i ltac:(lia)).
      destruct (decide _); [lia|]. destruct (decide _); [lia|].
      apply Hord. lia.
    + intros c Hc Hp Hbad. lia.
    + repeat split; cbn [pq_nodes pq_size pq_capacity];
        rewrite ?length_heapify_down_loop; unfold ns1; rewrite ?length_aset;
        try lia; assumption.
  - repeat split; cbn [pq_nodes pq_size pq_capacity]; try lia.
    + intros i Hi. cbn [pq_size] in Hi. lia.
    + intros i Hi. lia.
Qed.

Lemma pq_find_Some (pq : PriorityQueue F) (nodeId i : Z) :
  pq_find pq nodeId = Some i ->
  0 <= i < pq_size pq /\ pq_nodeId (pq_at (pq_nodes pq) i) = nodeId.
Proof.
  unfold pq_find. intros Hf. apply find_some in Hf as [Hin Hb].
  apply list_elem_of_In, elem_of_seqZ_0 in Hin.
  apply bool_decide_eq_true in Hb. split; assumption.
Qed.

Lemma pq_decrease_priority_good (pq : PriorityQueue F) (nodeId : Z) (newFScore : F) :
  pq_good pq -> ok newFScore -> pq_good (pq_decrease_priority pq nodeId newFScore).
Proof.
  intros Hgood Hs. unfold pq_decrease_priority.
  destruct (pq_find pq nodeId) as [i|] eqn:Hfind; [|apply pq_push_good; assumption].
  apply pq_find_Some in Hfind as [Hi _].
  destruct Hgood as ([Hsz Hcap] & Hord & Hok).
  fold (pq_score (pq_nodes pq) i).
  destruct (f_lt newFScore (pq_score (pq_nodes pq) i)) eqn:Hlt;
    [|repeat split; try assumption; lia].
  apply lt_true_le in Hlt; [|exact Hs|apply Hok; lia].
  unfold pq_heapify_up. cbn [pq_nodes pq_size pq_capacity].
  set (ns1 := aset (pq_nodes pq) i _).
  assert (forall j, pq_score ns1 j
                    = if decide (j = i) then newFScore else pq_score (pq_nodes pq) j)
    as Hsc.
  { intros j. unfold ns1. rewrite pq_score_aset. cbn [pq_fScore].
    repeat destruct (decide _); try reflexivity; lia. }
  destruct (heapify_up_ordered (Z.to_nat i) ns1 i (pq_size pq)) as [Hord' Hok'].
  - lia.
  - lia.
  - unfold ns1. rewrite length_aset. lia.
  - intros j Hj. rewrite Hsc. destruct (decide _); [exact Hs|apply Hok, Hj].
  - intros j Hj Hne. rewrite !Hsc.
    pose proof (pq_parent_spec j ltac:(lia)).
    destruct (decide (j = i)); [contradiction|].
    destruct (decide (pq_parent j = i)) as [Hp|Hp].
    + apply (le_trans _ (pq_score (pq_nodes pq) i)); try assumption.
      * apply Hok; lia.
      * apply Hok; lia.
      * rewrite <- Hp. apply Hord. lia.
    + apply Hord. lia.
  - intros c Hc Hp Hpos. rewrite !Hsc.
    pose proof (pq_parent_spec c ltac:(lia)). pose proof (pq_parent_spec i Hpos).
    destruct (decide (pq_parent i = i)); [lia|].
    destruct (decide (c = i)); [lia|].
    apply (le_trans _ (pq_score (pq_nodes pq) i)).
    + apply Hok; lia.
    + apply Hok; lia.
    + apply Hok; lia.
    + apply Hord. lia.
    + rewrite <- Hp. apply Hord. lia.
  - repeat split; cbn [pq_nodes pq_size pq_capacity];
      rewrite ?length_heapify_up_loop; unfold ns1; rewrite ?length_aset;
      try lia; assumption.
Qed.

End QueueOrder.

(** *** Sequences of queue operations *)

Inductive PQOp (F : Type) :=
| PushOp (nodeId : Z) (fScore : F)
| PopOp
| DecreaseOp (nodeId : Z) (newFScore : F).
Arguments PushOp {F}.
Arguments PopOp {F}.
Arguments DecreaseOp {F}.

Definition pq_apply {F} `{FloatOps F} (pq : PriorityQueue F) (op : PQOp F)
  : PriorityQueue F :=
  match op with
  | PushOp nodeId fScore => snd (pq_push pq nodeId fScore)
  | PopOp => match pq_pop pq with
             | Some (_, _, pq') => pq'
             | None => pq
             end
  | DecreaseOp nodeId newFScore => pq_decrease_priority pq nodeId newFScore
  end.

Definition pq_run {F} `{FloatOps F} (ops : list (PQOp F)) (pq : PriorityQueue F)
  : PriorityQueue F :=
  foldl pq_apply pq ops.

Definition op_scores {F} (P : F -> Prop) (op : PQOp F) : Prop :=
  match op with
  | PushOp _ fScore => P fScore
  | PopOp => True
  | DecreaseOp _ newFScore => P newFScore
  end.

Section QueueRuns.
Context {F : Type} `{FloatOps F}.
Variable ok : F -> Prop.
Hypothesis lt_le : forall a b, ok a -> ok b -> f_lt a b = negb (f_le b a).
Hypothesis le_total : forall a b, ok a -> ok b -> f_le a b = true \/ f_le b a = true.
Hypothesis le_trans :
  forall a b c, ok a -> ok b -> ok c ->
                f_le a b = true -> f_le b c = true -> f_le a c = true.

Lemma pq_apply_good (pq : PriorityQueue F) (op : PQOp F) :
  pq_good ok pq -> op_scores ok op -> pq_good ok (pq_apply pq op).
Proof.
  intros Hgood Hop. destruct op as [nodeId fScore| |nodeId newFScore]; simpl.
  - apply pq_push_good; assumption.
  - destruct (pq_pop pq) as [[[nodeId fScore] pq']|] eqn:Hpop; [|exact Hgood].
    eapply pq_pop_good; eassumption.
  - apply pq_decrease_priority_good; assumption.
Qed.

Lemma pq_run_good (ops : list (PQOp F)) (pq : PriorityQueue F) :
  pq_good ok pq -> Forall (op_scores ok) ops -> pq_good ok (pq_run ops pq).
Proof.
  intros Hgood Hops. revert pq Hgood.
  induction Hops as [|op ops Hop _ IH]; intros pq Hgood; [exact Hgood|].
  simpl. apply IH. apply pq_apply_good; assumption.
Qed.

(** C9 (as amended).  Start from an empty queue of any capacity and run any
    sequence of [pq_push], [pq_pop] and [pq_decrease_priority] whose scores
    are comparable (on which [<=] is a total preorder with [<] as its strict
    part; for binary32: scores that are not NaN).  After every operation of
    the sequence, [fScore[parent] <= fScore[child]] holds for every child
    slot in use. *)
Theorem pq_operations_keep_heap_order (capacity : Z) (ops : list (PQOp F)) :
  Forall (op_scores ok) ops ->
  forall k : nat, pq_heap_ordered (pq_run (take k ops) (pq_create capacity)).
Proof.
  intros Hops k.
  apply (pq_run_good (take k ops) (pq_create capacity)).
  - apply pq_create_good.
  - apply Forall_take, Hops.
Qed.

End QueueRuns.

(** *** binary32: the scores that are not NaN are comparable *)

Ltac compare_cases :=
  repeat match goal with
  | |- context [Z.compare ?a ?b] => destruct (Z.compare_spec a b); subst
  | H : context [Z.compare ?a ?b] |- _ => destruct (Z.compare_spec a b); subst
  | |- context [Pos.compare_cont Eq ?a ?b] =>
      change (Pos.compare_cont Eq a b) with (Pos.compare a b)
  | H : context [Pos.compare_cont Eq ?a ?b] |- _ =>
      change (Pos.compare_cont Eq a b) with (Pos.compare a b) in H
  | |- context [Pos.compare ?a ?b] => destruct (Pos.compare_spec a b); subst
  | H : context [Pos.compare ?a ?b] |- _ => destruct (Pos.compare_spec a b); subst
  end.

Lemma SFltb_SFleb (x y : spec_float) :
  x <> S754_nan -> y <> S754_nan -> SFltb x y = negb (SFleb y x).
Proof.
  unfold SFltb, SFleb, SFcompare. intros Hx Hy.
  destruct x as [[]|[]| |[] mx ex], y as [[]|[]| |[] my ey];
    try congruence; try reflexivity; cbn -[Z.compare Pos.compare];
    compare_cases; simpl; try reflexivity; try lia.
Qed.

Lemma SFleb_total (x y : spec_float) :
  x <> S754_nan -> y <> S754_nan -> SFleb x y = true \/ SFleb y x = true.
Proof.
  unfold SFleb, SFcompare. intros Hx Hy.
  destruct x as [[]|[]| |[] mx ex], y as [[]|[]| |[] my ey];
    try congruence; auto; cbn -[Z.compare Pos.compare];
    compare_cases; simpl; auto; try lia.
Qed.

Lemma SFleb_trans (x y z : spec_float) :
  x <> S754_nan -> y <> S754_nan -> z <> S754_nan ->
  SFleb x y = true -> SFleb y z = true -> SFleb x z = true.
Proof.
  unfold SFleb, SFcompare. intros Hx Hy Hz.
  destruct x as [[]|[]| |[] mx ex], y as [[]|[]| |[] my ey], z as [[]|[]| |[] mz ez];
    try congruence; try reflexivity; cbn -[Z.compare Pos.compare];
    try discriminate; intros H1 H2;
    compare_cases; simpl in *; try reflexivity; try discriminate; try lia.
Qed.

Definition not_nan (a : Binary32.t) : Prop := Binary32.is_nan a = false.

Lemma not_nan_decode (a : Binary32.t) : not_nan a -> Binary32.decode a <> S754_nan.
Proof. unfold not_nan, Binary32.is_nan. intros Ha Hd. rewrite Hd in Ha. discriminate. Qed.

Lemma binary32_lt_le (a b : Binary32.t) :
  not_nan a -> not_nan b -> f_lt a b = negb (f_le b a).
Proof. intros Ha Hb. apply SFltb_SFleb; apply not_nan_decode; assumption. Qed.

Lemma binary32_le_total (a b : Binary32.t) :
  not_nan a -> not_nan b -> f_le a b = true \/ f_le b a = true.
Proof. intros Ha Hb. apply SFleb_total; apply not_nan_decode; assumption. Qed.

Lemma binary32_le_trans (a b c : Binary32.t) :
  not_nan a -> not_nan b -> not_nan c ->
  f_le a b = true -> f_le b c = true -> f_le a c = true.
Proof. intros Ha Hb Hc. apply SFleb_trans; apply not_nan_decode; assumption. Qed.

(** C9, as stated, fails: push a NaN score, then the score 1.0.  The root
    holds the NaN and [fScore[0] <= fScore[1]] is false. *)
Lemma pq_push_nan_breaks_heap_order :
  ~ pq_heap_ordered
      (pq_run [PushOp 0 Binary32.nan; PushOp 1 Binary32.one] (pq_create 4)).
Proof.
  intros Hord. specialize (Hord 1). vm_compute in Hord.
  assert (false = true) as Hbad by (apply Hord; split; reflexivity).
  discriminate Hbad.
Qed.

Lemma pq_operations_keep_heap_order_witness :
  pq_heap_ordered
    (pq_run (take 4 [PushOp 0 (Samples.flt 5); PushOp 1 (Samples.flt 3);
                     DecreaseOp 0 (Samples.flt 1); PopOp])
            (pq_create 4)).
Proof.
  apply (pq_operations_keep_heap_order not_nan).
  - exact binary32_lt_le.
  - exact binary32_le_total.
  - exact binary32_le_trans.
  - repeat constructor.
Defined.

(* ===================================================================== *)
(** ** The priority queue: what the operations do to the entries *)

Section QueueContents.
Context {F : Type} `{FloatOps F}.

Lemma pq_push_rejects (pq : PriorityQueue F) (nodeId : Z) (fScore : F) :
  pq_size pq >= pq_capacity pq -> pq_push pq nodeId fScore = (false, pq).
Proof.
  intros Hfull. unfold pq_push.
  destruct (decide (pq_size pq >= pq_capacity pq)); [reflexivity|lia].
Qed.

Lemma pq_push_accepts (pq : PriorityQueue F) (nodeId : Z) (fScore : F) :
  pq_wf pq -> pq_size pq < pq_capacity pq ->
  exists pq',
    pq_push pq nodeId fScore = (true, pq')
    /\ pq_wf pq'
    /\ pq_size pq' = pq_size pq + 1
    /\ pq_capacity pq' = pq_capacity pq
    /\ pq_entries pq' ≡ₚ mkPQNode nodeId fScore :: pq_entries pq.
Proof.
  intros [Hsz Hcap] Hroom. unfold pq_push.
  destruct (decide (pq_size pq >= pq_capacity pq)); [lia|].
  eexists. split; [reflexivity|].
  unfold pq_wf, pq_entries, pq_heapify_up. cbn [pq_nodes pq_size pq_capacity].
  rewrite length_heapify_up_loop, length_aset.
  split; [lia|]. split; [reflexivity|]. split; [reflexivity|].
  rewrite take_heapify_up_loop by (rewrite ?length_aset; lia).
  replace (Z.to_nat (pq_size pq + 1)) with (S (Z.to_nat (pq_size pq))) by lia.
  rewrite (take_S_r _ _ (mkPQNode nodeId fScore)).
  - unfold aset. destruct (decide (0 <= pq_size pq)); [|lia].
    rewrite take_insert_ge by lia. rewrite Permutation_app_comm. reflexivity.
  - unfold aset. destruct (decide (0 <= pq_size pq)); [|lia].
    apply list_lookup_insert_eq. lia.
Qed.

Lemma pq_pop_None (pq : PriorityQueue F) : pq_size pq = 0 -> pq_pop pq = None.
Proof.
  intros Hz. unfold pq_pop. destruct (decide (pq_size pq = 0)); [reflexivity|lia].
Qed.

Lemma pq_pop_Some (pq : PriorityQueue F) :
  pq_wf pq -> 0 < pq_size pq ->
  exists pq',
    pq_pop pq = Some (pq_nodeId (pq_at (pq_nodes pq) 0),
                      pq_fScore (pq_at (pq_nodes pq) 0), pq')
    /\ pq_wf pq'
    /\ pq_size pq' = pq_size pq - 1
    /\ pq_capacity pq' = pq_capacity pq
    /\ pq_entries pq ≡ₚ pq_at (pq_nodes pq) 0 :: pq_entries pq'.
Proof.
  intros [Hsz Hcap] Hpos. unfold pq_pop.
  destruct (decide (pq_size pq = 0)); [lia|].
  eexists. split; [reflexivity|].
  cbn [pq_nodes pq_size pq_capacity].
  assert (pq_entries pq
          = take (Z.to_nat (pq_size pq - 1)) (pq_nodes pq)
              ++ [pq_at (pq_nodes pq) (pq_size pq - 1)]) as Hlast.
  { unfold pq_entries.
    replace (Z.to_nat (pq_size pq)) with (S (Z.to_nat (pq_size pq - 1))) by lia.
    apply take_S_r. apply lookup_pq_at. lia. }
  destruct (decide (pq_size pq - 1 > 0)) as [Hmore|Hone].
  - unfold pq_wf, pq_entries at 2, pq_heapify_down. cbn [pq_nodes pq_size pq_capacity].
    rewrite length_heapify_down_loop, length_aset.
    split; [lia|]. split; [reflexivity|]. split; [reflexivity|].
    rewrite take_heapify_down_loop by (rewrite ?length_aset; lia).
    rewrite Hlast.
    destruct (take (Z.to_nat (pq_size pq - 1)) (pq_nodes pq)) as [|root rest] eqn:Htake.
    { apply (f_equal length) in Htake. rewrite length_take in Htake. simpl in Htake. lia. }
    assert (pq_at (pq_nodes pq) 0 = root) as ->.
    { apply pq_at_lookup; [lia|].
      rewrite <- (lookup_take_lt _ (Z.to_nat (pq_size pq - 1))) by lia.
      rewrite Htake. reflexivity. }
    unfold aset. destruct (decide (0 <= 0)); [|lia].
    rewrite take_insert_lt by lia. rewrite Htake. simpl.
    apply perm_skip. rewrite Permutation_app_comm. reflexivity.
  - unfold pq_wf, pq_entries at 2. cbn [pq_nodes pq_size pq_capacity].
    split; [lia|]. split; [reflexivity|]. split; [reflexivity|].
    rewrite Hlast. replace (pq_size pq - 1) with 0 by lia. reflexivity.
Qed.

Lemma pq_entries_lookup (pq : PriorityQueue F) (i : Z) :
  pq_wf pq -> 0 <= i < pq_size pq ->
  pq_entries pq !! Z.to_nat i = Some (pq_at (pq_nodes pq) i).
Proof.
  intros [Hsz _] Hi. unfold pq_entries.
  rewrite lookup_take_lt by lia. apply lookup_pq_at. lia.
Qed.

Lemma length_pq_entries (pq : PriorityQueue F) :
  pq_wf pq -> Z.of_nat (length (pq_entries pq)) = pq_size pq.
Proof. intros [Hsz _]. unfold pq_entries. rewrite length_take. lia. Qed.

(** The scan of [pq_decrease_priority] finds a node exactly when some entry
    in use carries its id. *)
Lemma pq_find_is_Some (pq : PriorityQueue F) (nodeId : Z) :
  pq_wf pq ->
  is_Some (pq_find pq nodeId) <-> nodeId ∈ pq_nodeId <$> pq_entries pq.
Proof.
  intros Hwf. split.
  - intros [i Hi]. apply pq_find_Some in Hi as [Hi <-].
    apply list_elem_of_fmap_2. eapply list_elem_of_lookup_2.
    apply pq_entries_lookup; assumption.
  - intros Hin. apply list_elem_of_fmap in Hin as (e & -> & He).
    apply list_elem_of_lookup_1 in He as [k Hk].
    assert (Z.of_nat k < pq_size pq) as Hlt.
    { apply lookup_lt_Some in Hk. rewrite <- length_pq_entries by exact Hwf. lia. }
    destruct (pq_find pq (pq_nodeId e)) as [i|] eqn:Hfind; [eexists; reflexivity|].
    exfalso. unfold pq_find in Hfind.
    pose proof (find_none _ _ Hfind (Z.of_nat k)) as Hnone.
    rewrite bool_decide_eq_false in Hnone. apply Hnone.
    + apply list_elem_of_In, elem_of_seqZ_0. lia.
    + f_equal. apply pq_at_lookup; [lia|]. rewrite Nat2Z.id.
      unfold pq_entries in Hk. rewrite lookup_take_lt in Hk by lia. exact Hk.
Qed.

Lemma pq_decrease_priority_present (pq : PriorityQueue F) (nodeId i : Z) (s : F) :
  pq_wf pq -> pq_find pq nodeId = Some i ->
  let pq' := pq_decrease_priority pq nodeId s in
  pq_wf pq' /\ pq_size pq' = pq_size pq /\ pq_capacity pq' = pq_capacity pq
  /\ if f_lt s (pq_fScore (pq_at (pq_nodes pq) i))
     then pq_entries pq' ≡ₚ <[Z.to_nat i := mkPQNode nodeId s]> (pq_entries pq)
     else pq' = pq.
Proof.
  intros Hwf Hfind. unfold pq_decrease_priority. rewrite Hfind.
  pose proof (pq_find_Some _ _ _ Hfind) as [Hi Hid].
  destruct Hwf as [Hsz Hcap].
  destruct (f_lt s (pq_fScore (pq_at (pq_nodes pq) i))); cbn zeta;
    [|repeat split; try assumption; lia].
  unfold pq_wf, pq_entries, pq_heapify_up. cbn [pq_nodes pq_size pq_capacity].
  rewrite length_heapify_up_loop, length_aset.
  split; [lia|]. split; [reflexivity|]. split; [reflexivity|].
  rewrite take_heapify_up_loop by (rewrite ?length_aset; lia).
  rewrite Hid. unfold aset. destruct (decide (0 <= i)); [|lia].
  rewrite take_insert_lt by lia. reflexivity.
Qed.

End QueueContents.

(* ===================================================================== *)
(** ** The search: the open set, the closed set and the queue *)

(** The ids handed to [pq_push], in order. *)
Definition pushes (calls : list QueueCall) : list Z :=
  flat_map (fun c => match c with QPush nodeId _ _ => [nodeId] | _ => [] end) calls.

(** A queue call that went as the search expects: a push was accepted and
    left at most [nodeCount] entries; [pq_decrease_priority] found the node
    in the queue (and so did not push it a second time). *)
Definition call_fine (nodeCount : Z) (c : QueueCall) : Prop :=
  match c with
  | QPush _ accepted size_after => accepted = true /\ size_after <= nodeCount
  | QDecrease _ present => present = true
  | QPop _ => True
  end.

Lemma pushes_app (c1 c2 : list QueueCall) : pushes (c1 ++ c2) = pushes c1 ++ pushes c2.
Proof. unfold pushes. apply flat_map_app. Qed.

(** Distinct ids below [n] are at most [n]. *)
Lemma NoDup_range_length (l : list Z) (n : Z) :
  0 <= n -> NoDup l -> (forall x, x ∈ l -> 0 <= x < n) -> Z.of_nat (length l) <= n.
Proof.
  intros Hn Hnd Hr.
  assert (l ⊆+ seqZ 0 n) as Hsub.
  { apply NoDup_submseteq; [exact Hnd|]. intros x Hx. apply elem_of_seqZ_0, Hr, Hx. }
  apply submseteq_length in Hsub. rewrite length_seqZ in Hsub. lia.
Qed.

Definition count_true (l : list bool) : nat := length (filter (fun b => b = true) l).

Lemma count_true_le (l : list bool) : (count_true l <= length l)%nat.
Proof. apply list.length_filter. Qed.

Lemma count_true_aset (l : list bool) (i : Z) :
  0 <= i < Z.of_nat (length l) -> aget false l i = false ->
  count_true (aset l i true) = S (count_true l).
Proof.
  intros Hi Hf. unfold aset, aget, count_true in *.
  destruct (decide (0 <= i)); [|lia].
  destruct (l !! Z.to_nat i) as [b|] eqn:Hl;
    [|apply lookup_ge_None in Hl; lia].
  simpl in Hf. subst b.
  rewrite insert_take_drop by lia.
  rewrite <- (take_drop_middle l (Z.to_nat i) false Hl) at 3.
  rewrite !list.filter_app, !list.filter_cons.
  destruct (decide (true = true)); [|contradiction].
  destruct (decide (false = true)); [discriminate|].
  rewrite !length_app. simpl. lia.
Qed.

Section SearchShape.
Context {F : Type} `{FloatOps F}.
Variable g : Graph F.
Variables startId goalId : Z.
Variable cfg : AStarConfig F.

(** Active edges lead to active nodes only below [nodeCount]. *)
Definition targets_in_range : Prop :=
  forall i j, 0 <= i < nodeCount g -> 0 <= j < edgeCount_at g i ->
              edge_active (edge_at g i j) = true ->
              node_active (node_at g (edge_to (edge_at g i j))) = true ->
              0 <= edge_to (edge_at g i j) < nodeCount g.

Definition is_open (st : Search F) (v : Z) : Prop := aget false (inOpenSet st) v = true.
Definition is_closed (st : Search F) (v : Z) : Prop := aget false (inClosedSet st) v = true.
Definition open_ids (st : Search F) : list Z := pq_nodeId <$> pq_entries (openSet st).

(** What holds of the working storage whenever the search is between two
    queue calls. *)
Record shape (st : Search F) : Prop := {
  shape_gScore : length (gScore st) = Z.to_nat (nodeCount g);
  shape_fScore : length (fScore st) = Z.to_nat (nodeCount g);
  shape_cameFrom : length (cameFrom st) = Z.to_nat (nodeCount g);
  shape_inClosedSet : length (inClosedSet st) = Z.to_nat (nodeCount g);
  shape_inOpenSet : length (inOpenSet st) = Z.to_nat (nodeCount g);
  shape_wf : pq_wf (openSet st);
  shape_capacity : pq_capacity (openSet st) = nodeCount g;
  shape_open_NoDup : NoDup (open_ids st);
  shape_open : forall v, v ∈ open_ids st <-> is_open st v;
  shape_disjoint : forall v, is_open st v -> ~ is_closed st v;
  shape_pushes_NoDup : NoDup (pushes (queue_calls st));
  shape_pushes : forall v, v ∈ pushes (queue_calls st) <-> is_open st v \/ is_closed st v;
  shape_calls : Forall (call_fine (nodeCount g)) (queue_calls st);
}.

Lemma aget_true_range (l : list bool) (v : Z) :
  aget false l v = true -> 0 <= v < Z.of_nat (length l).
Proof.
  intros Hv. destruct (decide (0 <= v < Z.of_nat (length l))) as [Hr|Hr]; [exact Hr|].
  rewrite aget_out in Hv by exact Hr. discriminate.
Qed.

Lemma is_open_range st v : shape st -> is_open st v -> 0 <= v < nodeCount g.
Proof.
  intros Hs Hv. apply aget_true_range in Hv. rewrite (shape_inOpenSet st Hs) in Hv. lia.
Qed.

Lemma is_closed_range st v : shape st -> is_closed st v -> 0 <= v < nodeCount g.
Proof.
  intros Hs Hv. apply aget_true_range in Hv. rewrite (shape_inClosedSet st Hs) in Hv. lia.
Qed.

Lemma shape_start :
  0 <= startId < nodeCount g -> shape (astar_start g startId goalId cfg).
Proof.
  intros Hs. rewrite astar_start_shape by exact Hs.
  assert (forall v, aget false (aset (replicate (Z.to_nat (nodeCount g)) false) startId true) v
                    = true <-> v = startId) as Hopen.
  { intros v. rewrite aget_aset, length_replicate.
    destruct (decide _) as [[-> _]|Hn]; [tauto|].
    split; [|intros ->; lia].
    intros Hv. pose proof (aget_true_range _ _ Hv) as Hr.
    rewrite length_replicate in Hr.
    rewrite aget_replicate in Hv by lia. discriminate. }
  assert (forall v, aget false (replicate (Z.to_nat (nodeCount g)) false) v = true -> False)
    as Hclosed.
  { intros v Hv. pose proof (aget_true_range _ _ Hv) as Hr.
    rewrite length_replicate in Hr. rewrite aget_replicate in Hv by lia. discriminate. }
  assert (pq_entries (mkPQ (aset (replicate (Z.to_nat (nodeCount g)) pq_blank) 0
                                 (mkPQNode startId
                                    (f_mul (astar_heuristic (node_at g startId)
                                              (node_at g goalId) (heuristic cfg))
                                           (heuristicWeight cfg))))
                           1 (nodeCount g))
          = [mkPQNode startId
               (f_mul (astar_heuristic (node_at g startId) (node_at g goalId)
                                       (heuristic cfg))
                      (heuristicWeight cfg))]) as Hentries.
  { unfold pq_entries. cbn [pq_size pq_nodes]. change (Z.to_nat 1) with 1%nat.
    erewrite take_S_r; [reflexivity|].
    unfold aset. destruct (decide (0 <= 0)); [|lia].
    apply list_lookup_insert_eq. rewrite length_replicate. lia. }
  constructor; unfold is_open, is_closed, open_ids;
    cbn [gScore fScore cameFrom inClosedSet inOpenSet openSet queue_calls];
    rewrite ?length_aset, ?length_replicate; try reflexivity.
  - unfold pq_wf. cbn [pq_size pq_nodes pq_capacity].
    rewrite length_aset, length_replicate. lia.
  - rewrite Hentries. simpl. apply NoDup_singleton.
  - intros v. rewrite Hentries, Hopen. simpl. apply list_elem_of_singleton.
  - intros v _ Hv. exact (Hclosed v Hv).
  - simpl. apply NoDup_singleton.
  - intros v. simpl. rewrite list_elem_of_singleton, Hopen.
    split; [auto|]. intros [Hv|Hv]; [exact Hv|destruct (Hclosed v Hv)].
  - repeat constructor. lia.
Qed.

(** The state after [pq_pop] returned [u], and after [u] was closed. *)
Definition after_pop (st : Search F) (u : Z) (q : PriorityQueue F) : Search F :=
  mkSearch (gScore st) (fScore st) (cameFrom st) (inClosedSet st)
           (aset (inOpenSet st) u false) q
           (mkStats (nodesExplored (localStats st) + 1)
                    (nodesInOpenSet (localStats st))
                    (maxOpenSetSize (localStats st)))
           (queue_calls st ++ [QPop u]).

Definition after_close (st : Search F) (u : Z) : Search F :=
  mkSearch (gScore st) (fScore st) (cameFrom st)
           (aset (inClosedSet st) u true)
           (inOpenSet st) (openSet st) (localStats st) (queue_calls st).

Definition at_goal (st : Search F) : Search F :=
  mkSearch (gScore st) (fScore st) (cameFrom st) (inClosedSet st) (inOpenSet st)
           (openSet st)
           (mkStats (nodesExplored (localStats st)) (pq_size (openSet st))
                    (maxOpenSetSize (localStats st)))
           (queue_calls st).

Lemma astar_loop_unfold (fuel : nat) (st : Search F) :
  astar_loop (S fuel) g startId goalId cfg st
  = match pq_pop (openSet st) with
    | None => Some (path_result_create, st)
    | Some (u, _, q) =>
        if decide (u = goalId) then
          Some (reconstruct_path (cameFrom st) (gScore st) startId goalId (nodeCount g),
                at_goal (after_pop st u q))
        else if aget false (inClosedSet st) u then
          astar_loop fuel g startId goalId cfg (after_pop st u q)
        else
          astar_loop fuel g startId goalId cfg
                     (foldl (relax g goalId cfg u) (after_close (after_pop st u q) u)
                            (seqZ 0 (edgeCount_at g u)))
    end.
Proof.
  cbn [astar_loop]. destruct (pq_pop (openSet st)) as [[[u f] q]|]; reflexivity.
Qed.

Lemma pushes_snoc_pop calls u : pushes (calls ++ [QPop u]) = pushes calls.
Proof. rewrite pushes_app. simpl. apply app_nil_r. Qed.

Lemma pushes_snoc_decrease calls u b : pushes (calls ++ [QDecrease u b]) = pushes calls.
Proof. rewrite pushes_app. simpl. apply app_nil_r. Qed.

Lemma pushes_snoc_push calls u b z : pushes (calls ++ [QPush u b z]) = pushes calls ++ [u].
Proof. rewrite pushes_app. reflexivity. Qed.

(** Popping a node takes it out of the open set; closing it then restores
    the invariant. *)
Lemma shape_pop (st : Search F) (u : Z) (f : F) (q : PriorityQueue F) :
  shape st -> pq_pop (openSet st) = Some (u, f, q) ->
  is_open st u /\ ~ is_closed st u
  /\ mkPQNode u f ∈ pq_entries (openSet st)
  /\ pq_entries (openSet st) ≡ₚ mkPQNode u f :: pq_entries q
  /\ shape (after_close (after_pop st u q) u).
Proof.
  intros Hs Hpop.
  assert (0 < pq_size (openSet st)) as Hpos.
  { destruct (decide (0 < pq_size (openSet st))) as [Hp|Hp]; [exact Hp|].
    rewrite pq_pop_None in Hpop; [discriminate|].
    destruct (shape_wf st Hs) as [Hsz _]. lia. }
  destruct (pq_pop_Some (openSet st) (shape_wf st Hs) Hpos)
    as (q' & Heq & Hwf' & Hsize' & Hcap' & Hperm).
  rewrite Heq in Hpop. injection Hpop as Hu Hf <-.
  assert (pq_at (pq_nodes (openSet st)) 0 = mkPQNode u f) as Hroot
      by (destruct (pq_at (pq_nodes (openSet st)) 0); simpl in *; congruence).
  rewrite Hroot in Hperm. clear Heq Hu Hf Hroot.
  assert (open_ids st ≡ₚ u :: (pq_nodeId <$> pq_entries q')) as Hids.
  { unfold open_ids. rewrite Hperm. reflexivity. }
  pose proof (shape_open_NoDup st Hs) as Hnd. rewrite Hids in Hnd.
  apply list.NoDup_cons in Hnd as [Hfresh Hnd'].
  assert (is_open st u) as Hopen.
  { apply (shape_open st Hs). rewrite Hids. apply elem_of_cons. auto. }
  pose proof (is_open_range st u Hs Hopen) as Hur.
  split; [exact Hopen|]. split; [apply (shape_disjoint st Hs), Hopen|].
  split; [rewrite Hperm; apply elem_of_cons; auto|]. split; [exact Hperm|].
  assert (forall v, aget false (aset (inOpenSet st) u false) v = true
                    <-> is_open st v /\ v <> u) as Hopen'.
  { intros v. rewrite aget_aset. unfold is_open.
    destruct (decide _) as [[-> _]|Hn].
    - split; [discriminate|tauto].
    - split; [|tauto]. intros Hv. split; [exact Hv|].
      intros ->. apply Hn. split; [reflexivity|].
      rewrite (shape_inOpenSet st Hs). lia. }
  assert (forall v, aget false (aset (inClosedSet st) u true) v = true
                    <-> is_closed st v \/ v = u) as Hclosed'.
  { intros v. rewrite aget_aset. unfold is_closed.
    destruct (decide _) as [[-> _]|Hn].
    - tauto.
    - split; [tauto|]. intros [Hv| ->]; [exact Hv|].
      exfalso. apply Hn. split; [reflexivity|].
      rewrite (shape_inClosedSet st Hs). lia. }
  constructor; unfold is_open, is_closed, open_ids;
    cbn [after_close after_pop gScore fScore cameFrom inClosedSet inOpenSet openSet
         queue_calls];
    rewrite ?length_aset; try apply Hs; try assumption.
  - rewrite Hcap'. apply Hs.
  - intros v. rewrite Hopen'. rewrite <- (shape_open st Hs), Hids, elem_of_cons.
    split; [|tauto]. intros Hv. split; [tauto|]. intros ->. contradiction.
  - intros v. rewrite Hopen', Hclosed'. intros [Hv Hne] [Hc|Hc]; [|contradiction].
    exact (shape_disjoint st Hs v Hv Hc).
  - rewrite pushes_snoc_pop. apply Hs.
  - intros v. rewrite pushes_snoc_pop, (shape_pushes st Hs), Hopen', Hclosed'.
    unfold is_open, is_closed. destruct (decide (v = u)) as [->|Hne]; tauto.
  - apply Forall_app. split; [apply Hs|]. repeat constructor.
Qed.

(** One round of the neighbour loop keeps the invariant: a node is pushed
    only when it is neither open nor closed, and then the queue has room. *)
Lemma shape_relax (st : Search F) (u i : Z) :
  targets_in_range -> 0 <= u < nodeCount g -> 0 <= i < edgeCount_at g u ->
  shape st -> shape (relax g goalId cfg u st i).
Proof.
  intros Htargets Hu Hi Hs. unfold relax.
  destruct (edge_active (edge_at g u i)) eqn:Hact; cbn [negb]; [|exact Hs].
  destruct (node_active (node_at g (edge_to (edge_at g u i)))) eqn:Hnode; cbn [negb];
    [|exact Hs].
  pose proof (Htargets u i Hu Hi Hact Hnode) as Hv.
  set (v := edge_to (edge_at g u i)) in *.
  destruct (aget false (inClosedSet st) v) eqn:Hclosed; [exact Hs|].
  destruct (f_lt _ _); [|exact Hs].
  match goal with |- context [aget f_zero (aset (fScore st) v ?x) v] =>
    set (f := aget f_zero (aset (fScore st) v x) v)
  end.
  destruct (aget false (inOpenSet st) v) eqn:Hopen; cbn [negb].
  - (* already open: pq_decrease_priority *)
    assert (v ∈ open_ids st) as Hin by (apply (shape_open st Hs); exact Hopen).
    apply (pq_find_is_Some _ _ (shape_wf st Hs)) in Hin as Hfound.
    destruct Hfound as [k Hk].
    destruct (pq_decrease_priority_present (openSet st) v k f (shape_wf st Hs) Hk)
      as (Hwf' & Hsize' & Hcap' & Hent).
    assert (open_ids
              (mkSearch (aset (gScore st) v (f_add (aget f_zero (gScore st) u)
                                                   (edge_weight (edge_at g u i))))
                        (aset (fScore st) v
                              (f_add (f_add (aget f_zero (gScore st) u)
                                            (edge_weight (edge_at g u i)))
                                     (f_mul (astar_heuristic (node_at g v)
                                               (node_at g goalId) (heuristic cfg))
                                            (heuristicWeight cfg))))
                        (aset (cameFrom st) v u) (inClosedSet st) (inOpenSet st)
                        (pq_decrease_priority (openSet st) v f) (localStats st)
                        (queue_calls st
                           ++ [QDecrease v (bool_decide (is_Some (pq_find (openSet st) v)))]))
            ≡ₚ open_ids st) as Hids.
    { unfold open_ids. cbn [openSet].
      destruct (f_lt f (pq_fScore (pq_at (pq_nodes (openSet st)) k)));
        [|rewrite Hent; reflexivity].
      rewrite Hent, list_fmap_insert. cbn [pq_nodeId].
      rewrite list_insert_id; [reflexivity|].
      pose proof (pq_find_Some _ _ _ Hk) as [Hkr Hkid].
      rewrite list_lookup_fmap, (pq_entries_lookup _ _ (shape_wf st Hs) Hkr).
      simpl. rewrite Hkid. reflexivity. }
    constructor; unfold is_open, is_closed;
      cbn [gScore fScore cameFrom inClosedSet inOpenSet openSet queue_calls];
      rewrite ?length_aset; try apply Hs; try assumption.
    + rewrite Hcap'. apply Hs.
    + rewrite Hids. apply Hs.
    + intros w. rewrite Hids. apply (shape_open st Hs).
    + rewrite pushes_snoc_decrease. apply Hs.
    + intros w. rewrite pushes_snoc_decrease. apply (shape_pushes st Hs).
    + apply Forall_app. split; [apply Hs|]. repeat constructor.
      simpl. apply bool_decide_eq_true. rewrite Hk. eexists. reflexivity.
  - (* not yet open: pq_push *)
    assert (v ∉ open_ids st) as Hfresh.
    { intros Hin. apply (shape_open st Hs) in Hin. unfold is_open in Hin. congruence. }
    assert (pq_size (openSet st) < pq_capacity (openSet st)) as Hroom.
    { rewrite (shape_capacity st Hs), <- (length_pq_entries _ (shape_wf st Hs)).
      assert (Z.of_nat (length (v :: open_ids st)) <= nodeCount g) as Hlen.
      { apply NoDup_range_length; [lia| |].
        - apply list.NoDup_cons. split; [exact Hfresh|apply Hs].
        - intros x Hx. apply elem_of_cons in Hx as [->|Hx]; [exact Hv|].
          apply (is_open_range st x Hs), (shape_open st Hs), Hx. }
      cbn [length] in Hlen. unfold open_ids in Hlen. rewrite length_fmap in Hlen. lia. }
    destruct (pq_push_accepts (openSet st) v f (shape_wf st Hs) Hroom)
      as (q' & Heq & Hwf' & Hsize' & Hcap' & Hperm).
    rewrite Heq. cbv beta iota.
    match goal with |- shape (mkSearch ?a ?b ?c ?d ?e ?q ?s ?l) =>
      assert (open_ids (mkSearch a b c d e q s l) ≡ₚ v :: open_ids st) as Hids
          by (unfold open_ids; cbn [openSet]; rewrite Hperm; reflexivity)
    end.
    assert (forall w, aget false (aset (inOpenSet st) v true) w = true
                      <-> is_open st w \/ w = v) as Hopen'.
    { intros w. rewrite aget_aset. unfold is_open.
      destruct (decide (v = w /\ 0 <= v < Z.of_nat (length (inOpenSet st))))
        as [[Hvw _]|Hn]; [split; auto|].
      split; [tauto|]. intros [Hw|Hw]; [exact Hw|].
      exfalso. apply Hn. split; [auto|].
      rewrite (shape_inOpenSet st Hs). lia. }
    assert (v ∉ pushes (queue_calls st)) as Hnew.
    { intros Hin. apply (shape_pushes st Hs) in Hin as [Ho|Hc];
        unfold is_open, is_closed in *; congruence. }
    constructor; unfold is_open, is_closed;
      cbn [gScore fScore cameFrom inClosedSet inOpenSet openSet queue_calls];
      rewrite ?length_aset; try apply Hs; try assumption.
    + rewrite Hcap'. apply Hs.
    + rewrite Hids. apply list.NoDup_cons. split; [exact Hfresh|apply Hs].
    + intros w. rewrite Hids, Hopen', elem_of_cons, (shape_open st Hs). tauto.
    + intros w. rewrite Hopen'. intros [Hw|Hw] Hc.
      * exact (shape_disjoint st Hs w Hw Hc).
      * rewrite Hw in Hc. congruence.
    + rewrite pushes_snoc_push. apply list.NoDup_app.
      split; [apply Hs|]. split; [|apply NoDup_singleton].
      intros w Hw Hw'. apply list_elem_of_singleton in Hw'. rewrite Hw' in Hw.
      contradiction.
    + intros w. rewrite pushes_snoc_push, elem_of_app, list_elem_of_singleton.
      rewrite Hopen', (shape_pushes st Hs). unfold is_open, is_closed. tauto.
    + apply Forall_app. split; [apply Hs|]. repeat constructor.
      rewrite Hsize', <- (shape_capacity st Hs). lia.
Qed.

Lemma shape_relax_all (st : Search F) (u : Z) :
  targets_in_range -> 0 <= u < nodeCount g ->
  shape st ->
  shape (foldl (relax g goalId cfg u) st (seqZ 0 (edgeCount_at g u))).
Proof.
  intros Htargets Hu Hs. apply foldl_preserves; [exact Hs|].
  intros st' i Hi Hs'. apply shape_relax; try assumption.
  apply elem_of_seqZ_0, Hi.
Qed.

Lemma relax_inClosedSet (st : Search F) (u i : Z) :
  inClosedSet (relax g goalId cfg u st i) = inClosedSet st.
Proof.
  unfold relax.
  repeat match goal with
         | |- context [if ?b then _ else _] => destruct b; try reflexivity
         | |- context [let '(_, _) := ?p in _] => destruct p; try reflexivity
         end.
Qed.

Lemma relax_all_inClosedSet (st : Search F) (u : Z) (l : list Z) :
  inClosedSet (foldl (relax g goalId cfg u) st l) = inClosedSet st.
Proof.
  apply (foldl_preserves _ (fun st' => inClosedSet st' = inClosedSet st));
    [reflexivity|].
  intros st' i _ Heq. rewrite relax_inClosedSet. exact Heq.
Qed.

(** The main loop ends within one round per node that is not yet closed,
    and its queue calls all went as expected. *)
Lemma astar_loop_shape (fuel : nat) (st : Search F) :
  targets_in_range -> shape st ->
  (Z.to_nat (nodeCount g) - count_true (inClosedSet st) < fuel)%nat ->
  exists result st',
    astar_loop fuel g startId goalId cfg st = Some (result, st')
    /\ NoDup (pushes (queue_calls st'))
    /\ Forall (call_fine (nodeCount g)) (queue_calls st').
Proof.
  intros Htargets. revert st. induction fuel as [|fuel IH]; intros st Hs Hfuel; [lia|].
  rewrite astar_loop_unfold.
  destruct (pq_pop (openSet st)) as [[[u f] q]|] eqn:Hpop.
  2:{ eexists _, _. split; [reflexivity|]. split; apply Hs. }
  destruct (shape_pop st u f q Hs Hpop) as (Hopen & Hnotclosed & _ & _ & Hs').
  pose proof (is_open_range st u Hs Hopen) as Hu.
  destruct (decide (u = goalId)) as [Hgoal|Hgoal].
  - eexists _, _. split; [reflexivity|].
    cbn [at_goal after_pop queue_calls]. rewrite pushes_snoc_pop.
    split; [apply Hs|]. apply Forall_app. split; [apply Hs|]. repeat constructor.
  - unfold is_closed in Hnotclosed.
    destruct (aget false (inClosedSet st) u) eqn:Hc; [contradiction|].
    apply IH.
    + apply shape_relax_all; assumption.
    + rewrite relax_all_inClosedSet. cbn [after_close after_pop inClosedSet].
      assert (0 <= u < Z.of_nat (length (inClosedSet st))) as Hur
          by (rewrite (shape_inClosedSet st Hs); lia).
      rewrite (count_true_aset _ _ Hur Hc).
      pose proof (count_true_le (aset (inClosedSet st) u true)) as Hle.
      rewrite (count_true_aset _ _ Hur Hc), length_aset, (shape_inClosedSet st Hs) in Hle.
      lia.
Qed.

End SearchShape.

(** C10.  In a run of [astar_find_path] with in-range start and goal, on a
    graph whose active edges lead to active nodes only below [nodeCount]:
    the run ends (one round of the main loop per node suffices), every id is
    handed to [pq_push] at most once, every [pq_push] is accepted and leaves
    at most [nodeCount] entries in the queue, and every call of
    [pq_decrease_priority] finds its node in the queue, so that it updates
    the entry and never pushes a second one. *)
Theorem astar_queue_discipline {F : Type} `{FloatOps F}
        (fuel : nat) (g : Graph F) (startId goalId : Z)
        (config : option (AStarConfig F)) :
  targets_in_range g ->
  0 <= startId < nodeCount g -> 0 <= goalId < nodeCount g ->
  (Z.to_nat (nodeCount g) < fuel)%nat ->
  exists run,
    astar_find_path fuel g startId goalId config = Some run
    /\ NoDup (pushes (run_calls run))
    /\ Forall (call_fine (nodeCount g)) (run_calls run).
Proof.
  intros Htargets Hs Hg Hfuel. unfold astar_find_path.
  destruct (decide (startId < 0 \/ goalId < 0
                    \/ startId >= nodeCount g \/ goalId >= nodeCount g)); [lia|].
  set (cfg := default astar_default_config config).
  destruct (astar_loop_shape g startId goalId cfg fuel (astar_start g startId goalId cfg))
    as (result & st' & Heq & Hnd & Hfine).
  - exact Htargets.
  - apply shape_start, Hs.
  - lia.
  - rewrite Heq. eexists. split; [reflexivity|]. split; assumption.
Qed.

(** A check of [targets_in_range] that can be run. *)
Definition targets_check {F : Type} `{FloatOps F} (g : Graph F) : bool :=
  forallb (fun i =>
             forallb (fun j =>
                        let e := edge_at g i j in
                        implb (edge_active e && node_active (node_at g (edge_to e)))
                              (bool_decide (0 <= edge_to e < nodeCount g)))
                     (seqZ 0 (edgeCount_at g i)))
          (seqZ 0 (nodeCount g)).

Lemma targets_check_sound {F : Type} `{FloatOps F} (g : Graph F) :
  targets_check g = true -> targets_in_range g.
Proof.
  unfold targets_check. intros Hc i j Hi Hj Hact Hnode.
  rewrite forallb_forall in Hc.
  specialize (Hc i ltac:(apply list_elem_of_In, elem_of_seqZ_0; exact Hi)).
  rewrite forallb_forall in Hc.
  specialize (Hc j ltac:(apply list_elem_of_In, elem_of_seqZ_0; exact Hj)).
  cbv zeta in Hc. rewrite Hact, Hnode in Hc. simpl in Hc.
  apply bool_decide_eq_true in Hc. exact Hc.
Qed.

Lemma astar_queue_discipline_witness :
  exists run,
    astar_find_path 4 Samples.triangle 0 2 None = Some run
    /\ NoDup (pushes (run_calls run))
    /\ Forall (call_fine (nodeCount Samples.triangle)) (run_calls run).
Proof.
  apply astar_queue_discipline.
  - apply targets_check_sound. vm_compute. reflexivity.
  - vm_compute. split; congruence.
  - vm_compute. split; congruence.
  - vm_compute. lia.
Defined.

(* ===================================================================== *)
(** ** The search with the zero heuristic: shortest paths *)

(** The laws of score arithmetic that the optimality argument uses, for
    the scores singled out by [ok] and the edge weights singled out by
    [okw]: [<=] is a total preorder on the scores with [<] as its strict
    part, and adding a weight to a score gives a score, is monotone and
    never decreases the score.  They are proved of binary32 below
    ([binary32_score_laws]). *)
Record ScoreLaws {F : Type} `{FloatOps F} (ok okw : F -> Prop) : Prop := {
  sl_zero : ok f_zero;
  sl_max : ok FLT_MAX;
  sl_add : forall a w, ok a -> okw w -> ok (f_add a w);
  sl_lt_le : forall a b, ok a -> ok b -> f_lt a b = negb (f_le b a);
  sl_total : forall a b, ok a -> ok b -> f_le a b = true \/ f_le b a = true;
  sl_trans : forall a b c, ok a -> ok b -> ok c ->
                           f_le a b = true -> f_le b c = true -> f_le a c = true;
  sl_add_mono : forall a b w, ok a -> ok b -> okw w ->
                              f_le a b = true -> f_le (f_add a w) (f_add b w) = true;
  sl_add_infl : forall a w, ok a -> okw w -> f_le a (f_add a w) = true;
  sl_zero_lt_max : f_lt f_zero FLT_MAX = true;
}.

Section ScoreOrder.
Context {F : Type} `{FloatOps F}.
Variables ok okw : F -> Prop.
Hypothesis laws : ScoreLaws ok okw.

Lemma s_lt_true_le a b : ok a -> ok b -> f_lt a b = true -> f_le a b = true.
Proof.
  apply lt_true_le; [apply (sl_lt_le ok okw laws)|apply (sl_total ok okw laws)].
Qed.

Lemma s_lt_false_le a b : ok a -> ok b -> f_lt a b = false -> f_le b a = true.
Proof. apply lt_false_le, (sl_lt_le ok okw laws). Qed.

Lemma s_le_refl a : ok a -> f_le a a = true.
Proof. apply le_refl, (sl_total ok okw laws). Qed.

Lemma s_le_not_lt a b : ok a -> ok b -> f_le a b = true -> f_lt b a = false.
Proof. intros Ha Hb Hle. rewrite (sl_lt_le ok okw laws), Hle by assumption. reflexivity. Qed.

Lemma s_lt_le_trans a b c :
  ok a -> ok b -> ok c -> f_lt a b = true -> f_le b c = true -> f_lt a c = true.
Proof.
  intros Ha Hb Hc Hab Hbc. rewrite (sl_lt_le ok okw laws) in Hab |- * by assumption.
  destruct (f_le c a) eqn:Hca; [|reflexivity].
  rewrite (sl_trans ok okw laws b c a) in Hab by assumption. discriminate.
Qed.

Lemma s_le_lt_trans a b c :
  ok a -> ok b -> ok c -> f_le a b = true -> f_lt b c = true -> f_lt a c = true.
Proof.
  intros Ha Hb Hc Hab Hbc. rewrite (sl_lt_le ok okw laws) in Hbc |- * by assumption.
  destruct (f_le c a) eqn:Hca; [|reflexivity].
  rewrite (sl_trans ok okw laws c a b) in Hbc by assumption. discriminate.
Qed.

Lemma s_lt_irrefl a : ok a -> f_lt a a = false.
Proof. intros Ha. apply s_le_not_lt; [assumption..|apply s_le_refl, Ha]. Qed.

(** In an ordered heap the root is a least entry. *)
Lemma heap_root_least (ns : list (PQNode F)) (size : Z) :
  heap_ordered ns size -> all_ok ok ns size ->
  forall i, 0 <= i < size -> f_le (pq_score ns 0) (pq_score ns i) = true.
Proof.
  intros Hord Hok.
  assert (forall m : nat, forall i, (Z.to_nat i <= m)%nat -> 0 <= i < size ->
                                    f_le (pq_score ns 0) (pq_score ns i) = true) as Hind.
  { induction m as [|m IH]; intros i Hm Hi.
    - replace i with 0 by lia. apply s_le_refl, Hok. lia.
    - destruct (decide (i = 0)) as [->|Hne]; [apply s_le_refl, Hok; lia|].
      pose proof (pq_parent_spec i ltac:(lia)) as Hp.
      apply (sl_trans ok okw laws _ (pq_score ns (pq_parent i))).
      + apply Hok. lia.
      + apply Hok. lia.
      + apply Hok. lia.
      + apply IH; lia.
      + apply Hord. lia. }
  intros i Hi. apply (Hind (Z.to_nat i)); [lia|exact Hi].
Qed.

Lemma pq_root_least (pq : PriorityQueue F) (e : PQNode F) :
  pq_good ok pq -> e ∈ pq_entries pq ->
  f_le (pq_fScore (pq_at (pq_nodes pq) 0)) (pq_fScore e) = true.
Proof.
  intros (Hwf & Hord & Hok) He.
  apply list_elem_of_lookup_1 in He as [k Hk].
  assert (Z.of_nat k < pq_size pq) as Hlt.
  { apply lookup_lt_Some in Hk. rewrite <- length_pq_entries by exact Hwf. lia. }
  assert (e = pq_at (pq_nodes pq) (Z.of_nat k)) as ->.
  { pose proof (pq_entries_lookup pq (Z.of_nat k) Hwf ltac:(lia)) as Hl.
    rewrite Nat2Z.id in Hl. congruence. }
  apply (heap_root_least _ _ Hord Hok). lia.
Qed.

End ScoreOrder.

(** A directed path from [s]: the edges taken, each an active edge stored in
    a used slot of the node reached so far and leading to an active node. *)
Inductive walk {F : Type} `{FloatOps F} (g : Graph F) (s : Z)
  : list (Edge F) -> Z -> Prop :=
| walk_nil : walk g s [] s
| walk_snoc (es : list (Edge F)) (u j : Z) :
    walk g s es u ->
    0 <= j < edgeCount_at g u ->
    edge_active (edge_at g u j) = true ->
    node_active (node_at g (edge_to (edge_at g u j))) = true ->
    walk g s (es ++ [edge_at g u j]) (edge_to (edge_at g u j)).

(** The cost of a path: the weights added up edge by edge from the start. *)
Definition path_cost {F : Type} `{FloatOps F} (es : list (Edge F)) : F :=
  foldl (fun a e => f_add a (edge_weight e)) f_zero es.

Lemma path_cost_snoc {F : Type} `{FloatOps F} (es : list (Edge F)) (e : Edge F) :
  path_cost (es ++ [e]) = f_add (path_cost es) (edge_weight e).
Proof. unfold path_cost. rewrite foldl_app. reflexivity. Qed.

Section SearchOptimal.
Context {F : Type} `{FloatOps F}.
Variables ok okw : F -> Prop.
Hypothesis laws : ScoreLaws ok okw.
Variable g : Graph F.
Variables s t : Z.
Variable cfg : AStarConfig F.
Hypothesis Htargets : targets_in_range g.
Hypothesis Hweights :
  forall i j, 0 <= i < nodeCount g -> 0 <= j < edgeCount_at g i ->
              edge_active (edge_at g i j) = true ->
              node_active (node_at g (edge_to (edge_at g i j))) = true ->
              okw (edge_weight (edge_at g i j)).
Hypothesis Hzero : heuristic cfg = HEURISTIC_ZERO.
(** The heuristic term [0 * heuristicWeight] leaves a score as it is. *)
Hypothesis Hweight0 : forall a, ok a -> f_add a (f_mul f_zero (heuristicWeight cfg)) = a.
Hypothesis Hs : 0 <= s < nodeCount g.
Hypothesis Ht : 0 <= t < nodeCount g.

Lemma walk_range es v : walk g s es v -> 0 <= v < nodeCount g.
Proof.
  induction 1 as [|es u j Hw IH Hj Hact Hnode]; [exact Hs|].
  apply Htargets; assumption.
Qed.

Lemma walk_cost_ok es v : walk g s es v -> ok (path_cost es).
Proof.
  induction 1 as [|es u j Hw IH Hj Hact Hnode]; [apply (sl_zero ok okw laws)|].
  rewrite path_cost_snoc. apply (sl_add ok okw laws); [exact IH|].
  apply Hweights; [eapply walk_range; eassumption|assumption..].
Qed.

Definition G (st : Search F) (v : Z) : F := aget f_zero (gScore st) v.
Definition CF (st : Search F) (v : Z) : Z := aget 0 (cameFrom st) v.

(** [k] links of [cameFrom] lead from [v] back to the start, through closed
    nodes. *)
Fixpoint chain (st : Search F) (v : Z) (k : nat) : Prop :=
  match k with
  | O => v = s
  | S k' => v <> s /\ 0 <= v /\ is_closed st (CF st v) /\ chain st (CF st v) k'
  end.

(** The facts about the scores that hold between two queue calls; [P c j]
    says that slot [j] of the closed node [c] has been through the
    neighbour loop. *)
Record optimal (P : Z -> Z -> Prop) (st : Search F) : Prop := {
  opt_start : G st s = f_zero;
  opt_ok : forall v, ok (G st v);
  opt_le_max : forall v, f_le (G st v) FLT_MAX = true;
  opt_found : forall v, is_open st v \/ is_closed st v -> f_lt (G st v) FLT_MAX = true;
  opt_unseen : forall v, 0 <= v < nodeCount g -> ~ is_open st v -> ~ is_closed st v ->
                         G st v = FLT_MAX;
  opt_relaxed :
    forall c j, is_closed st c -> P c j -> 0 <= j < edgeCount_at g c ->
                edge_active (edge_at g c j) = true ->
                node_active (node_at g (edge_to (edge_at g c j))) = true ->
                f_le (G st (edge_to (edge_at g c j)))
                     (f_add (G st c) (edge_weight (edge_at g c j))) = true;
  opt_closed_first :
    forall c x, is_closed st c -> ~ is_closed st x -> 0 <= x < nodeCount g ->
                f_le (G st c) (G st x) = true;
  opt_heap : pq_good ok (openSet st);
  opt_scores : forall e, e ∈ pq_entries (openSet st) -> pq_fScore e = G st (pq_nodeId e);
  opt_walk : forall v, is_open st v \/ is_closed st v ->
                       exists es, walk g s es v /\ path_cost es = G st v;
  opt_chain_open :
    forall v, is_open st v ->
              exists k, chain st v k /\ (k <= count_true (inClosedSet st))%nat;
  opt_chain_closed :
    forall v, is_closed st v ->
              exists k, chain st v k /\ (k < count_true (inClosedSet st))%nat;
  opt_goal_open : ~ is_closed st t;
  opt_start_seen : is_closed st s \/ (forall v, is_open st v -> v = s);
}.

(** A closed node is no farther than any path to it; a path to a node that
    is not closed costs at least the score of some node that is not closed. *)
Lemma walk_lower_bound (st : Search F) (es : list (Edge F)) (v : Z) :
  shape g st -> optimal (fun _ _ => True) st -> walk g s es v ->
  (is_closed st v -> f_le (G st v) (path_cost es) = true)
  /\ (~ is_closed st v ->
      exists x, 0 <= x < nodeCount g /\ ~ is_closed st x
                /\ f_le (G st x) (path_cost es) = true).
Proof.
  intros Hshape Hopt Hwalk.
  induction Hwalk as [|es u j Hw IH Hj Hact Hnode].
  - assert (f_le (G st s) (path_cost []) = true) as Hle.
    { rewrite (opt_start _ st Hopt). apply (s_le_refl ok okw laws), (sl_zero ok okw laws). }
    split; [intros _; exact Hle|]. intros Hnc. exists s.
    split; [exact Hs|]. split; [exact Hnc|exact Hle].
  - set (e := edge_at g u j) in *. set (v := edge_to e) in *.
    pose proof (walk_range _ _ Hw) as Hu.
    pose proof (walk_cost_ok _ _ Hw) as Hc.
    assert (okw (edge_weight e)) as Hwe by (apply Hweights; assumption).
    rewrite path_cost_snoc.
    assert (f_le (path_cost es) (f_add (path_cost es) (edge_weight e)) = true) as Hinfl
        by (apply (sl_add_infl ok okw laws); assumption).
    assert (ok (f_add (path_cost es) (edge_weight e))) as Hc'
        by (apply (sl_add ok okw laws); assumption).
    destruct IH as [IHc IHo].
    assert (is_closed st u ->
            f_le (G st v) (f_add (path_cost es) (edge_weight e)) = true) as Hvia.
    { intros Hcu.
      apply (sl_trans ok okw laws _ (f_add (G st u) (edge_weight e))).
      - apply (opt_ok _ st Hopt).
      - apply (sl_add ok okw laws); [apply (opt_ok _ st Hopt)|exact Hwe].
      - exact Hc'.
      - apply (opt_relaxed _ st Hopt); auto.
      - apply (sl_add_mono ok okw laws); auto. apply (opt_ok _ st Hopt). }
    assert (~ is_closed st u ->
            exists x, 0 <= x < nodeCount g /\ ~ is_closed st x
                      /\ f_le (G st x) (f_add (path_cost es) (edge_weight e)) = true)
      as Hother.
    { intros Hnu. destruct (IHo Hnu) as (x & Hx & Hnx & Hle).
      exists x. split; [exact Hx|]. split; [exact Hnx|].
      apply (sl_trans ok okw laws _ (path_cost es)); auto. apply (opt_ok _ st Hopt). }
    destruct (decide (aget false (inClosedSet st) u = true)) as [Hcu|Hnu].
    + split; [intros _; apply Hvia, Hcu|].
      intros Hnv. exists v. split; [apply Htargets; assumption|].
      split; [exact Hnv|apply Hvia, Hcu].
    + split; [|intros _; apply Hother, Hnu].
      intros Hcv. destruct (Hother Hnu) as (x & Hx & Hnx & Hle).
      apply (sl_trans ok okw laws _ (G st x)); auto; try apply (opt_ok _ st Hopt).
      apply (opt_closed_first _ st Hopt); assumption.
Qed.

Lemma heuristic_zero (a b : Node F) :
  f_mul (astar_heuristic a b (heuristic cfg)) (heuristicWeight cfg)
  = f_mul f_zero (heuristicWeight cfg).
Proof. rewrite Hzero. reflexivity. Qed.

Lemma walk_cost_least es v : walk g s es v -> f_le f_zero (path_cost es) = true.
Proof.
  induction 1 as [|es u j Hw IH Hj Hact Hnode];
    [apply (s_le_refl ok okw laws), (sl_zero ok okw laws)|].
  pose proof (walk_range _ _ Hw) as Hu. pose proof (walk_cost_ok _ _ Hw) as Hc.
  assert (okw (edge_weight (edge_at g u j))) as Hwe by (apply Hweights; assumption).
  rewrite path_cost_snoc.
  apply (sl_trans ok okw laws _ (path_cost es)); auto.
  - apply (sl_zero ok okw laws).
  - apply (sl_add ok okw laws); assumption.
  - apply (sl_add_infl ok okw laws); assumption.
Qed.

Lemma s_zero_le_max : f_le f_zero FLT_MAX = true.
Proof.
  apply (s_lt_true_le ok okw laws);
    [apply (sl_zero ok okw laws)|apply (sl_max ok okw laws)|apply (sl_zero_lt_max ok okw laws)].
Qed.

(** *** The state on entry to the loop *)

Lemma start_G (v : Z) :
  G (astar_start g s t cfg) v
  = if decide (v = s) then f_zero
    else if decide (0 <= v < nodeCount g) then FLT_MAX else f_zero.
Proof.
  rewrite astar_start_shape by exact Hs. unfold G. cbn [gScore].
  rewrite aget_aset, length_replicate.
  destruct (decide (v = s)) as [->|Hne].
  - destruct (decide _) as [_|Hn]; [reflexivity|]. exfalso. apply Hn. split; [reflexivity|lia].
  - destruct (decide _) as [[Heq _]|_]; [congruence|].
    destruct (decide (0 <= v < nodeCount g)).
    + apply aget_replicate. lia.
    + apply aget_out. rewrite length_replicate. lia.
Qed.

Lemma start_is_open (v : Z) : is_open (astar_start g s t cfg) v <-> v = s.
Proof.
  rewrite astar_start_shape by exact Hs. unfold is_open. cbn [inOpenSet].
  rewrite aget_aset, length_replicate.
  destruct (decide _) as [[-> _]|Hn]; [tauto|].
  split; [|intros ->; lia].
  intros Hv. pose proof (aget_true_range _ _ Hv) as Hr. rewrite length_replicate in Hr.
  rewrite aget_replicate in Hv by lia. discriminate.
Qed.

Lemma start_is_closed (v : Z) : ~ is_closed (astar_start g s t cfg) v.
Proof.
  rewrite astar_start_shape by exact Hs. unfold is_closed. cbn [inClosedSet].
  intros Hv. pose proof (aget_true_range _ _ Hv) as Hr. rewrite length_replicate in Hr.
  rewrite aget_replicate in Hv by lia. discriminate.
Qed.

Lemma start_entries :
  pq_entries (openSet (astar_start g s t cfg))
  = [mkPQNode s (f_mul f_zero (heuristicWeight cfg))].
Proof.
  rewrite astar_start_shape by exact Hs. cbn [openSet]. rewrite heuristic_zero.
  unfold pq_entries. cbn [pq_size pq_nodes]. change (Z.to_nat 1) with 1%nat.
  erewrite take_S_r; [reflexivity|].
  unfold aset. destruct (decide (0 <= 0)); [|lia].
  apply list_lookup_insert_eq. rewrite length_replicate. lia.
Qed.

(** *** Popping the least open node *)

Lemma closed_after_close (st : Search F) (u : Z) (q : PriorityQueue F) (v : Z) :
  shape g st -> 0 <= u < nodeCount g ->
  is_closed (after_close (after_pop st u q) u) v <-> is_closed st v \/ v = u.
Proof.
  intros Hshape Hu. unfold is_closed. cbn [after_close after_pop inClosedSet].
  rewrite aget_aset.
  destruct (decide (u = v /\ 0 <= u < Z.of_nat (length (inClosedSet st)))) as [[Huv _]|Hn].
  - split; auto.
  - split; [tauto|]. intros [Hv|Hv]; [exact Hv|].
    exfalso. apply Hn. split; [auto|]. rewrite (shape_inClosedSet g st Hshape). lia.
Qed.

Lemma open_after_pop (st : Search F) (u : Z) (q : PriorityQueue F) (v : Z) :
  shape g st -> 0 <= u < nodeCount g ->
  is_open (after_close (after_pop st u q) u) v <-> is_open st v /\ v <> u.
Proof.
  intros Hshape Hu. unfold is_open. cbn [after_close after_pop inOpenSet].
  rewrite aget_aset.
  destruct (decide (u = v /\ 0 <= u < Z.of_nat (length (inOpenSet st)))) as [[Huv _]|Hn].
  - split; [discriminate|]. intros [_ Hne]. congruence.
  - split; [|tauto]. intros Hv. split; [exact Hv|].
    intros Hvu. apply Hn. split; [auto|]. rewrite (shape_inOpenSet g st Hshape). lia.
Qed.

Lemma chain_mono (st st' : Search F) (v : Z) (k : nat) :
  (forall x, is_closed st x -> is_closed st' x) ->
  (forall x, CF st' x = CF st x) ->
  chain st v k -> chain st' v k.
Proof.
  intros Hc Hcf. revert v. induction k as [|k IH]; intros v; simpl; [auto|].
  intros (Hne & Hpos & Hcl & Hch). rewrite Hcf. auto.
Qed.

(** The popped node is open, carries its [gScore] as key, and no node that
    is not closed has a smaller [gScore]. *)
Lemma popped_least (P : Z -> Z -> Prop) (st : Search F) (u : Z) (f : F)
      (q : PriorityQueue F) :
  shape g st -> optimal P st -> pq_pop (openSet st) = Some (u, f, q) ->
  is_open st u /\ ~ is_closed st u /\ 0 <= u < nodeCount g
  /\ (forall x, 0 <= x < nodeCount g -> ~ is_closed st x ->
                 f_le (G st u) (G st x) = true)
  /\ pq_good ok q
  /\ (forall e, e ∈ pq_entries q -> e ∈ pq_entries (openSet st)).
Proof.
  intros Hshape Hopt Hpop.
  destruct (shape_pop g st u f q Hshape Hpop) as (Hopen & Hnc & Hin & Hperm & _).
  pose proof (is_open_range g st u Hshape Hopen) as Hu.
  split; [exact Hopen|]. split; [exact Hnc|]. split; [exact Hu|].
  assert (pq_at (pq_nodes (openSet st)) 0 = mkPQNode u f) as Hroot.
  { assert (0 < pq_size (openSet st)) as Hpos.
    { destruct (decide (0 < pq_size (openSet st))) as [Hp|Hp]; [exact Hp|].
      rewrite pq_pop_None in Hpop; [discriminate|].
      destruct (shape_wf g st Hshape) as [Hsz _]. lia. }
    destruct (pq_pop_Some (openSet st) (shape_wf g st Hshape) Hpos) as (q' & Heq & _).
    rewrite Heq in Hpop. injection Hpop as Hu' Hf' _.
    destruct (pq_at (pq_nodes (openSet st)) 0); simpl in *; congruence. }
  assert (f = G st u) as Hf by (apply (opt_scores P st Hopt) in Hin; exact Hin).
  split; [|split].
  - intros x Hx Hnx.
    destruct (decide (aget false (inOpenSet st) x = true)) as [Hox|Hox].
    + apply (shape_open g st Hshape) in Hox.
      apply list_elem_of_fmap in Hox as (e & -> & He).
      rewrite <- (opt_scores P st Hopt e He), <- Hf.
      pose proof (pq_root_least ok okw laws _ e (opt_heap P st Hopt) He) as Hle.
      rewrite Hroot in Hle. exact Hle.
    + rewrite (opt_unseen P st Hopt x Hx Hox Hnx). apply (opt_le_max P st Hopt).
  - eapply pq_pop_good; [apply (sl_lt_le ok okw laws)|apply (sl_total ok okw laws)
                        |apply (sl_trans ok okw laws)|apply (opt_heap P st Hopt)|exact Hpop].
  - intros e He. rewrite Hperm. apply elem_of_cons. auto.
Qed.

(** Closing the popped node. *)
Lemma optimal_close (st : Search F) (u : Z) (f : F) (q : PriorityQueue F) :
  shape g st -> optimal (fun _ _ => True) st ->
  pq_pop (openSet st) = Some (u, f, q) -> u <> t ->
  let st2 := after_close (after_pop st u q) u in
  optimal (fun c _ => c <> u) st2
  /\ is_closed st2 u /\ is_closed st2 s
  /\ (forall c, is_closed st2 c -> f_le (G st2 c) (G st2 u) = true).
Proof.
  intros Hshape Hopt Hpop Hut st2.
  destruct (popped_least _ st u f q Hshape Hopt Hpop)
    as (Hopen & Hnc & Hu & Hleast & Hgood & Hsub).
  assert (forall v, is_closed st2 v <-> is_closed st v \/ v = u) as Hclosed
      by (intros v; apply closed_after_close; assumption).
  assert (forall v, is_open st2 v <-> is_open st v /\ v <> u) as Hopen2
      by (intros v; apply open_after_pop; assumption).
  assert (count_true (inClosedSet st2) = S (count_true (inClosedSet st))) as Hcount.
  { unfold st2. cbn [after_close after_pop inClosedSet].
    apply count_true_aset.
    - rewrite (shape_inClosedSet g st Hshape). lia.
    - unfold is_closed in Hnc. destruct (aget false (inClosedSet st) u); congruence. }
  assert (forall v k, chain st v k -> chain st2 v k) as Hchain.
  { intros v k. apply chain_mono; [|reflexivity]. intros x Hx. apply Hclosed. auto. }
  assert (is_closed st2 u) as Hcu by (apply Hclosed; auto).
  assert (is_closed st2 s) as Hcs.
  { apply Hclosed. destruct (opt_start_seen _ st Hopt) as [Hc|Hc]; [auto|].
    right. symmetry. apply Hc, Hopen. }
  assert (forall c, is_closed st2 c -> f_le (G st c) (G st u) = true) as Hmax.
  { intros c Hc. apply Hclosed in Hc as [Hc| ->].
    - apply (opt_closed_first _ st Hopt); assumption.
    - apply (s_le_refl ok okw laws), (opt_ok _ st Hopt). }
  split; [|split; [exact Hcu|split; [exact Hcs|exact Hmax]]].
  constructor; change (G st2) with (G st).
  - apply Hopt.
  - apply Hopt.
  - apply Hopt.
  - intros v Hv. apply (opt_found _ st Hopt).
    rewrite Hopen2, Hclosed in Hv. destruct (decide (v = u)) as [->|Hne]; tauto.
  - intros v Hv Hno Hncl. apply (opt_unseen _ st Hopt); [exact Hv| |].
    + intros Ho. apply Hno, Hopen2. split; [exact Ho|].
      intros ->. apply Hncl, Hclosed. auto.
    + intros Hc. apply Hncl, Hclosed. auto.
  - intros c j Hc Hne Hj Hact Hnode. apply Hclosed in Hc as [Hc|Hc]; [|contradiction].
    apply (opt_relaxed _ st Hopt); auto.
  - intros c x Hc Hnx Hx.
    assert (~ is_closed st x) as Hnx' by (intros Hcx; apply Hnx, Hclosed; auto).
    apply Hclosed in Hc as [Hc| ->].
    + apply (opt_closed_first _ st Hopt); assumption.
    + apply Hleast; assumption.
  - exact Hgood.
  - intros e He. apply (opt_scores _ st Hopt), Hsub, He.
  - intros v Hv. apply (opt_walk _ st Hopt).
    rewrite Hopen2, Hclosed in Hv. destruct (decide (v = u)) as [->|Hne]; tauto.
  - intros v Hv. apply Hopen2 in Hv as [Hv _].
    destruct (opt_chain_open _ st Hopt v Hv) as (k & Hk & Hle).
    exists k. split; [apply Hchain, Hk|lia].
  - intros v Hv. apply Hclosed in Hv as [Hv| ->].
    + destruct (opt_chain_closed _ st Hopt v Hv) as (k & Hk & Hle).
      exists k. split; [apply Hchain, Hk|lia].
    + destruct (opt_chain_open _ st Hopt u Hopen) as (k & Hk & Hle).
      exists k. split; [apply Hchain, Hk|lia].
  - intros Hc. apply Hclosed in Hc as [Hc|Hc]; [|congruence].
    exact (opt_goal_open _ st Hopt Hc).
  - left. exact Hcs.
Qed.

(** *** One round of the neighbour loop *)

(** [st'] is [st] after the neighbour [v] of [u] got the better score
    [tentativeG]. *)
Record improved (st st' : Search F) (u v : Z) (tentativeG : F) : Prop := {
  imp_gScore : gScore st' = aset (gScore st) v tentativeG;
  imp_cameFrom : cameFrom st' = aset (cameFrom st) v u;
  imp_inClosedSet : inClosedSet st' = inClosedSet st;
  imp_open : forall x, is_open st' x <-> is_open st x \/ x = v;
  imp_heap : pq_good ok (openSet st');
  imp_entries :
    forall e, e ∈ pq_entries (openSet st') ->
              e = mkPQNode v tentativeG
              \/ (e ∈ pq_entries (openSet st) /\ pq_nodeId e <> v);
}.

Lemma elem_of_insert_cases {A} (l : list A) (k : nat) (x e : A) :
  e ∈ <[k:=x]> l -> e = x \/ exists j, j <> k /\ l !! j = Some e.
Proof.
  intros He. apply list_elem_of_lookup_1 in He as [j Hj].
  rewrite list_lookup_insert in Hj.
  destruct (decide (k = j /\ (k < length l)%nat)) as [_|Hn].
  - left. congruence.
  - right. exists j. split; [|exact Hj].
    intros ->. apply Hn. split; [reflexivity|]. eapply lookup_lt_Some, Hj.
Qed.

Lemma relax_cases (P : Z -> Z -> Prop) (st : Search F) (u i : Z) :
  shape g st -> optimal P st ->
  0 <= u < nodeCount g -> 0 <= i < edgeCount_at g u ->
  let e := edge_at g u i in
  let v := edge_to e in
  let tentativeG := f_add (G st u) (edge_weight e) in
  (relax g t cfg u st i = st
   /\ (edge_active e = false \/ node_active (node_at g v) = false
       \/ is_closed st v \/ f_lt tentativeG (G st v) = false))
  \/ (edge_active e = true /\ node_active (node_at g v) = true
      /\ ~ is_closed st v /\ f_lt tentativeG (G st v) = true
      /\ improved st (relax g t cfg u st i) u v tentativeG).
Proof.
  intros Hshape Hopt Hu Hi e v tentativeG. unfold relax.
  fold e. fold v. fold (G st u). fold (G st v). fold tentativeG.
  destruct (edge_active e) eqn:Hact; cbn [negb]; [|left; auto].
  destruct (node_active (node_at g v)) eqn:Hnode; cbn [negb]; [|left; auto].
  pose proof (Htargets u i Hu Hi Hact Hnode) as Hv. fold e in Hv. fold v in Hv.
  destruct (aget false (inClosedSet st) v) eqn:Hclosed; [left; auto|].
  destruct (f_lt tentativeG (G st v)) eqn:Hlt; [|left; auto].
  right. split; [reflexivity|]. split; [reflexivity|].
  split; [unfold is_closed; congruence|]. split; [reflexivity|].
  assert (ok tentativeG) as Hok.
  { apply (sl_add ok okw laws); [apply (opt_ok P st Hopt)|]. apply Hweights; assumption. }
  rewrite heuristic_zero.
  rewrite aget_aset_eq by (rewrite (shape_fScore g st Hshape); lia).
  rewrite Hweight0 by exact Hok.
  destruct (aget false (inOpenSet st) v) eqn:Hopen; cbn [negb].
  - (* pq_decrease_priority *)
    assert (v ∈ open_ids st) as Hin by (apply (shape_open g st Hshape); exact Hopen).
    apply (pq_find_is_Some _ _ (shape_wf g st Hshape)) in Hin as Hfound.
    destruct Hfound as [k Hk].
    pose proof (pq_find_Some _ _ _ Hk) as [Hkr Hkid].
    pose proof (pq_entries_lookup _ _ (shape_wf g st Hshape) Hkr) as Hkl.
    destruct (pq_decrease_priority_present (openSet st) v k tentativeG
                (shape_wf g st Hshape) Hk) as (_ & _ & _ & Hent).
    assert (pq_fScore (pq_at (pq_nodes (openSet st)) k) = G st v) as Hold.
    { rewrite (opt_scores P st Hopt); [rewrite Hkid; reflexivity|].
      eapply list_elem_of_lookup_2, Hkl. }
    rewrite Hold, Hlt in Hent.
    constructor; cbn [gScore cameFrom inClosedSet inOpenSet openSet]; try reflexivity.
    + intros x. unfold is_open. cbn [inOpenSet]. split; [auto|].
      intros [Hx| ->]; assumption.
    + apply pq_decrease_priority_good;
        [apply (sl_lt_le ok okw laws)|apply (sl_total ok okw laws)|apply (sl_trans ok okw laws)
        |apply (opt_heap P st Hopt)|exact Hok].
    + intros e' He'. rewrite Hent in He'.
      apply elem_of_insert_cases in He' as [->|(j & Hjk & Hj)]; [auto|].
      right. split; [eapply list_elem_of_lookup_2, Hj|].
      intros Hid. apply Hjk.
      apply (NoDup_lookup (open_ids st) j (Z.to_nat k) v (shape_open_NoDup g st Hshape)).
      * unfold open_ids. rewrite list_lookup_fmap, Hj. simpl. congruence.
      * unfold open_ids. rewrite list_lookup_fmap, Hkl. simpl. congruence.
  - (* pq_push *)
    assert (v ∉ open_ids st) as Hfresh.
    { intros Hin. apply (shape_open g st Hshape) in Hin. unfold is_open in Hin.
      congruence. }
    assert (pq_size (openSet st) < pq_capacity (openSet st)) as Hroom.
    { rewrite (shape_capacity g st Hshape),
        <- (length_pq_entries _ (shape_wf g st Hshape)).
      assert (Z.of_nat (length (v :: open_ids st)) <= nodeCount g) as Hlen.
      { apply NoDup_range_length; [lia| |].
        - apply list.NoDup_cons. split; [exact Hfresh|apply Hshape].
        - intros x Hx. apply elem_of_cons in Hx as [->|Hx]; [exact Hv|].
          apply (is_open_range g st x Hshape), (shape_open g st Hshape), Hx. }
      cbn [length] in Hlen. unfold open_ids in Hlen. rewrite length_fmap in Hlen. lia. }
    destruct (pq_push_accepts (openSet st) v tentativeG (shape_wf g st Hshape) Hroom)
      as (q' & Heq & _ & _ & _ & Hperm).
    pose proof (pq_push_good ok (sl_lt_le ok okw laws) (sl_total ok okw laws) (sl_trans ok okw laws)
                  (openSet st) v tentativeG (opt_heap P st Hopt) Hok) as Hgood.
    rewrite Heq in Hgood |- *. cbn [snd] in Hgood. cbv beta iota.
    constructor; cbn [gScore cameFrom inClosedSet inOpenSet openSet]; try reflexivity.
    + intros x. unfold is_open. cbn [inOpenSet]. rewrite aget_aset.
      destruct (decide (v = x /\ 0 <= v < Z.of_nat (length (inOpenSet st))))
        as [[Hvx _]|Hn]; [split; auto|].
      split; [auto|]. intros [Hx|Hx]; [exact Hx|].
      exfalso. apply Hn. split; [auto|]. rewrite (shape_inOpenSet g st Hshape). lia.
    + exact Hgood.
    + intros e' He'. rewrite Hperm in He'.
      apply elem_of_cons in He' as [->|He']; [auto|].
      right. split; [exact He'|]. intros Hid. apply Hfresh.
      rewrite <- Hid. apply list_elem_of_fmap_2, He'.
Qed.

Lemma chain_frame (st st' : Search F) (v v0 : Z) (k : nat) :
  inClosedSet st' = inClosedSet st ->
  (forall x, x <> v -> CF st' x = CF st x) ->
  ~ is_closed st v -> v0 <> v ->
  chain st v0 k -> chain st' v0 k.
Proof.
  intros Hc Hcf Hv. revert v0. induction k as [|k IH]; intros v0 Hne; simpl; [auto|].
  intros (Hs0 & Hpos & Hcl & Hch). rewrite Hcf by exact Hne.
  split; [exact Hs0|]. split; [exact Hpos|].
  split; [unfold is_closed in *; rewrite Hc; exact Hcl|].
  apply IH; [|exact Hch]. intros Heq. apply Hv. rewrite <- Heq. exact Hcl.
Qed.

(** Slot [i] of [u] is settled without a change of state. *)
Lemma optimal_settle (P P' : Z -> Z -> Prop) (st : Search F) (u i : Z) :
  optimal P st ->
  (forall c j, P' c j -> P c j \/ (c = u /\ j = i)) ->
  (edge_active (edge_at g u i) = true ->
   node_active (node_at g (edge_to (edge_at g u i))) = true ->
   f_le (G st (edge_to (edge_at g u i)))
        (f_add (G st u) (edge_weight (edge_at g u i))) = true) ->
  optimal P' st.
Proof.
  intros Hopt HP Hedge. constructor; try apply Hopt.
  intros c j Hc Hp Hj Hact Hnode. destruct (HP c j Hp) as [Hp'|[-> ->]].
  - apply (opt_relaxed P st Hopt); assumption.
  - apply Hedge; assumption.
Qed.

(** Slot [i] of [u] is settled by giving its target a better score. *)
Lemma optimal_improved (P P' : Z -> Z -> Prop) (st st' : Search F) (u i : Z) :
  let e := edge_at g u i in
  let v := edge_to e in
  let tentativeG := f_add (G st u) (edge_weight e) in
  shape g st -> optimal P st ->
  is_closed st u -> is_closed st s ->
  (forall c, is_closed st c -> f_le (G st c) (G st u) = true) ->
  0 <= u < nodeCount g -> 0 <= i < edgeCount_at g u ->
  edge_active e = true -> node_active (node_at g v) = true ->
  ~ is_closed st v -> f_lt tentativeG (G st v) = true ->
  improved st st' u v tentativeG ->
  (forall c j, P' c j -> P c j \/ (c = u /\ j = i)) ->
  optimal P' st'
  /\ is_closed st' u /\ is_closed st' s
  /\ (forall c, is_closed st' c -> f_le (G st' c) (G st' u) = true).
Proof.
  intros e v tentativeG Hshape Hopt Hcu Hcs Hmax Hu Hi Hact Hnode Hnv Hlt Himp HP.
  pose proof (Htargets u i Hu Hi Hact Hnode) as Hv. fold e in Hv. fold v in Hv.
  assert (okw (edge_weight e)) as Hwe by (apply Hweights; assumption).
  assert (forall x, ok (G st x)) as HokG by apply (opt_ok P st Hopt).
  assert (ok tentativeG) as Hok by (apply (sl_add ok okw laws); auto).
  assert (forall x, G st' x = if decide (x = v) then tentativeG else G st x) as HG.
  { intros x. unfold G. rewrite (imp_gScore _ _ _ _ _ Himp), aget_aset.
    destruct (decide (x = v)) as [->|Hne].
    - destruct (decide _) as [_|Hn]; [reflexivity|].
      exfalso. apply Hn. split; [reflexivity|]. rewrite (shape_gScore g st Hshape). lia.
    - destruct (decide _) as [[Heq _]|_]; [congruence|reflexivity]. }
  assert (forall x, CF st' x = if decide (x = v) then u else CF st x) as HCF.
  { intros x. unfold CF. rewrite (imp_cameFrom _ _ _ _ _ Himp), aget_aset.
    destruct (decide (x = v)) as [->|Hne].
    - destruct (decide _) as [_|Hn]; [reflexivity|].
      exfalso. apply Hn. split; [reflexivity|]. rewrite (shape_cameFrom g st Hshape). lia.
    - destruct (decide _) as [[Heq _]|_]; [congruence|reflexivity]. }
  assert (forall x, is_closed st' x <-> is_closed st x) as Hclosed
      by (intros x; unfold is_closed; rewrite (imp_inClosedSet _ _ _ _ _ Himp); tauto).
  pose proof (imp_open _ _ _ _ _ Himp) as Hopen.
  assert (v <> u) as Hvu by (intros Heq; apply Hnv; rewrite Heq; exact Hcu).
  assert (v <> s) as Hvs by (intros Heq; apply Hnv; rewrite Heq; exact Hcs).
  assert (forall c, is_closed st c -> G st' c = G st c) as HGc.
  { intros c Hc. rewrite HG. destruct (decide (c = v)) as [->|_]; [contradiction|reflexivity]. }
  assert (f_le tentativeG (G st v) = true) as Hle
      by (apply (s_lt_true_le ok okw laws); auto).
  assert (forall x k, x <> v -> chain st x k -> chain st' x k) as Hchain.
  { intros x k Hne. apply (chain_frame st st' v); auto.
    - apply (imp_inClosedSet _ _ _ _ _ Himp).
    - intros y Hy. rewrite HCF. destruct (decide (y = v)); [contradiction|reflexivity]. }
  split; [|split; [apply Hclosed, Hcu|split; [apply Hclosed, Hcs|]]].
  2:{ intros c Hc. apply Hclosed in Hc. rewrite !HGc by assumption. apply Hmax, Hc. }
  constructor.
  - rewrite HG. destruct (decide (s = v)); [congruence|]. apply Hopt.
  - intros x. rewrite HG. destruct (decide _); auto.
  - intros x. rewrite HG. destruct (decide _); [|apply Hopt].
    apply (sl_trans ok okw laws _ (G st v)); auto; [apply (sl_max ok okw laws)|apply Hopt].
  - intros x Hx. rewrite HG. destruct (decide (x = v)) as [->|Hne].
    + apply (s_lt_le_trans ok okw laws _ (G st v)); auto; [apply (sl_max ok okw laws)|apply Hopt].
    + apply (opt_found P st Hopt). rewrite Hopen, Hclosed in Hx. tauto.
  - intros x Hx Hno Hnc. rewrite HG. destruct (decide (x = v)) as [->|Hne].
    + exfalso. apply Hno, Hopen. auto.
    + apply (opt_unseen P st Hopt); [exact Hx| |].
      * intros Ho. apply Hno, Hopen. auto.
      * intros Hc. apply Hnc, Hclosed, Hc.
  - intros c j Hc Hp Hj Hactj Hnodej. apply Hclosed in Hc.
    rewrite (HGc c Hc), HG.
    destruct (decide (edge_to (edge_at g c j) = v)) as [Htov|Htov].
    + destruct (HP c j Hp) as [Hp'|[-> ->]].
      * apply (sl_trans ok okw laws _ (G st v)); auto.
        -- apply (sl_add ok okw laws); [auto|]. apply Hweights; auto.
           eapply is_closed_range; eassumption.
        -- rewrite <- Htov. apply (opt_relaxed P st Hopt); assumption.
      * apply (s_le_refl ok okw laws), Hok.
    + destruct (HP c j Hp) as [Hp'|[-> ->]].
      * apply (opt_relaxed P st Hopt); assumption.
      * contradiction.
  - intros c x Hc Hnx Hx. apply Hclosed in Hc. rewrite (HGc c Hc), HG.
    destruct (decide (x = v)) as [->|Hne].
    + apply (sl_trans ok okw laws _ (G st u)); auto.
      apply (sl_add_infl ok okw laws); auto.
    + apply (opt_closed_first P st Hopt); auto. intros Hcx. apply Hnx, Hclosed, Hcx.
  - apply (imp_heap _ _ _ _ _ Himp).
  - intros e' He'. rewrite HG.
    destruct (imp_entries _ _ _ _ _ Himp e' He') as [->|[Hin Hid]].
    + cbn [pq_fScore pq_nodeId]. destruct (decide (v = v)); [reflexivity|contradiction].
    + destruct (decide (pq_nodeId e' = v)); [contradiction|].
      apply (opt_scores P st Hopt), Hin.
  - intros x Hx. rewrite HG. destruct (decide (x = v)) as [->|Hne].
    + destruct (opt_walk P st Hopt u (or_intror Hcu)) as (es & Hes & Hcost).
      exists (es ++ [e]). split.
      * apply walk_snoc; assumption.
      * rewrite path_cost_snoc, Hcost. reflexivity.
    + apply (opt_walk P st Hopt). rewrite Hopen, Hclosed in Hx. tauto.
  - intros x Hx. rewrite (imp_inClosedSet _ _ _ _ _ Himp).
    destruct (decide (x = v)) as [->|Hne].
    + destruct (opt_chain_closed P st Hopt u Hcu) as (k & Hk & Hklt).
      exists (S k). split; [|lia]. simpl. rewrite HCF.
      destruct (decide (v = v)); [|contradiction].
      split; [exact Hvs|]. split; [lia|]. split; [apply Hclosed, Hcu|].
      apply Hchain; auto.
    + apply Hopen in Hx as [Hx|Hx]; [|contradiction].
      destruct (opt_chain_open P st Hopt x Hx) as (k & Hk & Hkle).
      exists k. split; [apply Hchain; assumption|exact Hkle].
  - intros x Hx. rewrite (imp_inClosedSet _ _ _ _ _ Himp). apply Hclosed in Hx.
    destruct (opt_chain_closed P st Hopt x Hx) as (k & Hk & Hklt).
    exists k. split; [|exact Hklt]. apply Hchain; [|exact Hk].
    intros ->. contradiction.
  - intros Hc. apply Hclosed in Hc. exact (opt_goal_open P st Hopt Hc).
  - left. apply Hclosed, Hcs.
Qed.

Lemma optimal_weaken (P P' : Z -> Z -> Prop) (st : Search F) :
  (forall c j, 0 <= j < edgeCount_at g c -> P' c j -> P c j) ->
  optimal P st -> optimal P' st.
Proof.
  intros HP Hopt. constructor; try apply Hopt.
  intros c j Hc Hp Hj. apply (opt_relaxed P st Hopt); auto.
Qed.

(** The invariant of the neighbour loop of the closed node [u], after the
    slots [done]. *)
Definition relaxing (u : Z) (done : list Z) (st : Search F) : Prop :=
  shape g st
  /\ optimal (fun c j => c <> u \/ j ∈ done) st
  /\ is_closed st u /\ is_closed st s
  /\ (forall c, is_closed st c -> f_le (G st c) (G st u) = true).

Lemma relaxing_step (u i : Z) (done : list Z) (st : Search F) :
  0 <= u < nodeCount g -> 0 <= i < edgeCount_at g u ->
  relaxing u done st -> relaxing u (done ++ [i]) (relax g t cfg u st i).
Proof.
  intros Hu Hi (Hshape & Hopt & Hcu & Hcs & Hmax).
  assert (forall c j, c <> u \/ j ∈ done ++ [i] ->
                      (c <> u \/ j ∈ done) \/ (c = u /\ j = i)) as HP.
  { intros c j [Hc|Hj]; [auto|].
    apply elem_of_app in Hj as [Hj|Hj]; [auto|].
    apply list_elem_of_singleton in Hj. destruct (decide (c = u)); auto. }
  assert (shape g (relax g t cfg u st i)) as Hshape'
      by (apply shape_relax; assumption).
  split; [exact Hshape'|].
  destruct (relax_cases _ st u i Hshape Hopt Hu Hi)
    as [[Heq Hwhy]|(Hact & Hnode & Hnv & Hlt & Himp)].
  - rewrite Heq. split; [|auto].
    apply (optimal_settle _ _ st u i Hopt HP).
    intros Hact Hnode.
    assert (okw (edge_weight (edge_at g u i))) as Hwe by (apply Hweights; assumption).
    destruct Hwhy as [Hw|[Hw|[Hw|Hw]]]; try congruence.
    + apply (sl_trans ok okw laws _ (G st u)); try apply (opt_ok _ st Hopt).
      * apply (sl_add ok okw laws); [apply (opt_ok _ st Hopt)|exact Hwe].
      * apply Hmax, Hw.
      * apply (sl_add_infl ok okw laws); [apply (opt_ok _ st Hopt)|exact Hwe].
    + apply (s_lt_false_le ok okw laws) in Hw; [exact Hw| |apply (opt_ok _ st Hopt)].
      apply (sl_add ok okw laws); [apply (opt_ok _ st Hopt)|exact Hwe].
  - exact (optimal_improved (fun c j => c <> u \/ j ∈ done) _ st _ u i
             Hshape Hopt Hcu Hcs Hmax Hu Hi Hact Hnode Hnv Hlt Himp HP).
Qed.

Lemma relaxing_all (u : Z) (st : Search F) :
  0 <= u < nodeCount g ->
  relaxing u [] st ->
  let st' := foldl (relax g t cfg u) st (seqZ 0 (edgeCount_at g u)) in
  shape g st' /\ optimal (fun _ _ => True) st'.
Proof.
  intros Hu Hinv st'.
  assert (relaxing u (seqZ 0 (edgeCount_at g u)) st') as (Hshape & Hopt & _).
  { unfold st'. apply (foldl_invariant _ (relaxing u)); [exact Hinv|].
    intros done i rest st0 Hl Hst0. apply relaxing_step; [exact Hu| |exact Hst0].
    apply elem_of_seqZ_0. rewrite Hl. apply elem_of_app. right.
    apply elem_of_cons. auto. }
  split; [exact Hshape|].
  apply (optimal_weaken (fun c j => c <> u \/ j ∈ seqZ 0 (edgeCount_at g u)));
    [|exact Hopt].
  intros c j Hj _. destruct (decide (c = u)) as [->|Hne]; [|auto].
  right. apply elem_of_seqZ_0, Hj.
Qed.

(** *** Reading the path back *)

Lemma count_path_chain (st : Search F) (k fuel : nat) (len cur : Z) :
  chain st cur k -> (k <= fuel)%nat -> len + Z.of_nat k <= nodeCount g ->
  count_path fuel (cameFrom st) s (nodeCount g) len cur = (len + Z.of_nat k, s).
Proof.
  revert fuel len cur. induction k as [|k IH]; intros fuel len cur Hch Hfuel Hlen.
  - simpl in Hch. subst cur. rewrite Z.add_0_r.
    destruct fuel as [|fuel]; [reflexivity|]. simpl.
    destruct (decide (s <> s /\ s <> -1 /\ len < nodeCount g)) as [[Hbad _]|_];
      [contradiction|reflexivity].
  - destruct Hch as (Hne & Hpos & _ & Hch).
    destruct fuel as [|fuel]; [lia|]. simpl.
    destruct (decide (cur <> s /\ cur <> -1 /\ len < nodeCount g)) as [_|Hn];
      [|exfalso; apply Hn; repeat split; [exact Hne|lia|lia]].
    fold (CF st cur). rewrite (IH fuel (len + 1) (CF st cur)) by (try assumption; lia).
    f_equal. lia.
Qed.

Lemma reconstruct_path_chain (st : Search F) (k : nat) :
  chain st t k -> Z.of_nat k < nodeCount g ->
  found (reconstruct_path (cameFrom st) (gScore st) s t (nodeCount g)) = true
  /\ totalCost (reconstruct_path (cameFrom st) (gScore st) s t (nodeCount g)) = G st t.
Proof.
  intros Hch Hk. unfold reconstruct_path.
  rewrite (count_path_chain st k) by (try assumption; lia).
  destruct (decide (s = s)) as [_|Hbad]; [|contradiction].
  destruct (decide (s <> s)) as [Hbad|_]; [contradiction|].
  split; reflexivity.
Qed.

Lemma pq_pop_None_size (pq : PriorityQueue F) : pq_pop pq = None -> pq_size pq = 0.
Proof.
  unfold pq_pop. destruct (decide (pq_size pq = 0)); [auto|discriminate].
Qed.

(** *** The main loop *)

Lemma astar_loop_optimal (es : list (Edge F)) (fuel : nat) (st : Search F) :
  walk g s es t -> f_lt (path_cost es) FLT_MAX = true ->
  shape g st -> optimal (fun _ _ => True) st ->
  (Z.to_nat (nodeCount g) - count_true (inClosedSet st) < fuel)%nat ->
  exists result st',
    astar_loop fuel g s t cfg st = Some (result, st')
    /\ found result = true
    /\ (exists es', walk g s es' t /\ path_cost es' = totalCost result)
    /\ (forall es', walk g s es' t -> f_le (totalCost result) (path_cost es') = true).
Proof.
  intros Hwalk Hfinite. revert st.
  induction fuel as [|fuel IH]; intros st Hshape Hopt Hfuel; [lia|].
  rewrite astar_loop_unfold.
  destruct (pq_pop (openSet st)) as [[[u f] q]|] eqn:Hpop.
  2:{ (* the queue cannot run empty while the goal is within reach *)
    exfalso. apply pq_pop_None_size in Hpop.
    destruct (walk_lower_bound st es t Hshape Hopt Hwalk) as [_ Hlow].
    destruct (Hlow (opt_goal_open _ st Hopt)) as (x & Hx & Hnx & Hle).
    assert (f_lt (G st x) FLT_MAX = true) as Hlt.
    { apply (s_le_lt_trans ok okw laws _ (path_cost es)); auto.
      - apply (opt_ok _ st Hopt).
      - eapply walk_cost_ok, Hwalk.
      - apply (sl_max ok okw laws). }
    destruct (decide (aget false (inOpenSet st) x = true)) as [Hox|Hox].
    - apply (shape_open g st Hshape) in Hox. unfold open_ids, pq_entries in Hox.
      rewrite Hpop in Hox. simpl in Hox. inversion Hox.
    - rewrite (opt_unseen _ st Hopt x Hx Hox Hnx) in Hlt.
      rewrite (s_lt_irrefl ok okw laws) in Hlt by apply (sl_max ok okw laws). discriminate. }
  destruct (popped_least _ st u f q Hshape Hopt Hpop)
    as (Hopen & Hnc & Hu & Hleast & _ & _).
  destruct (decide (u = t)) as [->|Hut].
  - (* the goal is popped *)
    destruct (opt_chain_open _ st Hopt t Hopen) as (k & Hk & Hkle).
    assert (Z.of_nat k < nodeCount g) as Hklt.
    { assert (0 <= t < Z.of_nat (length (inClosedSet st))) as Hr
          by (rewrite (shape_inClosedSet g st Hshape); lia).
      assert (aget false (inClosedSet st) t = false) as Hf
          by (unfold is_closed in Hnc; destruct (aget false (inClosedSet st) t); congruence).
      pose proof (count_true_le (aset (inClosedSet st) t true)) as Hle.
      rewrite (count_true_aset _ _ Hr Hf), length_aset,
        (shape_inClosedSet g st Hshape) in Hle. lia. }
    destruct (reconstruct_path_chain st k Hk Hklt) as [Hfound Hcost].
    eexists _, _. split; [reflexivity|]. split; [exact Hfound|].
    rewrite Hcost. split.
    + apply (opt_walk _ st Hopt). auto.
    + intros es' Hes'.
      destruct (walk_lower_bound st es' t Hshape Hopt Hes') as [_ Hlow].
      destruct (Hlow Hnc) as (x & Hx & Hnx & Hle).
      apply (sl_trans ok okw laws _ (G st x)); try apply (opt_ok _ st Hopt); auto.
      eapply walk_cost_ok, Hes'.
  - (* another node is popped, closed and its neighbours are relaxed *)
    unfold is_closed in Hnc.
    destruct (aget false (inClosedSet st) u) eqn:Hc; [contradiction|].
    destruct (shape_pop g st u f q Hshape Hpop) as (_ & _ & _ & _ & Hshape2).
    destruct (optimal_close st u f q Hshape Hopt Hpop Hut) as (Hopt2 & Hcu & Hcs & Hmax).
    destruct (relaxing_all u (after_close (after_pop st u q) u) Hu) as [Hshape3 Hopt3].
    { split; [exact Hshape2|]. split; [|auto].
      apply (optimal_weaken (fun c _ => c <> u)); [|exact Hopt2].
      intros c j _ [Hne|Hin]; [exact Hne|inversion Hin]. }
    apply IH; [exact Hshape3|exact Hopt3|].
    rewrite relax_all_inClosedSet. cbn [after_close after_pop inClosedSet].
    assert (0 <= u < Z.of_nat (length (inClosedSet st))) as Hur
        by (rewrite (shape_inClosedSet g st Hshape); lia).
    rewrite (count_true_aset _ _ Hur Hc).
    pose proof (count_true_le (aset (inClosedSet st) u true)) as Hle.
    rewrite (count_true_aset _ _ Hur Hc), length_aset,
      (shape_inClosedSet g st Hshape) in Hle.
    lia.
Qed.

(** *** The first round: the start is popped and closed *)

Lemma start_pop :
  exists q, pq_pop (openSet (astar_start g s t cfg))
            = Some (s, f_mul f_zero (heuristicWeight cfg), q)
            /\ pq_size q = 0.
Proof.
  rewrite astar_start_shape by exact Hs. cbn [openSet]. rewrite heuristic_zero.
  unfold pq_pop. cbn [pq_size pq_nodes pq_capacity].
  destruct (decide (1 = 0)) as [Hbad|_]; [lia|].
  destruct (decide (1 - 1 > 0)) as [Hbad|_]; [lia|].
  unfold pq_at. rewrite aget_aset_eq by (rewrite length_replicate; lia).
  eexists. split; reflexivity.
Qed.

(** The state in which the neighbour loop of the start begins. *)
Lemma relaxing_start (f : F) (q : PriorityQueue F) :
  pq_pop (openSet (astar_start g s t cfg)) = Some (s, f, q) -> pq_size q = 0 ->
  s <> t ->
  relaxing s [] (after_close (after_pop (astar_start g s t cfg) s q) s).
Proof.
  intros Hpop Hq Hst.
  pose proof (sl_zero ok okw laws) as Hz. pose proof (sl_max ok okw laws) as Hm.
  set (st0 := astar_start g s t cfg) in *.
  set (st1 := after_close (after_pop st0 s q) s).
  assert (shape g st0) as Hshape0 by apply shape_start, Hs.
  destruct (shape_pop g st0 s f q Hshape0 Hpop) as (_ & _ & _ & _ & Hshape1).
  fold st1 in Hshape1.
  assert (forall v, is_closed st1 v <-> v = s) as Hclosed.
  { intros v. unfold st1. rewrite closed_after_close by assumption.
    split; [intros [Hv|Hv]; [destruct (start_is_closed v Hv)|exact Hv]|auto]. }
  assert (forall v, ~ is_open st1 v) as Hopen.
  { intros v. unfold st1. rewrite open_after_pop by assumption.
    intros [Hv Hne]. apply start_is_open in Hv. contradiction. }
  assert (forall v, G st1 v = if decide (v = s) then f_zero
                              else if decide (0 <= v < nodeCount g) then FLT_MAX
                                   else f_zero) as HG.
  { intros v. change (G st1 v) with (G st0 v). apply start_G. }
  assert (G st1 s = f_zero) as HGs.
  { rewrite HG. destruct (decide (s = s)); [reflexivity|contradiction]. }
  assert (forall v, ok (G st1 v)) as HokG.
  { intros v. rewrite HG. repeat destruct (decide _); assumption. }
  assert (forall v, f_le f_zero (G st1 v) = true) as Hleast.
  { intros v. rewrite HG. repeat destruct (decide _);
      try apply s_zero_le_max; apply (s_le_refl ok okw laws), Hz. }
  assert (count_true (inClosedSet st1) = S (count_true (inClosedSet st0))) as Hcount.
  { unfold st1. cbn [after_close after_pop inClosedSet]. apply count_true_aset.
    - rewrite (shape_inClosedSet g st0 Hshape0). lia.
    - destruct (aget false (inClosedSet st0) s) eqn:Hc; [|reflexivity].
      destruct (start_is_closed s Hc). }
  assert (is_closed st1 s) as Hcs by (apply Hclosed; reflexivity).
  split; [exact Hshape1|]. split; [|split; [exact Hcs|split; [exact Hcs|]]].
  2:{ intros c Hc. apply Hclosed in Hc as ->. apply (s_le_refl ok okw laws), HokG. }
  constructor.
  - exact HGs.
  - exact HokG.
  - intros v. rewrite HG. repeat destruct (decide _);
      try apply s_zero_le_max. apply (s_le_refl ok okw laws), Hm.
  - intros v [Hv|Hv]; [destruct (Hopen v Hv)|]. apply Hclosed in Hv as ->.
    rewrite HGs. apply (sl_zero_lt_max ok okw laws).
  - intros v Hv _ Hnc. rewrite HG.
    destruct (decide (v = s)) as [->|_]; [contradiction|].
    destruct (decide (0 <= v < nodeCount g)); [reflexivity|contradiction].
  - intros c j Hc [Hne|Hin]; [|inversion Hin]. apply Hclosed in Hc. contradiction.
  - intros c x Hc _ _. apply Hclosed in Hc as ->. rewrite HGs. apply Hleast.
  - split; [apply (shape_wf g st1 Hshape1)|].
    unfold pq_heap_ordered, heap_ordered, all_ok. cbn [st1 after_close after_pop openSet].
    rewrite Hq. split; intros; lia.
  - intros e He. unfold pq_entries in He.
    cbn [st1 after_close after_pop openSet] in He. rewrite Hq in He. inversion He.
  - intros v [Hv|Hv]; [destruct (Hopen v Hv)|]. apply Hclosed in Hv as ->.
    exists []. split; [constructor|]. rewrite HGs. reflexivity.
  - intros v Hv. destruct (Hopen v Hv).
  - intros v Hv. apply Hclosed in Hv as ->. exists O. split; [reflexivity|lia].
  - intros Hc. apply Hclosed in Hc. congruence.
  - left. exact Hcs.
Qed.

(** *** The whole search *)

Lemma astar_start_optimal (es : list (Edge F)) (fuel : nat) :
  walk g s es t -> f_lt (path_cost es) FLT_MAX = true ->
  (Z.to_nat (nodeCount g) < fuel)%nat ->
  exists result st',
    astar_loop fuel g s t cfg (astar_start g s t cfg) = Some (result, st')
    /\ found result = true
    /\ (exists es', walk g s es' t /\ path_cost es' = totalCost result)
    /\ (forall es', walk g s es' t -> f_le (totalCost result) (path_cost es') = true).
Proof.
  intros Hwalk Hfinite Hfuel. destruct fuel as [|fuel]; [lia|].
  rewrite astar_loop_unfold.
  destruct start_pop as (q & Hpop & Hq). rewrite Hpop.
  assert (shape g (astar_start g s t cfg)) as Hshape0 by apply shape_start, Hs.
  destruct (decide (s = t)) as [Hst|Hst].
  - (* the goal is the start *)
    assert (chain (astar_start g s t cfg) t 0) as Hch by (simpl; congruence).
    destruct (reconstruct_path_chain _ O Hch ltac:(lia)) as [Hfound Hcost].
    assert (G (astar_start g s t cfg) t = f_zero) as HGt.
    { rewrite start_G. destruct (decide (t = s)); [reflexivity|congruence]. }
    eexists _, _. split; [reflexivity|]. split; [exact Hfound|].
    rewrite Hcost, HGt. split.
    + exists []. split; [rewrite <- Hst; constructor|reflexivity].
    + intros es' Hes'. eapply walk_cost_least, Hes'.
  - (* the start is closed and its neighbours are relaxed *)
    destruct (aget false (inClosedSet (astar_start g s t cfg)) s) eqn:Hc;
      [destruct (start_is_closed s Hc)|].
    destruct (relaxing_all s (after_close (after_pop (astar_start g s t cfg) s q) s) Hs)
      as [Hshape3 Hopt3]; [apply (relaxing_start _ _ Hpop Hq Hst)|].
    apply (astar_loop_optimal es); [exact Hwalk|exact Hfinite|exact Hshape3|exact Hopt3|].
    rewrite relax_all_inClosedSet. cbn [after_close after_pop inClosedSet].
    assert (0 <= s < Z.of_nat (length (inClosedSet (astar_start g s t cfg)))) as Hsr
        by (rewrite (shape_inClosedSet g _ Hshape0); lia).
    rewrite (count_true_aset _ _ Hsr Hc).
    pose proof (count_true_le (aset (inClosedSet (astar_start g s t cfg)) s true)) as Hle.
    rewrite (count_true_aset _ _ Hsr Hc), length_aset,
      (shape_inClosedSet g _ Hshape0) in Hle.
    lia.
Qed.

End SearchOptimal.

(* ===================================================================== *)
(** ** Binary32 addition and order on the scores, in integers

    A score is a float with a bit pattern from [0] (for [+0]) to [INF] (for
    [+inf]).  On the scores the order of the floats is the order of the bit
    patterns, and the sum of a score and a weight is the rounding to nearest,
    ties to even, of the exact sum.  Values are counted in units of
    [2^-149], the least positive float. *)

(** [V / 2^k] rounded to the nearest integer, ties to even. *)
Definition rne (V k : Z) : Z :=
  let q := V / 2 ^ k in
  let r := V mod 2 ^ k in
  if 2 * r <? 2 ^ k then q
  else if 2 ^ k <? 2 * r then q + 1
  else if Z.even q then q else q + 1.

(** The bit pattern of [+inf]. *)
Definition INF : Z := 255 * 2 ^ 23.

(** The bit pattern of the float nearest to [V] units. *)
Definition round_bits (V : Z) : Z :=
  let d := Z.log2 V + 1 in
  if d <=? 24 then V
  else Z.min ((d - 24) * 2 ^ 23 + rne V (d - 24)) INF.

(** The value, in units, of the score with the bit pattern [n]. *)
Definition b32_val (n : Z) : Z :=
  let E := n / 2 ^ 23 in
  let M := n mod 2 ^ 23 in
  if E =? 0 then M else (2 ^ 23 + M) * 2 ^ (E - 1).

Lemma rne_bounds (V k : Z) : V / 2 ^ k <= rne V k <= V / 2 ^ k + 1.
Proof.
  unfold rne. cbv zeta.
  destruct (2 * (V mod 2 ^ k) <? 2 ^ k); [lia|].
  destruct (2 ^ k <? 2 * (V mod 2 ^ k)); [lia|].
  destruct (Z.even (V / 2 ^ k)); lia.
Qed.

Lemma rne_mono (k V W : Z) : 0 <= k -> V <= W -> rne V k <= rne W k.
Proof.
  intros Hk HVW.
  assert (0 < 2 ^ k) as Hp by (apply Z.pow_pos_nonneg; lia).
  pose proof (Z.div_le_mono V W (2 ^ k) Hp HVW) as Hq.
  pose proof (Z.div_mod V (2 ^ k) ltac:(lia)) as HV.
  pose proof (Z.div_mod W (2 ^ k) ltac:(lia)) as HW.
  pose proof (Z.mod_pos_bound V (2 ^ k) Hp) as HrV.
  pose proof (Z.mod_pos_bound W (2 ^ k) Hp) as HrW.
  destruct (Z.eq_dec (V / 2 ^ k) (W / 2 ^ k)) as [Heq|Hne].
  - assert (V mod 2 ^ k <= W mod 2 ^ k) as Hr by (rewrite Heq in HV; lia).
    unfold rne. cbv zeta. rewrite Heq.
    destruct (Z.ltb_spec (2 * (V mod 2 ^ k)) (2 ^ k)),
             (Z.ltb_spec (2 * (W mod 2 ^ k)) (2 ^ k)),
             (Z.ltb_spec (2 ^ k) (2 * (V mod 2 ^ k))),
             (Z.ltb_spec (2 ^ k) (2 * (W mod 2 ^ k))),
             (Z.even (W / 2 ^ k)); lia.
  - pose proof (rne_bounds V k). pose proof (rne_bounds W k). lia.
Qed.

Lemma digits_bounds (V : Z) :
  24 < Z.log2 V + 1 ->
  2 ^ 23 <= V / 2 ^ (Z.log2 V + 1 - 24) < 2 ^ 24.
Proof.
  intros Hd.
  assert (0 < V) as HV.
  { destruct (Z.lt_trichotomy V 0) as [Hn|[->|Hp]]; [|simpl in Hd; lia|exact Hp].
    rewrite Z.log2_nonpos in Hd by lia. lia. }
  pose proof (Z.log2_spec V HV) as [Hlo Hhi].
  set (k := Z.log2 V + 1 - 24) in *.
  assert (0 < 2 ^ k) as Hp by (apply Z.pow_pos_nonneg; lia).
  assert (2 ^ Z.log2 V = 2 ^ k * 2 ^ 23) as E1
      by (rewrite <- Z.pow_add_r by lia; f_equal; lia).
  assert (2 ^ Z.succ (Z.log2 V) = 2 ^ k * 2 ^ 24) as E2
      by (rewrite <- Z.pow_add_r by lia; f_equal; lia).
  split.
  - apply Z.div_le_lower_bound; lia.
  - apply Z.div_lt_upper_bound; lia.
Qed.

Lemma round_bits_mono (V W : Z) : 0 <= V <= W -> round_bits V <= round_bits W.
Proof.
  intros [HV HVW]. unfold round_bits. cbv zeta.
  pose proof (Z.log2_le_mono V W HVW) as Hlog.
  destruct (Z.leb_spec (Z.log2 V + 1) 24) as [HdV|HdV],
           (Z.leb_spec (Z.log2 W + 1) 24) as [HdW|HdW]; try lia.
  - assert (V < 2 ^ 24) as HV24.
    { destruct (Z.eq_dec V 0) as [->|Hnz]; [reflexivity|].
      pose proof (Z.log2_spec V ltac:(lia)) as [_ Hhi].
      apply (Z.lt_le_trans _ _ _ Hhi). apply Z.pow_le_mono_r; lia. }
    pose proof (digits_bounds W HdW) as [Hq _].
    pose proof (rne_bounds W (Z.log2 W + 1 - 24)) as [Hr _].
    change (2 ^ 24) with (2 * 2 ^ 23) in HV24. unfold INF.
    apply Z.min_glb; [|lia]. nia.
  - pose proof (digits_bounds V HdV) as [_ HqV].
    pose proof (digits_bounds W HdW) as [HqW _].
    pose proof (rne_bounds V (Z.log2 V + 1 - 24)) as [_ HrV].
    pose proof (rne_bounds W (Z.log2 W + 1 - 24)) as [HrW _].
    apply Z.min_le_compat_r.
    destruct (Z.eq_dec (Z.log2 V) (Z.log2 W)) as [Heq|Hne].
    + rewrite Heq. apply Z.add_le_mono_l, rne_mono; lia.
    + change (2 ^ 24) with (2 * 2 ^ 23) in HqV. nia.
Qed.

Lemma val_normal (E M : Z) :
  1 <= E -> 0 <= M < 2 ^ 23 ->
  Z.log2 ((2 ^ 23 + M) * 2 ^ (E - 1)) = 23 + (E - 1).
Proof.
  intros HE HM.
  rewrite Z.log2_mul_pow2 by lia.
  rewrite (Z.log2_unique (2 ^ 23 + M) 23); [lia|lia|].
  change (2 ^ (23 + 1)) with (2 * 2 ^ 23). lia.
Qed.

Lemma bit_fields (n : Z) :
  0 <= n -> n = (n / 2 ^ 23) * 2 ^ 23 + n mod 2 ^ 23
            /\ 0 <= n mod 2 ^ 23 < 2 ^ 23 /\ 0 <= n / 2 ^ 23.
Proof.
  intros Hn. pose proof (Z.div_mod n (2 ^ 23) ltac:(lia)).
  pose proof (Z.mod_pos_bound n (2 ^ 23) ltac:(lia)).
  pose proof (Z.div_pos n (2 ^ 23) Hn ltac:(lia)). lia.
Qed.

Lemma round_bits_val (n : Z) : 0 <= n <= INF -> round_bits (b32_val n) = n.
Proof.
  intros [Hn Hmax]. destruct (bit_fields n Hn) as (Heq & HM & HE).
  unfold b32_val. cbv zeta.
  set (E := n / 2 ^ 23) in *. set (M := n mod 2 ^ 23) in *.
  destruct (Z.eqb_spec E 0) as [HE0|HE0].
  - unfold round_bits. cbv zeta.
    assert (Z.log2 M + 1 <= 24) as Hd.
    { destruct (Z.eq_dec M 0) as [->|Hnz]; [simpl; lia|].
      assert (Z.log2 M < 23); [|lia]. apply Z.log2_lt_pow2; lia. }
    destruct (Z.leb_spec (Z.log2 M + 1) 24); lia.
  - unfold round_bits. cbv zeta. rewrite val_normal by lia.
    assert (0 < 2 ^ (E - 1)) as Hp by (apply Z.pow_pos_nonneg; lia).
    destruct (Z.leb_spec (23 + (E - 1) + 1) 24) as [Hd|Hd].
    + assert (E = 1) as HE1 by lia. rewrite HE1 in *. simpl (2 ^ (1 - 1)). lia.
    + replace (23 + (E - 1) + 1 - 24) with (E - 1) by lia.
      unfold rne. cbv zeta. rewrite Z.div_mul, Z.mod_mul by lia.
      destruct (Z.ltb_spec (2 * 0) (2 ^ (E - 1))); [|lia].
      rewrite Z.min_l; [lia|]. lia.
Qed.

Lemma val_mono (n m : Z) : 0 <= n <= m -> b32_val n <= b32_val m.
Proof.
  intros [Hn Hnm].
  destruct (bit_fields n Hn) as (Heqn & HMn & HEn).
  destruct (bit_fields m ltac:(lia)) as (Heqm & HMm & HEm).
  assert (n / 2 ^ 23 <= m / 2 ^ 23) as HE
      by (apply Z.div_le_mono; lia).
  unfold b32_val. cbv zeta.
  remember (n / 2 ^ 23) as En eqn:HeqEn. remember (n mod 2 ^ 23) as Mn eqn:HeqMn.
  remember (m / 2 ^ 23) as Em eqn:HeqEm. remember (m mod 2 ^ 23) as Mm eqn:HeqMm.
  clear HeqEn HeqMn HeqEm HeqMm.
  destruct (Z.eqb_spec En 0) as [Hn0|Hn0], (Z.eqb_spec Em 0) as [Hm0|Hm0]; [lia| | |].
  - assert (0 < 2 ^ (Em - 1)) by (apply Z.pow_pos_nonneg; lia).
    assert ((2 ^ 23 + Mm) * 1 <= (2 ^ 23 + Mm) * 2 ^ (Em - 1))
      by (apply Z.mul_le_mono_nonneg_l; lia).
    lia.
  - lia.
  - destruct (Z.eq_dec En Em) as [Heq|Hne].
    + rewrite Heq in *. apply Z.mul_le_mono_nonneg_r; [|lia].
      apply Z.pow_nonneg. lia.
    + assert (2 ^ (Em - 1) = 2 ^ (En - 1) * 2 ^ (Em - En)) as Hsplit
          by (rewrite <- Z.pow_add_r by lia; f_equal; lia).
      assert (2 <= 2 ^ (Em - En)).
      { change 2 with (2 ^ 1) at 1. apply Z.pow_le_mono_r; lia. }
      assert (0 < 2 ^ (En - 1)) as Hp by (apply Z.pow_pos_nonneg; lia).
      rewrite Hsplit.
      apply (Z.le_trans _ ((2 * 2 ^ 23) * 2 ^ (En - 1))).
      * apply Z.mul_le_mono_nonneg_r; lia.
      * rewrite (Z.mul_comm (2 ^ (En - 1))), Z.mul_assoc.
        apply Z.mul_le_mono_nonneg_r; [lia|].
        apply (Z.le_trans _ (2 ^ 23 * 2 ^ (Em - En))); [|apply Z.mul_le_mono_nonneg_r; lia].
        rewrite (Z.mul_comm 2). apply Z.mul_le_mono_nonneg_l; lia.
Qed.

Lemma val_nonneg (n : Z) : 0 <= n -> 0 <= b32_val n.
Proof.
  intros Hn. destruct (bit_fields n Hn) as (_ & HM & HE). unfold b32_val. cbv zeta.
  destruct (Z.eqb_spec (n / 2 ^ 23) 0); [lia|].
  assert (0 < 2 ^ (n / 2 ^ 23 - 1)) by (apply Z.pow_pos_nonneg; lia). nia.
Qed.

(** *** The rounding of [SpecFloat], step by step *)

Lemma digits2_pos_size (p : positive) : digits2_pos p = Pos.size p.
Proof. induction p as [p IH|p IH|]; simpl; congruence. Qed.

Lemma digits2_pos_log2 (p : positive) : Zpos (digits2_pos p) = Z.log2 (Zpos p) + 1.
Proof.
  rewrite digits2_pos_size.
  destruct p as [p|p|]; cbn [Pos.size Z.log2]; rewrite ?Pos2Z.inj_succ; lia.
Qed.

Lemma shr_1_spec (m : Z) (r s : bool) :
  0 <= m ->
  shr_1 (Build_shr_record m r s) = Build_shr_record (m / 2) (Z.odd m) (r || s).
Proof.
  intros Hm. rewrite <- Z.div2_div.
  destruct m as [|[p|p|]|p]; try lia; reflexivity.
Qed.

Lemma iter_pos_nat {A} (f : A -> A) (p : positive) (x : A) :
  SpecFloat.iter_pos f p x = Nat.iter (Pos.to_nat p) f x.
Proof.
  revert x. induction p as [p IH|p IH|]; intros x; cbn [SpecFloat.iter_pos].
  - rewrite !IH, Pos2Nat.inj_xI.
    replace (S (2 * Pos.to_nat p)) with (Pos.to_nat p + (Pos.to_nat p + 1))%nat by lia.
    rewrite !Nat.iter_add. reflexivity.
  - rewrite !IH, Pos2Nat.inj_xO.
    replace (2 * Pos.to_nat p)%nat with (Pos.to_nat p + Pos.to_nat p)%nat by lia.
    rewrite Nat.iter_add. reflexivity.
  - reflexivity.
Qed.

(** The record after [n] shifts of [v]. *)
Lemma shr_iter (v : Z) (n : nat) :
  0 <= v ->
  let mrs := Nat.iter n shr_1 (Build_shr_record v false false) in
  let rem := v - 2 ^ Z.of_nat n * shr_m mrs in
  0 <= shr_m mrs
  /\ 0 <= rem < 2 ^ Z.of_nat n
  /\ (shr_r mrs = true <-> 2 ^ Z.of_nat n <= 2 * rem)
  /\ (shr_s mrs = true <-> rem <> 0 /\ 2 * rem <> 2 ^ Z.of_nat n).
Proof.
  intros Hv. induction n as [|n IH]; cbv zeta in *.
  - unfold Nat.iter. cbn [nat_rect shr_m shr_r shr_s].
    change (Z.of_nat 0) with 0. rewrite Z.pow_0_r.
    split; [lia|]. split; [lia|]. split; split; intros; try discriminate; lia.
  - rewrite Nat.iter_succ. destruct (Nat.iter n shr_1 _) as [m r s] eqn:Hit.
    cbn [shr_m shr_r shr_s] in IH. destruct IH as (Hm & Hrem & Hr & Hs).
    rewrite shr_1_spec by exact Hm. cbn [shr_m shr_r shr_s].
    rewrite Nat2Z.inj_succ, Z.pow_succ_r by lia.
    assert (0 < 2 ^ Z.of_nat n) as Hp by (apply Z.pow_pos_nonneg; lia).
    remember (2 ^ Z.of_nat n) as P eqn:HP. clear HP.
    pose proof (Z.div_mod m 2 ltac:(lia)) as Hdm.
    pose proof (Z.mod_pos_bound m 2 ltac:(lia)) as Hmb.
    assert (Z.odd m = true <-> m mod 2 = 1) as Hodd.
    { rewrite Zmod_odd. destruct (Z.odd m); split; intros; try discriminate; try lia; auto. }
    assert (0 <= m / 2) by (apply Z.div_pos; lia).
    remember (m / 2) as q eqn:Hq. remember (m mod 2) as b eqn:Hb. clear Hq Hb.
    subst m. rewrite Hodd, orb_true_iff, Hr, Hs.
    assert (b = 0 \/ b = 1) as [-> | ->] by lia;
      (split; [lia|]); (split; [lia|]); split; split; intros; lia.
Qed.

Lemma shr_iter_div (v : Z) (n : nat) :
  0 <= v ->
  let mrs := Nat.iter n shr_1 (Build_shr_record v false false) in
  shr_m mrs = v / 2 ^ Z.of_nat n
  /\ (shr_r mrs = true <-> 2 ^ Z.of_nat n <= 2 * (v mod 2 ^ Z.of_nat n))
  /\ (shr_s mrs = true <-> v mod 2 ^ Z.of_nat n <> 0
                           /\ 2 * (v mod 2 ^ Z.of_nat n) <> 2 ^ Z.of_nat n).
Proof.
  intros Hv. cbv zeta. destruct (shr_iter v n Hv) as (Hm & Hrem & Hr & Hs).
  assert (0 < 2 ^ Z.of_nat n) as Hp by (apply Z.pow_pos_nonneg; lia).
  set (m := shr_m (Nat.iter n shr_1 (Build_shr_record v false false))) in *.
  assert (m = v / 2 ^ Z.of_nat n) as Hdiv.
  { apply (Z.div_unique_pos v _ m (v - 2 ^ Z.of_nat n * m)); lia. }
  assert (v mod 2 ^ Z.of_nat n = v - 2 ^ Z.of_nat n * m) as Hmod.
  { symmetry. apply (Z.mod_unique_pos v _ m); lia. }
  rewrite Hmod. auto.
Qed.

Lemma round_shr (v : Z) (n : nat) :
  0 <= v ->
  let mrs := Nat.iter n shr_1 (Build_shr_record v false false) in
  round_nearest_even (shr_m mrs) (loc_of_shr_record mrs) = rne v (Z.of_nat n).
Proof.
  intros Hv. cbv zeta. destruct (shr_iter_div v n Hv) as (Hm & Hr & Hs).
  destruct (Nat.iter n shr_1 _) as [m r s]. cbn [shr_m shr_r shr_s] in *.
  unfold rne. cbv zeta. rewrite <- Hm.
  assert (0 < 2 ^ Z.of_nat n) as Hp by (apply Z.pow_pos_nonneg; lia).
  pose proof (Z.mod_pos_bound v (2 ^ Z.of_nat n) Hp) as Hb.
  destruct (Z.ltb_spec (2 * (v mod 2 ^ Z.of_nat n)) (2 ^ Z.of_nat n)) as [Hlt|Hge].
  - assert (r = false) as -> by (destruct r; [|reflexivity]; lia).
    destruct s; reflexivity.
  - assert (r = true) as -> by (apply Hr; lia).
    destruct (Z.ltb_spec (2 ^ Z.of_nat n) (2 * (v mod 2 ^ Z.of_nat n))) as [Hgt|Heq].
    + assert (s = true) as -> by (apply Hs; lia). reflexivity.
    + assert (s = false) as -> by (destruct s; [|reflexivity]; lia).
      cbn [loc_of_shr_record round_nearest_even].
      destruct (Z.even m); reflexivity.
Qed.

Lemma rne_scale (v n j : Z) :
  0 <= n -> 0 <= j -> rne (v * 2 ^ j) (n + j) = rne v n.
Proof.
  intros Hn Hj. unfold rne. cbv zeta.
  assert (0 < 2 ^ n) as Hpn by (apply Z.pow_pos_nonneg; lia).
  assert (0 < 2 ^ j) as Hpj by (apply Z.pow_pos_nonneg; lia).
  rewrite Z.pow_add_r by lia.
  rewrite Z.div_mul_cancel_r by lia.
  rewrite Z.mul_mod_distr_r by lia.
  pose proof (Z.mod_pos_bound v (2 ^ n) Hpn) as Hb.
  remember (v mod 2 ^ n) as r. remember (2 ^ n) as P. remember (2 ^ j) as J.
  destruct (Z.ltb_spec (2 * (r * J)) (P * J)), (Z.ltb_spec (2 * r) P);
    try reflexivity; try nia.
  destruct (Z.ltb_spec (P * J) (2 * (r * J))), (Z.ltb_spec P (2 * r));
    try reflexivity; nia.
Qed.

Lemma pos_iter_xO (m d : positive) : Zpos (Pos.iter xO m d) = Zpos m * 2 ^ Zpos d.
Proof.
  induction d as [|d IH] using Pos.peano_ind.
  - cbn [Pos.iter]. rewrite Pos2Z.inj_xO. change (2 ^ 1) with 2. lia.
  - rewrite Pos.iter_succ, Pos2Z.inj_xO, IH, Pos2Z.inj_succ, Z.pow_succ_r by lia. lia.
Qed.

Lemma shl_align_fst (mx : positive) (ex ez : Z) :
  ez <= ex -> Zpos (fst (shl_align mx ex ez)) = Zpos mx * 2 ^ (ex - ez).
Proof.
  intros Hle. unfold shl_align.
  destruct (ez - ex) as [|d|d] eqn:Hd; try lia; cbn [fst].
  - replace (ex - ez) with 0 by lia. lia.
  - rewrite pos_iter_xO. f_equal. f_equal. lia.
Qed.

Lemma fexp32 (x : Z) : fexp 24 128 x = Z.max (x - 24) (-149).
Proof. reflexivity. Qed.

(** The bit pattern of a float, as [Binary32.encode] computes it. *)
Definition enc_bits (f : spec_float) : Z :=
  match f with
  | S754_zero s => Binary32.sign_bit s
  | S754_infinity s => Binary32.sign_bit s + 255 * 2 ^ 23
  | S754_nan => 255 * 2 ^ 23 + 2 ^ 22
  | S754_finite s m e =>
      if Zpos m <? 2 ^ 23 then Binary32.sign_bit s + Zpos m
      else Binary32.sign_bit s + (e + 150) * 2 ^ 23 + (Zpos m - 2 ^ 23)
  end.

Lemma encode_enc_bits (f : spec_float) : Binary32.encode f = Binary32.of_bits (enc_bits f).
Proof. destruct f; reflexivity. Qed.

Lemma Zdigits2_log2 (m : Z) : 0 < m -> Zdigits2 m = Z.log2 m + 1.
Proof. destruct m as [|p|p]; try lia. intros _. apply digits2_pos_log2. Qed.

Lemma shr_fexp_spec (m e : Z) :
  0 < m ->
  0 <= Z.max (Z.log2 m + 1 + e - 24) (-149) - e ->
  shr_fexp 24 128 m e loc_Exact
  = (Nat.iter (Z.to_nat (Z.max (Z.log2 m + 1 + e - 24) (-149) - e)) shr_1
              (Build_shr_record m false false),
     e + (Z.max (Z.log2 m + 1 + e - 24) (-149) - e)).
Proof.
  intros Hm Hn. unfold shr_fexp, shr_record_of_loc.
  rewrite fexp32, Zdigits2_log2 by exact Hm.
  destruct (Z.max (Z.log2 m + 1 + e - 24) (-149) - e) as [|p|p] eqn:Hd; try lia.
  - cbn [shr]. rewrite Z.add_0_r. reflexivity.
  - cbn [shr]. rewrite iter_pos_nat. reflexivity.
Qed.

Lemma rne_0 (v : Z) : rne v 0 = v.
Proof.
  unfold rne. cbv zeta. rewrite Z.pow_0_r, Z.div_1_r, Z.mod_1_r. reflexivity.
Qed.

(** The last step of [binary_round_aux]: the overflow test. *)
Definition round_finish (m e : Z) : spec_float :=
  match m with
  | Z0 => S754_zero false
  | Zpos p => if e <=? 128 - 24 then S754_finite false p e else S754_infinity false
  | Zneg _ => S754_nan
  end.

Lemma enc_bits_finish (m e : Z) :
  2 ^ 23 <= m < 2 ^ 24 -> -149 <= e ->
  enc_bits (round_finish m e) = Z.min ((e + 149) * 2 ^ 23 + m) INF.
Proof.
  intros Hm He. unfold round_finish. destruct m as [|p|p]; try lia.
  destruct (Z.leb_spec e (128 - 24)) as [Hle|Hgt]; cbn [enc_bits].
  - destruct (Z.ltb_spec (Zpos p) (2 ^ 23)) as [Hlt|_]; [lia|].
    cbn [Binary32.sign_bit]. unfold INF. rewrite Z.min_l; lia.
  - cbn [Binary32.sign_bit]. unfold INF. rewrite Z.min_r; lia.
Qed.

Lemma binary_round_aux_bits (v e : Z) :
  0 < v -> -149 <= e -> (24 <= Z.log2 v + 1 \/ e = -149) ->
  enc_bits (binary_round_aux 24 128 false v e loc_Exact)
  = round_bits (v * 2 ^ (e + 149)).
Proof.
  intros Hv He Hcanon.
  assert (0 <= Z.log2 v) as Hlog by apply Z.log2_nonneg.
  assert (Z.log2 (v * 2 ^ (e + 149)) = e + 149 + Z.log2 v) as HlogV
      by (apply Z.log2_mul_pow2; lia).
  pose proof (Z.log2_spec v Hv) as [Hlo Hhi].
  unfold binary_round_aux.
  destruct (Z.le_gt_cases (Z.log2 v + 1) 24) as [Hd|Hd].
  - (* nothing to shift out *)
    assert (Z.max (Z.log2 v + 1 + e - 24) (-149) - e = 0) as Hn1 by lia.
    rewrite shr_fexp_spec by lia. rewrite Hn1.
    change (Z.to_nat 0) with O. unfold Nat.iter at 1 2. cbn [nat_rect].
    cbn [shr_m loc_of_shr_record round_nearest_even]. rewrite Z.add_0_r.
    rewrite shr_fexp_spec by lia. rewrite Hn1.
    change (Z.to_nat 0) with O. unfold Nat.iter. cbn [nat_rect shr_m].
    rewrite Z.add_0_r.
    change (match v with
            | 0 => S754_zero false
            | Z.pos m => if e <=? 128 - 24 then S754_finite false m e
                         else S754_infinity false
            | Z.neg _ => S754_nan
            end) with (round_finish v e).
    unfold round_bits. cbv zeta. rewrite HlogV.
    destruct (Z.leb_spec (e + 149 + Z.log2 v + 1) 24) as [HD|HD].
    + assert (e = -149) as -> by lia. change (2 ^ (-149 + 149)) with 1.
      rewrite Z.mul_1_r. unfold round_finish. destruct v as [|p|p]; try lia.
      change (-149 <=? 128 - 24) with true. cbn [enc_bits].
      destruct (Z.ltb_spec (Zpos p) (2 ^ 23)); cbn [Binary32.sign_bit]; lia.
    + assert (Z.log2 v = 23) as Hl23 by lia.
      rewrite Hl23 in *. change (2 ^ Z.succ 23) with (2 ^ 24) in Hhi.
      rewrite enc_bits_finish by lia.
      replace (e + 149 + 23 + 1 - 24) with (0 + (e + 149)) by lia.
      rewrite rne_scale, rne_0 by lia. f_equal; lia.
  - (* [Z.log2 v + 1 - 24] bits are shifted out *)
    set (n1 := Z.log2 v + 1 - 24) in *.
    assert (Z.max (Z.log2 v + 1 + e - 24) (-149) - e = n1) as Hn1 by lia.
    rewrite shr_fexp_spec by lia. rewrite Hn1.
    rewrite round_shr by lia. rewrite Z2Nat.id by lia.
    pose proof (digits_bounds v ltac:(lia)) as Hq. fold n1 in Hq.
    pose proof (rne_bounds v n1) as Hr.
    unfold round_bits. cbv zeta. rewrite HlogV.
    destruct (Z.leb_spec (e + 149 + Z.log2 v + 1) 24) as [HD|_]; [lia|].
    replace (e + 149 + Z.log2 v + 1 - 24) with (n1 + (e + 149)) by lia.
    rewrite rne_scale by lia.
    set (m1 := rne v n1) in *.
    destruct (Z.eq_dec m1 (2 ^ 24)) as [Hcarry|Hnocarry].
    + rewrite Hcarry.
      assert (Z.max (Z.log2 (2 ^ 24) + 1 + (e + n1) - 24) (-149) - (e + n1) = 1) as Hn2.
      { rewrite Z.log2_pow2 by lia. lia. }
      rewrite shr_fexp_spec by (rewrite ?Hn2; lia). rewrite Hn2.
      change (Nat.iter (Z.to_nat 1) shr_1 (Build_shr_record (2 ^ 24) false false))
        with (Build_shr_record (2 ^ 23) false false).
      cbn [shr_m].
      change (match 2 ^ 23 with
              | 0 => S754_zero false
              | Z.pos m => if e + n1 + 1 <=? 128 - 24 then S754_finite false m (e + n1 + 1)
                           else S754_infinity false
              | Z.neg _ => S754_nan
              end) with (round_finish (2 ^ 23) (e + n1 + 1)).
      rewrite enc_bits_finish by lia. f_equal; lia.
    + assert (Z.log2 m1 = 23) as Hl.
      { apply Z.log2_unique; [lia|]. change (2 ^ (23 + 1)) with (2 ^ 24). lia. }
      assert (Z.max (Z.log2 m1 + 1 + (e + n1) - 24) (-149) - (e + n1) = 0) as Hn2 by lia.
      rewrite shr_fexp_spec by lia. rewrite Hn2.
      change (Z.to_nat 0) with O. unfold Nat.iter. cbn [nat_rect shr_m].
      rewrite Z.add_0_r.
      change (match m1 with
              | 0 => S754_zero false
              | Z.pos m => if e + n1 <=? 128 - 24 then S754_finite false m (e + n1)
                           else S754_infinity false
              | Z.neg _ => S754_nan
              end) with (round_finish m1 (e + n1)).
      rewrite enc_bits_finish by lia. f_equal; lia.
Qed.

(** *** Bit patterns *)

Lemma bits_range (x : Binary32.t) : 0 <= Binary32.bits x < 2 ^ 32.
Proof.
  destruct x as [[[b0 b1] b2] b3]. unfold Binary32.bits. cbn [le_value].
  pose proof (Z_of_byte_range b0). pose proof (Z_of_byte_range b1).
  pose proof (Z_of_byte_range b2). pose proof (Z_of_byte_range b3).
  change (2 ^ 32) with 4294967296. lia.
Qed.

Lemma bits_of_bits (z : Z) : 0 <= z < 2 ^ 32 -> Binary32.bits (Binary32.of_bits z) = z.
Proof.
  intros Hz. unfold Binary32.bits, Binary32.of_bits. cbn [le_value].
  rewrite !Z_of_byte_of_Z.
  change (2 ^ 8) with 256. change (2 ^ 16) with 65536. change (2 ^ 24) with 16777216.
  change (2 ^ 32) with 4294967296 in Hz.
  Z.div_mod_to_equations. lia.
Qed.

Lemma byte_of_Z_mod (z : Z) : byte_of_Z (z mod 256) = byte_of_Z z.
Proof. unfold byte_of_Z. rewrite Z.mod_mod by lia. reflexivity. Qed.

Lemma of_bits_bits (x : Binary32.t) : Binary32.of_bits (Binary32.bits x) = x.
Proof.
  destruct x as [[[b0 b1] b2] b3]. unfold Binary32.bits, Binary32.of_bits.
  cbn [le_value].
  pose proof (Z_of_byte_range b0). pose proof (Z_of_byte_range b1).
  pose proof (Z_of_byte_range b2). pose proof (Z_of_byte_range b3).
  change (2 ^ 8) with 256. change (2 ^ 16) with 65536. change (2 ^ 24) with 16777216.
  set (B0 := Z_of_byte b0) in *. set (B1 := Z_of_byte b1) in *.
  set (B2 := Z_of_byte b2) in *. set (B3 := Z_of_byte b3) in *.
  set (n := B0 + 256 * (B1 + 256 * (B2 + 256 * (B3 + 256 * 0)))).
  rewrite <- (byte_of_Z_mod n), <- (byte_of_Z_mod (n / 256)),
    <- (byte_of_Z_mod (n / 65536)), <- (byte_of_Z_mod (n / 16777216)).
  assert (n mod 256 = B0) as -> by (subst n; Z.div_mod_to_equations; lia).
  assert ((n / 256) mod 256 = B1) as -> by (subst n; Z.div_mod_to_equations; lia).
  assert ((n / 65536) mod 256 = B2) as -> by (subst n; Z.div_mod_to_equations; lia).
  assert ((n / 16777216) mod 256 = B3) as -> by (subst n; Z.div_mod_to_equations; lia).
  subst B0 B1 B2 B3. rewrite !byte_of_Z_of_byte. reflexivity.
Qed.

Lemma bits_inj (x y : Binary32.t) : Binary32.bits x = Binary32.bits y -> x = y.
Proof. intros H. rewrite <- (of_bits_bits x), <- (of_bits_bits y), H. reflexivity. Qed.

(** *** Decoding a float that is not negative and not a NaN *)

(** The scores of the search: [+0], the positive numbers and [+inf]. *)
Definition is_score (a : Binary32.t) : Prop := Binary32.bits a <= INF.

Lemma testbit_31 (n : Z) : 0 <= n < 2 ^ 32 -> Z.testbit n 31 = (2 ^ 31 <=? n).
Proof.
  intros Hn. rewrite Z.testbit_odd, Z.shiftr_div_pow2 by lia.
  change (2 ^ 31) with 2147483648. change (2 ^ 32) with 4294967296 in Hn.
  destruct (Z.leb_spec 2147483648 n).
  - replace (n / 2147483648) with 1 by (Z.div_mod_to_equations; lia). reflexivity.
  - replace (n / 2147483648) with 0 by (Z.div_mod_to_equations; lia). reflexivity.
Qed.

(** What [decode] makes of a is_score with the bit pattern
    [n = E * 2^23 + M]. *)
Inductive decoded (n : Z) : spec_float -> Prop :=
| decoded_zero : n = 0 -> decoded n (S754_zero false)
| decoded_subnormal (m : positive) :
    n = Zpos m -> Zpos m < 2 ^ 23 -> decoded n (S754_finite false m (-149))
| decoded_normal (m : positive) (E : Z) :
    n = E * 2 ^ 23 + (Zpos m - 2 ^ 23) -> 1 <= E <= 254 ->
    2 ^ 23 <= Zpos m < 2 ^ 24 ->
    decoded n (S754_finite false m (E - 150))
| decoded_inf : n = INF -> decoded n (S754_infinity false).

Lemma decode_is_score (a : Binary32.t) :
  is_score a -> decoded (Binary32.bits a) (Binary32.decode a).
Proof.
  unfold is_score, Binary32.decode. pose proof (bits_range a) as Hr.
  set (n := Binary32.bits a) in *. intros Hok. cbv zeta.
  unfold INF in Hok.
  rewrite testbit_31 by exact Hr.
  destruct (Z.leb_spec (2 ^ 31) n) as [Hbad|_]; [lia|].
  destruct (bit_fields n ltac:(lia)) as (Heq & HM & HE).
  assert (n / 2 ^ 23 <= 255) as HE255.
  { apply Z.lt_succ_r, Z.div_lt_upper_bound; lia. }
  rewrite (Z.mod_small (n / 2 ^ 23)) by lia.
  destruct (Z.eqb_spec (n / 2 ^ 23) 0) as [HE0|HE0].
  - destruct (n mod 2 ^ 23) as [|p|p] eqn:HMp; try lia.
    + apply decoded_zero. lia.
    + apply decoded_subnormal; lia.
  - destruct (Z.eqb_spec (n / 2 ^ 23) 255) as [HE1|HE1].
    + assert (n mod 2 ^ 23 = 0) as -> by lia.
      change (0 =? 0) with true. cbv iota. apply decoded_inf. unfold INF. lia.
    + destruct (n mod 2 ^ 23 + 2 ^ 23) as [|p|p] eqn:Hp; try lia.
      apply decoded_normal; lia.
Qed.

Lemma decoded_enc_bits (n : Z) (f : spec_float) : decoded n f -> enc_bits f = n.
Proof.
  destruct 1 as [Hn|m Hn Hm|m E Hn HE Hm|Hn]; cbn [enc_bits Binary32.sign_bit].
  - lia.
  - destruct (Z.ltb_spec (Zpos m) (2 ^ 23)); lia.
  - destruct (Z.ltb_spec (Zpos m) (2 ^ 23)); lia.
  - unfold INF in Hn. lia.
Qed.

Lemma decoded_range (n : Z) (f : spec_float) : decoded n f -> 0 <= n <= INF.
Proof. destruct 1; unfold INF in *; lia. Qed.

(** A decoded finite float is canonical, and [b32_val] is its value in units
    of [2^-149]. *)
Lemma decoded_finite (n : Z) (m : positive) (e : Z) :
  decoded n (S754_finite false m e) ->
  Zpos m * 2 ^ (e + 149) = b32_val n /\ -149 <= e
  /\ (24 <= Z.log2 (Zpos m) + 1 \/ e = -149) /\ n < INF.
Proof.
  inversion 1 as [|m' Hn Hm|m' E Hn HE Hm|]; subst.
  - split; [|split; [lia|split; [right; reflexivity|unfold INF; lia]]].
    unfold b32_val. cbv zeta.
    rewrite (Z.div_small (Zpos m)), (Z.mod_small (Zpos m)) by lia.
    change (-149 + 149) with 0. change (0 =? 0) with true. cbv iota. lia.
  - assert (Z.log2 (Zpos m) = 23) as Hl.
    { apply Z.log2_unique; [lia|]. change (2 ^ (23 + 1)) with (2 ^ 24). lia. }
    split; [|split; [lia|split; [left; lia|unfold INF; lia]]].
    unfold b32_val. cbv zeta.
    assert ((E * 2 ^ 23 + (Zpos m - 2 ^ 23)) / 2 ^ 23 = E) as ->.
    { rewrite Z.div_add_l by lia. rewrite Z.div_small by lia. lia. }
    assert ((E * 2 ^ 23 + (Zpos m - 2 ^ 23)) mod 2 ^ 23 = Zpos m - 2 ^ 23) as ->.
    { rewrite Z.add_comm, Z.mod_add by lia. apply Z.mod_small. lia. }
    destruct (Z.eqb_spec E 0); [lia|].
    replace (E - 150 + 149) with (E - 1) by lia. f_equal. lia.
Qed.

(** *** Addition of scores *)

Lemma round_bits_le_INF (V : Z) : 0 <= V -> round_bits V <= INF.
Proof.
  intros HV. unfold round_bits. cbv zeta.
  destruct (Z.leb_spec (Z.log2 V + 1) 24) as [Hd|Hd]; [|apply Z.le_min_r].
  destruct (Z.eq_dec V 0) as [->|Hnz]; [unfold INF; lia|].
  pose proof (Z.log2_spec V ltac:(lia)) as [_ Hhi].
  assert (2 ^ Z.succ (Z.log2 V) <= 2 ^ 24) by (apply Z.pow_le_mono_r; lia).
  unfold INF. lia.
Qed.

Lemma round_bits_nonneg (V : Z) : 0 <= V -> 0 <= round_bits V.
Proof.
  intros HV. change 0 with (round_bits 0) at 1. apply round_bits_mono. lia.
Qed.

Lemma round_bits_big (V : Z) : b32_val INF <= V -> round_bits V = INF.
Proof.
  intros HV. apply Z.le_antisymm.
  - apply round_bits_le_INF. pose proof (val_nonneg INF ltac:(unfold INF; lia)). lia.
  - rewrite <- (round_bits_val INF) at 1 by (unfold INF; lia).
    apply round_bits_mono. split; [apply val_nonneg; unfold INF; lia|exact HV].
Qed.

Lemma SFadd_finite_bits (mx : positive) (ex : Z) (my : positive) (ey : Z) :
  -149 <= ex -> -149 <= ey ->
  24 <= Z.log2 (Zpos mx) + 1 \/ ex = -149 ->
  24 <= Z.log2 (Zpos my) + 1 \/ ey = -149 ->
  enc_bits (SFadd 24 128 (S754_finite false mx ex) (S754_finite false my ey))
  = round_bits (Zpos mx * 2 ^ (ex + 149) + Zpos my * 2 ^ (ey + 149)).
Proof.
  intros Hex Hey Hcx Hcy. unfold SFadd, cond_Zopp. cbv zeta.
  set (ez := Z.min ex ey).
  assert (ez <= ex /\ ez <= ey /\ -149 <= ez /\ (ez = ex \/ ez = ey)) as (Hzx & Hzy & Hz & Hwhich)
      by (unfold ez; lia).
  rewrite !shl_align_fst by assumption.
  assert (0 < 2 ^ (ex - ez)) as Hpx by (apply Z.pow_pos_nonneg; lia).
  assert (0 < 2 ^ (ey - ez)) as Hpy by (apply Z.pow_pos_nonneg; lia).
  assert (Zpos mx <= Zpos mx * 2 ^ (ex - ez)) as Hmx by nia.
  assert (Zpos my <= Zpos my * 2 ^ (ey - ez)) as Hmy by nia.
  remember (Zpos mx * 2 ^ (ex - ez) + Zpos my * 2 ^ (ey - ez)) as v eqn:Hv.
  assert (24 <= Z.log2 v + 1 \/ ez = -149) as Hcanon.
  { destruct Hwhich as [Heq|Heq]; rewrite Heq in *.
    - destruct Hcx as [Hcx|Hcx]; [left|right; exact Hcx].
      pose proof (Z.log2_le_mono (Zpos mx) v ltac:(lia)). lia.
    - destruct Hcy as [Hcy|Hcy]; [left|right; exact Hcy].
      pose proof (Z.log2_le_mono (Zpos my) v ltac:(lia)). lia. }
  assert (v * 2 ^ (ez + 149)
          = Zpos mx * 2 ^ (ex + 149) + Zpos my * 2 ^ (ey + 149)) as HV.
  { rewrite Hv, Z.mul_add_distr_r, <- !Z.mul_assoc, <- !Z.pow_add_r by lia.
    f_equal; f_equal; f_equal; lia. }
  rewrite <- HV.
  destruct v as [|p|p]; try lia.
  unfold binary_normalize, binary_round.
  rewrite fexp32, digits2_pos_log2.
  pose proof (Z.log2_nonneg (Zpos p)) as Hlog.
  unfold shl_align.
  destruct (Z.max (Z.log2 (Zpos p) + 1 + ez - 24) (-149) - ez) as [|d|d] eqn:Hd; try lia;
    apply binary_round_aux_bits; try lia; exact Hcanon.
Qed.

Lemma decode_neg_zero (w : Binary32.t) :
  Binary32.bits w = 2 ^ 31 -> Binary32.decode w = S754_zero true.
Proof. intros Hw. unfold Binary32.decode. rewrite Hw. reflexivity. Qed.

(** The value of a is_weight in units of [2^-149]; [-0.0] counts as zero. *)
Definition weight_val (w : Binary32.t) : Z :=
  if Binary32.bits w =? 2 ^ 31 then 0 else b32_val (Binary32.bits w).

Lemma weight_val_score (w : Binary32.t) : is_score w -> weight_val w = b32_val (Binary32.bits w).
Proof.
  unfold is_score, weight_val, INF. intros Hw.
  destruct (Z.eqb_spec (Binary32.bits w) (2 ^ 31)); [lia|reflexivity].
Qed.

Lemma weight_val_nonneg (w : Binary32.t) : 0 <= weight_val w.
Proof.
  unfold weight_val. destruct (Z.eqb_spec (Binary32.bits w) (2 ^ 31)); [lia|].
  apply val_nonneg, bits_range.
Qed.

Lemma SFadd_bits (a w : Binary32.t) :
  is_score a -> is_score w \/ Binary32.bits w = 2 ^ 31 ->
  enc_bits (SFadd 24 128 (Binary32.decode a) (Binary32.decode w))
  = round_bits (b32_val (Binary32.bits a) + weight_val w).
Proof.
  intros Ha Hw.
  pose proof (decode_is_score a Ha) as Hda.
  pose proof (decoded_range _ _ Hda) as Hra.
  pose proof (val_nonneg _ (proj1 Hra)) as Hva.
  destruct Hw as [Hw|Hw].
  - rewrite (weight_val_score w Hw).
    pose proof (decode_is_score w Hw) as Hdw.
    pose proof (decoded_range _ _ Hdw) as Hrw.
    pose proof (val_nonneg _ (proj1 Hrw)) as Hvw.
    pose proof (decoded_enc_bits _ _ Hda) as Hea.
    pose proof (decoded_enc_bits _ _ Hdw) as Hew.
    destruct (Binary32.decode a) as [sa|sa| |sa ma ea] eqn:Ea;
      destruct (Binary32.decode w) as [sw|sw| |sw mw ew] eqn:Ew;
      try (inversion Hda; fail); try (inversion Hdw; fail).
    + (* zero, zero *)
      inversion Hda as [Hn| | |]; inversion Hdw as [Hn'| | |]; subst.
      rewrite Hn, Hn'. reflexivity.
    + (* zero, infinity *)
      inversion Hda as [Hn| | |]; subst. rewrite Hn. cbn [SFadd].
      change (b32_val 0) with 0. rewrite Z.add_0_l, Hew.
      symmetry. apply round_bits_val. exact Hrw.
    + (* zero, finite *)
      inversion Hda as [Hn| | |]; subst. rewrite Hn. cbn [SFadd].
      change (b32_val 0) with 0. rewrite Z.add_0_l, Hew.
      symmetry. apply round_bits_val. exact Hrw.
    + (* infinity, zero *)
      assert (sa = false) as -> by (inversion Hda; reflexivity).
      cbn [SFadd]. rewrite Hea.
      inversion Hda as [| | |Hn]; subst. rewrite Hn.
      symmetry. apply round_bits_big. lia.
    + (* infinity, infinity *)
      assert (sa = false) as -> by (inversion Hda; reflexivity).
      assert (sw = false) as -> by (inversion Hdw; reflexivity).
      cbn [SFadd]. rewrite Hea.
      inversion Hda as [| | |Hn]; subst. rewrite Hn.
      symmetry. apply round_bits_big. lia.
    + (* infinity, finite *)
      assert (sa = false) as -> by (inversion Hda; reflexivity).
      cbn [SFadd]. rewrite Hea.
      inversion Hda as [| | |Hn]; subst. rewrite Hn.
      symmetry. apply round_bits_big. lia.
    + (* finite, zero *)
      inversion Hdw as [Hn| | |]; subst. rewrite Hn. cbn [SFadd].
      change (b32_val 0) with 0. rewrite Z.add_0_r, Hea.
      symmetry. apply round_bits_val. exact Hra.
    + (* finite, infinity *)
      assert (sw = false) as -> by (inversion Hdw; reflexivity).
      cbn [SFadd]. rewrite Hew.
      inversion Hdw as [| | |Hn]; subst. rewrite Hn.
      symmetry. apply round_bits_big. lia.
    + (* finite, finite *)
      assert (sa = false) as -> by (inversion Hda; reflexivity).
      assert (sw = false) as -> by (inversion Hdw; reflexivity).
      destruct (decoded_finite _ _ _ Hda) as (Hva' & Hea' & Hca & _).
      destruct (decoded_finite _ _ _ Hdw) as (Hvw' & Hew' & Hcw & _).
      rewrite <- Hva', <- Hvw'. apply SFadd_finite_bits; assumption.
  - unfold weight_val. rewrite Hw. change (2 ^ 31 =? 2 ^ 31) with true. cbv iota.
    rewrite Z.add_0_r, (decode_neg_zero w Hw).
    pose proof (decoded_enc_bits _ _ Hda) as Hea.
    rewrite round_bits_val by exact Hra.
    destruct (Binary32.decode a) as [sa|sa| |sa ma ea] eqn:Ea;
      try (inversion Hda; fail).
    + assert (sa = false) as -> by (inversion Hda; reflexivity). exact Hea.
    + exact Hea.
    + exact Hea.
Qed.

Lemma binary32_add_bits (a w : Binary32.t) :
  is_score a -> is_score w \/ Binary32.bits w = 2 ^ 31 ->
  Binary32.bits (Binary32.add a w) = round_bits (b32_val (Binary32.bits a) + weight_val w).
Proof.
  intros Ha Hw. unfold Binary32.add, Binary32.lift2.
  change Binary32.prec with 24. change Binary32.emax with 128.
  rewrite encode_enc_bits, (SFadd_bits a w Ha Hw).
  pose proof (val_nonneg _ (proj1 (bits_range a))) as Hva.
  pose proof (weight_val_nonneg w) as Hvw.
  apply bits_of_bits.
  pose proof (round_bits_nonneg (b32_val (Binary32.bits a) + weight_val w) ltac:(lia)).
  pose proof (round_bits_le_INF (b32_val (Binary32.bits a) + weight_val w) ltac:(lia)).
  unfold INF in *. lia.
Qed.

(** *** The order of the scores is the order of their bit patterns *)

Lemma binary32_le_bits (a b : Binary32.t) :
  is_score a -> is_score b ->
  Binary32.le a b = (Binary32.bits a <=? Binary32.bits b).
Proof.
  intros Ha Hb. unfold Binary32.le.
  pose proof (decode_is_score a Ha) as Hda. pose proof (decode_is_score b Hb) as Hdb.
  destruct Hda as [Hn|m Hn Hm|m E Hn HE Hm|Hn];
    destruct Hdb as [Hn'|m' Hn' Hm'|m' E' Hn' HE' Hm'|Hn'];
    unfold SFleb, SFcompare; unfold INF in *;
    destruct (Z.leb_spec (Binary32.bits a) (Binary32.bits b));
    try reflexivity; try lia;
    cbn -[Z.compare Pos.compare Z.sub]; compare_cases; try reflexivity; try lia.
Qed.

Lemma is_score_not_nan (a : Binary32.t) : is_score a -> not_nan a.
Proof.
  intros Ha. unfold not_nan, Binary32.is_nan.
  destruct (decode_is_score a Ha); reflexivity.
Qed.

(** The weights of the edges: the floats [w] with [0 <= w]. *)
Definition is_weight (w : Binary32.t) : Prop := Binary32.le Binary32.zero w = true.

Lemma is_weight_cases (w : Binary32.t) :
  is_weight w -> is_score w \/ Binary32.bits w = 2 ^ 31.
Proof.
  unfold is_weight, Binary32.le, is_score.
  change (Binary32.decode Binary32.zero) with (S754_zero false).
  unfold Binary32.decode. pose proof (bits_range w) as Hr.
  set (n := Binary32.bits w) in *. cbv zeta.
  rewrite testbit_31 by exact Hr.
  pose proof (Z.div_mod n (2 ^ 23) ltac:(lia)) as Hdm.
  pose proof (Z.mod_pos_bound n (2 ^ 23) ltac:(lia)) as HM.
  pose proof (Z.div_mod (n / 2 ^ 23) (2 ^ 8) ltac:(lia)) as Hdm2.
  pose proof (Z.mod_pos_bound (n / 2 ^ 23) (2 ^ 8) ltac:(lia)) as HE.
  assert (0 <= n / 2 ^ 23 < 2 ^ 9) as HE9.
  { split; [apply Z.div_pos; lia|apply Z.div_lt_upper_bound; lia]. }
  remember (n / 2 ^ 23) as Q eqn:HQ. remember (n mod 2 ^ 23) as M eqn:HeqM.
  remember (Q / 2 ^ 8) as S eqn:HS. remember (Q mod 2 ^ 8) as E eqn:HeqE.
  clear HQ HeqM HS HeqE.
  change (2 ^ 8) with 256 in *. change (2 ^ 9) with 512 in *.
  change (2 ^ 23) with 8388608 in *. change (2 ^ 31) with 2147483648 in *.
  change (2 ^ 32) with 4294967296 in *. unfold INF. change (255 * 2 ^ 23) with 2139095040.
  destruct (Z.leb_spec 2147483648 n) as [Hneg|Hpos];
    destruct (Z.eqb_spec E 0) as [HE0|HE0].
  - destruct M as [|p|p]; [intros _; right; lia|discriminate|lia].
  - destruct (Z.eqb_spec E 255).
    + destruct (Z.eqb_spec M 0); discriminate.
    + destruct (M + 8388608) as [|p|p]; discriminate.
  - intros _. left. lia.
  - destruct (Z.eqb_spec E 255).
    + destruct (Z.eqb_spec M 0); [intros _; left; lia|discriminate].
    + intros _. left. lia.
Qed.

(** *** The laws of the is_score arithmetic *)

Lemma is_score_zero : is_score Binary32.zero.
Proof. unfold is_score, INF. vm_compute. discriminate. Qed.

Lemma is_score_flt_max : is_score Binary32.flt_max.
Proof. unfold is_score, INF. vm_compute. discriminate. Qed.

Lemma binary32_add_score (a w : Binary32.t) : is_score a -> is_weight w -> is_score (Binary32.add a w).
Proof.
  intros Ha Hw. unfold is_score.
  rewrite binary32_add_bits by (try apply is_weight_cases; assumption).
  apply round_bits_le_INF.
  pose proof (val_nonneg _ (proj1 (bits_range a))). pose proof (weight_val_nonneg w). lia.
Qed.

Lemma binary32_add_mono (a b w : Binary32.t) :
  is_score a -> is_score b -> is_weight w ->
  Binary32.le a b = true -> Binary32.le (Binary32.add a w) (Binary32.add b w) = true.
Proof.
  intros Ha Hb Hw Hab.
  rewrite binary32_le_bits in Hab by assumption. apply Z.leb_le in Hab.
  rewrite binary32_le_bits by (apply binary32_add_score; assumption). apply Z.leb_le.
  rewrite !binary32_add_bits by (try apply is_weight_cases; assumption).
  pose proof (val_nonneg _ (proj1 (bits_range a))). pose proof (weight_val_nonneg w).
  pose proof (val_mono (Binary32.bits a) (Binary32.bits b)
                ltac:(split; [apply bits_range|exact Hab])).
  apply round_bits_mono. lia.
Qed.

Lemma binary32_add_infl (a w : Binary32.t) :
  is_score a -> is_weight w -> Binary32.le a (Binary32.add a w) = true.
Proof.
  intros Ha Hw.
  rewrite binary32_le_bits by (try apply binary32_add_score; assumption). apply Z.leb_le.
  rewrite binary32_add_bits by (try apply is_weight_cases; assumption).
  rewrite <- (round_bits_val (Binary32.bits a)) at 1
    by (split; [apply bits_range|exact Ha]).
  pose proof (val_nonneg _ (proj1 (bits_range a))). pose proof (weight_val_nonneg w).
  apply round_bits_mono. lia.
Qed.

(** *** The heuristic term of the zero heuristic *)

(** The floats that are numbers: zeros, subnormal and normal numbers. *)
Definition binary32_finite (a : Binary32.t) : bool :=
  match Binary32.decode a with
  | S754_zero _ | S754_finite _ _ _ => true
  | _ => false
  end.

(** [0 * w] is a zero, of the sign of [w], when [w] is a number. *)
Lemma binary32_zero_mul_finite (w : Binary32.t) :
  binary32_finite w = true ->
  Binary32.bits (Binary32.mul Binary32.zero w) = 0
  \/ Binary32.bits (Binary32.mul Binary32.zero w) = 2 ^ 31.
Proof.
  unfold binary32_finite, Binary32.mul, Binary32.lift2.
  change (Binary32.decode Binary32.zero) with (S754_zero false).
  destruct (Binary32.decode w) as [sw| | |sw m e]; try discriminate; intros _;
    cbn [SFmul xorb]; rewrite encode_enc_bits;
    destruct sw; cbn [enc_bits Binary32.sign_bit];
    rewrite bits_of_bits by lia; auto.
Qed.

(** Adding a zero of either sign leaves a score as it is. *)
Lemma binary32_add_signed_zero (a z : Binary32.t) :
  is_score a -> Binary32.bits z = 0 \/ Binary32.bits z = 2 ^ 31 ->
  Binary32.add a z = a.
Proof.
  intros Ha Hz. apply bits_inj.
  assert (is_score z \/ Binary32.bits z = 2 ^ 31) as Hz'.
  { destruct Hz as [Hz|Hz]; [left|right; exact Hz].
    unfold is_score, INF. rewrite Hz. lia. }
  rewrite binary32_add_bits by assumption.
  assert (weight_val z = 0) as ->.
  { unfold weight_val. destruct Hz as [Hz|Hz]; rewrite Hz; reflexivity. }
  rewrite Z.add_0_r. apply round_bits_val.
  split; [apply bits_range|exact Ha].
Qed.

(** The laws of [ScoreLaws] hold of binary32. *)
Lemma binary32_score_laws : ScoreLaws (F := Binary32.t) is_score is_weight.
Proof.
  constructor; cbn [f_zero FLT_MAX f_add f_lt f_le binary32_ops].
  - exact is_score_zero.
  - exact is_score_flt_max.
  - exact binary32_add_score.
  - intros a b Ha Hb. apply binary32_lt_le; apply is_score_not_nan; assumption.
  - intros a b Ha Hb. apply binary32_le_total; apply is_score_not_nan; assumption.
  - intros a b c Ha Hb Hc. apply binary32_le_trans; apply is_score_not_nan; assumption.
  - exact binary32_add_mono.
  - exact binary32_add_infl.
  - vm_compute. reflexivity.
Qed.

(* ===================================================================== *)
(** ** The search with the zero heuristic on binary32 graphs *)


(** A check of the weights that can be run. *)
Definition weights_check {F : Type} `{FloatOps F} (okb : F -> bool) (g : Graph F) : bool :=
  forallb (fun i =>
             forallb (fun j =>
                        let e := edge_at g i j in
                        implb (edge_active e) (okb (edge_weight e)))
                     (seqZ 0 (edgeCount_at g i)))
          (seqZ 0 (nodeCount g)).

Lemma weights_check_sound {F : Type} `{FloatOps F} (ok : F -> Prop) (okb : F -> bool)
      (g : Graph F) :
  (forall x, okb x = true -> ok x) ->
  weights_check okb g = true ->
  forall i j, 0 <= i < nodeCount g -> 0 <= j < edgeCount_at g i ->
              edge_active (edge_at g i j) = true -> ok (edge_weight (edge_at g i j)).
Proof.
  unfold weights_check. intros Hokb Hc i j Hi Hj Hact.
  rewrite forallb_forall in Hc.
  specialize (Hc i ltac:(apply list_elem_of_In, elem_of_seqZ_0; exact Hi)).
  rewrite forallb_forall in Hc.
  specialize (Hc j ltac:(apply list_elem_of_In, elem_of_seqZ_0; exact Hj)).
  cbv zeta in Hc. rewrite Hact in Hc. apply Hokb. exact Hc.
Qed.

(** One more edge on a path. *)
Lemma walk_step {F : Type} `{FloatOps F} (g : Graph F) (s : Z) (es : list (Edge F))
      (u j v : Z) :
  walk g s es u -> 0 <= j < edgeCount_at g u ->
  edge_active (edge_at g u j) = true ->
  edge_to (edge_at g u j) = v -> node_active (node_at g v) = true ->
  walk g s (es ++ [edge_at g u j]) v.
Proof. intros Hw Hj Hact <- Hnode. apply walk_snoc; assumption. Qed.

Module FarSamples.

(** Two nodes joined by one edge whose weight is [FLT_MAX]. *)
Definition far : Graph Binary32.t :=
  let g := graph_init in
  let g := snd (graph_add_node g ["A"]%byte (Samples.flt 0) (Samples.flt 0)) in
  let g := snd (graph_add_node g ["B"]%byte (Samples.flt 10) (Samples.flt 0)) in
  snd (graph_add_edge g 0 1 Binary32.flt_max).

Definition dijkstra : AStarConfig Binary32.t := mkConfig HEURISTIC_ZERO Binary32.one true.

End FarSamples.

Module LimitSamples.

(** The float [-5.0]. *)
Definition minus_five : Binary32.t := Binary32.of_bits 0xc0a00000.

(** The float [-2.0]. *)
Definition minus_two : Binary32.t := Binary32.of_bits 0xc0000000.

(** The float [+inf]. *)
Definition infinity : Binary32.t := Binary32.of_bits 0x7f800000.

(** Edges A->B 1, A->C 2, C->B -5, B->D 1. *)
Definition detour : Graph Binary32.t :=
  let g := graph_init in
  let g := snd (graph_add_node g ["A"]%byte (Samples.flt 0) (Samples.flt 0)) in
  let g := snd (graph_add_node g ["B"]%byte (Samples.flt 10) (Samples.flt 0)) in
  let g := snd (graph_add_node g ["C"]%byte (Samples.flt 10) (Samples.flt 10)) in
  let g := snd (graph_add_node g ["D"]%byte (Samples.flt 20) (Samples.flt 10)) in
  let g := snd (graph_add_edge g 0 1 (Samples.flt 1)) in
  let g := snd (graph_add_edge g 0 2 (Samples.flt 2)) in
  let g := snd (graph_add_edge g 2 1 minus_five) in
  snd (graph_add_edge g 1 3 (Samples.flt 1)).

(** Edges A->C 5, A->B 1, B->C 1, added in this order. *)
Definition shortcut : Graph Binary32.t :=
  let g := graph_init in
  let g := snd (graph_add_node g ["A"]%byte (Samples.flt 0) (Samples.flt 0)) in
  let g := snd (graph_add_node g ["B"]%byte (Samples.flt 10) (Samples.flt 0)) in
  let g := snd (graph_add_node g ["C"]%byte (Samples.flt 10) (Samples.flt 10)) in
  let g := snd (graph_add_edge g 0 2 (Samples.flt 5)) in
  let g := snd (graph_add_edge g 0 1 (Samples.flt 1)) in
  snd (graph_add_edge g 1 2 (Samples.flt 1)).

(** The zero heuristic with an infinite weight. *)
Definition unbounded : AStarConfig Binary32.t := mkConfig HEURISTIC_ZERO infinity true.

(** The zero heuristic with the weight [-5.0]. *)
Definition negative : AStarConfig Binary32.t := mkConfig HEURISTIC_ZERO minus_five true.

(** Edges A->C 1, A->B NaN, B->C 1. *)
Definition unordered : Graph Binary32.t :=
  let g := graph_init in
  let g := snd (graph_add_node g ["A"]%byte (Samples.flt 0) (Samples.flt 0)) in
  let g := snd (graph_add_node g ["B"]%byte (Samples.flt 10) (Samples.flt 0)) in
  let g := snd (graph_add_node g ["C"]%byte (Samples.flt 10) (Samples.flt 10)) in
  let g := snd (graph_add_edge g 0 2 (Samples.flt 1)) in
  let g := snd (graph_add_edge g 0 1 Binary32.nan) in
  snd (graph_add_edge g 1 2 (Samples.flt 1)).

End LimitSamples.


Local Ltac sample_step := vm_compute; first [reflexivity | split; congruence].

Local Ltac sample_walk g s es u j v :=
  apply (walk_step g s es u j v); [|sample_step..].

(** The weights have to be non-negative: in [detour] every weight but one
    is positive and every path costs less than [FLT_MAX]; the search from A
    to D closes B at the score 1 before it reaches C, reports the cost 2 of
    the path A, B, D, and misses the path A, C, B, D of cost -2. *)
Lemma astar_negative_weight_not_least :
  walk LimitSamples.detour 0
       [edge_at LimitSamples.detour 0 1; edge_at LimitSamples.detour 2 0;
        edge_at LimitSamples.detour 1 0] 3
  /\ path_cost [edge_at LimitSamples.detour 0 1; edge_at LimitSamples.detour 2 0;
                edge_at LimitSamples.detour 1 0] = LimitSamples.minus_two
  /\ (fun run => (found (run_result run), path_nodes (run_result run),
                  totalCost (run_result run)))
       <$> astar_find_path 5 LimitSamples.detour 0 3 (Some FarSamples.dijkstra)
     = Some (true, [0; 1; 3], Samples.flt 2)
  /\ f_le (Samples.flt 2) LimitSamples.minus_two = false.
Proof.
  split; [|split; [|split]]; [|vm_compute; reflexivity..].
  sample_walk LimitSamples.detour 0
              [edge_at LimitSamples.detour 0 1; edge_at LimitSamples.detour 2 0] 1 0 3.
  sample_walk LimitSamples.detour 0 [edge_at LimitSamples.detour 0 1] 2 0 1.
  sample_walk LimitSamples.detour 0 (@nil (Edge Binary32.t)) 0 1 2.
  constructor.
Qed.

(** The heuristic weight has to be a number: with an infinite weight the
    heuristic term [0 * inf] is a NaN, every key in the queue is a NaN, and
    the queue hands out the nodes in the order of their insertion.  In
    [shortcut] the search from A to C reports the cost 5 of the edge A, C
    where the path A, B, C costs 2.  (A negative heuristic weight does no
    harm: the term is then [-0.0].) *)
Lemma astar_infinite_heuristic_weight_not_least :
  walk LimitSamples.shortcut 0
       [edge_at LimitSamples.shortcut 0 1; edge_at LimitSamples.shortcut 1 0] 2
  /\ path_cost [edge_at LimitSamples.shortcut 0 1; edge_at LimitSamples.shortcut 1 0]
     = Samples.flt 2
  /\ (fun run => (found (run_result run), path_nodes (run_result run),
                  totalCost (run_result run)))
       <$> astar_find_path 4 LimitSamples.shortcut 0 2 (Some LimitSamples.unbounded)
     = Some (true, [0; 2], Samples.flt 5)
  /\ f_le (Samples.flt 5) (Samples.flt 2) = false
  /\ (fun run => (found (run_result run), path_nodes (run_result run),
                  totalCost (run_result run)))
       <$> astar_find_path 4 LimitSamples.shortcut 0 2 (Some LimitSamples.negative)
     = Some (true, [0; 1; 2], Samples.flt 2).
Proof.
  split; [|split; [|split; [|split]]]; [|vm_compute; reflexivity..].
  sample_walk LimitSamples.shortcut 0 [edge_at LimitSamples.shortcut 0 1] 1 0 2.
  sample_walk LimitSamples.shortcut 0 (@nil (Edge Binary32.t)) 0 1 1.
  constructor.
Qed.

(** The weights must not be NaN: in [unordered] the search from A to C
    reports the cost 1 of the edge A, C; the path A, B, C has the cost NaN,
    and [1 <= NaN] is false. *)
Lemma astar_nan_weight_not_least :
  walk LimitSamples.unordered 0
       [edge_at LimitSamples.unordered 0 1; edge_at LimitSamples.unordered 1 0] 2
  /\ (fun run => (found (run_result run), path_nodes (run_result run),
                  totalCost (run_result run)))
       <$> astar_find_path 4 LimitSamples.unordered 0 2 (Some FarSamples.dijkstra)
     = Some (true, [0; 2], Samples.flt 1)
  /\ f_le (Samples.flt 1)
          (path_cost [edge_at LimitSamples.unordered 0 1;
                      edge_at LimitSamples.unordered 1 0]) = false.
Proof.
  split; [|split]; [|vm_compute; reflexivity..].
  sample_walk LimitSamples.unordered 0 [edge_at LimitSamples.unordered 0 1] 1 0 2.
  sample_walk LimitSamples.unordered 0 (@nil (Edge Binary32.t)) 0 1 1.
  constructor.
Qed.



(* ===================================================================== *)
(** * Further properties of the graph store, the queue and the search *)

(* ===================================================================== *)
(** ** The graph store: reading and writing slots *)

Lemma find_ext_in {A} (f f' : A -> bool) (l : list A) :
  (forall x, x ∈ l -> f x = f' x) -> find f l = find f' l.
Proof.
  induction l as [|x l IH]; intros Hext; [reflexivity|]. simpl.
  rewrite <- (Hext x) by (apply elem_of_cons; auto).
  destruct (f x); [reflexivity|]. apply IH. intros y Hy. apply Hext, elem_of_cons. auto.
Qed.

Lemma existsb_ext_in {A} (f f' : A -> bool) (l : list A) :
  (forall x, x ∈ l -> f x = f' x) -> existsb f l = existsb f' l.
Proof.
  induction l as [|x l IH]; intros Hext; [reflexivity|]. simpl.
  rewrite <- (Hext x) by (apply elem_of_cons; auto).
  rewrite IH; [reflexivity|]. intros y Hy. apply Hext, elem_of_cons. auto.
Qed.

Lemma existsb_find {A} (f : A -> bool) (l : list A) :
  existsb f l = bool_decide (is_Some (find f l)).
Proof.
  induction l as [|x l IH]; [reflexivity|]. simpl. destruct (f x); [reflexivity|exact IH].
Qed.

(** The first hit of a scan over [0 .. n-1]. *)
Lemma find_seqZ_Some (f : Z -> bool) (n i : Z) :
  find f (seqZ 0 n) = Some i ->
  0 <= i < n /\ f i = true /\ forall k, 0 <= k < i -> f k = false.
Proof.
  assert (forall (len : nat) (m : Z),
             find f (seqZ m (Z.of_nat len)) = Some i ->
             m <= i < m + Z.of_nat len /\ f i = true
             /\ forall k, m <= k < i -> f k = false) as Hgen.
  { induction len as [|len IH]; intros m Hf.
    - discriminate.
    - rewrite Nat2Z.inj_succ, seqZ_cons in Hf by lia. simpl in Hf.
      destruct (f m) eqn:Hm.
      + injection Hf as <-. repeat split; try lia. exact Hm.
      + replace (Z.pred (Z.succ (Z.of_nat len))) with (Z.of_nat len) in Hf by lia.
        destruct (IH _ Hf) as (Hr & Hi & Hk). repeat split; try lia; [exact Hi|].
        intros k Hk'. destruct (decide (k = m)) as [->|Hne]; [exact Hm|]. apply Hk. lia. }
  intros Hf. destruct (decide (0 <= n)) as [Hn|Hn].
  - rewrite <- (Z2Nat.id n) in Hf by exact Hn. apply Hgen in Hf. rewrite Z2Nat.id in Hf by lia.
    destruct Hf as (Hr & Hi & Hk). repeat split; try lia; assumption.
  - rewrite seqZ_nil in Hf by lia. discriminate.
Qed.

Lemma find_seqZ_None (f : Z -> bool) (n : Z) :
  find f (seqZ 0 n) = None <-> forall k, 0 <= k < n -> f k = false.
Proof.
  split.
  - intros Hf k Hk. apply (find_none f _ Hf). apply list_elem_of_In, elem_of_seqZ_0, Hk.
  - intros Hall. destruct (find f (seqZ 0 n)) as [i|] eqn:Hf; [|reflexivity].
    apply find_seqZ_Some in Hf as (Hr & Hi & _). rewrite Hall in Hi by exact Hr. discriminate.
Qed.

Lemma find_seqZ_first (f : Z -> bool) (n i : Z) :
  0 <= i < n -> f i = true -> (forall k, 0 <= k < i -> f k = false) ->
  find f (seqZ 0 n) = Some i.
Proof.
  intros Hi Hfi Hbefore.
  destruct (find f (seqZ 0 n)) as [k|] eqn:Hf.
  - apply find_seqZ_Some in Hf as (Hr & Hk & Hk').
    f_equal. destruct (Z.lt_trichotomy k i) as [Hlt|[->|Hgt]]; [|reflexivity|].
    + rewrite Hbefore in Hk by lia. discriminate.
    + rewrite Hk' in Hfi by lia. discriminate.
  - rewrite find_seqZ_None in Hf. rewrite Hf in Hfi by exact Hi. discriminate.
Qed.

Section GraphSlots.
Context {F : Type} `{FloatOps F}.

Lemma edge_at_set_edge (g : Graph F) i j e i' j' :
  0 <= i < Z.of_nat (length (edges g)) ->
  0 <= j < Z.of_nat (length (aget [] (edges g) i)) ->
  edge_at (set_edge g i j e) i' j'
  = if decide (i' = i /\ j' = j) then e else edge_at g i' j'.
Proof.
  intros Hi Hj. destruct (decide (i' = i /\ j' = j)) as [[-> ->]|Hne].
  - apply edge_at_set_edge_eq; assumption.
  - apply edge_at_set_edge_ne, Hne.
Qed.

Lemma edgeCount_at_set_edgeCount (g : Graph F) i c k :
  edgeCount_at (set_edgeCount g i c) k
  = if decide (i = k /\ 0 <= i < Z.of_nat (length (edgeCounts g))) then c
    else edgeCount_at g k.
Proof. unfold edgeCount_at, set_edgeCount. simpl. apply aget_aset. Qed.

(** The test of the scans of [graph_has_edge], [graph_get_edge_weight] and
    [graph_remove_edge]. *)
Definition edge_hit (g : Graph F) (from to i : Z) : bool :=
  bool_decide (edge_to (edge_at g from i) = to) && edge_active (edge_at g from i).

Lemma edge_hit_true g from to i :
  edge_hit g from to i = true
  <-> edge_to (edge_at g from i) = to /\ edge_active (edge_at g from i) = true.
Proof.
  unfold edge_hit. rewrite andb_true_iff, bool_decide_eq_true. reflexivity.
Qed.

Lemma graph_has_edge_true (g : Graph F) (from to : Z) :
  graph_has_edge g from to = true
  <-> 0 <= from < nodeCount g
      /\ exists j, 0 <= j < edgeCount_at g from /\ edge_hit g from to j = true.
Proof.
  unfold graph_has_edge.
  destruct (decide (from < 0 \/ from >= nodeCount g)) as [Hbad|Hok].
  - split; [discriminate|]. intros [Hr _]. lia.
  - fold (edge_hit g from to). rewrite existsb_exists. split.
    + intros (j & Hj & Hhit). split; [lia|]. exists j. split; [|exact Hhit].
      apply list_elem_of_In, elem_of_seqZ_0 in Hj. exact Hj.
    + intros (_ & j & Hj & Hhit). exists j. split; [|exact Hhit].
      apply list_elem_of_In, elem_of_seqZ_0. exact Hj.
Qed.

Lemma graph_has_edge_false (g : Graph F) (from to : Z) :
  graph_has_edge g from to = false
  <-> (0 <= from < nodeCount g ->
       forall j, 0 <= j < edgeCount_at g from -> edge_hit g from to j = false).
Proof.
  rewrite <- not_true_iff_false, graph_has_edge_true. split.
  - intros Hn Hr j Hj. apply not_true_is_false. intros Hhit. apply Hn. eauto.
  - intros Hall (Hr & j & Hj & Hhit). rewrite Hall in Hhit by assumption. discriminate.
Qed.

(** Two graphs that agree on the row of [from] answer alike. *)
Lemma graph_has_edge_ext (g g' : Graph F) (from to : Z) :
  nodeCount g' = nodeCount g ->
  edgeCount_at g' from = edgeCount_at g from ->
  (forall j, 0 <= j < edgeCount_at g from -> edge_hit g' from to j = edge_hit g from to j) ->
  graph_has_edge g' from to = graph_has_edge g from to.
Proof.
  intros Hc He Hrow. unfold graph_has_edge. rewrite Hc, He.
  destruct (decide _); [reflexivity|].
  apply existsb_ext_in. intros j Hj. apply Hrow. apply elem_of_seqZ_0, Hj.
Qed.

End GraphSlots.


(* ===================================================================== *)
(** ** C strings in a name array *)

Definition NUL : byte := "000"%byte.

Lemma c_str_nonzero (s : list byte) : Forall (fun b => Z_of_byte b <> 0) (c_str s).
Proof.
  induction s as [|b s IH]; simpl; [constructor|].
  destruct (Z_of_byte b =? 0) eqn:E; [constructor|].
  constructor; [|exact IH]. apply Z.eqb_neq, E.
Qed.

Lemma c_str_app_NUL (cs rest : list byte) :
  Forall (fun b => Z_of_byte b <> 0) cs -> c_str (cs ++ NUL :: rest) = cs.
Proof.
  induction 1 as [|b cs Hb _ IH]; [reflexivity|]. simpl.
  apply Z.eqb_neq in Hb. rewrite Hb, IH. reflexivity.
Qed.

Lemma c_str_idem (s : list byte) : c_str (c_str s) = c_str s.
Proof.
  induction s as [|b s IH]; simpl; [reflexivity|].
  destruct (Z_of_byte b =? 0) eqn:E; [reflexivity|]. simpl. rewrite E, IH. reflexivity.
Qed.

Lemma length_c_str (s : list byte) : (length (c_str s) <= length s)%nat.
Proof.
  induction s as [|b s IH]; simpl; [lia|].
  destruct (Z_of_byte b =? 0); simpl; lia.
Qed.

(** A name array as [memset] and [graph_add_node] leave it: the characters
    of the name, at most 127 of them, and NUL bytes up to the end. *)
Definition name_clean (nm : list byte) : Prop :=
  (length (c_str nm) < Z.to_nat MAX_NAME_LENGTH)%nat
  /\ nm = c_str nm ++ replicate (Z.to_nat MAX_NAME_LENGTH - length (c_str nm)) NUL.

Lemma name_clean_length (nm : list byte) :
  name_clean nm -> length nm = Z.to_nat MAX_NAME_LENGTH.
Proof.
  intros [Hlt Heq]. rewrite Heq at 1. rewrite length_app, length_replicate. lia.
Qed.

Lemma name_clean_chars (cs : list byte) :
  Forall (fun b => Z_of_byte b <> 0) cs ->
  (length cs < Z.to_nat MAX_NAME_LENGTH)%nat ->
  c_str (cs ++ replicate (Z.to_nat MAX_NAME_LENGTH - length cs) NUL) = cs
  /\ name_clean (cs ++ replicate (Z.to_nat MAX_NAME_LENGTH - length cs) NUL).
Proof.
  intros Hcs Hlen.
  assert (c_str (cs ++ replicate (Z.to_nat MAX_NAME_LENGTH - length cs) NUL) = cs) as Hc.
  { destruct (Z.to_nat MAX_NAME_LENGTH - length cs)%nat as [|k] eqn:Hk; [lia|].
    simpl. apply c_str_app_NUL, Hcs. }
  split; [exact Hc|]. unfold name_clean. rewrite Hc. split; [exact Hlen|reflexivity].
Qed.

(** The name [graph_add_node] stores: [strncpy] of 127 bytes and the NUL
    written to the last byte. *)
Lemma added_name (dst name : list byte) :
  length dst = Z.to_nat MAX_NAME_LENGTH ->
  let cs := take (Z.to_nat (MAX_NAME_LENGTH - 1)) (c_str name) in
  aset (strncpy dst name (Z.to_nat (MAX_NAME_LENGTH - 1))) (MAX_NAME_LENGTH - 1) NUL
  = cs ++ replicate (Z.to_nat MAX_NAME_LENGTH - length cs) NUL.
Proof.
  intros Hdst cs. unfold strncpy. fold cs.
  assert (length cs <= 127)%nat as Hcs by (unfold cs; rewrite length_take; unfold MAX_NAME_LENGTH; lia).
  change (Z.to_nat (MAX_NAME_LENGTH - 1)) with 127%nat.
  change (Z.to_nat MAX_NAME_LENGTH) with 128%nat in *.
  change (MAX_NAME_LENGTH - 1) with 127.
  destruct (drop 127 dst) as [|d rest] eqn:Hd.
  { apply (f_equal length) in Hd. rewrite length_drop in Hd. simpl in Hd. lia. }
  assert (rest = []) as ->.
  { apply (f_equal length) in Hd. rewrite length_drop in Hd. simpl in Hd.
    destruct rest; [reflexivity|simpl in Hd; lia]. }
  unfold aset. destruct (decide (0 <= 127)) as [_|Hbad]; [|lia].
  rewrite app_assoc.
  replace (Z.to_nat 127) with (length (cs ++ replicate (127 - length cs) "000"%byte) + 0)%nat
    by (rewrite length_app, length_replicate; lia).
  rewrite insert_app_r. simpl.
  rewrite <- app_assoc. f_equal.
  replace (128 - length cs)%nat with (S (127 - length cs)) by lia.
  rewrite replicate_S_end. reflexivity.
Qed.



(* ===================================================================== *)
(** ** The graph store: the invariant of the editing functions *)

Section GraphInvariant.
Context {F : Type} `{FloatOps F}.

(** What [graph_init] establishes and every editing function keeps. *)
Record graph_wf (g : Graph F) : Prop := {
  wf_nodes : Z.of_nat (length (nodes g)) = MAX_NODES;
  wf_edges : Z.of_nat (length (edges g)) = MAX_NODES;
  wf_rows : forall i, 0 <= i < MAX_NODES ->
                      Z.of_nat (length (aget [] (edges g) i)) = MAX_EDGES_PER_NODE;
  wf_edgeCounts : Z.of_nat (length (edgeCounts g)) = MAX_NODES;
  wf_nodeCount : 0 <= nodeCount g <= MAX_NODES;
  wf_count : forall i, 0 <= edgeCount_at g i <= MAX_EDGES_PER_NODE;
  wf_unused : forall i, nodeCount g <= i -> edgeCount_at g i = 0;
  wf_id : forall i, 0 <= i < nodeCount g -> node_id (node_at g i) = i;
  wf_name : forall i, name_clean (node_name (node_at g i));
  wf_from : forall i j, 0 <= i < nodeCount g -> 0 <= j < edgeCount_at g i ->
                        edge_from (edge_at g i j) = i;
  wf_to : forall i j, 0 <= i < nodeCount g -> 0 <= j < edgeCount_at g i ->
                      0 <= edge_to (edge_at g i j) < nodeCount g;
  wf_unique : forall i j j', 0 <= j < edgeCount_at g i -> 0 <= j' < edgeCount_at g i ->
                             edge_active (edge_at g i j) = true ->
                             edge_active (edge_at g i j') = true ->
                             edge_to (edge_at g i j) = edge_to (edge_at g i j') ->
                             j = j';
}.

Lemma node_at_graph_init (i : Z) : node_at (graph_init (F := F)) i = zero_node.
Proof.
  unfold node_at, graph_init. cbn [nodes].
  destruct (decide (0 <= i < Z.of_nat (Z.to_nat MAX_NODES))) as [Hi|Hi].
  - apply aget_replicate, Hi.
  - apply aget_out. rewrite length_replicate. exact Hi.
Qed.

Lemma edgeCount_at_graph_init (i : Z) : edgeCount_at (graph_init (F := F)) i = 0.
Proof.
  unfold edgeCount_at, graph_init. cbn [edgeCounts].
  destruct (decide (0 <= i < Z.of_nat (Z.to_nat MAX_NODES))) as [Hi|Hi].
  - apply aget_replicate, Hi.
  - apply aget_out. rewrite length_replicate. exact Hi.
Qed.

Lemma name_clean_zero : name_clean (replicate (Z.to_nat MAX_NAME_LENGTH) NUL).
Proof. apply (name_clean_chars []); [constructor|simpl; unfold MAX_NAME_LENGTH; lia]. Qed.

Lemma graph_init_wf : graph_wf (graph_init (F := F)).
Proof.
  constructor.
  - unfold graph_init. cbn [nodes]. rewrite length_replicate. reflexivity.
  - unfold graph_init. cbn [edges]. rewrite length_replicate. reflexivity.
  - intros i Hi. unfold graph_init. cbn [edges].
    rewrite aget_replicate by (unfold MAX_NODES in *; lia).
    rewrite length_replicate. reflexivity.
  - unfold graph_init. cbn [edgeCounts]. rewrite length_replicate. reflexivity.
  - unfold graph_init, MAX_NODES. cbn [nodeCount]. lia.
  - intros i. rewrite edgeCount_at_graph_init. unfold MAX_EDGES_PER_NODE. lia.
  - intros i _. apply edgeCount_at_graph_init.
  - unfold graph_init. cbn [nodeCount]. intros i Hi. lia.
  - intros i. rewrite node_at_graph_init. exact name_clean_zero.
  - intros i j _. rewrite edgeCount_at_graph_init. lia.
  - intros i j _. rewrite edgeCount_at_graph_init. lia.
  - intros i j j'. rewrite edgeCount_at_graph_init. lia.
Qed.

(** *** [graph_add_node] *)

Lemma graph_add_node_full (g : Graph F) name x y :
  nodeCount g >= MAX_NODES -> graph_add_node g name x y = (-1, g).
Proof.
  intros Hfull. unfold graph_add_node.
  destruct (decide (nodeCount g >= MAX_NODES)); [reflexivity|lia].
Qed.

(** The node [graph_add_node] writes. *)
Definition added_node (id : Z) (name : list byte) (x y : F) : Node F :=
  let cs := take (Z.to_nat (MAX_NAME_LENGTH - 1)) (c_str name) in
  mkNode id (cs ++ replicate (Z.to_nat MAX_NAME_LENGTH - length cs) NUL) x y true.

Lemma graph_add_node_room (g : Graph F) name x y :
  graph_wf g -> nodeCount g < MAX_NODES ->
  graph_add_node g name x y
  = (nodeCount g,
     set_nodeCount (set_node g (nodeCount g) (added_node (nodeCount g) name x y))
                   (nodeCount g + 1)).
Proof.
  intros Hwf Hroom. unfold graph_add_node.
  destruct (decide (nodeCount g >= MAX_NODES)); [lia|].
  cbn [set_node nodeCount]. unfold added_node.
  rewrite <- (added_name (node_name (node_at g (nodeCount g))))
    by (apply name_clean_length, (wf_name g Hwf)).
  reflexivity.
Qed.

Lemma added_node_name_clean id name x y :
  name_clean (node_name (added_node id name x y))
  /\ c_str (node_name (added_node id name x y))
     = take (Z.to_nat (MAX_NAME_LENGTH - 1)) (c_str name).
Proof.
  unfold added_node. cbn [node_name].
  set (cs := take (Z.to_nat (MAX_NAME_LENGTH - 1)) (c_str name)).
  assert (Forall (fun b => Z_of_byte b <> 0) cs) as Hnz
      by (apply Forall_take, c_str_nonzero).
  assert (length cs < Z.to_nat MAX_NAME_LENGTH)%nat as Hlen
      by (unfold cs; rewrite length_take; unfold MAX_NAME_LENGTH; lia).
  destruct (name_clean_chars cs Hnz Hlen) as [Hc Hclean]. split; assumption.
Qed.

Lemma graph_add_node_wf (g : Graph F) name x y :
  graph_wf g -> graph_wf (snd (graph_add_node g name x y)).
Proof.
  intros Hwf. destruct (decide (nodeCount g < MAX_NODES)) as [Hroom|Hfull].
  2:{ rewrite graph_add_node_full by lia. exact Hwf. }
  rewrite (graph_add_node_room g name x y Hwf Hroom). cbn [snd].
  pose proof (wf_nodeCount g Hwf) as Hc. pose proof (wf_nodes g Hwf) as Hn.
  assert (forall i, node_at (set_nodeCount
                               (set_node g (nodeCount g) (added_node (nodeCount g) name x y))
                               (nodeCount g + 1)) i
                    = if decide (i = nodeCount g) then added_node (nodeCount g) name x y
                      else node_at g i) as Hnode.
  { intros i. unfold set_nodeCount, node_at. cbn [nodes set_node]. rewrite aget_aset.
    destruct (decide (i = nodeCount g)) as [->|Hne].
    - destruct (decide _) as [_|Hbad]; [reflexivity|]. exfalso. apply Hbad. lia.
    - destruct (decide _) as [[Heq _]|_]; [congruence|reflexivity]. }
  set (g' := set_nodeCount (set_node g (nodeCount g) (added_node (nodeCount g) name x y))
                           (nodeCount g + 1)) in *.
  assert (forall i, edgeCount_at g' i = edgeCount_at g i) as Hcount by reflexivity.
  assert (forall i j, edge_at g' i j = edge_at g i j) as Hedge by reflexivity.
  assert (nodeCount g' = nodeCount g + 1) as Hc' by reflexivity.
  constructor.
  - unfold g'. cbn [set_nodeCount set_node nodes]. rewrite length_aset. exact Hn.
  - apply (wf_edges g Hwf).
  - apply (wf_rows g Hwf).
  - apply (wf_edgeCounts g Hwf).
  - lia.
  - intros i. rewrite Hcount. apply (wf_count g Hwf).
  - intros i Hi. rewrite Hcount. apply (wf_unused g Hwf). lia.
  - intros i Hi. rewrite Hnode. destruct (decide (i = nodeCount g)) as [->|Hne];
      [reflexivity|]. apply (wf_id g Hwf). lia.
  - intros i. rewrite Hnode. destruct (decide (i = nodeCount g));
      [apply added_node_name_clean|apply (wf_name g Hwf)].
  - intros i j Hi Hj. rewrite Hcount in Hj. rewrite Hedge.
    apply (wf_from g Hwf); [|exact Hj].
    destruct (decide (i = nodeCount g)) as [->|Hne]; [|lia].
    rewrite (wf_unused g Hwf) in Hj by lia. lia.
  - intros i j Hi Hj. rewrite Hcount in Hj. rewrite Hedge.
    destruct (decide (i = nodeCount g)) as [->|Hne].
    + rewrite (wf_unused g Hwf) in Hj by lia. lia.
    + pose proof (wf_to g Hwf i j ltac:(lia) Hj) as Ht. lia.
  - intros i j j'. rewrite !Hcount, !Hedge. apply (wf_unique g Hwf).
Qed.

End GraphInvariant.


Section GraphEdits.
Context {F : Type} `{FloatOps F}.

(** [g'] has the array dimensions of [g]. *)
Definition same_dims (g g' : Graph F) : Prop :=
  length (edges g') = length (edges g)
  /\ forall i, length (aget [] (edges g') i) = length (aget [] (edges g) i).

Lemma same_dims_refl g : same_dims g g.
Proof. split; reflexivity. Qed.

Lemma same_dims_trans g1 g2 g3 : same_dims g1 g2 -> same_dims g2 g3 -> same_dims g1 g3.
Proof. intros [H1 H2] [H3 H4]. split; [congruence|]. intros i. rewrite H4. apply H2. Qed.

Lemma same_dims_set_edge g i j e : same_dims g (set_edge g i j e).
Proof.
  split; simpl.
  - apply length_aset.
  - intros k. rewrite aget_aset. destruct (decide _) as [[-> _]|_]; [|reflexivity].
    apply length_aset.
Qed.

Lemma same_dims_deactivate_edges_to x i g : same_dims g (deactivate_edges_to x i g).
Proof.
  unfold deactivate_edges_to. apply (foldl_preserves _ (same_dims g)).
  - apply same_dims_refl.
  - intros a j _ Ha. destruct (decide _); [|exact Ha].
    eapply same_dims_trans; [exact Ha|apply same_dims_set_edge].
Qed.

(** Deactivating edges keeps the invariant. *)
Lemma graph_wf_fades (g g' : Graph F) :
  graph_wf g -> fades g g' -> same_dims g g' -> graph_wf g'.
Proof.
  intros Hwf Hf [Hd1 Hd2].
  pose proof Hf as (Hn & Hc & He & Hx).
  assert (forall i, edgeCount_at g' i = edgeCount_at g i) as Hcount
      by (intros i; apply fades_edgeCount_at, Hf).
  assert (forall i, node_at g' i = node_at g i) as Hnode
      by (intros i; unfold node_at; rewrite Hn; reflexivity).
  constructor.
  - rewrite Hn. apply (wf_nodes g Hwf).
  - rewrite Hd1. apply (wf_edges g Hwf).
  - intros i Hi. rewrite Hd2. apply (wf_rows g Hwf), Hi.
  - rewrite He. apply (wf_edgeCounts g Hwf).
  - rewrite Hc. apply (wf_nodeCount g Hwf).
  - intros i. rewrite Hcount. apply (wf_count g Hwf).
  - intros i. rewrite Hc, Hcount. apply (wf_unused g Hwf).
  - intros i. rewrite Hc, Hnode. apply (wf_id g Hwf).
  - intros i. rewrite Hnode. apply (wf_name g Hwf).
  - intros i j. rewrite Hc, Hcount. intros Hi Hj.
    destruct (Hx i j) as [->| ->]; apply (wf_from g Hwf); assumption.
  - intros i j. rewrite Hc, Hcount. intros Hi Hj.
    rewrite (fades_edge_to g g') by exact Hf. apply (wf_to g Hwf); assumption.
  - intros i j j'. rewrite !Hcount. intros Hj Hj' Ha Ha' Hto.
    rewrite !(fades_edge_to g g') in Hto by exact Hf.
    apply (wf_unique g Hwf i); try assumption.
    + destruct (edge_active (edge_at g i j)) eqn:E; [reflexivity|].
      rewrite (fades_inactive g g' i j Hf E) in Ha. discriminate.
    + destruct (edge_active (edge_at g i j')) eqn:E; [reflexivity|].
      rewrite (fades_inactive g g' i j' Hf E) in Ha'. discriminate.
Qed.

(** *** [graph_remove_edge] *)

Lemma graph_remove_edge_cases (g : Graph F) (from to : Z) :
  (graph_has_edge g from to = false /\ graph_remove_edge g from to = (false, g))
  \/ (exists i, 0 <= from < nodeCount g /\ 0 <= i < edgeCount_at g from
                /\ edge_hit g from to i = true
                /\ (forall k, 0 <= k < i -> edge_hit g from to k = false)
                /\ graph_remove_edge g from to
                   = (true, set_edge g from i (deactivated (edge_at g from i)))).
Proof.
  unfold graph_remove_edge.
  destruct (decide (from < 0 \/ from >= nodeCount g)) as [Hbad|Hok].
  { left. split; [|reflexivity]. apply graph_has_edge_false. lia. }
  fold (edge_hit g from to).
  destruct (find (edge_hit g from to) (seqZ 0 (edgeCount_at g from))) as [i|] eqn:Hfind.
  - right. exists i. apply find_seqZ_Some in Hfind as (Hi & Hhit & Hbefore).
    repeat split; try assumption; lia.
  - left. split; [|reflexivity]. apply graph_has_edge_false. intros _.
    apply find_seqZ_None, Hfind.
Qed.

Lemma graph_remove_edge_fades (g : Graph F) (from to : Z) :
  fades g (snd (graph_remove_edge g from to))
  /\ same_dims g (snd (graph_remove_edge g from to)).
Proof.
  destruct (graph_remove_edge_cases g from to) as [[_ ->]|(i & _ & _ & _ & _ & ->)];
    cbn [snd].
  - split; [apply fades_refl|apply same_dims_refl].
  - split; [apply fades_deactivate|apply same_dims_set_edge].
Qed.

Lemma graph_remove_edge_wf (g : Graph F) (from to : Z) :
  graph_wf g -> graph_wf (snd (graph_remove_edge g from to)).
Proof.
  intros Hwf. destruct (graph_remove_edge_fades g from to) as [Hf Hd].
  eapply graph_wf_fades; eassumption.
Qed.

(** *** [graph_remove_node] *)

(** The graph before the loops of [graph_remove_node] run. *)
Definition unplugged (g : Graph F) (x : Z) : Graph F :=
  let n := node_at g x in
  set_edgeCount
    (set_node g x (mkNode (node_id n) (node_name n) (node_x n) (node_y n) false))
    x 0.

Lemma graph_remove_node_in_range (g : Graph F) (x : Z) :
  0 <= x < nodeCount g ->
  fst (graph_remove_node g x) = true
  /\ fades (unplugged g x) (snd (graph_remove_node g x))
  /\ same_dims (unplugged g x) (snd (graph_remove_node g x))
  /\ forall i j, 0 <= i < nodeCount g -> i <> x -> 0 <= j < edgeCount_at g i ->
                 edge_to (edge_at g i j) = x ->
                 edge_active (edge_at (snd (graph_remove_node g x)) i j) = false.
Proof.
  intros Hx. unfold graph_remove_node.
  destruct (decide (x < 0 \/ x >= nodeCount g)) as [Hbad|_]; [lia|].
  cbn [fst snd]. fold (unplugged g x).
  change (nodeCount (unplugged g x)) with (nodeCount g).
  destruct (remove_node_loop_spec x (unplugged g x) (nodeCount g)) as [Hf Hd].
  split; [reflexivity|]. split; [exact Hf|]. split.
  - apply (foldl_preserves _ (same_dims (unplugged g x))).
    + apply same_dims_refl.
    + intros a i _ Ha. destruct (decide _); [exact Ha|].
      eapply same_dims_trans; [exact Ha|apply same_dims_deactivate_edges_to].
  - intros i j Hi Hne Hj Hto. apply Hd; try assumption.
    unfold edgeCount_at, unplugged. cbn [set_edgeCount edgeCounts set_node].
    rewrite aget_aset_ne by congruence. exact Hj.
Qed.

Lemma graph_remove_node_out_of_range (g : Graph F) (x : Z) :
  ~ (0 <= x < nodeCount g) -> graph_remove_node g x = (false, g).
Proof.
  intros Hx. unfold graph_remove_node.
  destruct (decide (x < 0 \/ x >= nodeCount g)); [reflexivity|lia].
Qed.

Lemma node_at_unplugged (g : Graph F) (x i : Z) :
  graph_wf g -> 0 <= x < nodeCount g ->
  node_at (unplugged g x) i
  = if decide (i = x)
    then mkNode (node_id (node_at g x)) (node_name (node_at g x))
                (node_x (node_at g x)) (node_y (node_at g x)) false
    else node_at g i.
Proof.
  intros Hwf Hx. unfold unplugged, node_at. cbn [set_edgeCount set_node nodes].
  rewrite aget_aset. pose proof (wf_nodes g Hwf). pose proof (wf_nodeCount g Hwf).
  destruct (decide (i = x)) as [->|Hne].
  - destruct (decide _) as [_|Hbad]; [reflexivity|]. exfalso. apply Hbad. lia.
  - destruct (decide _) as [[Heq _]|_]; [congruence|reflexivity].
Qed.

Lemma edgeCount_at_unplugged (g : Graph F) (x i : Z) :
  graph_wf g -> 0 <= x < nodeCount g ->
  edgeCount_at (unplugged g x) i = if decide (i = x) then 0 else edgeCount_at g i.
Proof.
  intros Hwf Hx. unfold unplugged. rewrite edgeCount_at_set_edgeCount.
  cbn [set_node edgeCounts].
  pose proof (wf_edgeCounts g Hwf). pose proof (wf_nodeCount g Hwf).
  destruct (decide (i = x)) as [->|Hne].
  - destruct (decide _) as [_|Hbad]; [reflexivity|]. exfalso. apply Hbad. lia.
  - destruct (decide _) as [[Heq _]|_]; [congruence|reflexivity].
Qed.

Lemma unplugged_wf (g : Graph F) (x : Z) :
  graph_wf g -> 0 <= x < nodeCount g -> graph_wf (unplugged g x).
Proof.
  intros Hwf Hx.
  assert (forall i j, edge_at (unplugged g x) i j = edge_at g i j) as Hedge by reflexivity.
  assert (nodeCount (unplugged g x) = nodeCount g) as Hc by reflexivity.
  pose proof (wf_count g Hwf) as Hcnt.
  constructor.
  - unfold unplugged. cbn [set_edgeCount set_node nodes]. rewrite length_aset.
    apply (wf_nodes g Hwf).
  - apply (wf_edges g Hwf).
  - apply (wf_rows g Hwf).
  - unfold unplugged. cbn [set_edgeCount set_node edgeCounts]. rewrite length_aset.
    apply (wf_edgeCounts g Hwf).
  - rewrite Hc. apply (wf_nodeCount g Hwf).
  - intros i. rewrite edgeCount_at_unplugged by assumption.
    destruct (decide (i = x)); [unfold MAX_EDGES_PER_NODE; lia|apply Hcnt].
  - intros i Hi. rewrite Hc in Hi. rewrite edgeCount_at_unplugged by assumption.
    destruct (decide (i = x)); [reflexivity|]. apply (wf_unused g Hwf), Hi.
  - intros i Hi. rewrite Hc in Hi. rewrite node_at_unplugged by assumption.
    destruct (decide (i = x)) as [->|Hne]; cbn [node_id]; apply (wf_id g Hwf); assumption.
  - intros i. rewrite node_at_unplugged by assumption.
    destruct (decide (i = x)) as [->|Hne]; cbn [node_name]; apply (wf_name g Hwf).
  - intros i j Hi Hj. rewrite Hc in Hi. rewrite edgeCount_at_unplugged in Hj by assumption.
    destruct (decide (i = x)); [lia|]. rewrite Hedge. apply (wf_from g Hwf); assumption.
  - intros i j Hi Hj. rewrite Hc in Hi |- *. rewrite edgeCount_at_unplugged in Hj by assumption.
    destruct (decide (i = x)); [lia|]. rewrite Hedge. apply (wf_to g Hwf); assumption.
  - intros i j j'. rewrite edgeCount_at_unplugged by assumption.
    destruct (decide (i = x)); [lia|]. rewrite !Hedge. apply (wf_unique g Hwf).
Qed.

Lemma graph_remove_node_wf (g : Graph F) (x : Z) :
  graph_wf g -> graph_wf (snd (graph_remove_node g x)).
Proof.
  intros Hwf. destruct (decide (0 <= x < nodeCount g)) as [Hx|Hx].
  - destruct (graph_remove_node_in_range g x Hx) as (_ & Hf & Hd & _).
    apply (graph_wf_fades (unplugged g x)); [apply unplugged_wf; assumption|exact Hf|exact Hd].
  - rewrite graph_remove_node_out_of_range by exact Hx. exact Hwf.
Qed.

(** *** [graph_add_edge] *)

(** The graph a successful [graph_add_edge] returns. *)
Definition with_edge (g : Graph F) (from to : Z) (weight : F) : Graph F :=
  set_edgeCount (set_edge g from (edgeCount_at g from) (mkEdge from to weight true))
                from (edgeCount_at g from + 1).

Lemma graph_add_edge_cases (g : Graph F) (from to : Z) (weight : F) :
  (graph_add_edge g from to weight = (false, g)
   /\ (~ (0 <= from < nodeCount g) \/ ~ (0 <= to < nodeCount g)
       \/ edgeCount_at g from >= MAX_EDGES_PER_NODE
       \/ graph_has_edge g from to = true))
  \/ (graph_add_edge g from to weight = (true, with_edge g from to weight)
      /\ 0 <= from < nodeCount g /\ 0 <= to < nodeCount g
      /\ edgeCount_at g from < MAX_EDGES_PER_NODE
      /\ graph_has_edge g from to = false).
Proof.
  unfold graph_add_edge.
  destruct (decide (from < 0 \/ from >= nodeCount g)); [left; split; [reflexivity|lia]|].
  destruct (decide (to < 0 \/ to >= nodeCount g)); [left; split; [reflexivity|lia]|].
  destruct (decide (edgeCount_at g from >= MAX_EDGES_PER_NODE));
    [left; split; [reflexivity|lia]|].
  destruct (graph_has_edge g from to) eqn:Hhas; [left; split; [reflexivity|auto]|].
  right. split; [reflexivity|]. repeat split; lia.
Qed.

Lemma edgeCount_at_with_edge (g : Graph F) from to weight i :
  graph_wf g -> 0 <= from < nodeCount g ->
  edgeCount_at (with_edge g from to weight) i
  = if decide (i = from) then edgeCount_at g from + 1 else edgeCount_at g i.
Proof.
  intros Hwf Hfrom. unfold with_edge. rewrite edgeCount_at_set_edgeCount.
  cbn [set_edge edgeCounts].
  pose proof (wf_edgeCounts g Hwf). pose proof (wf_nodeCount g Hwf).
  destruct (decide (i = from)) as [->|Hne].
  - destruct (decide _) as [_|Hbad]; [reflexivity|]. exfalso. apply Hbad. lia.
  - destruct (decide _) as [[Heq _]|_]; [congruence|reflexivity].
Qed.

Lemma edge_at_with_edge (g : Graph F) from to weight i j :
  graph_wf g -> 0 <= from < nodeCount g -> edgeCount_at g from < MAX_EDGES_PER_NODE ->
  edge_at (with_edge g from to weight) i j
  = if decide (i = from /\ j = edgeCount_at g from) then mkEdge from to weight true
    else edge_at g i j.
Proof.
  intros Hwf Hfrom Hroom. unfold with_edge.
  change (edge_at (set_edgeCount ?a ?b ?c) i j) with (edge_at a i j).
  pose proof (wf_nodeCount g Hwf). pose proof (wf_count g Hwf from).
  apply edge_at_set_edge.
  - rewrite (wf_edges g Hwf). lia.
  - rewrite (wf_rows g Hwf) by lia. lia.
Qed.

Lemma with_edge_wf (g : Graph F) (from to : Z) (weight : F) :
  graph_wf g -> 0 <= from < nodeCount g -> 0 <= to < nodeCount g ->
  edgeCount_at g from < MAX_EDGES_PER_NODE -> graph_has_edge g from to = false ->
  graph_wf (with_edge g from to weight).
Proof.
  intros Hwf Hfrom Hto Hroom Hhas.
  assert (nodeCount (with_edge g from to weight) = nodeCount g) as Hc by reflexivity.
  assert (forall i, node_at (with_edge g from to weight) i = node_at g i) as Hnode
      by reflexivity.
  pose proof (wf_count g Hwf) as Hcnt.
  pose proof (wf_nodeCount g Hwf) as Hnc.
  rewrite graph_has_edge_false in Hhas. specialize (Hhas Hfrom).
  constructor.
  - apply (wf_nodes g Hwf).
  - unfold with_edge. cbn [set_edgeCount set_edge edges]. rewrite length_aset.
    apply (wf_edges g Hwf).
  - intros i Hi. unfold with_edge. cbn [set_edgeCount set_edge edges].
    rewrite aget_aset. destruct (decide _) as [[-> _]|_]; [|apply (wf_rows g Hwf), Hi].
    rewrite length_aset. apply (wf_rows g Hwf), Hi.
  - unfold with_edge. cbn [set_edgeCount set_edge edgeCounts]. rewrite length_aset.
    apply (wf_edgeCounts g Hwf).
  - rewrite Hc. exact Hnc.
  - intros i. rewrite edgeCount_at_with_edge by assumption.
    destruct (decide (i = from)) as [->|_]; [specialize (Hcnt from); lia|apply Hcnt].
  - intros i Hi. rewrite Hc in Hi. rewrite edgeCount_at_with_edge by assumption.
    destruct (decide (i = from)); [lia|]. apply (wf_unused g Hwf), Hi.
  - intros i. rewrite Hc, Hnode. apply (wf_id g Hwf).
  - intros i. rewrite Hnode. apply (wf_name g Hwf).
  - intros i j Hi Hj. rewrite Hc in Hi. rewrite edgeCount_at_with_edge in Hj by assumption.
    rewrite edge_at_with_edge by assumption.
    destruct (decide (i = from /\ j = edgeCount_at g from)) as [[-> ->]|Hne];
      [reflexivity|].
    apply (wf_from g Hwf); [exact Hi|]. destruct (decide (i = from)) as [->|_]; lia.
  - intros i j Hi Hj. rewrite Hc in Hi |- *.
    rewrite edgeCount_at_with_edge in Hj by assumption.
    rewrite edge_at_with_edge by assumption.
    destruct (decide (i = from /\ j = edgeCount_at g from)) as [[-> ->]|Hne];
      [exact Hto|].
    apply (wf_to g Hwf); [exact Hi|]. destruct (decide (i = from)) as [->|_]; lia.
  - intros i j j'. rewrite edgeCount_at_with_edge by assumption.
    rewrite !edge_at_with_edge by assumption.
    intros Hj Hj'.
    destruct (decide (i = from /\ j = edgeCount_at g from)) as [[-> ->]|Hne];
      destruct (decide (_ /\ j' = edgeCount_at g from)) as [[Hi' ->]|Hne']; cbn [edge_to edge_active].
    + reflexivity.
    + intros _ Ha' Heq. exfalso.
      assert (0 <= j' < edgeCount_at g from) as Hr
          by (destruct (decide (from = from)); [lia|contradiction]).
      specialize (Hhas j' Hr). unfold edge_hit in Hhas.
      rewrite Ha', andb_true_r in Hhas. apply bool_decide_eq_false in Hhas. congruence.
    + subst i. intros Ha _ Heq. exfalso.
      assert (0 <= j < edgeCount_at g from) as Hr
          by (destruct (decide (from = from)); [lia|contradiction]).
      specialize (Hhas j Hr). unfold edge_hit in Hhas.
      rewrite Ha, andb_true_r in Hhas. apply bool_decide_eq_false in Hhas. congruence.
    + apply (wf_unique g Hwf); destruct (decide (i = from)) as [->|_]; lia.
Qed.

Lemma graph_add_edge_wf (g : Graph F) (from to : Z) (weight : F) :
  graph_wf g -> graph_wf (snd (graph_add_edge g from to weight)).
Proof.
  intros Hwf.
  destruct (graph_add_edge_cases g from to weight)
    as [[-> _]|(-> & Hfrom & Hto & Hroom & Hhas)]; cbn [snd];
    [exact Hwf|apply with_edge_wf; assumption].
Qed.

Lemma graph_add_edge_bidirectional_eq (g : Graph F) (from to : Z) (weight : F) :
  graph_add_edge_bidirectional g from to weight
  = (fst (graph_add_edge g from to weight)
     || fst (graph_add_edge (snd (graph_add_edge g from to weight)) to from weight),
     snd (graph_add_edge (snd (graph_add_edge g from to weight)) to from weight)).
Proof.
  unfold graph_add_edge_bidirectional.
  destruct (graph_add_edge g from to weight) as [a g1]. cbn [fst snd].
  destruct (graph_add_edge g1 to from weight) as [b g2]. reflexivity.
Qed.

Lemma graph_add_edge_bidirectional_wf (g : Graph F) (from to : Z) (weight : F) :
  graph_wf g -> graph_wf (snd (graph_add_edge_bidirectional g from to weight)).
Proof.
  intros Hwf. rewrite graph_add_edge_bidirectional_eq. cbn [snd].
  apply graph_add_edge_wf, graph_add_edge_wf, Hwf.
Qed.

End GraphEdits.


(** *** Sequences of editing calls *)

Inductive GraphOp (F : Type) :=
| AddNode (name : list byte) (x y : F)
| RemoveNode (nodeId : Z)
| AddEdge (from to : Z) (weight : F)
| AddEdgeBidirectional (from to : Z) (weight : F)
| RemoveEdge (from to : Z).
Arguments AddNode {F}.
Arguments RemoveNode {F}.
Arguments AddEdge {F}.
Arguments AddEdgeBidirectional {F}.
Arguments RemoveEdge {F}.

Definition graph_apply {F} `{FloatOps F} (g : Graph F) (op : GraphOp F) : Graph F :=
  match op with
  | AddNode name x y => snd (graph_add_node g name x y)
  | RemoveNode nodeId => snd (graph_remove_node g nodeId)
  | AddEdge from to weight => snd (graph_add_edge g from to weight)
  | AddEdgeBidirectional from to weight =>
      snd (graph_add_edge_bidirectional g from to weight)
  | RemoveEdge from to => snd (graph_remove_edge g from to)
  end.

Definition graph_run {F} `{FloatOps F} (ops : list (GraphOp F)) (g : Graph F) : Graph F :=
  foldl graph_apply g ops.

Section GraphRuns.
Context {F : Type} `{FloatOps F}.

Lemma graph_apply_wf (g : Graph F) (op : GraphOp F) :
  graph_wf g -> graph_wf (graph_apply g op).
Proof.
  intros Hwf. destruct op; cbn [graph_apply].
  - apply graph_add_node_wf, Hwf.
  - apply graph_remove_node_wf, Hwf.
  - apply graph_add_edge_wf, Hwf.
  - apply graph_add_edge_bidirectional_wf, Hwf.
  - apply graph_remove_edge_wf, Hwf.
Qed.

Lemma graph_run_wf (ops : list (GraphOp F)) (g : Graph F) :
  graph_wf g -> graph_wf (graph_run ops g).
Proof.
  intros Hwf. unfold graph_run. apply foldl_preserves; [exact Hwf|].
  intros a op _. apply graph_apply_wf.
Qed.

Lemma graph_wf_targets (g : Graph F) : graph_wf g -> targets_in_range g.
Proof. intros Hwf i j Hi Hj _ _. apply (wf_to g Hwf); assumption. Qed.

Lemma graph_wf_storable (g : Graph F) : graph_wf g -> storable g.
Proof.
  intros Hwf. pose proof (wf_nodeCount g Hwf) as Hc. pose proof (wf_count g Hwf) as Hcnt.
  unfold storable. split; [exact Hc|]. split; [|split].
  - apply Forall_of_elem. intros i Hi. apply elem_of_seqZ_0 in Hi. split.
    + rewrite (wf_id g Hwf) by exact Hi. unfold int_range, MAX_NODES in *. lia.
    + apply name_clean_length, (wf_name g Hwf).
  - apply Forall_of_elem. intros i _. specialize (Hcnt i).
    unfold int_range, MAX_EDGES_PER_NODE in *. lia.
  - apply Forall_of_elem. intros i Hi. apply elem_of_seqZ_0 in Hi.
    split; [apply Hcnt|]. apply Forall_of_elem. intros j Hj. apply elem_of_seqZ_0 in Hj.
    pose proof (wf_to g Hwf i j Hi Hj). split.
    + rewrite (wf_from g Hwf) by assumption. unfold int_range, MAX_NODES in *. lia.
    + unfold int_range, MAX_NODES in *. lia.
Qed.

(** X1.  Whatever editing calls are made on an initialised graph, the store
    stays consistent: the counts stay within the capacities, the node in
    slot [i] carries the id [i], every stored edge carries the id of its row
    as [from] and an id below [nodeCount] as [to], and no row holds two
    active edges to the same node. *)
Theorem graph_edits_keep_store_consistent (ops : list (GraphOp F)) :
  let g := graph_run ops graph_init in
  0 <= nodeCount g <= MAX_NODES
  /\ (forall i, 0 <= edgeCount_at g i <= MAX_EDGES_PER_NODE)
  /\ (forall i, 0 <= i < nodeCount g -> node_id (node_at g i) = i)
  /\ (forall i j, 0 <= i < nodeCount g -> 0 <= j < edgeCount_at g i ->
                  edge_from (edge_at g i j) = i
                  /\ 0 <= edge_to (edge_at g i j) < nodeCount g)
  /\ (forall i j j', 0 <= j < edgeCount_at g i -> 0 <= j' < edgeCount_at g i ->
                     edge_active (edge_at g i j) = true ->
                     edge_active (edge_at g i j') = true ->
                     edge_to (edge_at g i j) = edge_to (edge_at g i j') -> j = j').
Proof.
  pose proof (graph_run_wf ops graph_init graph_init_wf) as Hwf. cbv zeta.
  split; [apply (wf_nodeCount _ Hwf)|]. split; [apply (wf_count _ Hwf)|].
  split; [apply (wf_id _ Hwf)|]. split; [|apply (wf_unique _ Hwf)].
  intros i j Hi Hj. split; [apply (wf_from _ Hwf)|apply (wf_to _ Hwf)]; assumption.
Qed.

(** X2.  Every graph built by editing calls on an initialised graph can be
    written by [graph_save] and read back (it is [storable]), and every edge
    stored in a used slot of one of its nodes, active or not, leads to an id
    from 0 up to and excluding [nodeCount]: the search reads the node of a
    neighbour and its working arrays within their bounds.  In particular
    the graph has its [targets_in_range]. *)
Theorem graph_edits_give_storable_searchable_graphs (ops : list (GraphOp F)) :
  let g := graph_run ops graph_init in
  storable g
  /\ (forall i j, 0 <= i < nodeCount g -> 0 <= j < edgeCount_at g i ->
                  0 <= edge_to (edge_at g i j) < nodeCount g)
  /\ targets_in_range g.
Proof.
  pose proof (graph_run_wf ops graph_init graph_init_wf) as Hwf. cbv zeta.
  split; [apply graph_wf_storable, Hwf|].
  split; [apply (wf_to _ Hwf)|apply graph_wf_targets, Hwf].
Qed.

(** *** Looking a node up after [graph_add_node] *)

Lemma graph_get_node_Some (g : Graph F) (i : Z) (n : Node F) :
  graph_get_node g i = Some n
  <-> 0 <= i < nodeCount g /\ node_active (node_at g i) = true /\ n = node_at g i.
Proof.
  unfold graph_get_node.
  destruct (decide (i < 0 \/ i >= nodeCount g)); [split; [discriminate|lia]|].
  destruct (node_active (node_at g i)); cbn [negb].
  - split; [intros [= <-]; repeat split; lia|intros (_ & _ & ->); reflexivity].
  - split; [discriminate|intros (_ & Hbad & _); discriminate].
Qed.

(** X3.  On a consistent graph with room for a node, [graph_add_node]
    returns the old [nodeCount] as the id and raises [nodeCount] by one;
    [graph_get_node] then finds under that id an active node with the given
    coordinates whose name is the given string cut to 127 characters.  The
    lookup of every other id and the answer of [graph_has_edge] for every
    pair are as before. *)
Theorem graph_add_node_then_get_node (g : Graph F) (name : list byte) (x y : F) :
  graph_wf g -> nodeCount g < MAX_NODES ->
  let id := fst (graph_add_node g name x y) in
  let g' := snd (graph_add_node g name x y) in
  id = nodeCount g
  /\ nodeCount g' = nodeCount g + 1
  /\ (exists n, graph_get_node g' id = Some n
                /\ node_id n = id
                /\ c_str (node_name n)
                   = take (Z.to_nat (MAX_NAME_LENGTH - 1)) (c_str name)
                /\ node_x n = x /\ node_y n = y /\ node_active n = true)
  /\ (forall i, i <> id -> graph_get_node g' i = graph_get_node g i)
  /\ (forall a b, graph_has_edge g' a b = graph_has_edge g a b).
Proof.
  intros Hwf Hroom. cbv zeta.
  rewrite (graph_add_node_room g name x y Hwf Hroom). cbn [fst snd].
  pose proof (wf_nodeCount g Hwf) as Hc. pose proof (wf_nodes g Hwf) as Hn.
  set (g' := set_nodeCount (set_node g (nodeCount g) (added_node (nodeCount g) name x y))
                           (nodeCount g + 1)).
  assert (forall i, node_at g' i
                    = if decide (i = nodeCount g) then added_node (nodeCount g) name x y
                      else node_at g i) as Hnode.
  { intros i. unfold g', set_nodeCount, node_at. cbn [nodes set_node]. rewrite aget_aset.
    destruct (decide (i = nodeCount g)) as [->|Hne].
    - destruct (decide _) as [_|Hbad]; [reflexivity|]. exfalso. apply Hbad. lia.
    - destruct (decide _) as [[Heq _]|_]; [congruence|reflexivity]. }
  split; [reflexivity|]. split; [reflexivity|]. split; [|split].
  - exists (added_node (nodeCount g) name x y).
    split; [|split; [reflexivity|split; [apply added_node_name_clean|auto]]].
    apply graph_get_node_Some. rewrite Hnode.
    destruct (decide (nodeCount g = nodeCount g)); [|contradiction].
    unfold g'. cbn [set_nodeCount nodeCount]. repeat split; lia.
  - intros i Hi. unfold graph_get_node. rewrite Hnode.
    destruct (decide (i = nodeCount g)); [contradiction|].
    unfold g'. cbn [set_nodeCount nodeCount].
    destruct (decide (i < 0 \/ i >= nodeCount g + 1)),
             (decide (i < 0 \/ i >= nodeCount g)); try reflexivity; lia.
  - intros a b.
    destruct (decide (a = nodeCount g)) as [->|Hne].
    + transitivity false; [|symmetry].
      * apply graph_has_edge_false. intros _ j Hj.
        change (edgeCount_at g' (nodeCount g)) with (edgeCount_at g (nodeCount g)) in Hj.
        rewrite (wf_unused g Hwf) in Hj by lia. lia.
      * apply graph_has_edge_false. lia.
    + unfold graph_has_edge. unfold g' at 1. cbn [set_nodeCount nodeCount].
      destruct (decide (a < 0 \/ a >= nodeCount g + 1)),
               (decide (a < 0 \/ a >= nodeCount g)); try reflexivity; lia.
Qed.

End GraphRuns.


(** *** Edges: adding, looking up, removing *)

Section EdgeLookups.
Context {F : Type} `{FloatOps F} `{FloatLiterals F}.

Lemma graph_get_edge_weight_hit (g : Graph F) (from to i : Z) :
  0 <= from < nodeCount g -> 0 <= i < edgeCount_at g from ->
  edge_hit g from to i = true ->
  (forall k, 0 <= k < i -> edge_hit g from to k = false) ->
  graph_get_edge_weight g from to = edge_weight (edge_at g from i).
Proof.
  intros Hfrom Hi Hhit Hbefore. unfold graph_get_edge_weight.
  destruct (decide (from < 0 \/ from >= nodeCount g)); [lia|].
  fold (edge_hit g from to).
  rewrite (find_seqZ_first _ _ i) by assumption. reflexivity.
Qed.

Lemma graph_get_edge_weight_miss (g : Graph F) (from to : Z) :
  graph_has_edge g from to = false -> graph_get_edge_weight g from to = f_minus_one.
Proof.
  intros Hhas. unfold graph_get_edge_weight.
  destruct (decide (from < 0 \/ from >= nodeCount g)); [reflexivity|].
  fold (edge_hit g from to).
  rewrite graph_has_edge_false in Hhas.
  rewrite (proj2 (find_seqZ_None _ _)); [reflexivity|]. apply Hhas. lia.
Qed.

(** Two graphs that agree on the used slots of the row of [from], but for
    slots that are no hit in either, answer alike. *)
Lemma graph_get_edge_weight_ext (g g' : Graph F) (from to : Z) :
  nodeCount g' = nodeCount g ->
  edgeCount_at g from <= edgeCount_at g' from ->
  (forall j, 0 <= j < edgeCount_at g from ->
             edge_hit g' from to j = edge_hit g from to j
             /\ (edge_hit g from to j = true ->
                 edge_weight (edge_at g' from j) = edge_weight (edge_at g from j))) ->
  (forall j, edgeCount_at g from <= j < edgeCount_at g' from ->
             edge_hit g' from to j = false) ->
  graph_has_edge g' from to = graph_has_edge g from to
  /\ graph_get_edge_weight g' from to = graph_get_edge_weight g from to.
Proof.
  intros Hc Hle Hrow Hnew.
  destruct (decide (0 <= from < nodeCount g)) as [Hfrom|Hfrom].
  2:{ split.
      - transitivity false; [|symmetry]; apply graph_has_edge_false; lia.
      - unfold graph_get_edge_weight. rewrite Hc.
        destruct (decide (from < 0 \/ from >= nodeCount g)); [reflexivity|lia]. }
  destruct (graph_has_edge g from to) eqn:Hhas.
  - apply graph_has_edge_true in Hhas as (_ & j0 & Hj0 & Hhit0).
    assert (exists i, 0 <= i < edgeCount_at g from /\ edge_hit g from to i = true
                      /\ forall k, 0 <= k < i -> edge_hit g from to k = false)
      as (i & Hi & Hhit & Hbefore).
    { destruct (find (edge_hit g from to) (seqZ 0 (edgeCount_at g from))) as [i|] eqn:Hf.
      - apply find_seqZ_Some in Hf. exists i. exact Hf.
      - rewrite find_seqZ_None in Hf. rewrite Hf in Hhit0 by exact Hj0. discriminate. }
    assert (edge_hit g' from to i = true) as Hhit'
        by (rewrite (proj1 (Hrow i Hi)); exact Hhit).
    split.
    + apply graph_has_edge_true. split; [lia|]. exists i. split; [lia|exact Hhit'].
    + rewrite (graph_get_edge_weight_hit g from to i) by assumption.
      rewrite (graph_get_edge_weight_hit g' from to i); try lia; try assumption.
      * apply (Hrow i Hi), Hhit.
      * intros k Hk. rewrite (proj1 (Hrow k ltac:(lia))). apply Hbefore, Hk.
  - assert (graph_has_edge g' from to = false) as Hhas'.
    { apply graph_has_edge_false. intros _ j Hj.
      rewrite graph_has_edge_false in Hhas.
      destruct (decide (j < edgeCount_at g from)).
      - rewrite (proj1 (Hrow j ltac:(lia))). apply Hhas; lia.
      - apply Hnew. lia. }
    split; [exact Hhas'|].
    rewrite !graph_get_edge_weight_miss by assumption. reflexivity.
Qed.

Lemma graph_add_edge_has_edge (g : Graph F) (from to : Z) (weight : F) :
  graph_wf g ->
  fst (graph_add_edge g from to weight) = true ->
  graph_has_edge (snd (graph_add_edge g from to weight)) from to = true.
Proof.
  intros Hwf Hok.
  destruct (graph_add_edge_cases g from to weight)
    as [[Heq _]|(Heq & Hfrom & Hto & Hroom & Hhas)];
    rewrite Heq in Hok |- *; [discriminate|]. cbn [snd].
  pose proof (wf_count g Hwf from) as Hcnt.
  apply graph_has_edge_true. split; [exact Hfrom|].
  exists (edgeCount_at g from). rewrite edgeCount_at_with_edge by assumption.
  destruct (decide (from = from)); [|contradiction]. split; [lia|].
  apply edge_hit_true. rewrite edge_at_with_edge by assumption.
  destruct (decide _) as [_|Hbad]; [auto|exfalso; apply Hbad; auto].
Qed.

(** X4.  On a consistent graph, after a successful [graph_add_edge] the
    edge is there: [graph_has_edge] answers [true] and
    [graph_get_edge_weight] returns the weight given.  The answers for every
    other ordered pair are as before, and a second [graph_add_edge] for the
    same pair is refused and changes nothing. *)
Theorem graph_add_edge_then_lookup (g : Graph F) (from to : Z) (weight : F) :
  graph_wf g ->
  fst (graph_add_edge g from to weight) = true ->
  let g' := snd (graph_add_edge g from to weight) in
  graph_has_edge g' from to = true
  /\ graph_get_edge_weight g' from to = weight
  /\ (forall a b, (a, b) <> (from, to) ->
                  graph_has_edge g' a b = graph_has_edge g a b
                  /\ graph_get_edge_weight g' a b = graph_get_edge_weight g a b)
  /\ (forall weight', graph_add_edge g' from to weight' = (false, g')).
Proof.
  intros Hwf Hok. cbv zeta.
  destruct (graph_add_edge_cases g from to weight)
    as [[Heq _]|(Heq & Hfrom & Hto & Hroom & Hhas)];
    rewrite Heq in Hok |- *; [discriminate|]. cbn [snd]. clear Hok.
  pose proof (wf_count g Hwf from) as Hcnt.
  assert (graph_has_edge (with_edge g from to weight) from to = true) as Hnow.
  { pose proof (graph_add_edge_has_edge g from to weight Hwf) as Hnow.
    rewrite Heq in Hnow. apply Hnow. reflexivity. }
  split; [exact Hnow|]. split; [|split].
  - rewrite graph_has_edge_false in Hhas.
    rewrite (graph_get_edge_weight_hit _ from to (edgeCount_at g from)).
    + rewrite edge_at_with_edge by assumption.
      destruct (decide _) as [_|Hbad]; [reflexivity|exfalso; apply Hbad; auto].
    + exact Hfrom.
    + rewrite edgeCount_at_with_edge by assumption.
      destruct (decide (from = from)); [lia|contradiction].
    + apply edge_hit_true. rewrite edge_at_with_edge by assumption.
      destruct (decide _) as [_|Hbad]; [auto|exfalso; apply Hbad; auto].
    + intros k Hk. unfold edge_hit. rewrite edge_at_with_edge by assumption.
      destruct (decide _) as [[_ Hbad]|_]; [lia|]. apply Hhas; [exact Hfrom|lia].
  - intros a b Hne. apply graph_get_edge_weight_ext.
    + reflexivity.
    + rewrite edgeCount_at_with_edge by assumption. destruct (decide (a = from)) as [->|_]; lia.
    + intros j Hj. unfold edge_hit. rewrite edge_at_with_edge by assumption.
      destruct (decide _) as [[-> ->]|_]; [lia|]. split; reflexivity.
    + intros j. rewrite edgeCount_at_with_edge by assumption.
      destruct (decide (a = from)) as [->|_]; [|lia]. intros Hj.
      assert (j = edgeCount_at g from) as -> by lia.
      unfold edge_hit. rewrite edge_at_with_edge by assumption.
      destruct (decide _) as [_|Hbad]; [|exfalso; apply Hbad; auto].
      cbn [edge_to edge_active]. rewrite andb_true_r. apply bool_decide_eq_false.
      intros ->. apply Hne. reflexivity.
  - intros weight'.
    destruct (graph_add_edge_cases (with_edge g from to weight) from to weight')
      as [[Heq' _]|(_ & _ & _ & _ & Hbad)]; [exact Heq'|congruence].
Qed.

(** X5.  On a consistent graph, [graph_remove_edge] returns what
    [graph_has_edge] answered, and afterwards the edge is gone:
    [graph_has_edge] answers [false] and [graph_get_edge_weight] returns
    [-1.0f].  The answers for every other ordered pair are as before, and
    no edge count changes: the slot of a removed edge is not given back. *)
Theorem graph_remove_edge_then_lookup (g : Graph F) (from to : Z) :
  graph_wf g ->
  let g' := snd (graph_remove_edge g from to) in
  fst (graph_remove_edge g from to) = graph_has_edge g from to
  /\ graph_has_edge g' from to = false
  /\ graph_get_edge_weight g' from to = f_minus_one
  /\ (forall a b, (a, b) <> (from, to) ->
                  graph_has_edge g' a b = graph_has_edge g a b
                  /\ graph_get_edge_weight g' a b = graph_get_edge_weight g a b)
  /\ (forall i, edgeCount_at g' i = edgeCount_at g i).
Proof.
  intros Hwf. cbv zeta.
  destruct (graph_remove_edge_cases g from to)
    as [[Hhas ->]|(i & Hfrom & Hi & Hhit & Hbefore & ->)]; cbn [fst snd].
  - split; [congruence|]. split; [exact Hhas|].
    split; [apply graph_get_edge_weight_miss, Hhas|]. split; [|reflexivity].
    intros a b _. split; reflexivity.
  - set (g' := set_edge g from i (deactivated (edge_at g from i))).
    pose proof (wf_nodeCount g Hwf) as Hnc. pose proof (wf_count g Hwf from) as Hcnt.
    assert (forall a j, edge_at g' a j
                        = if decide (a = from /\ j = i) then deactivated (edge_at g from i)
                          else edge_at g a j) as Hedge.
    { intros a j. apply edge_at_set_edge.
      - rewrite (wf_edges g Hwf). lia.
      - rewrite (wf_rows g Hwf) by lia. lia. }
    assert (graph_has_edge g from to = true) as Hwas
        by (apply graph_has_edge_true; eauto).
    assert (graph_has_edge g' from to = false) as Hgone.
    { apply graph_has_edge_false. intros _ j Hj.
      change (edgeCount_at g' from) with (edgeCount_at g from) in Hj.
      unfold edge_hit. rewrite Hedge.
      destruct (decide _) as [_|Hne]; [apply andb_false_r|].
      apply not_true_is_false. intros Hj'. apply edge_hit_true in Hj' as [Hjto Hjact].
      apply edge_hit_true in Hhit as [Hito Hiact].
      apply Hne. split; [reflexivity|].
      apply (wf_unique g Hwf from); try assumption. congruence. }
    split; [congruence|]. split; [exact Hgone|].
    split; [apply graph_get_edge_weight_miss, Hgone|]. split; [|reflexivity].
    intros a b Hne. apply graph_get_edge_weight_ext.
    + reflexivity.
    + change (edgeCount_at g' a) with (edgeCount_at g a). lia.
    + intros j Hj. unfold edge_hit. rewrite Hedge.
      destruct (decide _) as [[-> ->]|_]; [|split; reflexivity].
      apply edge_hit_true in Hhit as [Hito _].
      assert (bool_decide (edge_to (edge_at g from i) = b) = false) as Hb
          by (apply bool_decide_eq_false; intros Hb; apply Hne; congruence).
      cbn [deactivated edge_to edge_active]. rewrite Hb. cbn [andb].
      split; [reflexivity|discriminate].
    + intros j. change (edgeCount_at g' a) with (edgeCount_at g a). lia.
Qed.

(** X6.  On a consistent graph, for two ids in range such that each
    direction is present already or has a free slot in its row,
    [graph_add_edge_bidirectional] leaves both directions present, and it
    returns [true] exactly when one of them was missing. *)
Theorem graph_add_edge_bidirectional_links_both (g : Graph F) (a b : Z) (weight : F) :
  graph_wf g -> 0 <= a < nodeCount g -> 0 <= b < nodeCount g ->
  graph_has_edge g a b = true \/ edgeCount_at g a < MAX_EDGES_PER_NODE ->
  graph_has_edge g b a = true \/ edgeCount_at g b < MAX_EDGES_PER_NODE ->
  let g' := snd (graph_add_edge_bidirectional g a b weight) in
  graph_has_edge g' a b = true
  /\ graph_has_edge g' b a = true
  /\ fst (graph_add_edge_bidirectional g a b weight)
     = negb (graph_has_edge g a b && graph_has_edge g b a).
Proof.
  intros Hwf Ha Hb Hab Hba. cbv zeta. rewrite graph_add_edge_bidirectional_eq.
  cbn [fst snd].
  (* the first call *)
  assert (fst (graph_add_edge g a b weight) = negb (graph_has_edge g a b)) as H1.
  { destruct (graph_add_edge_cases g a b weight)
      as [[-> [Hbad|[Hbad|[Hbad| ->]]]]|(-> & _ & _ & _ & ->)]; try reflexivity;
      cbn [fst]; destruct Hab as [->|Hroom]; try reflexivity; lia. }
  set (g1 := snd (graph_add_edge g a b weight)) in *.
  assert (graph_wf g1) as Hwf1 by (apply graph_add_edge_wf, Hwf).
  assert (nodeCount g1 = nodeCount g) as Hc1.
  { unfold g1. destruct (graph_add_edge_cases g a b weight) as [[-> _]|(-> & _)];
      reflexivity. }
  assert (graph_has_edge g1 a b = true) as Hab1.
  { destruct (graph_has_edge g a b) eqn:Hhas.
    - unfold g1. destruct (graph_add_edge_cases g a b weight)
        as [[-> _]|(_ & _ & _ & _ & Hbad)]; [exact Hhas|congruence].
    - apply (graph_add_edge_has_edge g a b weight Hwf). rewrite H1. reflexivity. }
  assert (a <> b -> graph_has_edge g1 b a = graph_has_edge g b a
                    /\ edgeCount_at g1 b = edgeCount_at g b) as Hframe.
  { intros Hne. unfold g1.
    destruct (graph_add_edge_cases g a b weight)
      as [[-> _]|(-> & _ & _ & Hroom & _)]; cbn [snd]; [split; reflexivity|].
    split.
    - apply graph_has_edge_ext; [reflexivity| |].
      + rewrite edgeCount_at_with_edge by assumption.
        destruct (decide (b = a)); [congruence|reflexivity].
      + intros j _. unfold edge_hit. rewrite edge_at_with_edge by assumption.
        destruct (decide _) as [[Heq _]|_]; [congruence|reflexivity].
    - rewrite edgeCount_at_with_edge by assumption.
      destruct (decide (b = a)); [congruence|reflexivity]. }
  (* the second call *)
  assert (fst (graph_add_edge g1 b a weight) = negb (graph_has_edge g1 b a)
          /\ graph_has_edge (snd (graph_add_edge g1 b a weight)) b a = true
          /\ graph_has_edge (snd (graph_add_edge g1 b a weight)) a b = true) as H2.
  { destruct (graph_has_edge g1 b a) eqn:Hhas.
    - destruct (graph_add_edge_cases g1 b a weight)
        as [[-> _]|(_ & _ & _ & _ & Hbad)]; [|congruence]. cbn [fst snd]. auto.
    - assert (a <> b) as Hne by (intros ->; congruence).
      destruct (Hframe Hne) as [Hsame Hcnt].
      destruct Hba as [Hbad|Hroom]; [congruence|].
      destruct (graph_add_edge_cases g1 b a weight)
        as [[_ [Hbad|[Hbad|[Hbad|Hbad]]]]|(Heq & _)]; try congruence; try lia.
      rewrite Heq. cbn [fst snd]. split; [reflexivity|].
      assert (fst (graph_add_edge g1 b a weight) = true) as Hok by (rewrite Heq; reflexivity).
      pose proof (graph_add_edge_has_edge g1 b a weight Hwf1 Hok) as Hnow.
      rewrite Heq in Hnow. cbn [snd] in Hnow. split; [exact Hnow|].
      rewrite <- Hab1. apply graph_has_edge_ext; [reflexivity| |].
      + rewrite edgeCount_at_with_edge by (try assumption; lia).
        destruct (decide (a = b)); [congruence|reflexivity].
      + intros j _. unfold edge_hit. rewrite edge_at_with_edge by (try assumption; lia).
        destruct (decide _) as [[Heq' _]|_]; [congruence|reflexivity]. }
  destruct H2 as (H2 & Hba2 & Hab2).
  split; [exact Hab2|]. split; [exact Hba2|].
  rewrite H1, H2.
  destruct (decide (a = b)) as [->|Hne].
  - rewrite Hab1. destruct (graph_has_edge g b b); reflexivity.
  - destruct (Hframe Hne) as [-> _].
    destruct (graph_has_edge g a b), (graph_has_edge g b a); reflexivity.
Qed.

End EdgeLookups.


(** *** Neighbours *)

Section Neighbours.
Context {F : Type} `{FloatOps F}.

(** Slot [j] of [x] holds an active edge to an active node. *)
Definition open_slot (g : Graph F) (x j : Z) : bool :=
  edge_active (edge_at g x j) && node_active (node_at g (edge_to (edge_at g x j))).

(** The targets of those slots, in slot order. *)
Definition neighbor_ids (g : Graph F) (x : Z) : list Z :=
  (fun j => edge_to (edge_at g x j))
    <$> filter (fun j => open_slot g x j = true) (seqZ 0 (edgeCount_at g x)).

Lemma get_neighbors_loop_spec (g : Graph F) (x m : Z) (idxs out : list Z) :
  (length out <= Z.to_nat m)%nat ->
  get_neighbors_loop g x m idxs out
  = take (Z.to_nat m)
         (out ++ ((fun j => edge_to (edge_at g x j))
                    <$> filter (fun j => open_slot g x j = true) idxs)).
Proof.
  revert out. induction idxs as [|i idxs IH]; intros out Hlen.
  - simpl. rewrite app_nil_r. symmetry. apply take_ge. exact Hlen.
  - cbn [get_neighbors_loop].
    destruct (decide (Z.of_nat (length out) < m)) as [Hlt|Hge].
    + rewrite list.filter_cons. fold (open_slot g x i).
      destruct (open_slot g x i) eqn:Hslot.
      * destruct (decide (true = true)) as [_|Hbad]; [|contradiction].
        rewrite IH by (rewrite length_app; simpl; lia).
        rewrite <- app_assoc. reflexivity.
      * destruct (decide (false = true)) as [Hbad|_]; [discriminate|].
        apply IH, Hlen.
    + assert (length out = Z.to_nat m) as Heq by lia.
      rewrite take_app_length' by (symmetry; exact Heq). reflexivity.
Qed.

Lemma elem_of_neighbor_ids (g : Graph F) (x y : Z) :
  y ∈ neighbor_ids g x
  <-> exists j, 0 <= j < edgeCount_at g x /\ open_slot g x j = true
                /\ edge_to (edge_at g x j) = y.
Proof.
  unfold neighbor_ids. rewrite list_elem_of_fmap. split.
  - intros (j & -> & Hj). apply list_elem_of_filter in Hj as [Hslot Hj].
    apply elem_of_seqZ_0 in Hj. eauto.
  - intros (j & Hj & Hslot & <-). exists j. split; [reflexivity|].
    apply list_elem_of_filter. split; [exact Hslot|]. apply elem_of_seqZ_0, Hj.
Qed.

Lemma length_neighbor_ids (g : Graph F) (x : Z) :
  0 <= edgeCount_at g x -> Z.of_nat (length (neighbor_ids g x)) <= edgeCount_at g x.
Proof.
  intros Hc. unfold neighbor_ids. rewrite length_fmap.
  pose proof (list.length_filter (fun j => open_slot g x j = true)
                                 (seqZ 0 (edgeCount_at g x))) as Hle.
  rewrite length_seqZ in Hle. lia.
Qed.

(** X7.  On a consistent graph, [graph_get_neighbors] of an id in range
    writes, in slot order and up to [maxNeighbors] of them, the targets of
    the active edges of that node whose target node is active, and returns
    how many it wrote; no id is written twice.  With room for the whole row,
    [y] is written exactly when [graph_has_edge] finds the edge to [y] and
    the node [y] is active. *)
Theorem graph_get_neighbors_lists_active_targets (g : Graph F) (x maxNeighbors : Z) :
  graph_wf g -> 0 <= x < nodeCount g ->
  snd (graph_get_neighbors g x maxNeighbors)
  = take (Z.to_nat maxNeighbors) (neighbor_ids g x)
  /\ fst (graph_get_neighbors g x maxNeighbors)
     = Z.of_nat (length (snd (graph_get_neighbors g x maxNeighbors)))
  /\ NoDup (snd (graph_get_neighbors g x maxNeighbors))
  /\ (edgeCount_at g x <= maxNeighbors ->
      forall y, y ∈ snd (graph_get_neighbors g x maxNeighbors)
                <-> graph_has_edge g x y = true /\ node_active (node_at g y) = true).
Proof.
  intros Hwf Hx. unfold graph_get_neighbors.
  destruct (decide (x < 0 \/ x >= nodeCount g)); [lia|]. cbn [fst snd].
  rewrite get_neighbors_loop_spec by (simpl; lia). rewrite app_nil_l.
  fold (neighbor_ids g x).
  assert (NoDup (neighbor_ids g x)) as Hnodup.
  { unfold neighbor_ids. apply NoDup_fmap_2_strong.
    - intros j j' Hj Hj' Heq.
      apply list_elem_of_filter in Hj as [Hs Hj], Hj' as [Hs' Hj'].
      apply elem_of_seqZ_0 in Hj, Hj'.
      apply andb_prop in Hs as [Ha _], Hs' as [Ha' _].
      apply (wf_unique g Hwf x); assumption.
    - apply list.NoDup_filter, NoDup_seqZ. }
  split; [reflexivity|]. split; [reflexivity|]. split.
  - eapply sublist_NoDup; [exact Hnodup|apply sublist_take].
  - intros Hroom y.
    rewrite take_ge
      by (pose proof (length_neighbor_ids g x ltac:(apply (wf_count g Hwf))); lia).
    rewrite elem_of_neighbor_ids, graph_has_edge_true. split.
    + intros (j & Hj & Hslot & <-). apply andb_prop in Hslot as [Ha Hn].
      split; [|exact Hn]. split; [exact Hx|]. exists j. split; [exact Hj|].
      apply edge_hit_true. auto.
    + intros [(_ & j & Hj & Hhit) Hn]. apply edge_hit_true in Hhit as [<- Ha].
      exists j. split; [exact Hj|]. split; [|reflexivity].
      unfold open_slot. rewrite Ha, Hn. reflexivity.
Qed.

End Neighbours.

(** *** What [graph_remove_node] leaves alone *)

Section RemoveNodeFrame.
Context {F : Type} `{FloatOps F} `{FloatLiterals F}.

Lemma deactivate_edges_to_others (x i : Z) (g0 g : Graph F) :
  (forall a j, edge_to (edge_at g0 a j) <> x -> edge_at g a j = edge_at g0 a j) ->
  forall a j, edge_to (edge_at g0 a j) <> x ->
              edge_at (deactivate_edges_to x i g) a j = edge_at g0 a j.
Proof.
  intros Hg. unfold deactivate_edges_to.
  apply (foldl_preserves _
    (fun g' => forall a j, edge_to (edge_at g0 a j) <> x -> edge_at g' a j = edge_at g0 a j)).
  - exact Hg.
  - intros g' k _ Hg' a j Hne.
    destruct (decide (edge_to (edge_at g' i k) = x)) as [Hto|_]; [|apply Hg', Hne].
    rewrite edge_at_set_edge_ne; [apply Hg', Hne|].
    intros [-> ->]. rewrite Hg' in Hto by exact Hne. contradiction.
Qed.

Lemma graph_remove_node_others (g : Graph F) (x : Z) :
  forall a j, edge_to (edge_at g a j) <> x ->
              edge_at (snd (graph_remove_node g x)) a j = edge_at g a j.
Proof.
  unfold graph_remove_node.
  destruct (decide (x < 0 \/ x >= nodeCount g)); [reflexivity|]. cbn [snd].
  apply (foldl_preserves _
    (fun g' => forall a j, edge_to (edge_at g a j) <> x -> edge_at g' a j = edge_at g a j)).
  - reflexivity.
  - intros g' i _ Hg'. destruct (decide (i = x)); [exact Hg'|].
    apply deactivate_edges_to_others, Hg'.
Qed.

(** X8.  On a consistent graph, removing the node [x] keeps [nodeCount], so
    no id is ever given out twice; afterwards [graph_get_node] finds no node
    under [x] and [x] has no outgoing edge, while the lookup of every other
    id, and the presence and the weight of every edge between two other
    nodes, are as before. *)
Theorem graph_remove_node_keeps_the_rest (g : Graph F) (x : Z) :
  graph_wf g -> 0 <= x < nodeCount g ->
  let g' := snd (graph_remove_node g x) in
  nodeCount g' = nodeCount g
  /\ graph_get_node g' x = None
  /\ (forall b, graph_has_edge g' x b = false)
  /\ (forall i, i <> x -> graph_get_node g' i = graph_get_node g i)
  /\ (forall a b, a <> x -> b <> x ->
                  graph_has_edge g' a b = graph_has_edge g a b
                  /\ graph_get_edge_weight g' a b = graph_get_edge_weight g a b).
Proof.
  intros Hwf Hx. cbv zeta.
  destruct (graph_remove_node_in_range g x Hx) as (_ & Hf & _ & _).
  pose proof (graph_remove_node_others g x) as Hothers.
  set (g' := snd (graph_remove_node g x)) in *.
  pose proof Hf as (Hn & Hc & He & _).
  assert (forall i, node_at g' i = node_at (unplugged g x) i) as Hnode
      by (intros i; unfold node_at; rewrite Hn; reflexivity).
  assert (forall i, edgeCount_at g' i = if decide (i = x) then 0 else edgeCount_at g i)
    as Hcount.
  { intros i. rewrite (fades_edgeCount_at _ _ i Hf).
    apply edgeCount_at_unplugged; assumption. }
  assert (nodeCount g' = nodeCount g) as Hc' by (rewrite Hc; reflexivity).
  split; [exact Hc'|]. split; [|split; [|split]].
  - unfold graph_get_node. rewrite Hc'.
    destruct (decide (x < 0 \/ x >= nodeCount g)); [reflexivity|].
    rewrite Hnode, node_at_unplugged by assumption.
    destruct (decide (x = x)); [reflexivity|contradiction].
  - intros b. apply graph_has_edge_false. intros _ j Hj. rewrite Hcount in Hj.
    destruct (decide (x = x)); [lia|contradiction].
  - intros i Hi. unfold graph_get_node. rewrite Hc', Hnode, node_at_unplugged by assumption.
    destruct (decide (i = x)); [contradiction|reflexivity].
  - intros a b Ha Hb.
    assert (forall j, edge_hit g' a b j = edge_hit g a b j
                      /\ (edge_hit g a b j = true ->
                          edge_weight (edge_at g' a j) = edge_weight (edge_at g a j)))
      as Hrow.
    { intros j. destruct (decide (edge_to (edge_at g a j) = x)) as [Hto|Hto].
      - assert (edge_to (edge_at g' a j) = x) as Hto'.
        { rewrite (fades_edge_to _ _ a j Hf). exact Hto. }
        unfold edge_hit. rewrite Hto, Hto'.
        rewrite (bool_decide_eq_false_2 (x = b)) by congruence.
        split; [reflexivity|discriminate].
      - unfold edge_hit, g'. rewrite Hothers by exact Hto. split; reflexivity. }
    apply graph_get_edge_weight_ext.
    + exact Hc'.
    + rewrite Hcount. destruct (decide (a = x)); [contradiction|lia].
    + intros j _. apply Hrow.
    + intros j. rewrite Hcount. destruct (decide (a = x)); [contradiction|lia].
Qed.

End RemoveNodeFrame.


(* ===================================================================== *)
(** ** Finding a node by position *)

Lemma seqZ_split (n : Z) (done rest : list Z) (x : Z) :
  seqZ 0 n = done ++ x :: rest ->
  0 <= x < n /\ forall i, i ∈ done <-> 0 <= i < x.
Proof.
  intros Heq.
  assert (x = Z.of_nat (length done) /\ Z.of_nat (length done) < n) as [Hx Hn].
  { assert (seqZ 0 n !! length done = Some x) as Hl
        by (rewrite Heq; apply list_lookup_middle; reflexivity).
    apply lookup_seqZ in Hl. lia. }
  split; [lia|]. intros i. split.
  - intros Hi. apply list_elem_of_lookup_1 in Hi as [k Hk].
    pose proof (lookup_lt_Some _ _ _ Hk) as Hlt.
    assert (seqZ 0 n !! k = Some i) as Hl
        by (rewrite Heq, lookup_app_l by exact Hlt; exact Hk).
    apply lookup_seqZ in Hl. lia.
  - intros Hi. apply (list_elem_of_lookup_2 _ (Z.to_nat i)).
    assert (seqZ 0 n !! Z.to_nat i = Some i) as Hl by (apply lookup_seqZ; lia).
    rewrite Heq, lookup_app_l in Hl by lia. exact Hl.
Qed.

Section FindByPosition.
Context {F : Type} `{FloatOps F}.

(** The squared distance [graph_find_node_at_position] computes for node
    [i]. *)
Definition dist_sq (g : Graph F) (x y : F) (i : Z) : F :=
  let dx := f_sub (node_x (node_at g i)) x in
  let dy := f_sub (node_y (node_at g i)) y in
  f_add (f_mul dx dx) (f_mul dy dy).

Lemma nearer_eq (g : Graph F) (x y : F) (st : Z * F) (i : Z) :
  nearer g x y st i
  = if node_active (node_at g i)
    then if f_lt (dist_sq g x y i) (snd st) then (i, dist_sq g x y i) else st
    else st.
Proof. unfold nearer, dist_sq. destruct (node_active (node_at g i)); reflexivity. Qed.

(** X9.  [graph_find_node_at_position] returns [-1] exactly when no active
    node below [nodeCount] has a squared distance below the square of the
    radius; any other result is the id of an active node below
    [nodeCount]. *)
Theorem graph_find_node_at_position_hit_or_miss (g : Graph F) (x y radius : F) :
  let r := graph_find_node_at_position g x y radius in
  (r = -1 <-> forall i, 0 <= i < nodeCount g -> node_active (node_at g i) = true ->
                        f_lt (dist_sq g x y i) (f_mul radius radius) = false)
  /\ (r = -1 \/ (0 <= r < nodeCount g /\ node_active (node_at g r) = true)).
Proof.
  cbv zeta. unfold graph_find_node_at_position.
  set (radiusSq := f_mul radius radius).
  pose proof (foldl_invariant (nearer g x y)
    (fun done st =>
       (fst st = -1 /\ snd st = radiusSq
        /\ forall i, i ∈ done -> node_active (node_at g i) = true ->
                     f_lt (dist_sq g x y i) radiusSq = false)
       \/ (fst st ∈ done /\ node_active (node_at g (fst st)) = true
           /\ exists i, i ∈ done /\ node_active (node_at g i) = true
                        /\ f_lt (dist_sq g x y i) radiusSq = true))
    (seqZ 0 (nodeCount g)) (-1, radiusSq)) as Hinv.
  destruct Hinv as [(Hr & _ & Hnone)|(Hr & Hact & i & Hi & Hiact & Hin)].
  - left. repeat split. intros i Hi. inversion Hi.
  - intros done i rest st _ Hst. rewrite nearer_eq.
    destruct (node_active (node_at g i)) eqn:Hiact.
    2:{ destruct Hst as [(Hc & Hd & Hnone)|(Hc & Hact & k & Hk & Hkact & Hkin)].
        - left. repeat split; try assumption. intros k Hk Hkact.
          apply elem_of_app in Hk as [Hk|Hk]; [apply Hnone; assumption|].
          apply list_elem_of_singleton in Hk as ->. congruence.
        - right. split; [apply elem_of_app; auto|]. split; [exact Hact|].
          exists k. split; [apply elem_of_app; auto|auto]. }
    destruct (f_lt (dist_sq g x y i) (snd st)) eqn:Hlt.
    + right. cbn [fst]. split; [apply elem_of_app; right; apply list_elem_of_singleton; reflexivity|].
      split; [exact Hiact|].
      destruct Hst as [(Hc & Hd & Hnone)|(Hc & Hact & k & Hk & Hkact & Hkin)].
      * exists i. split; [apply elem_of_app; right; apply list_elem_of_singleton; reflexivity|].
        split; [exact Hiact|]. rewrite <- Hd. exact Hlt.
      * exists k. split; [apply elem_of_app; auto|auto].
    + destruct Hst as [(Hc & Hd & Hnone)|(Hc & Hact & k & Hk & Hkact & Hkin)].
      * left. repeat split; try assumption. intros k Hk Hkact.
        apply elem_of_app in Hk as [Hk|Hk]; [apply Hnone; assumption|].
        apply list_elem_of_singleton in Hk as ->. rewrite <- Hd. exact Hlt.
      * right. split; [apply elem_of_app; auto|]. split; [exact Hact|].
        exists k. split; [apply elem_of_app; auto|auto].
  - split; [|left; exact Hr]. split; [|intros _; exact Hr].
    intros _ i Hi. apply Hnone, elem_of_seqZ_0, Hi.
  - apply elem_of_seqZ_0 in Hr, Hi. split; [|right; split; assumption].
    split; [lia|]. intros Hall. rewrite Hall in Hin by assumption. discriminate.
Qed.

End FindByPosition.

Section FindNearest.
Context {F : Type} `{FloatOps F}.
Variable ok : F -> Prop.
Hypothesis lt_le : forall a b, ok a -> ok b -> f_lt a b = negb (f_le b a).
Hypothesis le_total : forall a b, ok a -> ok b -> f_le a b = true \/ f_le b a = true.
Hypothesis le_trans :
  forall a b c, ok a -> ok b -> ok c -> f_le a b = true -> f_le b c = true -> f_le a c = true.

Lemma lt_le_trans a b c :
  ok a -> ok b -> ok c -> f_lt a b = true -> f_le b c = true -> f_lt a c = true.
Proof.
  intros Ha Hb Hc Hab Hbc. rewrite lt_le in Hab |- * by assumption.
  destruct (f_le c a) eqn:Hca; [|reflexivity].
  rewrite (le_trans b c a) in Hab by assumption. discriminate.
Qed.

(** X10.  When the squared distances and the squared radius are comparable
    numbers (no NaN), a result other than [-1] of
    [graph_find_node_at_position] is the nearest active node: it lies
    within the radius, no active node is nearer, and the active nodes with
    a smaller id are strictly farther. *)
Theorem graph_find_node_at_position_nearest (g : Graph F) (x y radius : F) :
  ok (f_mul radius radius) ->
  (forall i, 0 <= i < nodeCount g -> node_active (node_at g i) = true ->
             ok (dist_sq g x y i)) ->
  let r := graph_find_node_at_position g x y radius in
  r <> -1 ->
  f_lt (dist_sq g x y r) (f_mul radius radius) = true
  /\ (forall i, 0 <= i < nodeCount g -> node_active (node_at g i) = true ->
                f_le (dist_sq g x y r) (dist_sq g x y i) = true)
  /\ (forall i, 0 <= i < r -> node_active (node_at g i) = true ->
                f_lt (dist_sq g x y r) (dist_sq g x y i) = true).
Proof.
  intros Hrad Hok. cbv zeta. unfold graph_find_node_at_position.
  set (radiusSq := f_mul radius radius) in *.
  pose proof (foldl_invariant (nearer g x y)
    (fun done st =>
       (fst st = -1 /\ snd st = radiusSq
        /\ forall i, i ∈ done -> node_active (node_at g i) = true ->
                     f_lt (dist_sq g x y i) radiusSq = false)
       \/ (fst st ∈ done /\ node_active (node_at g (fst st)) = true
           /\ snd st = dist_sq g x y (fst st)
           /\ f_lt (snd st) radiusSq = true
           /\ (forall i, i ∈ done -> node_active (node_at g i) = true ->
                         f_le (snd st) (dist_sq g x y i) = true)
           /\ (forall i, 0 <= i < fst st -> node_active (node_at g i) = true ->
                         f_lt (snd st) (dist_sq g x y i) = true)))
    (seqZ 0 (nodeCount g)) (-1, radiusSq)) as Hinv.
  destruct Hinv as [(Hr & _)|(Hr & Hact & Hd & Hin & Hleast & Hfirst)].
  - left. repeat split. intros i Hi. inversion Hi.
  - intros done i rest st Hsplit Hst. rewrite nearer_eq.
    apply seqZ_split in Hsplit as [Hi Hdone].
    destruct (node_active (node_at g i)) eqn:Hiact.
    2:{ destruct Hst as [(Hc & Hd & Hnone)|(Hc & Hact & Hd & Hin & Hleast & Hfirst)].
        - left. repeat split; try assumption. intros k Hk Hkact.
          apply elem_of_app in Hk as [Hk|Hk]; [apply Hnone; assumption|].
          apply list_elem_of_singleton in Hk as ->. congruence.
        - right. split; [apply elem_of_app; auto|]. repeat split; try assumption.
          intros k Hk Hkact. apply elem_of_app in Hk as [Hk|Hk]; [apply Hleast; assumption|].
          apply list_elem_of_singleton in Hk as ->. congruence. }
    pose proof (Hok i Hi Hiact) as Hoki.
    destruct (f_lt (dist_sq g x y i) (snd st)) eqn:Hlt.
    + right. cbn [fst snd].
      split; [apply elem_of_app; right; apply list_elem_of_singleton; reflexivity|].
      split; [exact Hiact|]. split; [reflexivity|].
      destruct Hst as [(Hc & Hd & Hnone)|(Hc & Hact & Hd & Hin & Hleast & Hfirst)].
      * rewrite Hd in Hlt. split; [exact Hlt|].
        assert (forall k, k ∈ done -> node_active (node_at g k) = true ->
                          f_le radiusSq (dist_sq g x y k) = true) as Hfar.
        { intros k Hk Hkact. apply (lt_false_le ok lt_le); try assumption.
          - apply Hok; [apply Hdone in Hk; lia|exact Hkact].
          - apply Hnone; assumption. }
        split.
        -- intros k Hk Hkact. apply elem_of_app in Hk as [Hk|Hk].
           ++ apply (le_trans _ radiusSq); try assumption.
              ** apply Hok; [apply Hdone in Hk; lia|exact Hkact].
              ** apply (lt_true_le ok lt_le le_total); assumption.
              ** apply Hfar; assumption.
           ++ apply list_elem_of_singleton in Hk as ->. apply (le_refl ok le_total), Hoki.
        -- intros k Hk Hkact. apply (lt_le_trans _ radiusSq); try assumption.
           ++ apply Hok; [lia|exact Hkact].
           ++ apply Hfar; [apply Hdone; lia|exact Hkact].
      * assert (ok (snd st)) as Hokd
            by (rewrite Hd; apply Hok; [apply Hdone in Hc; lia|exact Hact]).
        split; [|split].
        -- apply (lt_le_trans _ (snd st)); try assumption.
           apply (lt_true_le ok lt_le le_total); assumption.
        -- intros k Hk Hkact. apply elem_of_app in Hk as [Hk|Hk].
           ++ apply (le_trans _ (snd st)); try assumption.
              ** apply Hok; [apply Hdone in Hk; lia|exact Hkact].
              ** apply (lt_true_le ok lt_le le_total); assumption.
              ** apply Hleast; assumption.
           ++ apply list_elem_of_singleton in Hk as ->. apply (le_refl ok le_total), Hoki.
        -- intros k Hk Hkact. apply (lt_le_trans _ (snd st)); try assumption.
           ++ apply Hok; [lia|exact Hkact].
           ++ apply Hleast; [apply Hdone; lia|exact Hkact].
    + destruct Hst as [(Hc & Hd & Hnone)|(Hc & Hact & Hd & Hin & Hleast & Hfirst)].
      * left. repeat split; try assumption. intros k Hk Hkact.
        apply elem_of_app in Hk as [Hk|Hk]; [apply Hnone; assumption|].
        apply list_elem_of_singleton in Hk as ->. rewrite <- Hd. exact Hlt.
      * assert (ok (snd st)) as Hokd
            by (rewrite Hd; apply Hok; [apply Hdone in Hc; lia|exact Hact]).
        right. split; [apply elem_of_app; auto|]. repeat split; try assumption.
        intros k Hk Hkact. apply elem_of_app in Hk as [Hk|Hk]; [apply Hleast; assumption|].
        apply list_elem_of_singleton in Hk as ->.
        apply (lt_false_le ok lt_le); assumption.
  - intros Hbad. contradiction.
  - intros _. rewrite <- Hd. split; [exact Hin|]. split; [|exact Hfirst].
    intros i Hi. apply Hleast, elem_of_seqZ_0, Hi.
Qed.

End FindNearest.


(* ===================================================================== *)
(** ** Finding a node by name *)

(** The characters of a C string, letters folded. *)
Definition folded (s : list byte) : list byte := fold_case <$> c_str s.

(** The query [q] occurs in the string [hay], letters folded. *)
Definition name_occurs (q hay : list byte) : Prop :=
  exists pre post, folded hay = pre ++ folded q ++ post.

(** The window of [hay] at [pos] spells [q], letters folded. *)
Definition window_ok (hay q : list byte) (pos : Z) : Prop :=
  fold_case <$> take (length q) (drop (Z.to_nat pos) hay) = fold_case <$> q.

Lemma fold_case_NUL (b : byte) : Z_of_byte b = 0 -> fold_case b = b.
Proof. intros Hb. unfold fold_case. destruct (decide _); [lia|reflexivity]. Qed.

Lemma fold_case_nonzero (c : byte) : Z_of_byte c <> 0 -> Z_of_byte (fold_case c) <> 0.
Proof.
  intros Hc. unfold fold_case. destruct (decide (65 <= Z_of_byte c <= 90)) as [Hr|_];
    [|exact Hc].
  rewrite Z_of_byte_of_Z. rewrite Z.mod_small by lia. lia.
Qed.

Lemma c_str_take (s : list byte) : c_str s = take (length (c_str s)) s.
Proof.
  induction s as [|b s IH]; [reflexivity|]. simpl.
  destruct (Z_of_byte b =? 0); [reflexivity|]. simpl. f_equal. exact IH.
Qed.

Lemma length_folded (s : list byte) : Z.of_nat (length (folded s)) = strlen s.
Proof. unfold folded, strlen. rewrite length_fmap. reflexivity. Qed.

Lemma name_occurs_length (q hay : list byte) : name_occurs q hay -> strlen q <= strlen hay.
Proof.
  intros (pre & post & Heq). apply (f_equal length) in Heq.
  rewrite !length_app in Heq. rewrite <- !length_folded. lia.
Qed.

Lemma name_occurs_exact (q hay : list byte) : folded hay = folded q -> name_occurs q hay.
Proof. intros Heq. exists [], []. rewrite app_nil_r. exact Heq. Qed.

(** Occurrence, in terms of the windows the search compares. *)
Lemma name_occurs_window (q hay : list byte) :
  name_occurs q hay
  <-> exists j, 0 <= j <= strlen hay - strlen q /\ window_ok hay (c_str q) j.
Proof.
  unfold name_occurs, window_ok, folded, strlen.
  set (h := length (c_str hay)). set (n := length (c_str q)).
  assert (c_str hay = take h hay) as Hhay by apply c_str_take.
  split.
  - intros (pre & post & Heq). exists (Z.of_nat (length pre)).
    assert (length pre + n + length post = h)%nat as Hlen.
    { apply (f_equal length) in Heq. rewrite !length_app, !length_fmap in Heq.
      fold h n in Heq. lia. }
    split; [lia|]. rewrite Nat2Z.id.
    rewrite fmap_take, fmap_drop.
    rewrite take_drop_commute.
    replace (take (length pre + n) (fold_case <$> hay))
      with (take (length pre + n) (take h (fold_case <$> hay)))
      by (rewrite take_take; f_equal; lia).
    rewrite <- fmap_take, <- Hhay, Heq.
    rewrite app_assoc, take_app_length'
      by (rewrite length_app, length_fmap; reflexivity).
    apply drop_app_length.
  - intros (j & Hj & Hwin).
    exists (fold_case <$> take (Z.to_nat j) hay),
           (fold_case <$> take (h - Z.to_nat j - n) (drop (Z.to_nat j + n) hay)).
    rewrite <- Hwin, <- !fmap_app. f_equal.
    rewrite Hhay.
    replace (drop (Z.to_nat j + n) hay) with (drop n (drop (Z.to_nat j) hay))
      by (rewrite drop_drop; reflexivity).
    rewrite take_take_drop, take_take_drop. f_equal. lia.
Qed.

Lemma match_at_true (hay q : list byte) (pos : Z) :
  0 <= pos -> match_at hay q pos = Some true <-> window_ok hay q pos.
Proof.
  unfold window_ok. revert pos. induction q as [|c2 q IH]; intros pos Hpos.
  - simpl. tauto.
  - cbn [match_at length].
    destruct (hay !! Z.to_nat pos) as [c1|] eqn:Hl.
    + rewrite (drop_S _ _ _ Hl). cbn [take fmap list_fmap].
      destruct (decide (fold_case c1 = fold_case c2)) as [Heq|Hne].
      * rewrite IH by lia. replace (Z.to_nat (pos + 1)) with (S (Z.to_nat pos)) by lia.
        split; [intros ->; rewrite Heq; reflexivity|intros [= _ Hrest]; exact Hrest].
      * split; [discriminate|intros [= Hbad _]; contradiction].
    + rewrite drop_ge by (apply lookup_ge_None; exact Hl).
      split; discriminate.
Qed.

Lemma match_at_None (hay q : list byte) (pos : Z) :
  0 <= pos -> match_at hay q pos = None ->
  Z.of_nat (length hay) < pos + Z.of_nat (length q).
Proof.
  revert pos. induction q as [|c2 q IH]; intros pos Hpos; [discriminate|].
  cbn [match_at length].
  destruct (hay !! Z.to_nat pos) as [c1|] eqn:Hl.
  - destruct (decide _); [|discriminate]. intros Hn. apply IH in Hn; lia.
  - intros _. apply lookup_ge_None in Hl. lia.
Qed.

(** A window that runs over a NUL byte of [hay] is no match. *)
Lemma match_at_NUL (hay q : list byte) (pos : Z) (k : nat) (b : byte) :
  Forall (fun c => Z_of_byte c <> 0) q -> 0 <= pos -> (k < length q)%nat ->
  hay !! (Z.to_nat pos + k)%nat = Some b -> Z_of_byte b = 0 ->
  match_at hay q pos = Some false.
Proof.
  intros Hq. revert pos k. induction Hq as [|c2 q Hc2 _ IH]; intros pos k Hpos Hk Hl Hb;
    [simpl in Hk; lia|].
  cbn [match_at].
  destruct k as [|k].
  - rewrite Nat.add_0_r in Hl. rewrite Hl.
    destruct (decide (fold_case b = fold_case c2)) as [Heq|_]; [|reflexivity].
    exfalso. apply (fold_case_nonzero c2 Hc2). rewrite <- Heq, fold_case_NUL; assumption.
  - destruct (hay !! Z.to_nat pos) as [c1|] eqn:Hl1.
    2:{ apply lookup_ge_None in Hl1. apply lookup_lt_Some in Hl. lia. }
    destruct (decide _); [|reflexivity].
    apply (IH (pos + 1) k); [lia|simpl in Hk; lia| |exact Hb].
    rewrite <- Hl. f_equal. lia.
Qed.

Lemma scan_loop_match (fuel : nat) (hay q : list byte) (last j : Z) :
  scan_loop fuel hay q last j = ScanMatch ->
  exists j', j <= j' <= last /\ match_at hay q j' = Some true.
Proof.
  revert j. induction fuel as [|fuel IH]; intros j; [discriminate|].
  cbn [scan_loop]. destruct (decide (j <= last)); [|discriminate].
  destruct (match_at hay q j) as [[|]|] eqn:Hm; try discriminate.
  - intros _. exists j. split; [lia|exact Hm].
  - intros Hs. apply IH in Hs as (j' & Hj' & Hm'). exists j'. split; [lia|exact Hm'].
Qed.

(** The [j] loop when every window lies inside [hay]. *)
Lemma scan_loop_inside (fuel : nat) (hay q : list byte) (last j : Z) :
  0 <= j -> last + Z.of_nat (length q) <= Z.of_nat (length hay) ->
  (Z.to_nat (last - j + 1) < fuel)%nat ->
  (scan_loop fuel hay q last j = ScanMatch
   /\ exists j', j <= j' <= last /\ window_ok hay q j')
  \/ (scan_loop fuel hay q last j = ScanEnd
      /\ forall j', j <= j' <= last -> ~ window_ok hay q j').
Proof.
  intros Hj Hlast. revert j Hj. induction fuel as [|fuel IH]; intros j Hj Hfuel; [lia|].
  cbn [scan_loop]. destruct (decide (j <= last)) as [Hle|Hgt].
  2:{ right. split; [reflexivity|]. intros j' Hj'. lia. }
  destruct (match_at hay q j) as [[|]|] eqn:Hm.
  - left. split; [reflexivity|]. exists j. split; [lia|apply match_at_true; assumption].
  - destruct (IH (j + 1) ltac:(lia) ltac:(lia)) as [(-> & j' & Hj' & Hw)|[-> Hnone]].
    + left. split; [reflexivity|]. exists j'. split; [lia|exact Hw].
    + right. split; [reflexivity|]. intros j' Hj' Hw.
      destruct (decide (j' = j)) as [->|Hne]; [|apply (Hnone j'); [lia|exact Hw]].
      apply match_at_true in Hw; [congruence|exact Hj].
  - apply match_at_None in Hm; [lia|exact Hj].
Qed.

(** In a clean name array shorter than the query every window that starts
    inside the array runs over a NUL byte. *)
Lemma match_at_clean_short (hay q : list byte) (j : Z) :
  name_clean hay -> Forall (fun c => Z_of_byte c <> 0) q ->
  (length (c_str hay) < length q)%nat ->
  0 <= j < MAX_NAME_LENGTH ->
  match_at hay q j = Some false.
Proof.
  intros [Hlt Hclean] Hq Hshort Hj.
  set (h := length (c_str hay)) in *.
  set (p := Nat.max (Z.to_nat j) h).
  apply (match_at_NUL hay q j (p - Z.to_nat j) NUL); try assumption; try lia;
    [|reflexivity].
  replace (Z.to_nat j + (p - Z.to_nat j))%nat with p by lia.
  rewrite Hclean. rewrite lookup_app_r by (fold h; lia). fold h.
  apply lookup_replicate_2. unfold MAX_NAME_LENGTH in *. lia.
Qed.

(** The [j] loop on such a name, with the bound wrapped around: it runs off
    the end of the array. *)
Lemma scan_loop_outside (fuel : nat) (hay q : list byte) (last j : Z) :
  name_clean hay -> Forall (fun c => Z_of_byte c <> 0) q ->
  (length (c_str hay) < length q)%nat ->
  MAX_NAME_LENGTH <= last -> 0 <= j <= MAX_NAME_LENGTH ->
  (Z.to_nat (MAX_NAME_LENGTH - j) < fuel)%nat ->
  scan_loop fuel hay q last j = ScanOutside.
Proof.
  intros Hclean Hq Hshort Hlast. revert j.
  induction fuel as [|fuel IH]; intros j Hj Hfuel; [lia|].
  cbn [scan_loop]. destruct (decide (j <= last)); [|lia].
  destruct (decide (j = MAX_NAME_LENGTH)) as [->|Hne].
  - destruct q as [|c2 q]; [simpl in Hshort; lia|]. cbn [match_at].
    rewrite (proj2 (lookup_ge_None hay (Z.to_nat MAX_NAME_LENGTH)));
      [reflexivity|]. rewrite (name_clean_length hay Hclean). lia.
  - rewrite match_at_clean_short by (try assumption; lia).
    apply IH; lia.
Qed.

Section FindByName.
Context {F : Type} `{FloatOps F}.

(** What the scan of one node tells, when its name array is clean. *)
Lemma scan_node (hay name : list byte) :
  name_clean hay ->
  let r := scan_loop (S (length hay)) hay (c_str name)
                     ((strlen hay - strlen name) mod (SIZE_MAX + 1)) 0 in
  (r = ScanMatch -> name_occurs name hay)
  /\ (r = ScanEnd -> ~ name_occurs name hay)
  /\ (r = ScanOutside -> strlen hay < strlen name).
Proof.
  intros Hclean r.
  pose proof (name_clean_length hay Hclean) as Hlen.
  pose proof Hclean as [Hlt _].
  pose proof (c_str_nonzero name) as Hq.
  destruct (decide (strlen name <= strlen hay)) as [Hle|Hshort].
  - assert ((strlen hay - strlen name) mod (SIZE_MAX + 1) = strlen hay - strlen name)
      as Hmod.
    { apply Z.mod_small. unfold strlen, SIZE_MAX, MAX_NAME_LENGTH in *. lia. }
    subst r. rewrite Hmod.
    destruct (scan_loop_inside (S (length hay)) hay (c_str name)
                               (strlen hay - strlen name) 0)
      as [(-> & j & Hj & Hw)|[-> Hnone]].
    + lia.
    + unfold strlen in *. pose proof (length_c_str hay). lia.
    + unfold strlen, MAX_NAME_LENGTH in *. lia.
    + split; [|split; discriminate]. intros _. apply name_occurs_window. exists j.
      split; [lia|exact Hw].
    + split; [discriminate|]. split; [|discriminate].
      intros _ Hocc. apply name_occurs_window in Hocc
        as (j & Hj & Hw). apply (Hnone j); [lia|exact Hw].
  - assert (~ name_occurs name hay) as Hno
        by (intros Hocc; apply name_occurs_length in Hocc; lia).
    split; [|split; [intros _; exact Hno|intros _; lia]].
    intros Hr. exfalso. apply scan_loop_match in Hr as (j & Hj & Hm).
    destruct (decide (j < MAX_NAME_LENGTH)) as [Hin|Hout].
    + rewrite match_at_clean_short in Hm; try assumption; try lia; [discriminate|].
      unfold strlen in *. lia.
    + destruct (c_str name) as [|c2 q] eqn:Hname; [unfold strlen in *; rewrite Hname in *; simpl in *; lia|].
      cbn [match_at] in Hm.
      rewrite (proj2 (lookup_ge_None hay (Z.to_nat j))) in Hm by lia. discriminate.
Qed.

Lemma find_partial_spec (g : Graph F) (name : list byte) (idxs : list Z) (r : Z) :
  (forall i, name_clean (node_name (node_at g i))) ->
  (forall i, i ∈ idxs -> 0 <= i) ->
  find_partial g name idxs = Some r ->
  (r = -1 /\ forall i, i ∈ idxs -> node_active (node_at g i) = true ->
                       ~ name_occurs name (node_name (node_at g i)))
  \/ (exists done rest, idxs = done ++ r :: rest
        /\ node_active (node_at g r) = true
        /\ name_occurs name (node_name (node_at g r))
        /\ forall k, k ∈ done -> node_active (node_at g k) = true ->
                     ~ name_occurs name (node_name (node_at g k))).
Proof.
  intros Hclean. induction idxs as [|i idxs IH]; intros Hpos Hfind.
  - injection Hfind as <-. left. split; [reflexivity|]. intros i Hi. inversion Hi.
  - cbn [find_partial] in Hfind.
    assert (forall k, k ∈ idxs -> 0 <= k) as Hpos'
        by (intros k Hk; apply Hpos, elem_of_cons; auto).
    assert (find_partial g name idxs = Some r ->
            (node_active (node_at g i) = true ->
             ~ name_occurs name (node_name (node_at g i))) ->
            (r = -1 /\ forall k, k ∈ i :: idxs -> node_active (node_at g k) = true ->
                                 ~ name_occurs name (node_name (node_at g k)))
            \/ (exists done rest, i :: idxs = done ++ r :: rest
                  /\ node_active (node_at g r) = true
                  /\ name_occurs name (node_name (node_at g r))
                  /\ forall k, k ∈ done -> node_active (node_at g k) = true ->
                               ~ name_occurs name (node_name (node_at g k)))) as Hrest.
    { intros Hf Hi. destruct (IH Hpos' Hf) as [[-> Hnone]|(done & rest & -> & Hr & Ho & Hd)].
      - left. split; [reflexivity|]. intros k Hk.
        apply elem_of_cons in Hk as [->|Hk]; [exact Hi|apply Hnone, Hk].
      - right. exists (i :: done), rest. split; [reflexivity|]. repeat split; try assumption.
        intros k Hk. apply elem_of_cons in Hk as [->|Hk]; [exact Hi|apply Hd, Hk]. }
    destruct (node_active (node_at g i)) eqn:Hact.
    2:{ apply Hrest; [exact Hfind|discriminate]. }
    destruct (scan_node (node_name (node_at g i)) name (Hclean i))
      as (Hmatch & Hend & _).
    destruct (scan_loop _ _ _ _ _); [| |discriminate].
    + injection Hfind as <-. right. exists [], idxs. split; [reflexivity|].
      split; [exact Hact|]. split; [apply Hmatch; reflexivity|].
      intros k Hk. inversion Hk.
    + apply Hrest; [exact Hfind|]. intros _. apply Hend. reflexivity.
Qed.

Lemma exact_pass_true (g : Graph F) (name : list byte) (i : Z) :
  node_active (node_at g i) && strcasecmp_is_zero (node_name (node_at g i)) name = true
  <-> node_active (node_at g i) = true
      /\ folded (node_name (node_at g i)) = folded name.
Proof.
  unfold strcasecmp_is_zero, folded. rewrite andb_true_iff, bool_decide_eq_true.
  reflexivity.
Qed.

(** X11.  On a consistent graph, when [graph_find_node_by_name] returns,
    it returns [-1] only if the query occurs (letters folded) in the name of
    no active node; any other result is the id of an active node below
    [nodeCount] in whose name the query occurs: the first active node whose
    name is the query, if there is one, and otherwise the first active node
    in whose name it occurs. *)
Theorem graph_find_node_by_name_finds (g : Graph F) (name : list byte) (r : Z) :
  graph_wf g ->
  graph_find_node_by_name g name = Some r ->
  (r = -1
   /\ forall i, 0 <= i < nodeCount g -> node_active (node_at g i) = true ->
                ~ name_occurs name (node_name (node_at g i)))
  \/ (0 <= r < nodeCount g
      /\ node_active (node_at g r) = true
      /\ name_occurs name (node_name (node_at g r))
      /\ ((folded (node_name (node_at g r)) = folded name
           /\ forall k, 0 <= k < r -> node_active (node_at g k) = true ->
                        folded (node_name (node_at g k)) <> folded name)
          \/ ((forall i, 0 <= i < nodeCount g -> node_active (node_at g i) = true ->
                         folded (node_name (node_at g i)) <> folded name)
              /\ forall k, 0 <= k < r -> node_active (node_at g k) = true ->
                           ~ name_occurs name (node_name (node_at g k))))).
Proof.
  intros Hwf. unfold graph_find_node_by_name.
  destruct (find _ (seqZ 0 (nodeCount g))) as [i|] eqn:Hexact.
  - intros [= <-]. apply find_seqZ_Some in Hexact as (Hi & Hhit & Hbefore).
    apply exact_pass_true in Hhit as [Hact Heq].
    right. split; [exact Hi|]. split; [exact Hact|].
    split; [apply name_occurs_exact, Heq|]. left. split; [exact Heq|].
    intros k Hk Hkact Hkeq. specialize (Hbefore k Hk).
    apply not_true_iff_false in Hbefore. apply Hbefore, exact_pass_true. auto.
  - intros Hpartial. rewrite find_seqZ_None in Hexact.
    assert (forall i, 0 <= i < nodeCount g -> node_active (node_at g i) = true ->
                      folded (node_name (node_at g i)) <> folded name) as Hnoexact.
    { intros i Hi Hact Heq. specialize (Hexact i Hi).
      apply not_true_iff_false in Hexact. apply Hexact, exact_pass_true. auto. }
    apply find_partial_spec in Hpartial
      as [[-> Hnone]|(done & rest & Hsplit & Hact & Hocc & Hdone)].
    + left. split; [reflexivity|]. intros i Hi. apply Hnone, elem_of_seqZ_0, Hi.
    + apply seqZ_split in Hsplit as [Hr Hd]. right.
      split; [exact Hr|]. split; [exact Hact|]. split; [exact Hocc|]. right.
      split; [exact Hnoexact|]. intros k Hk. apply Hdone, Hd, Hk.
    + apply (wf_name g Hwf).
    + intros i Hi. apply elem_of_seqZ_0 in Hi. lia.
Qed.

(** The scan of a name shorter than the query leaves the name array. *)
Lemma find_partial_short (g : Graph F) (name : list byte) (i : Z) (idxs : list Z) :
  name_clean (node_name (node_at g i)) ->
  strlen name < 2 ^ 63 ->
  node_active (node_at g i) = true ->
  strlen (node_name (node_at g i)) < strlen name ->
  find_partial g name (i :: idxs) = None.
Proof.
  intros Hci Hbound Hact Hshort. pose proof Hci as [Hlt _].
  cbn [find_partial]. rewrite Hact.
  rewrite scan_loop_outside; try assumption; try reflexivity.
  - apply c_str_nonzero.
  - unfold strlen in Hshort. lia.
  - unfold strlen, SIZE_MAX, MAX_NAME_LENGTH in *.
    rewrite <- (Z.mod_add _ 1) by lia. rewrite Z.mod_small; lia.
  - unfold MAX_NAME_LENGTH. lia.
  - rewrite (name_clean_length _ Hci). unfold MAX_NAME_LENGTH. lia.
Qed.

Lemma find_partial_outside (g : Graph F) (name : list byte) (done rest : list Z)
      (i0 : Z) :
  (forall i, name_clean (node_name (node_at g i))) ->
  strlen name < 2 ^ 63 ->
  (forall k, k ∈ done -> node_active (node_at g k) = true ->
             ~ name_occurs name (node_name (node_at g k))) ->
  node_active (node_at g i0) = true ->
  strlen (node_name (node_at g i0)) < strlen name ->
  find_partial g name (done ++ i0 :: rest) = None.
Proof.
  intros Hclean Hbound Hnone Hact0 Hshort0.
  induction done as [|i done IH]; simpl app.
  - apply find_partial_short; auto.
  - assert (find_partial g name (done ++ i0 :: rest) = None) as Hrest.
    { apply IH. intros k Hk. apply Hnone, elem_of_cons. auto. }
    cbn [find_partial].
    destruct (node_active (node_at g i)) eqn:Hact; [|exact Hrest].
    destruct (scan_node (node_name (node_at g i)) name (Hclean i))
      as (Hmatch & _ & _).
    destruct (scan_loop _ _ _ _ _) eqn:Hscan; [|exact Hrest|reflexivity].
    exfalso. apply (Hnone i); [apply elem_of_cons; auto|exact Hact|].
    apply Hmatch. reflexivity.
Qed.

Lemma find_partial_None (g : Graph F) (name : list byte) (idxs : list Z) :
  (forall i, name_clean (node_name (node_at g i))) ->
  find_partial g name idxs = None ->
  exists done i0 rest,
    idxs = done ++ i0 :: rest
    /\ node_active (node_at g i0) = true
    /\ strlen (node_name (node_at g i0)) < strlen name
    /\ forall k, k ∈ done -> node_active (node_at g k) = true ->
                 ~ name_occurs name (node_name (node_at g k)).
Proof.
  intros Hclean. induction idxs as [|i idxs IH]; intros Hfind; [discriminate|].
  cbn [find_partial] in Hfind.
  assert (find_partial g name idxs = None ->
          (node_active (node_at g i) = true ->
           ~ name_occurs name (node_name (node_at g i))) ->
          exists done i0 rest,
            i :: idxs = done ++ i0 :: rest
            /\ node_active (node_at g i0) = true
            /\ strlen (node_name (node_at g i0)) < strlen name
            /\ forall k, k ∈ done -> node_active (node_at g k) = true ->
                         ~ name_occurs name (node_name (node_at g k))) as Hrest.
  { intros Hf Hi. destruct (IH Hf) as (done & i0 & rest & -> & Hact & Hshort & Hdone).
    exists (i :: done), i0, rest. split; [reflexivity|].
    split; [exact Hact|]. split; [exact Hshort|].
    intros k Hk. apply elem_of_cons in Hk as [->|Hk]; [exact Hi|apply Hdone, Hk]. }
  destruct (node_active (node_at g i)) eqn:Hact.
  2:{ apply Hrest; [exact Hfind|discriminate]. }
  destruct (scan_node (node_name (node_at g i)) name (Hclean i))
    as (_ & Hend & Hout).
  destruct (scan_loop _ _ _ _ _); [discriminate| |].
  - apply Hrest; [exact Hfind|]. intros _. apply Hend. reflexivity.
  - exists [], i, idxs. split; [reflexivity|]. split; [exact Hact|].
    split; [apply Hout; reflexivity|]. intros k Hk. inversion Hk.
Qed.

Lemma seqZ_middle (n x : Z) :
  0 <= x < n -> seqZ 0 n = seqZ 0 x ++ x :: seqZ (x + 1) (n - x - 1).
Proof.
  intros Hx. replace n with (x + (n - x)) at 1 by lia.
  rewrite seqZ_app by lia. f_equal.
  rewrite seqZ_cons by lia. simpl.
  replace (Z.succ (0 + x)) with (x + 1) by lia.
  replace (Z.pred (n - x)) with (n - x - 1) by lia.
  replace (0 + x) with x by lia. reflexivity.
Qed.

(** X12.  On a consistent graph, and for a query of any realistic length,
    [graph_find_node_by_name] fails to return exactly when no active node
    has the query as its name and some active node has a name shorter than
    the query while the query occurs in the name of no active node before
    it: the substring search, whose bound [hayLen - nameLen] then wraps
    around, reads past the end of that node's name array instead of going
    on to the next node or returning [-1]. *)
Theorem graph_find_node_by_name_reads_past_name (g : Graph F) (name : list byte) :
  graph_wf g ->
  strlen name < 2 ^ 63 ->
  graph_find_node_by_name g name = None
  <-> (forall i, 0 <= i < nodeCount g -> node_active (node_at g i) = true ->
                 folded (node_name (node_at g i)) <> folded name)
      /\ exists i0, 0 <= i0 < nodeCount g
                    /\ node_active (node_at g i0) = true
                    /\ strlen (node_name (node_at g i0)) < strlen name
                    /\ forall k, 0 <= k < i0 -> node_active (node_at g k) = true ->
                                 ~ name_occurs name (node_name (node_at g k)).
Proof.
  intros Hwf Hbound. unfold graph_find_node_by_name. split.
  - destruct (find _ (seqZ 0 (nodeCount g))) as [i|] eqn:Hexact; [discriminate|].
    intros Hpartial. rewrite find_seqZ_None in Hexact. split.
    + intros i Hi Hact Heq. specialize (Hexact i Hi).
      apply not_true_iff_false in Hexact. apply Hexact, exact_pass_true. auto.
    + apply find_partial_None in Hpartial
        as (done & i0 & rest & Hsplit & Hact & Hshort & Hdone);
        [|apply (wf_name g Hwf)].
      apply seqZ_split in Hsplit as [Hi0 Hd]. exists i0.
      split; [exact Hi0|]. split; [exact Hact|]. split; [exact Hshort|].
      intros k Hk. apply Hdone, Hd, Hk.
  - intros (Hnoexact & i0 & Hi0 & Hact & Hshort & Hbefore).
    rewrite (proj2 (find_seqZ_None _ _)).
    + rewrite (seqZ_middle (nodeCount g) i0 Hi0).
      apply find_partial_outside; try assumption.
      * apply (wf_name g Hwf).
      * intros k Hk. apply Hbefore. apply elem_of_seqZ_0, Hk.
    + intros k Hk. apply not_true_iff_false. intros Hhit.
      apply exact_pass_true in Hhit as [Hkact Heq].
      exact (Hnoexact k Hk Hkact Heq).
Qed.

End FindByName.


(* ===================================================================== *)
(** ** The search with any heuristic: the path returned, the statistics *)

Lemma count_true_replicate_false (n : nat) : count_true (replicate n false) = O.
Proof.
  unfold count_true. induction n as [|n IH]; [reflexivity|]. simpl.
  rewrite list.filter_cons. destruct (decide (false = true)); [discriminate|exact IH].
Qed.

Section SearchSound.
Context {F : Type} `{FloatOps F}.
Variable g : Graph F.
Variables s t : Z.
Variable cfg : AStarConfig F.
Hypothesis Htargets : targets_in_range g.
Hypothesis Hs : 0 <= s < nodeCount g.
Hypothesis Ht : 0 <= t < nodeCount g.

(** The edges that [cameFrom] records from the start to [v]: every one
    leaves a closed node, and [gScore] grows along it by its weight. *)
Inductive trail (st : Search F) : Z -> list (Edge F) -> Prop :=
| trail_nil : trail st s []
| trail_snoc (es : list (Edge F)) (u j : Z) :
    trail st u es ->
    is_closed st u ->
    0 <= j < edgeCount_at g u ->
    edge_active (edge_at g u j) = true ->
    node_active (node_at g (edge_to (edge_at g u j))) = true ->
    edge_to (edge_at g u j) <> s ->
    CF st (edge_to (edge_at g u j)) = u ->
    G st (edge_to (edge_at g u j))
    = f_add (G st u) (edge_weight (edge_at g u j)) ->
    trail st (edge_to (edge_at g u j)) (es ++ [edge_at g u j]).

(** What holds of the working storage between two rounds of the loops. *)
Record traced (st : Search F) : Prop := {
  tr_start : G st s = f_zero;
  tr_seen : is_closed st s \/ (forall v, is_open st v \/ is_closed st v -> v = s);
  tr_open : forall v, is_open st v ->
                      exists es, trail st v es
                                 /\ (length es <= count_true (inClosedSet st))%nat;
  tr_closed : forall v, is_closed st v ->
                        exists es, trail st v es
                                   /\ (length es < count_true (inClosedSet st))%nat;
  tr_explored : nodesExplored (localStats st) = Z.of_nat (count_true (inClosedSet st));
  tr_inOpen : nodesInOpenSet (localStats st) = 0;
  tr_size : pq_size (openSet st) <= maxOpenSetSize (localStats st);
  tr_max : 1 <= maxOpenSetSize (localStats st) <= nodeCount g;
  tr_begun : 0 < pq_size (openSet st) \/ 0 < nodesExplored (localStats st);
}.

Lemma trail_walk (st : Search F) (v : Z) (es : list (Edge F)) :
  trail st v es -> walk g s es v.
Proof.
  induction 1 as [|es u j _ IH _ Hj Hact Hnode _ _ _]; [constructor|].
  apply walk_snoc; assumption.
Qed.

Lemma trail_range (st : Search F) (v : Z) (es : list (Edge F)) :
  trail st v es -> 0 <= v < nodeCount g.
Proof.
  induction 1 as [|es u j _ IH _ Hj Hact Hnode _ _ _]; [exact Hs|].
  apply Htargets; assumption.
Qed.

Lemma trail_cost (st : Search F) (v : Z) (es : list (Edge F)) :
  G st s = f_zero -> trail st v es -> path_cost es = G st v.
Proof.
  intros Hstart. induction 1 as [|es u j _ IH _ _ _ _ _ _ HG]; [symmetry; exact Hstart|].
  rewrite path_cost_snoc, IH, HG. reflexivity.
Qed.

(** A trail is not affected by what is stored for a node that is neither
    closed nor on its end. *)
Lemma trail_frame (st st' : Search F) (v0 : Z) :
  (forall x, x <> v0 -> G st' x = G st x /\ CF st' x = CF st x) ->
  (forall x, is_closed st x -> is_closed st' x) ->
  ~ is_closed st v0 ->
  forall v es, trail st v es -> v <> v0 -> trail st' v es.
Proof.
  intros Hsame Hmono Hv0 v es Htr.
  induction Htr as [|es u j Htr IH Hcu Hj Hact Hnode Hne HCF HG]; intros Hv;
    [constructor|].
  assert (u <> v0) as Hu by (intros ->; contradiction).
  destruct (Hsame _ Hv) as [HG' HCF']. destruct (Hsame _ Hu) as [HGu _].
  apply trail_snoc; try assumption.
  - apply IH, Hu.
  - apply Hmono, Hcu.
  - rewrite HCF'. exact HCF.
  - rewrite HG', HGu. exact HG.
Qed.

Lemma trail_mono (st st' : Search F) :
  gScore st' = gScore st -> cameFrom st' = cameFrom st ->
  (forall x, is_closed st x -> is_closed st' x) ->
  forall v es, trail st v es -> trail st' v es.
Proof.
  intros HG HCF Hmono v es Htr.
  induction Htr as [|es u j Htr IH Hcu Hj Hact Hnode Hne HCFv HGv]; [constructor|].
  apply trail_snoc; try assumption.
  - apply Hmono, Hcu.
  - unfold CF in *. rewrite HCF. exact HCFv.
  - unfold G in *. rewrite HG. exact HGv.
Qed.

(** *** Reading the path back along a trail *)

Lemma count_path_trail (st : Search F) (v : Z) (es : list (Edge F)) :
  trail st v es ->
  forall (fuel : nat) (len : Z),
    (length es <= fuel)%nat -> len + Z.of_nat (length es) <= nodeCount g ->
    count_path fuel (cameFrom st) s (nodeCount g) len v
    = (len + Z.of_nat (length es), s).
Proof.
  induction 1 as [|es u j Htr IH Hcu Hj Hact Hnode Hne HCF HG]; intros fuel len Hfuel Hlen.
  - simpl length. rewrite Z.add_0_r. destruct fuel as [|fuel]; [reflexivity|]. simpl.
    destruct (decide (s <> s /\ s <> -1 /\ len < nodeCount g)) as [[Hbad _]|_];
      [contradiction|reflexivity].
  - pose proof (Htargets u j (trail_range _ _ _ Htr) Hj Hact Hnode) as Hv.
    rewrite length_app in Hfuel, Hlen |- *. simpl length in Hfuel, Hlen |- *.
    destruct fuel as [|fuel]; [lia|]. cbn [count_path].
    destruct (decide (_ /\ _ /\ len < nodeCount g)) as [_|Hn];
      [|exfalso; apply Hn; repeat split; [exact Hne|lia|lia]].
    fold (CF st (edge_to (edge_at g u j))). rewrite HCF.
    rewrite IH by lia. f_equal. lia.
Qed.

Lemma fill_path_trail (st : Search F) (v : Z) (es : list (Edge F)) :
  trail st v es ->
  forall out, fill_path (S (length es)) (cameFrom st) v out
              = s :: (edge_to <$> es) ++ out.
Proof.
  induction 1 as [|es u j Htr IH Hcu Hj Hact Hnode Hne HCF HG]; intros out;
    [reflexivity|].
  rewrite length_app. simpl length. rewrite Nat.add_1_r.
  cbn [fill_path]. fold (CF st (edge_to (edge_at g u j))). rewrite HCF.
  change (fill_path (length es) (cameFrom st) (aget 0 (cameFrom st) u)
                    (u :: edge_to (edge_at g u j) :: out))
    with (fill_path (S (length es)) (cameFrom st) u (edge_to (edge_at g u j) :: out)).
  rewrite IH, fmap_app, <- app_assoc. reflexivity.
Qed.

Lemma reconstruct_path_trail (st : Search F) (es : list (Edge F)) :
  trail st t es -> Z.of_nat (length es) <= nodeCount g ->
  reconstruct_path (cameFrom st) (gScore st) s t (nodeCount g)
  = mkPathResult (s :: (edge_to <$> es)) (Z.of_nat (length es) + 1) (G st t) true.
Proof.
  intros Htr Hlen. unfold reconstruct_path.
  rewrite (count_path_trail st t es Htr) by lia.
  destruct (decide (s = s)) as [_|Hbad]; [|contradiction].
  destruct (decide (s <> s)) as [Hbad|_]; [contradiction|].
  replace (Z.to_nat (0 + Z.of_nat (length es) + 1)) with (S (length es)) by lia.
  rewrite (fill_path_trail st t es Htr), app_nil_r. reflexivity.
Qed.

(** *** The state on entry to the loop *)

Lemma traced_start : traced (astar_start g s t cfg).
Proof.
  pose proof (start_is_open g s t cfg Hs Ht) as Hopen.
  pose proof (start_is_closed g s t cfg Hs) as Hclosed.
  assert (inClosedSet (astar_start g s t cfg) = replicate (Z.to_nat (nodeCount g)) false
          /\ localStats (astar_start g s t cfg) = mkStats 0 0 1
          /\ pq_size (openSet (astar_start g s t cfg)) = 1) as (Hc & Hst & Hsz)
      by (rewrite astar_start_shape by exact Hs; auto).
  constructor.
  - rewrite start_G by assumption. destruct (decide (s = s)); [reflexivity|contradiction].
  - right. intros v [Hv|Hv]; [apply Hopen, Hv|destruct (Hclosed v Hv)].
  - intros v Hv. apply Hopen in Hv as ->. exists []. split; [constructor|simpl; lia].
  - intros v Hv. destruct (Hclosed v Hv).
  - rewrite Hc, Hst, count_true_replicate_false. reflexivity.
  - rewrite Hst. reflexivity.
  - rewrite Hst, Hsz. simpl. lia.
  - rewrite Hst. simpl. lia.
  - left. rewrite Hsz. lia.
Qed.

(** *** Popping and closing a node *)

Lemma traced_close (st : Search F) (u : Z) (f : F) (q : PriorityQueue F) :
  shape g st -> traced st -> pq_pop (openSet st) = Some (u, f, q) ->
  traced (after_close (after_pop st u q) u)
  /\ is_closed (after_close (after_pop st u q) u) u
  /\ count_true (inClosedSet (after_close (after_pop st u q) u))
     = S (count_true (inClosedSet st))
  /\ pq_size q = pq_size (openSet st) - 1 /\ 0 <= pq_size q.
Proof.
  intros Hshape Htr Hpop.
  destruct (shape_pop g st u f q Hshape Hpop) as (Hopen & Hnc & _ & Hperm & Hshape2).
  pose proof (is_open_range g st u Hshape Hopen) as Hu.
  pose proof (closed_after_close g s t Hs Ht st u q) as Hcl.
  pose proof (open_after_pop g s t Hs Ht st u q) as Hop.
  assert (aget false (inClosedSet st) u = false) as Hf
      by (unfold is_closed in Hnc; destruct (aget false (inClosedSet st) u); congruence).
  assert (0 <= u < Z.of_nat (length (inClosedSet st))) as Hur
      by (rewrite (shape_inClosedSet g st Hshape); lia).
  assert (count_true (inClosedSet (after_close (after_pop st u q) u))
          = S (count_true (inClosedSet st))) as Hcount
      by (cbn [after_close after_pop inClosedSet]; apply count_true_aset; assumption).
  assert (pq_size q = pq_size (openSet st) - 1 /\ 0 <= pq_size q) as [Hsize Hpos].
  { pose proof (shape_wf g _ Hshape2) as Hwfq. cbn [after_close after_pop openSet] in Hwfq.
    pose proof (length_pq_entries _ Hwfq) as Hlq.
    pose proof (length_pq_entries _ (shape_wf g st Hshape)) as Hl.
    apply Permutation_length in Hperm. cbn [length] in Hperm. lia. }
  assert (forall v es, trail st v es -> trail (after_close (after_pop st u q) u) v es)
    as Hkeep.
  { apply trail_mono; try reflexivity. intros x Hx. apply Hcl; auto. }
  split; [|split; [apply Hcl; auto|split; [exact Hcount|split; assumption]]].
  constructor.
  - exact (tr_start st Htr).
  - left. destruct (tr_seen st Htr) as [Hcs|Honly]; [apply Hcl; auto|].
    apply Hcl; [assumption..|]. right. symmetry. apply Honly. auto.
  - intros v Hv. apply Hop in Hv as [Hv _]; [|assumption..].
    destruct (tr_open st Htr v Hv) as (es & Hes & Hlen).
    exists es. split; [apply Hkeep, Hes|]. rewrite Hcount. lia.
  - intros v Hv. apply Hcl in Hv as [Hv| ->]; [| |assumption..].
    + destruct (tr_closed st Htr v Hv) as (es & Hes & Hlen).
      exists es. split; [apply Hkeep, Hes|]. rewrite Hcount. lia.
    + destruct (tr_open st Htr u Hopen) as (es & Hes & Hlen).
      exists es. split; [apply Hkeep, Hes|]. rewrite Hcount. lia.
  - rewrite Hcount. cbn [after_close after_pop localStats nodesExplored].
    rewrite (tr_explored st Htr). lia.
  - exact (tr_inOpen st Htr).
  - cbn [after_close after_pop localStats openSet maxOpenSetSize].
    pose proof (tr_size st Htr). lia.
  - exact (tr_max st Htr).
  - right. cbn [after_close after_pop localStats nodesExplored].
    rewrite (tr_explored st Htr). lia.
Qed.

(** *** One round of the neighbour loop *)

(** What a round that improves the score of [v] stores. *)
Record relaxed (st st' : Search F) (u v : Z) (tentativeG : F) : Prop := {
  rel_gScore : gScore st' = aset (gScore st) v tentativeG;
  rel_cameFrom : cameFrom st' = aset (cameFrom st) v u;
  rel_inClosedSet : inClosedSet st' = inClosedSet st;
  rel_open : forall x, is_open st' x <-> is_open st x \/ x = v;
  rel_explored : nodesExplored (localStats st') = nodesExplored (localStats st);
  rel_inOpen : nodesInOpenSet (localStats st') = nodesInOpenSet (localStats st);
  rel_size : pq_size (openSet st) <= pq_size (openSet st') <= nodeCount g;
  rel_max_ge : maxOpenSetSize (localStats st) <= maxOpenSetSize (localStats st');
  rel_max_le : maxOpenSetSize (localStats st')
               <= Z.max (maxOpenSetSize (localStats st)) (pq_size (openSet st'));
  rel_size_le : pq_size (openSet st')
                <= Z.max (pq_size (openSet st)) (maxOpenSetSize (localStats st'));
}.

Lemma relax_effect (st : Search F) (u i : Z) :
  shape g st -> 0 <= u < nodeCount g -> 0 <= i < edgeCount_at g u ->
  let e := edge_at g u i in
  let v := edge_to e in
  let tentativeG := f_add (G st u) (edge_weight e) in
  relax g t cfg u st i = st
  \/ (edge_active e = true /\ node_active (node_at g v) = true
      /\ ~ is_closed st v /\ 0 <= v < nodeCount g
      /\ relaxed st (relax g t cfg u st i) u v tentativeG).
Proof.
  intros Hshape Hu Hi e v tentativeG. unfold relax.
  fold e. fold v. fold (G st u). fold (G st v). fold tentativeG.
  destruct (edge_active e) eqn:Hact; cbn [negb]; [|left; reflexivity].
  destruct (node_active (node_at g v)) eqn:Hnode; cbn [negb]; [|left; reflexivity].
  pose proof (Htargets u i Hu Hi Hact Hnode) as Hv. fold e in Hv. fold v in Hv.
  destruct (aget false (inClosedSet st) v) eqn:Hclosed; [left; reflexivity|].
  destruct (f_lt tentativeG (G st v)) eqn:Hlt; [|left; reflexivity].
  right. split; [reflexivity|]. split; [reflexivity|].
  split; [unfold is_closed; congruence|]. split; [exact Hv|].
  pose proof (shape_wf g st Hshape) as Hwf.
  assert (pq_size (openSet st) <= nodeCount g) as Hcap.
  { rewrite <- (length_pq_entries _ Hwf).
    replace (length (pq_entries (openSet st))) with (length (open_ids st))
      by (unfold open_ids; apply length_fmap).
    apply NoDup_range_length; [lia|apply Hshape|].
    intros x Hx. apply (is_open_range g st x Hshape), (shape_open g st Hshape), Hx. }
  destruct (aget false (inOpenSet st) v) eqn:Hopen; cbn [negb].
  - (* pq_decrease_priority *)
    assert (v ∈ open_ids st) as Hin by (apply (shape_open g st Hshape); exact Hopen).
    apply (pq_find_is_Some _ _ Hwf) in Hin as [k Hk].
    match goal with |- context [pq_decrease_priority (openSet st) v ?f] =>
      destruct (pq_decrease_priority_present (openSet st) v k f Hwf Hk)
        as (_ & Hsize & _ & _)
    end.
    constructor; cbn [gScore cameFrom inClosedSet inOpenSet openSet localStats];
      try reflexivity; try lia.
    intros x. unfold is_open. cbn [inOpenSet]. split; [auto|].
    intros [Hx| ->]; assumption.
  - (* pq_push *)
    assert (v ∉ open_ids st) as Hfresh.
    { intros Hin. apply (shape_open g st Hshape) in Hin. unfold is_open in Hin.
      congruence. }
    assert (pq_size (openSet st) < pq_capacity (openSet st)) as Hroom.
    { rewrite (shape_capacity g st Hshape), <- (length_pq_entries _ Hwf).
      assert (Z.of_nat (length (v :: open_ids st)) <= nodeCount g) as Hlen.
      { apply NoDup_range_length; [lia| |].
        - apply list.NoDup_cons. split; [exact Hfresh|apply Hshape].
        - intros x Hx. apply elem_of_cons in Hx as [->|Hx]; [exact Hv|].
          apply (is_open_range g st x Hshape), (shape_open g st Hshape), Hx. }
      cbn [length] in Hlen. unfold open_ids in Hlen. rewrite length_fmap in Hlen. lia. }
    match goal with |- context [pq_push (openSet st) v ?f] =>
      destruct (pq_push_accepts (openSet st) v f Hwf Hroom)
        as (q' & Heq & _ & Hsize & _ & _)
    end.
    rewrite Heq. cbv beta iota.
    rewrite (shape_capacity g st Hshape) in Hroom.
    constructor; cbn [gScore cameFrom inClosedSet inOpenSet openSet localStats];
      try reflexivity; try lia.
    + intros x. unfold is_open. cbn [inOpenSet]. rewrite aget_aset.
      destruct (decide (v = x /\ 0 <= v < Z.of_nat (length (inOpenSet st))))
        as [[Hvx _]|Hn]; [split; auto|].
      split; [auto|]. intros [Hx|Hx]; [exact Hx|].
      exfalso. apply Hn. split; [auto|]. rewrite (shape_inOpenSet g st Hshape). lia.
    + destruct (decide _); reflexivity.
    + destruct (decide _); reflexivity.
    + destruct (decide _); cbn [maxOpenSetSize]; lia.
    + destruct (decide _); cbn [maxOpenSetSize]; lia.
    + destruct (decide _); cbn [maxOpenSetSize]; lia.
Qed.

Lemma traced_relax (st : Search F) (u i : Z) :
  shape g st -> traced st -> is_closed st u -> 0 <= i < edgeCount_at g u ->
  traced (relax g t cfg u st i).
Proof.
  intros Hshape Htr Hcu Hi.
  pose proof (is_closed_range g st u Hshape Hcu) as Hu.
  destruct (relax_effect st u i Hshape Hu Hi) as [->|(Hact & Hnode & Hnv & Hv & Hrel)];
    [exact Htr|].
  set (e := edge_at g u i) in *. set (v := edge_to e) in *.
  set (st' := relax g t cfg u st i) in *.
  destruct Hrel as [HG HCF Hcl Hop Hex Hin Hsz Hmg Hml Hsl].
  assert (is_closed st s) as Hcs.
  { destruct (tr_seen st Htr) as [Hc|Honly]; [exact Hc|].
    rewrite <- (Honly u); auto. }
  assert (v <> s) as Hvs by (intros Heq; apply Hnv; rewrite Heq; exact Hcs).
  assert (u <> v) as Huv by (intros Heq; apply Hnv; rewrite <- Heq; exact Hcu).
  assert (forall x, is_closed st' x <-> is_closed st x) as Hclosed
      by (intros x; unfold is_closed; rewrite Hcl; reflexivity).
  assert (forall x, x <> v -> G st' x = G st x /\ CF st' x = CF st x) as Hsame.
  { intros x Hx. unfold G, CF. rewrite HG, HCF.
    rewrite !aget_aset_ne by congruence. auto. }
  assert (G st' v = f_add (G st u) (edge_weight e)) as HGv.
  { unfold G at 1. rewrite HG. apply aget_aset_eq.
    rewrite (shape_gScore g st Hshape). lia. }
  assert (CF st' v = u) as HCFv.
  { unfold CF. rewrite HCF. apply aget_aset_eq.
    rewrite (shape_cameFrom g st Hshape). lia. }
  assert (forall w es, trail st w es -> w <> v -> trail st' w es) as Hkeep.
  { apply trail_frame; [exact Hsame| |exact Hnv]. intros x Hx. apply Hclosed, Hx. }
  constructor.
  - rewrite (proj1 (Hsame s ltac:(congruence))). exact (tr_start st Htr).
  - left. apply Hclosed, Hcs.
  - intros w Hw. rewrite Hcl. apply Hop in Hw.
    destruct (decide (w = v)) as [->|Hne].
    + destruct (tr_closed st Htr u Hcu) as (es & Hes & Hlen).
      exists (es ++ [e]). split; [|rewrite length_app; simpl; lia].
      apply trail_snoc; try assumption.
      * apply Hkeep; [exact Hes|exact Huv].
      * apply Hclosed, Hcu.
      * rewrite (proj1 (Hsame u Huv)). exact HGv.
    + destruct Hw as [Hw|Hw]; [|contradiction].
      destruct (tr_open st Htr w Hw) as (es & Hes & Hlen).
      exists es. split; [apply Hkeep; assumption|exact Hlen].
  - intros w Hw. rewrite Hcl. apply Hclosed in Hw.
    destruct (tr_closed st Htr w Hw) as (es & Hes & Hlen).
    exists es. split; [|exact Hlen]. apply Hkeep; [exact Hes|].
    intros ->. contradiction.
  - rewrite Hex, Hcl. exact (tr_explored st Htr).
  - rewrite Hin. exact (tr_inOpen st Htr).
  - pose proof (tr_size st Htr). lia.
  - pose proof (tr_max st Htr). lia.
  - destruct (tr_begun st Htr) as [Hb|Hb]; [left; lia|right; lia].
Qed.

Lemma traced_relax_all (st : Search F) (u : Z) :
  shape g st -> traced st -> is_closed st u ->
  shape g (foldl (relax g t cfg u) st (seqZ 0 (edgeCount_at g u)))
  /\ traced (foldl (relax g t cfg u) st (seqZ 0 (edgeCount_at g u))).
Proof.
  intros Hshape Htr Hcu.
  pose proof (is_closed_range g st u Hshape Hcu) as Hu.
  assert (let st' := foldl (relax g t cfg u) st (seqZ 0 (edgeCount_at g u)) in
          shape g st' /\ traced st' /\ is_closed st' u) as (H1 & H2 & _); [|auto].
  apply (foldl_preserves _ (fun a => shape g a /\ traced a /\ is_closed a u)).
  - auto.
  - intros a i Hi (Ha & Hb & Hc). apply elem_of_seqZ_0 in Hi.
    split; [apply shape_relax; assumption|].
    split; [apply traced_relax; assumption|].
    unfold is_closed. rewrite relax_inClosedSet. exact Hc.
Qed.

(** *** The main loop *)

(** The two ways the loop ends. *)
Definition search_outcome (result : PathResult F) (stats : AStarStats) : Prop :=
  ((exists es, walk g s es t
               /\ result = mkPathResult (s :: (edge_to <$> es))
                                        (Z.of_nat (length es) + 1) (path_cost es) true)
   \/ (result = path_result_create /\ nodesInOpenSet stats = 0))
  /\ 1 <= nodesExplored stats <= nodeCount g
  /\ 1 <= maxOpenSetSize stats <= nodeCount g
  /\ 0 <= nodesInOpenSet stats < maxOpenSetSize stats.

Lemma astar_loop_traced (fuel : nat) (st : Search F) :
  shape g st -> traced st ->
  (Z.to_nat (nodeCount g) - count_true (inClosedSet st) < fuel)%nat ->
  exists result st',
    astar_loop fuel g s t cfg st = Some (result, st')
    /\ search_outcome result (localStats st').
Proof.
  revert st. induction fuel as [|fuel IH]; intros st Hshape Htr Hfuel; [lia|].
  rewrite astar_loop_unfold.
  pose proof (count_true_le (inClosedSet st)) as Hcle.
  rewrite (shape_inClosedSet g st Hshape) in Hcle.
  destruct (pq_pop (openSet st)) as [[[u f] q]|] eqn:Hpop.
  2:{ apply pq_pop_None_size in Hpop.
      eexists _, _. split; [reflexivity|].
      pose proof (tr_explored st Htr). pose proof (tr_inOpen st Htr).
      pose proof (tr_max st Htr).
      split; [right; auto|].
      destruct (tr_begun st Htr); lia. }
  destruct (shape_pop g st u f q Hshape Hpop) as (Hopen & Hnc & _ & _ & Hshape2).
  destruct (traced_close st u f q Hshape Htr Hpop) as (Htr2 & Hcu & Hcount & Hsize & Hpos).
  pose proof (count_true_le (inClosedSet (after_close (after_pop st u q) u))) as Hcle2.
  rewrite (shape_inClosedSet g _ Hshape2), Hcount in Hcle2.
  destruct (decide (u = t)) as [->|Hut].
  - destruct (tr_open st Htr t Hopen) as (es & Hes & Hlen).
    eexists _, _. split; [reflexivity|].
    rewrite (reconstruct_path_trail st es Hes) by lia.
    rewrite <- (trail_cost st t es (tr_start st Htr) Hes).
    cbn [at_goal after_pop localStats openSet nodesExplored nodesInOpenSet maxOpenSetSize].
    pose proof (tr_explored st Htr). pose proof (tr_size st Htr).
    pose proof (tr_max st Htr).
    split; [left; exists es; split; [eapply trail_walk, Hes|reflexivity]|].
    cbn [nodesExplored nodesInOpenSet maxOpenSetSize]. lia.
  - unfold is_closed in Hnc.
    destruct (aget false (inClosedSet st) u) eqn:Hc; [contradiction|].
    destruct (traced_relax_all _ u Hshape2 Htr2 Hcu) as [Hshape3 Htr3].
    apply IH; [exact Hshape3|exact Htr3|].
    rewrite relax_all_inClosedSet, Hcount. lia.
Qed.

End SearchSound.

(** X13.  On a graph whose active edges lead to ids below [nodeCount], for
    start and goal ids in range and any configuration, [astar_find_path]
    returns within one round of its main loop per node.  If it reports
    [found], the node list it returns is a path: it starts with the start
    node, follows active edges of the graph, each to an active node, and
    ends with the goal; [length] is its number of nodes and [totalCost] the
    sum of the weights of its edges, added up from the start.  Otherwise
    the result is the empty one. *)
Theorem astar_find_path_returns_a_path {F : Type} `{FloatOps F}
        (fuel : nat) (g : Graph F) (s t : Z) (config : option (AStarConfig F)) :
  targets_in_range g ->
  0 <= s < nodeCount g -> 0 <= t < nodeCount g ->
  (Z.to_nat (nodeCount g) < fuel)%nat ->
  exists run,
    astar_find_path fuel g s t config = Some run
    /\ ((exists es, walk g s es t
                    /\ run_result run
                       = mkPathResult (s :: (edge_to <$> es))
                                      (Z.of_nat (length es) + 1) (path_cost es) true)
        \/ run_result run = mkPathResult [] 0 f_zero false).
Proof.
  intros Htargets Hs Ht Hfuel. unfold astar_find_path.
  destruct (decide (s < 0 \/ t < 0 \/ s >= nodeCount g \/ t >= nodeCount g)); [lia|].
  set (cfg := default astar_default_config config).
  destruct (astar_loop_traced g s t cfg Htargets Hs Ht fuel (astar_start g s t cfg))
    as (result & st' & -> & [Hout|[Hout _]] & _).
  - apply shape_start, Hs.
  - apply traced_start; assumption.
  - lia.
  - eexists. split; [reflexivity|]. left. exact Hout.
  - eexists. split; [reflexivity|]. right. exact Hout.
Qed.

(** X14.  On a graph whose active edges lead to ids below [nodeCount], for
    start and goal ids in range and any configuration, the statistics
    [astar_find_path] stores are bounded by the size of the graph: between 1 and [nodeCount]
    nodes are explored (no node is taken from the open set twice), the
    largest size of the open set lies between 1 and [nodeCount], and
    [nodesInOpenSet] is below that largest size; it is 0 when no path is
    found. *)
Theorem astar_find_path_statistics {F : Type} `{FloatOps F}
        (fuel : nat) (g : Graph F) (s t : Z) (config : option (AStarConfig F)) :
  targets_in_range g ->
  0 <= s < nodeCount g -> 0 <= t < nodeCount g ->
  (Z.to_nat (nodeCount g) < fuel)%nat ->
  exists run stats,
    astar_find_path fuel g s t config = Some run
    /\ run_stats run = Some stats
    /\ 1 <= nodesExplored stats <= nodeCount g
    /\ 1 <= maxOpenSetSize stats <= nodeCount g
    /\ 0 <= nodesInOpenSet stats < maxOpenSetSize stats
    /\ (found (run_result run) = false -> nodesInOpenSet stats = 0).
Proof.
  intros Htargets Hs Ht Hfuel. unfold astar_find_path.
  destruct (decide (s < 0 \/ t < 0 \/ s >= nodeCount g \/ t >= nodeCount g)); [lia|].
  set (cfg := default astar_default_config config).
  destruct (astar_loop_traced g s t cfg Htargets Hs Ht fuel (astar_start g s t cfg))
    as (result & st' & -> & Hout & Hex & Hmax & Hin).
  - apply shape_start, Hs.
  - apply traced_start; assumption.
  - lia.
  - eexists _, _. split; [reflexivity|]. split; [reflexivity|].
    repeat split; try lia. cbn [run_result].
    destruct Hout as [(es & _ & ->)|[_ Hz]]; [discriminate|intros _; exact Hz].
Qed.


(* ===================================================================== *)
(** ** The exploration order *)

Section ExplorationFacts.
Context {F : Type} `{FloatOps F}.
Variable g : Graph F.
Variables s t : Z.
Variable maxNodes : Z.
Hypothesis Htargets : targets_in_range g.
Hypothesis Hs : 0 <= s < nodeCount g.

Definition ex_open (st : Exploration F) (v : Z) : Prop :=
  aget false (ex_inOpenSet st) v = true.
Definition ex_closed (st : Exploration F) (v : Z) : Prop :=
  aget false (ex_inClosedSet st) v = true.
Definition ex_ids (st : Exploration F) : list Z :=
  pq_nodeId <$> pq_entries (ex_openSet st).

(** [v] was reached over an active edge from a node explored before
    position [k]. *)
Definition reached_before (explored : list Z) (k : nat) (v : Z) : Prop :=
  exists (k' : nat) (u j : Z),
    (k' < k)%nat /\ explored !! k' = Some u
    /\ 0 <= j < edgeCount_at g u
    /\ edge_active (edge_at g u j) = true
    /\ edge_to (edge_at g u j) = v
    /\ node_active (node_at g v) = true.

Record exploring (st : Exploration F) : Prop := {
  exp_gScore : length (ex_gScore st) = Z.to_nat (nodeCount g);
  exp_inClosedSet : length (ex_inClosedSet st) = Z.to_nat (nodeCount g);
  exp_inOpenSet : length (ex_inOpenSet st) = Z.to_nat (nodeCount g);
  exp_wf : pq_wf (ex_openSet st);
  exp_capacity : pq_capacity (ex_openSet st) = nodeCount g;
  exp_ids_NoDup : NoDup (ex_ids st);
  exp_ids : forall v, v ∈ ex_ids st <-> ex_open st v;
  exp_disjoint : forall v, ex_open st v -> ~ ex_closed st v;
  exp_NoDup : NoDup (ex_explored st);
  exp_closed : forall v, v ∈ ex_explored st <-> ex_closed st v;
  exp_goal : t ∉ ex_explored st;
  exp_bound : Z.of_nat (length (ex_explored st)) <= Z.max 0 maxNodes;
  exp_first : (ex_explored st = [] /\ ex_ids st = [s]) \/ ex_explored st !! O = Some s;
  exp_reached_open :
    forall v, ex_open st v ->
              (ex_explored st = [] /\ v = s)
              \/ reached_before (ex_explored st) (length (ex_explored st)) v;
  exp_reached :
    forall k v, ex_explored st !! k = Some v -> (0 < k)%nat ->
                reached_before (ex_explored st) k v;
}.

Lemma reached_before_app (explored more : list Z) (k : nat) (v : Z) :
  reached_before explored k v -> reached_before (explored ++ more) k v.
Proof.
  intros (k' & u & j & Hk & Hl & Hrest). exists k', u, j. split; [exact Hk|].
  split; [|exact Hrest]. apply lookup_app_l_Some, Hl.
Qed.

Lemma reached_before_le (explored : list Z) (k k2 : nat) (v : Z) :
  (k <= k2)%nat -> reached_before explored k v -> reached_before explored k2 v.
Proof.
  intros Hle (k' & u & j & Hk & Hrest). exists k', u, j. split; [lia|exact Hrest].
Qed.

Lemma ex_open_range st v : exploring st -> ex_open st v -> 0 <= v < nodeCount g.
Proof.
  intros Hst Hv. apply aget_true_range in Hv. rewrite (exp_inOpenSet st Hst) in Hv. lia.
Qed.

Lemma ex_closed_range st v : exploring st -> ex_closed st v -> 0 <= v < nodeCount g.
Proof.
  intros Hst Hv. apply aget_true_range in Hv. rewrite (exp_inClosedSet st Hst) in Hv. lia.
Qed.

(** *** The state on entry to the loop *)

Lemma explore_start_eq :
  let n := Z.to_nat (nodeCount g) in
  let h := astar_heuristic (node_at g s) (node_at g t) HEURISTIC_EUCLIDEAN in
  explore_start g s t
  = mkExploration (aset (replicate n FLT_MAX) s f_zero)
                  (replicate n false)
                  (aset (replicate n false) s true)
                  (mkPQ (aset (replicate n pq_blank) 0 (mkPQNode s h)) 1 (nodeCount g))
                  [].
Proof.
  intros n h. unfold explore_start, pq_push, pq_create. simpl pq_size. simpl pq_capacity.
  destruct (decide (0 >= nodeCount g)) as [Hbad|_]; [lia|]. reflexivity.
Qed.

Lemma exploring_start : exploring (explore_start g s t).
Proof.
  rewrite explore_start_eq.
  set (n := Z.to_nat (nodeCount g)).
  assert (forall v, aget false (aset (replicate n false) s true) v = true <-> v = s)
    as Hopen.
  { intros v. rewrite aget_aset, length_replicate.
    destruct (decide _) as [[-> _]|Hn]; [tauto|].
    split; [|intros ->; lia].
    intros Hv. pose proof (aget_true_range _ _ Hv) as Hr. rewrite length_replicate in Hr.
    rewrite aget_replicate in Hv by lia. discriminate. }
  assert (forall v, aget false (replicate n false) v = true -> False) as Hclosed.
  { intros v Hv. pose proof (aget_true_range _ _ Hv) as Hr. rewrite length_replicate in Hr.
    rewrite aget_replicate in Hv by lia. discriminate. }
  assert (forall h, pq_entries (mkPQ (aset (replicate n pq_blank) 0 (mkPQNode s h)) 1
                                     (nodeCount g))
                    = [mkPQNode s h]) as Hent.
  { intros h. unfold pq_entries. cbn [pq_size pq_nodes]. change (Z.to_nat 1) with 1%nat.
    erewrite take_S_r; [reflexivity|].
    unfold aset. destruct (decide (0 <= 0)); [|lia].
    apply list_lookup_insert_eq. rewrite length_replicate. lia. }
  constructor; unfold ex_open, ex_closed, ex_ids;
    cbn [ex_gScore ex_inClosedSet ex_inOpenSet ex_openSet ex_explored];
    rewrite ?length_aset, ?length_replicate, ?Hent; try reflexivity.
  - unfold pq_wf. cbn [pq_size pq_nodes pq_capacity].
    rewrite length_aset, length_replicate. lia.
  - apply NoDup_singleton.
  - intros v. rewrite Hopen. cbn [fmap list_fmap pq_nodeId].
    apply list_elem_of_singleton.
  - intros v _ Hv. exact (Hclosed v Hv).
  - constructor.
  - intros v. split; [intros Hv; inversion Hv|intros Hv; destruct (Hclosed v Hv)].
  - intros Hbad. inversion Hbad.
  - simpl. lia.
  - left. split; reflexivity.
  - intros v Hv. left. split; [reflexivity|]. apply Hopen, Hv.
  - intros k v Hk. discriminate.
Qed.

(** *** One round of the neighbour loop *)

Lemma exploring_relax (st : Exploration F) (u i : Z) :
  0 <= i < edgeCount_at g u ->
  exploring st -> u ∈ ex_explored st ->
  exploring (explore_relax g t u st i).
Proof.
  intros Hi Hst Hu. unfold explore_relax.
  pose proof (ex_closed_range st u Hst (proj1 (exp_closed st Hst u) Hu)) as Hur.
  destruct (edge_active (edge_at g u i)) eqn:Hact; cbn [negb]; [|exact Hst].
  destruct (node_active (node_at g (edge_to (edge_at g u i)))) eqn:Hnode; cbn [negb];
    [|exact Hst].
  pose proof (Htargets u i Hur Hi Hact Hnode) as Hv.
  set (v := edge_to (edge_at g u i)) in *.
  destruct (aget false (ex_inClosedSet st) v) eqn:Hclosed; [exact Hst|].
  destruct (f_lt _ _); [|exact Hst].
  assert (reached_before (ex_explored st) (length (ex_explored st)) v) as Hreached.
  { apply list_elem_of_lookup_1 in Hu as [k Hk].
    exists k, u, i. split; [eapply lookup_lt_Some, Hk|]. auto. }
  destruct (aget false (ex_inOpenSet st) v) eqn:Hopen; cbn [negb].
  - (* already in the open set: only the score changes *)
    constructor; unfold ex_open, ex_closed, ex_ids;
      cbn [ex_gScore ex_inClosedSet ex_inOpenSet ex_openSet ex_explored];
      rewrite ?length_aset; apply Hst.
  - (* pq_push *)
    assert (v ∉ ex_ids st) as Hfresh.
    { intros Hin. apply (exp_ids st Hst) in Hin. unfold ex_open in Hin. congruence. }
    assert (pq_size (ex_openSet st) < pq_capacity (ex_openSet st)) as Hroom.
    { rewrite (exp_capacity st Hst), <- (length_pq_entries _ (exp_wf st Hst)).
      assert (Z.of_nat (length (v :: ex_ids st)) <= nodeCount g) as Hlen.
      { apply NoDup_range_length; [lia| |].
        - apply list.NoDup_cons. split; [exact Hfresh|apply Hst].
        - intros x Hx. apply elem_of_cons in Hx as [->|Hx]; [exact Hv|].
          apply (ex_open_range st x Hst), (exp_ids st Hst), Hx. }
      cbn [length] in Hlen. unfold ex_ids in Hlen. rewrite length_fmap in Hlen. lia. }
    match goal with |- context [pq_push (ex_openSet st) v ?f] =>
      destruct (pq_push_accepts (ex_openSet st) v f (exp_wf st Hst) Hroom)
        as (q' & Heq & Hwf' & Hsize' & Hcap' & Hperm)
    end.
    rewrite Heq. cbn [snd].
    assert (pq_nodeId <$> pq_entries q' ≡ₚ v :: ex_ids st) as Hids
        by (unfold ex_ids; rewrite Hperm; reflexivity).
    assert (forall w, aget false (aset (ex_inOpenSet st) v true) w = true
                      <-> ex_open st w \/ w = v) as Hopen'.
    { intros w. rewrite aget_aset. unfold ex_open.
      destruct (decide (v = w /\ 0 <= v < Z.of_nat (length (ex_inOpenSet st))))
        as [[Hvw _]|Hn]; [split; auto|].
      split; [tauto|]. intros [Hw|Hw]; [exact Hw|].
      exfalso. apply Hn. split; [auto|].
      rewrite (exp_inOpenSet st Hst). lia. }
    constructor; unfold ex_open, ex_closed, ex_ids;
      cbn [ex_gScore ex_inClosedSet ex_inOpenSet ex_openSet ex_explored];
      rewrite ?length_aset; try apply Hst; try assumption.
    + rewrite Hcap'. apply Hst.
    + rewrite Hids. apply list.NoDup_cons. split; [exact Hfresh|apply Hst].
    + intros w. rewrite Hids, Hopen', elem_of_cons, (exp_ids st Hst). tauto.
    + intros w. rewrite Hopen'. intros [Hw|Hw] Hc.
      * exact (exp_disjoint st Hst w Hw Hc).
      * rewrite Hw in Hc. congruence.
    + destruct (exp_first st Hst) as [[Hnil _]|Hfirst]; [|right; exact Hfirst].
      rewrite Hnil in Hu. inversion Hu.
    + intros w. rewrite Hopen'. intros [Hw| ->]; [|right; exact Hreached].
      apply (exp_reached_open st Hst), Hw.
Qed.

Lemma explore_relax_explored (st : Exploration F) (u i : Z) :
  ex_explored (explore_relax g t u st i) = ex_explored st
  /\ ex_inClosedSet (explore_relax g t u st i) = ex_inClosedSet st.
Proof.
  unfold explore_relax.
  repeat match goal with
         | |- context [if ?b then _ else _] => destruct b
         end; split; reflexivity.
Qed.

Lemma exploring_relax_all (st : Exploration F) (u : Z) :
  exploring st -> u ∈ ex_explored st ->
  let st' := foldl (explore_relax g t u) st (seqZ 0 (edgeCount_at g u)) in
  exploring st' /\ ex_explored st' = ex_explored st
  /\ ex_inClosedSet st' = ex_inClosedSet st.
Proof.
  intros Hst Hu.
  apply (foldl_preserves _
    (fun a => exploring a /\ ex_explored a = ex_explored st
              /\ ex_inClosedSet a = ex_inClosedSet st)).
  - auto.
  - intros a i Hi (Ha & He & Hc). apply elem_of_seqZ_0 in Hi.
    destruct (explore_relax_explored a u i) as [He' Hc'].
    split; [apply exploring_relax; [exact Hi|exact Ha|rewrite He; exact Hu]|].
    split; congruence.
Qed.

(** *** Popping and exploring a node *)

(** The state after [currentId] was popped, closed and recorded. *)
Definition explored_one (st : Exploration F) (u : Z) (q : PriorityQueue F)
  : Exploration F :=
  mkExploration (ex_gScore st) (aset (ex_inClosedSet st) u true)
                (aset (ex_inOpenSet st) u false) q (ex_explored st ++ [u]).

Lemma exploring_pop (st : Exploration F) (u : Z) (f : F) (q : PriorityQueue F) :
  exploring st -> pq_pop (ex_openSet st) = Some (u, f, q) ->
  Z.of_nat (length (ex_explored st)) < maxNodes ->
  aget false (ex_inClosedSet st) u = false
  /\ 0 <= u < nodeCount g
  /\ (u ∉ ex_explored st)
  /\ (ex_explored st = [] -> u = s)
  /\ (ex_explored st <> [] ->
      reached_before (ex_explored st) (length (ex_explored st)) u)
  /\ (u <> t -> exploring (explored_one st u q)).
Proof.
  intros Hst Hpop Hroom.
  assert (0 < pq_size (ex_openSet st)) as Hpos.
  { destruct (decide (0 < pq_size (ex_openSet st))) as [Hp|Hp]; [exact Hp|].
    rewrite pq_pop_None in Hpop; [discriminate|].
    destruct (exp_wf st Hst) as [Hsz _]. lia. }
  destruct (pq_pop_Some (ex_openSet st) (exp_wf st Hst) Hpos)
    as (q' & Heq & Hwf' & Hsize' & Hcap' & Hperm).
  rewrite Heq in Hpop. injection Hpop as Hu Hf <-.
  assert (pq_at (pq_nodes (ex_openSet st)) 0 = mkPQNode u f) as Hroot
      by (destruct (pq_at (pq_nodes (ex_openSet st)) 0); simpl in *; congruence).
  rewrite Hroot in Hperm. clear Heq Hu Hf Hroot.
  assert (ex_ids st ≡ₚ u :: (pq_nodeId <$> pq_entries q')) as Hids.
  { unfold ex_ids. rewrite Hperm. reflexivity. }
  pose proof (exp_ids_NoDup st Hst) as Hnd. rewrite Hids in Hnd.
  apply list.NoDup_cons in Hnd as [Hfresh Hnd'].
  assert (ex_open st u) as Hopen.
  { apply (exp_ids st Hst). rewrite Hids. apply elem_of_cons. auto. }
  pose proof (ex_open_range st u Hst Hopen) as Hur.
  pose proof (exp_disjoint st Hst u Hopen) as Hnc.
  assert (aget false (ex_inClosedSet st) u = false) as Hf
      by (unfold ex_closed in Hnc; destruct (aget false (ex_inClosedSet st) u); congruence).
  assert (u ∉ ex_explored st) as Hnew
      by (intros Hin; apply Hnc, (exp_closed st Hst), Hin).
  assert (ex_explored st = [] -> u = s) as Hfirst.
  { intros Hnil. destruct (exp_first st Hst) as [[_ Hone]|Hl].
    - assert (u ∈ ex_ids st) as Hin by (apply (exp_ids st Hst), Hopen).
      rewrite Hone in Hin. apply list_elem_of_singleton in Hin. exact Hin.
    - rewrite Hnil in Hl. discriminate. }
  assert (ex_explored st <> [] ->
          reached_before (ex_explored st) (length (ex_explored st)) u) as Hreach.
  { intros Hne. destruct (exp_reached_open st Hst u Hopen) as [[Hnil _]|Hr];
      [contradiction|exact Hr]. }
  split; [exact Hf|]. split; [exact Hur|]. split; [exact Hnew|].
  split; [exact Hfirst|]. split; [exact Hreach|]. intros Hut.
  assert (forall v, aget false (aset (ex_inOpenSet st) u false) v = true
                    <-> ex_open st v /\ v <> u) as Hopen'.
  { intros v. rewrite aget_aset. unfold ex_open.
    destruct (decide _) as [[-> _]|Hn].
    - split; [discriminate|tauto].
    - split; [|tauto]. intros Hv. split; [exact Hv|].
      intros ->. apply Hn. split; [reflexivity|].
      rewrite (exp_inOpenSet st Hst). lia. }
  assert (forall v, aget false (aset (ex_inClosedSet st) u true) v = true
                    <-> ex_closed st v \/ v = u) as Hclosed'.
  { intros v. rewrite aget_aset. unfold ex_closed.
    destruct (decide _) as [[-> _]|Hn].
    - tauto.
    - split; [tauto|]. intros [Hv| ->]; [exact Hv|].
      exfalso. apply Hn. split; [reflexivity|].
      rewrite (exp_inClosedSet st Hst). lia. }
  constructor; unfold ex_open, ex_closed, ex_ids;
    cbn [explored_one ex_gScore ex_inClosedSet ex_inOpenSet ex_openSet ex_explored];
    rewrite ?length_aset; try apply Hst; try assumption.
  - rewrite Hcap'. apply Hst.
  - intros v. rewrite Hopen'. rewrite <- (exp_ids st Hst), Hids, elem_of_cons.
    split; [|tauto]. intros Hv. split; [tauto|]. intros ->. contradiction.
  - intros v. rewrite Hopen', Hclosed'. intros [Hv Hne] [Hc|Hc]; [|contradiction].
    exact (exp_disjoint st Hst v Hv Hc).
  - apply list.NoDup_app. split; [apply Hst|]. split; [|apply NoDup_singleton].
    intros w Hw Hw'. apply list_elem_of_singleton in Hw'. subst w. contradiction.
  - intros v. rewrite elem_of_app, list_elem_of_singleton, Hclosed', (exp_closed st Hst).
    reflexivity.
  - intros Hin. apply elem_of_app in Hin as [Hin|Hin].
    + exact (exp_goal st Hst Hin).
    + apply list_elem_of_singleton in Hin. congruence.
  - rewrite length_app. simpl length. lia.
  - right. destruct (exp_first st Hst) as [[Hnil _]|Hx].
    + rewrite Hnil. simpl. f_equal. apply Hfirst, Hnil.
    + apply lookup_app_l_Some, Hx.
  - intros v. rewrite Hopen'. intros [Hv Hne]. right.
    destruct (exp_reached_open st Hst v Hv) as [[Hnil ->]|Hr].
    + exfalso. apply Hne. symmetry. apply Hfirst, Hnil.
    + apply reached_before_app. eapply reached_before_le; [|exact Hr].
      rewrite length_app. lia.
  - intros k v Hk Hpos'.
    destruct (decide (k < length (ex_explored st))%nat) as [Hlt|Hge].
    + rewrite lookup_app_l in Hk by exact Hlt.
      apply reached_before_app, (exp_reached st Hst); assumption.
    + rewrite lookup_app_r in Hk by lia.
      destruct (k - length (ex_explored st))%nat as [|k0] eqn:Hk0; [|destruct k0; discriminate].
      simpl in Hk. injection Hk as <-.
      assert (k = length (ex_explored st)) as -> by lia.
      apply reached_before_app, Hreach. intros Hnil. rewrite Hnil in Hpos'. simpl in Hpos'. lia.
Qed.

(** *** The main loop *)

(** What the caller gets: the list of explored ids. *)
Definition traversal (explored : list Z) : Prop :=
  Z.of_nat (length explored) <= Z.max 0 maxNodes
  /\ Z.of_nat (length explored) <= nodeCount g
  /\ NoDup explored
  /\ (forall v, v ∈ explored -> 0 <= v < nodeCount g)
  /\ (0 < maxNodes -> explored !! O = Some s)
  /\ (forall k, explored !! k = Some t -> S k = length explored)
  /\ (forall k v, explored !! k = Some v -> (0 < k)%nat -> reached_before explored k v).

Lemma exploring_traversal (st : Exploration F) :
  exploring st ->
  (0 < maxNodes -> ex_explored st = [] -> False) ->
  traversal (ex_explored st).
Proof.
  intros Hst Hbegun.
  assert (forall v, v ∈ ex_explored st -> 0 <= v < nodeCount g) as Hrange.
  { intros v Hv. apply (ex_closed_range st v Hst), (exp_closed st Hst), Hv. }
  split; [apply Hst|]. split; [|split; [apply Hst|split; [exact Hrange|split; [|split]]]].
  - apply NoDup_range_length; [lia|apply Hst|exact Hrange].
  - intros Hmax. destruct (exp_first st Hst) as [[Hnil _]|Hfirst]; [|exact Hfirst].
    destruct (Hbegun Hmax Hnil).
  - intros k Hk. exfalso. apply (exp_goal st Hst). eapply list_elem_of_lookup_2, Hk.
  - apply Hst.
Qed.

Lemma explore_loop_unfold (fuel : nat) (st : Exploration F) :
  explore_loop (S fuel) g t maxNodes st
  = if decide (Z.of_nat (length (ex_explored st)) < maxNodes) then
      match pq_pop (ex_openSet st) with
      | None => Some st
      | Some (u, _, q) =>
          if aget false (ex_inClosedSet st) u then
            explore_loop fuel g t maxNodes
                         (mkExploration (ex_gScore st) (ex_inClosedSet st)
                                        (aset (ex_inOpenSet st) u false) q
                                        (ex_explored st))
          else if decide (u = t) then Some (explored_one st u q)
          else
            explore_loop fuel g t maxNodes
                         (foldl (explore_relax g t u) (explored_one st u q)
                                (seqZ 0 (edgeCount_at g u)))
      end
    else Some st.
Proof.
  cbn [explore_loop]. destruct (decide _); [|reflexivity].
  destruct (pq_pop (ex_openSet st)) as [[[u f] q]|]; reflexivity.
Qed.

Lemma explore_loop_traversal (fuel : nat) (st : Exploration F) :
  exploring st ->
  (Z.to_nat (nodeCount g) - count_true (ex_inClosedSet st) < fuel)%nat ->
  exists st', explore_loop fuel g t maxNodes st = Some st'
              /\ traversal (ex_explored st').
Proof.
  revert st. induction fuel as [|fuel IH]; intros st Hst Hfuel; [lia|].
  rewrite explore_loop_unfold.
  destruct (decide (Z.of_nat (length (ex_explored st)) < maxNodes)) as [Hroom|Hfull].
  2:{ eexists. split; [reflexivity|]. apply exploring_traversal; [exact Hst|].
      intros Hmax Hnil. rewrite Hnil in Hfull. simpl in Hfull. lia. }
  destruct (pq_pop (ex_openSet st)) as [[[u f] q]|] eqn:Hpop.
  2:{ eexists. split; [reflexivity|]. apply exploring_traversal; [exact Hst|].
      intros _ Hnil. destruct (exp_first st Hst) as [[_ Hone]|Hfirst].
      - apply pq_pop_None_size in Hpop.
        pose proof (length_pq_entries _ (exp_wf st Hst)) as Hl.
        apply (f_equal length) in Hone. unfold ex_ids in Hone.
        rewrite length_fmap in Hone. simpl in Hone. lia.
      - rewrite Hnil in Hfirst. discriminate. }
  destruct (exploring_pop st u f q Hst Hpop Hroom)
    as (Hc & Hur & Hnew & Hfirst & Hreach & Hnext).
  rewrite Hc.
  assert (0 <= u < Z.of_nat (length (ex_inClosedSet st))) as Hur'
      by (rewrite (exp_inClosedSet st Hst); lia).
  pose proof (count_true_le (aset (ex_inClosedSet st) u true)) as Hle.
  rewrite (count_true_aset _ _ Hur' Hc), length_aset, (exp_inClosedSet st Hst) in Hle.
  destruct (decide (u = t)) as [->|Hut].
  - (* the goal is explored: the loop ends *)
    eexists. split; [reflexivity|]. cbn [explored_one ex_explored].
    assert (forall v, v ∈ ex_explored st ++ [t] -> 0 <= v < nodeCount g) as Hrange.
    { intros v Hv. apply elem_of_app in Hv as [Hv|Hv].
      - apply (ex_closed_range st v Hst), (exp_closed st Hst), Hv.
      - apply list_elem_of_singleton in Hv as ->. exact Hur. }
    assert (NoDup (ex_explored st ++ [t])) as Hnd.
    { apply list.NoDup_app. split; [apply Hst|]. split; [|apply NoDup_singleton].
      intros w Hw Hw'. apply list_elem_of_singleton in Hw'. subst w. contradiction. }
    split; [rewrite length_app; simpl length; lia|].
    split; [apply NoDup_range_length; [lia|exact Hnd|exact Hrange]|].
    split; [exact Hnd|]. split; [exact Hrange|]. split; [|split].
    + intros _. destruct (exp_first st Hst) as [[Hnil _]|Hx].
      * rewrite Hnil. simpl. f_equal. apply Hfirst, Hnil.
      * apply lookup_app_l_Some, Hx.
    + intros k Hk. rewrite length_app. simpl length.
      destruct (decide (k < length (ex_explored st))%nat) as [Hlt|Hge].
      * rewrite lookup_app_l in Hk by exact Hlt. exfalso. apply Hnew.
        eapply list_elem_of_lookup_2, Hk.
      * apply lookup_lt_Some in Hk. rewrite length_app in Hk. simpl in Hk. lia.
    + intros k v Hk Hpos.
      destruct (decide (k < length (ex_explored st))%nat) as [Hlt|Hge].
      * rewrite lookup_app_l in Hk by exact Hlt.
        apply reached_before_app, (exp_reached st Hst); assumption.
      * pose proof (lookup_lt_Some _ _ _ Hk) as Hklt.
        rewrite length_app in Hklt. simpl in Hklt.
        assert (k = length (ex_explored st)) as -> by lia.
        rewrite list_lookup_middle in Hk by reflexivity. injection Hk as <-.
        apply reached_before_app, Hreach. intros Hnil. rewrite Hnil in Hpos.
        simpl in Hpos. lia.
  - (* another node: its neighbours are looked at *)
    destruct (exploring_relax_all (explored_one st u q) u (Hnext Hut)) as (Hst' & _ & Hcl).
    { cbn [explored_one ex_explored]. apply elem_of_app. right.
      apply list_elem_of_singleton. reflexivity. }
    apply IH; [exact Hst'|]. rewrite Hcl. cbn [explored_one ex_inClosedSet].
    rewrite (count_true_aset _ _ Hur' Hc). lia.
Qed.

End ExplorationFacts.

(** X15.  On a graph whose active edges lead to ids below [nodeCount], for
    start and goal ids in range, [astar_get_exploration_order] returns within one
    round of its main loop per node, and what it writes is a traversal of
    the graph from the start: at most [maxNodes] and at most [nodeCount]
    ids, all below [nodeCount] and no id twice, the start id first; every
    later id is the target of an active edge from an id written before it
    and names an active node; and the goal id, once written, is the last. *)
Theorem astar_get_exploration_order_is_a_traversal {F : Type} `{FloatOps F}
        (fuel : nat) (g : Graph F) (s t maxNodes : Z) :
  targets_in_range g ->
  0 <= s < nodeCount g -> 0 <= t < nodeCount g ->
  (Z.to_nat (nodeCount g) < fuel)%nat ->
  exists explored,
    astar_get_exploration_order fuel g s t maxNodes
    = Some (Z.of_nat (length explored), explored)
    /\ Z.of_nat (length explored) <= Z.max 0 maxNodes
    /\ Z.of_nat (length explored) <= nodeCount g
    /\ NoDup explored
    /\ (forall v, v ∈ explored -> 0 <= v < nodeCount g)
    /\ (0 < maxNodes -> explored !! O = Some s)
    /\ (forall k, explored !! k = Some t -> S k = length explored)
    /\ (forall k v, explored !! k = Some v -> (0 < k)%nat ->
                    exists (k' : nat) (u j : Z),
                      (k' < k)%nat /\ explored !! k' = Some u
                      /\ 0 <= j < edgeCount_at g u
                      /\ edge_active (edge_at g u j) = true
                      /\ edge_to (edge_at g u j) = v
                      /\ node_active (node_at g v) = true).
Proof.
  intros Htargets Hs Ht Hfuel. unfold astar_get_exploration_order.
  destruct (decide (s < 0 \/ t < 0)); [lia|].
  destruct (explore_loop_traversal g s t maxNodes Htargets Hs fuel (explore_start g s t))
    as (st' & -> & Htrav).
  - apply exploring_start; assumption.
  - lia.
  - exists (ex_explored st'). split; [reflexivity|]. exact Htrav.
Qed.


(* ===================================================================== *)
(** ** Persistence: the length of a saved file *)

Section SaveLength.
Context {F : Type} `{FloatOps F}.
Hypothesis f_bytes_length : forall x : F, length (f_bytes x) = 4%nat.

Lemma length_node_bytes (g : Graph F) (i : Z) :
  graph_wf g -> length (node_bytes (node_at g i)) = 141%nat.
Proof.
  intros Hwf. unfold node_bytes.
  rewrite !length_app, length_int_bytes, !f_bytes_length, length_bool_bytes.
  rewrite (name_clean_length _ (wf_name g Hwf i)). reflexivity.
Qed.

Lemma length_edge_bytes (e : Edge F) : length (edge_bytes e) = 13%nat.
Proof.
  unfold edge_bytes.
  rewrite !length_app, !length_int_bytes, f_bytes_length, length_bool_bytes. reflexivity.
Qed.

Lemma length_flat_map_sum {A B} (f : A -> list B) (l : list A) :
  Z.of_nat (length (flat_map f l))
  = foldr Z.add 0 ((fun x => Z.of_nat (length (f x))) <$> l).
Proof.
  induction l as [|x l IH]; [reflexivity|]. simpl.
  rewrite length_app, Nat2Z.inj_add, IH. reflexivity.
Qed.

(** X16.  For a consistent graph, and floats of four bytes, the file
    [graph_save] writes has 8 bytes of magic, 4 of node count, 141 for
    every node below [nodeCount], 4000 for the table of edge counts and 13
    for every edge slot in use: no padding of the C structs is written. *)
Theorem graph_save_length (g : Graph F) :
  graph_wf g ->
  Z.of_nat (length (graph_save g))
  = 4012 + 141 * nodeCount g
    + 13 * foldr Z.add 0 (edgeCount_at g <$> seqZ 0 (nodeCount g)).
Proof.
  intros Hwf. pose proof (wf_nodeCount g Hwf) as Hc. unfold graph_save.
  rewrite !length_app.
  rewrite (length_flat_map_const _ _ 141) by (intros; apply length_node_bytes, Hwf).
  rewrite (length_flat_map_const _ _ 4) by (intros; apply length_int_bytes).
  rewrite length_int_bytes, !length_seqZ.
  rewrite !Nat2Z.inj_add, length_flat_map_sum.
  assert (foldr Z.add 0
            ((fun i => Z.of_nat (length (flat_map (fun j => edge_bytes (edge_at g i j))
                                                  (seqZ 0 (edgeCount_at g i)))))
               <$> seqZ 0 (nodeCount g))
          = 13 * foldr Z.add 0 (edgeCount_at g <$> seqZ 0 (nodeCount g))) as ->.
  { induction (seqZ 0 (nodeCount g)) as [|i l IH]; [reflexivity|].
    cbn [fmap list_fmap foldr]. cbn [fmap] in IH. rewrite IH.
    rewrite (length_flat_map_const _ _ 13) by (intros; apply length_edge_bytes).
    rewrite length_seqZ. pose proof (wf_count g Hwf i). lia. }
  change (length magic) with 8%nat. unfold MAX_NODES in *. lia.
Qed.

End SaveLength.


(* ===================================================================== *)
(** ** The priority queue: what comes out, what goes in *)

(** Popping until the queue is empty, as a caller's loop does:
    the entries in the order they come out. *)
Fixpoint pq_drain {F} `{FloatOps F} (fuel : nat) (pq : PriorityQueue F)
  : list (PQNode F) :=
  match fuel with
  | O => []
  | S fuel' =>
      match pq_pop pq with
      | None => []
      | Some (nodeId, fScore, pq') => mkPQNode nodeId fScore :: pq_drain fuel' pq'
      end
  end.

Section QueueUse.
Context {F : Type} `{FloatOps F}.
Variable ok : F -> Prop.
Hypothesis lt_le : forall a b, ok a -> ok b -> f_lt a b = negb (f_le b a).
Hypothesis le_total : forall a b, ok a -> ok b -> f_le a b = true \/ f_le b a = true.
Hypothesis le_trans :
  forall a b c, ok a -> ok b -> ok c -> f_le a b = true -> f_le b c = true -> f_le a c = true.

Lemma heap_root_first (ns : list (PQNode F)) (size : Z) :
  heap_ordered ns size -> all_ok ok ns size ->
  forall i, 0 <= i < size -> f_le (pq_score ns 0) (pq_score ns i) = true.
Proof.
  intros Hord Hok.
  assert (forall m : nat, forall i, (Z.to_nat i <= m)%nat -> 0 <= i < size ->
                                    f_le (pq_score ns 0) (pq_score ns i) = true) as Hind.
  { induction m as [|m IH]; intros i Hm Hi.
    - replace i with 0 by lia. apply (le_refl ok le_total), Hok. lia.
    - destruct (decide (i = 0)) as [->|Hne]; [apply (le_refl ok le_total), Hok; lia|].
      pose proof (pq_parent_spec i ltac:(lia)) as Hp.
      apply (le_trans _ (pq_score ns (pq_parent i))).
      + apply Hok. lia.
      + apply Hok. lia.
      + apply Hok. lia.
      + apply IH; lia.
      + apply Hord. lia. }
  intros i Hi. apply (Hind (Z.to_nat i)); [lia|exact Hi].
Qed.

Lemma pq_pop_least (pq : PriorityQueue F) :
  pq_good ok pq -> 0 < pq_size pq ->
  exists nodeId fScore pq',
    pq_pop pq = Some (nodeId, fScore, pq')
    /\ pq_entries pq ≡ₚ mkPQNode nodeId fScore :: pq_entries pq'
    /\ ok fScore
    /\ (forall e, e ∈ pq_entries pq -> f_le fScore (pq_fScore e) = true)
    /\ pq_good ok pq'
    /\ pq_size pq' = pq_size pq - 1.
Proof.
  intros Hgood Hpos. pose proof Hgood as (Hwf & Hord & Hok).
  destruct (pq_pop_Some pq Hwf Hpos) as (pq' & Heq & _ & Hsize & _ & Hperm).
  exists (pq_nodeId (pq_at (pq_nodes pq) 0)), (pq_fScore (pq_at (pq_nodes pq) 0)), pq'.
  split; [exact Heq|]. split; [|split; [|split; [|split]]].
  - rewrite Hperm. destruct (pq_at (pq_nodes pq) 0); reflexivity.
  - apply (Hok 0). lia.
  - intros e He. apply list_elem_of_lookup_1 in He as [k Hk].
    assert (Z.of_nat k < pq_size pq) as Hlt.
    { apply lookup_lt_Some in Hk. rewrite <- length_pq_entries by exact Hwf. lia. }
    assert (e = pq_at (pq_nodes pq) (Z.of_nat k)) as ->.
    { pose proof (pq_entries_lookup pq (Z.of_nat k) Hwf ltac:(lia)) as Hl.
      rewrite Nat2Z.id in Hl. congruence. }
    apply (heap_root_first _ _ Hord Hok). lia.
  - eapply (pq_pop_good ok lt_le le_total le_trans); eassumption.
  - exact Hsize.
Qed.

(** X17.  In a queue that is a heap of comparable scores (no NaN), [pq_pop]
    on a non-empty queue returns an entry whose score is not above the
    score of any entry, and removes that entry and no other; the queue
    stays a heap. *)
Theorem pq_pop_returns_least (pq : PriorityQueue F) :
  pq_good ok pq -> 0 < pq_size pq ->
  exists nodeId fScore pq',
    pq_pop pq = Some (nodeId, fScore, pq')
    /\ pq_entries pq ≡ₚ mkPQNode nodeId fScore :: pq_entries pq'
    /\ (forall e, e ∈ pq_entries pq -> f_le fScore (pq_fScore e) = true)
    /\ pq_good ok pq'.
Proof.
  intros Hgood Hpos.
  destruct (pq_pop_least pq Hgood Hpos) as (n & f & pq' & H1 & H2 & _ & H3 & H4 & _).
  exists n, f, pq'. auto.
Qed.

(** X18.  Popping a queue that is a heap of comparable scores (no NaN)
    until it is empty returns every entry once, in ascending order of
    score. *)
Theorem pq_pops_come_out_sorted (pq : PriorityQueue F) :
  pq_good ok pq ->
  let out := pq_drain (Z.to_nat (pq_size pq)) pq in
  out ≡ₚ pq_entries pq
  /\ forall (i j : nat) (e1 e2 : PQNode F),
       (i <= j)%nat -> out !! i = Some e1 -> out !! j = Some e2 ->
       f_le (pq_fScore e1) (pq_fScore e2) = true.
Proof.
  cbv zeta. remember (Z.to_nat (pq_size pq)) as n eqn:Hn. revert pq Hn.
  induction n as [|n IH]; intros pq Hn Hgood.
  - pose proof Hgood as (Hwf & _). simpl. split.
    + unfold pq_entries. rewrite <- Hn. reflexivity.
    + intros i j e1 e2 _ Hi. discriminate.
  - destruct (pq_pop_least pq Hgood ltac:(lia))
      as (nodeId & fScore & pq' & Heq & Hperm & Hokf & Hleast & Hgood' & Hsize).
    cbn [pq_drain]. rewrite Heq.
    destruct (IH pq' ltac:(lia) Hgood') as [Hperm' Hsorted].
    split; [rewrite Hperm, Hperm'; reflexivity|].
    intros i j e1 e2 Hij Hi Hj.
    destruct i as [|i].
    + injection Hi as <-. cbn [pq_fScore]. apply Hleast.
      destruct j as [|j].
      * injection Hj as <-. rewrite Hperm. apply elem_of_cons. auto.
      * rewrite Hperm, <- Hperm'. apply elem_of_cons. right.
        eapply list_elem_of_lookup_2, Hj.
    + destruct j as [|j]; [lia|].
      apply (Hsorted i j); [lia|exact Hi|exact Hj].
Qed.

End QueueUse.

Section QueueInsert.
Context {F : Type} `{FloatOps F}.

(** X19.  [pq_push] on a well-formed queue succeeds exactly when the queue
    holds fewer entries than its capacity; it then adds the given entry and
    nothing else, and otherwise it leaves the queue as it was. *)
Theorem pq_push_adds_one_entry (pq : PriorityQueue F) (nodeId : Z) (fScore : F) :
  pq_wf pq ->
  (fst (pq_push pq nodeId fScore) = true <-> pq_size pq < pq_capacity pq)
  /\ (pq_size pq < pq_capacity pq ->
      pq_entries (snd (pq_push pq nodeId fScore))
      ≡ₚ mkPQNode nodeId fScore :: pq_entries pq
      /\ pq_size (snd (pq_push pq nodeId fScore)) = pq_size pq + 1)
  /\ (pq_size pq >= pq_capacity pq -> snd (pq_push pq nodeId fScore) = pq).
Proof.
  intros Hwf. destruct (decide (pq_size pq < pq_capacity pq)) as [Hroom|Hfull].
  - destruct (pq_push_accepts pq nodeId fScore Hwf Hroom)
      as (pq' & -> & _ & Hsize & _ & Hperm). cbn [fst snd].
    split; [tauto|]. split; [auto|lia].
  - rewrite pq_push_rejects by lia. cbn [fst snd].
    split; [split; [discriminate|lia]|]. split; [lia|reflexivity].
Qed.

(** X20.  [pq_decrease_priority] on a well-formed queue: when the node has
    an entry, the number of entries stays, and the first entry of the node
    gets the new score if that is lower than its score, while otherwise
    nothing changes at all; when the node has no entry, the call does what
    [pq_push] does. *)
Theorem pq_decrease_priority_lowers_or_inserts (pq : PriorityQueue F) (nodeId : Z)
        (newFScore : F) :
  pq_wf pq ->
  let pq' := pq_decrease_priority pq nodeId newFScore in
  (nodeId ∉ pq_nodeId <$> pq_entries pq -> pq' = snd (pq_push pq nodeId newFScore))
  /\ (nodeId ∈ pq_nodeId <$> pq_entries pq ->
      exists i old,
        pq_find pq nodeId = Some i
        /\ pq_entries pq !! Z.to_nat i = Some (mkPQNode nodeId old)
        /\ pq_size pq' = pq_size pq
        /\ if f_lt newFScore old
           then pq_entries pq'
                ≡ₚ <[Z.to_nat i := mkPQNode nodeId newFScore]> (pq_entries pq)
           else pq' = pq).
Proof.
  intros Hwf. cbv zeta. split.
  - intros Habsent. unfold pq_decrease_priority.
    destruct (pq_find pq nodeId) as [i|] eqn:Hfind; [|reflexivity].
    exfalso. apply Habsent, (pq_find_is_Some pq nodeId Hwf). eauto.
  - intros Hpresent. apply (pq_find_is_Some pq nodeId Hwf) in Hpresent as [i Hfind].
    pose proof (pq_find_Some pq nodeId i Hfind) as [Hi Hid].
    destruct (pq_decrease_priority_present pq nodeId i newFScore Hwf Hfind)
      as (_ & Hsize & _ & Hent).
    exists i, (pq_fScore (pq_at (pq_nodes pq) i)).
    split; [exact Hfind|]. split; [|split; [exact Hsize|exact Hent]].
    rewrite (pq_entries_lookup pq i Hwf Hi). f_equal.
    destruct (pq_at (pq_nodes pq) i); simpl in *. congruence.
Qed.

End QueueInsert.

(* ===================================================================== *)
(** ** The search finds a route when there is one *)

Section SearchComplete.
Context {F : Type} `{FloatOps F}.
Variable g : Graph F.
Variables s t : Z.
Variable cfg : AStarConfig F.
Hypothesis Htargets : targets_in_range g.
Hypothesis Hs : 0 <= s < nodeCount g.
Hypothesis Ht : 0 <= t < nodeCount g.

(** No path of at most [nodeCount] edges from the start reaches [FLT_MAX],
    the score of the nodes not seen yet. *)
Hypothesis Hfinite :
  forall es v, walk g s es v -> (length es <= Z.to_nat (nodeCount g))%nat ->
               f_lt (path_cost es) FLT_MAX = true.

(** What holds of the nodes seen so far; [P u j] says that slot [j] of the
    closed node [u] has been through the neighbour loop. *)
Record swept (P : Z -> Z -> Prop) (st : Search F) : Prop := {
  sw_start : is_open st s \/ is_closed st s;
  sw_fresh : forall v, 0 <= v < nodeCount g -> ~ is_open st v -> ~ is_closed st v ->
                       G st v = FLT_MAX;
  sw_reach : forall u j, is_closed st u -> 0 <= j < edgeCount_at g u -> P u j ->
                         edge_active (edge_at g u j) = true ->
                         node_active (node_at g (edge_to (edge_at g u j))) = true ->
                         is_open st (edge_to (edge_at g u j))
                         \/ is_closed st (edge_to (edge_at g u j));
  sw_goal : ~ is_closed st t;
}.

Lemma swept_start : swept (fun _ _ => True) (astar_start g s t cfg).
Proof.
  pose proof (start_is_open g s t cfg Hs Ht) as Hopen.
  pose proof (start_is_closed g s t cfg Hs) as Hclosed.
  constructor.
  - left. apply Hopen. reflexivity.
  - intros v Hv Hno _. rewrite start_G by assumption.
    destruct (decide (v = s)) as [->|_]; [exfalso; apply Hno, Hopen; reflexivity|].
    destruct (decide (0 <= v < nodeCount g)); [reflexivity|lia].
  - intros u j Hu. destruct (Hclosed u Hu).
  - apply Hclosed.
Qed.

Lemma swept_close (st : Search F) (u : Z) (f : F) (q : PriorityQueue F) :
  shape g st -> swept (fun _ _ => True) st ->
  pq_pop (openSet st) = Some (u, f, q) -> u <> t ->
  swept (fun u' _ => u' <> u) (after_close (after_pop st u q) u).
Proof.
  intros Hshape Hsw Hpop Hut.
  destruct (shape_pop g st u f q Hshape Hpop) as (Hopen & _ & _ & _ & _).
  pose proof (is_open_range g st u Hshape Hopen) as Hu.
  pose proof (closed_after_close g s t Hs Ht st u q) as Hcl.
  pose proof (open_after_pop g s t Hs Ht st u q) as Hop.
  assert (forall v, is_open st v \/ is_closed st v ->
                    is_open (after_close (after_pop st u q) u) v
                    \/ is_closed (after_close (after_pop st u q) u) v) as Hmono.
  { intros v [Hv|Hv].
    - destruct (decide (v = u)) as [->|Hne].
      + right. apply Hcl; auto.
      + left. apply Hop; auto.
    - right. apply Hcl; auto. }
  constructor.
  - apply Hmono, (sw_start _ st Hsw).
  - intros v Hv Hno Hnc.
    change (G (after_close (after_pop st u q) u) v) with (G st v).
    apply (sw_fresh _ st Hsw); [exact Hv| |].
    + intros Ho. destruct (decide (v = u)) as [->|Hne].
      * apply Hnc, Hcl; auto.
      * apply Hno, Hop; auto.
    + intros Hc. apply Hnc, Hcl; auto.
  - intros u' j Hu' Hj Hne Hact Hnode. apply Hmono.
    apply Hcl in Hu' as [Hu'|Hu']; [|contradiction|assumption..].
    apply (sw_reach _ st Hsw u' j); auto.
  - intros Hc. apply Hcl in Hc as [Hc|Hc]; [|congruence|assumption..].
    exact (sw_goal _ st Hsw Hc).
Qed.

(** A round of the neighbour loop that stores nothing had a reason the
    invariants know: without one the call of the queue would be on
    record. *)
Lemma relax_idle (st : Search F) (u i : Z) :
  relax g t cfg u st i = st ->
  edge_active (edge_at g u i) = true ->
  node_active (node_at g (edge_to (edge_at g u i))) = true ->
  is_closed st (edge_to (edge_at g u i))
  \/ f_lt (f_add (G st u) (edge_weight (edge_at g u i)))
          (G st (edge_to (edge_at g u i))) = false.
Proof.
  intros Heq Hact Hnode. unfold relax in Heq. rewrite Hact, Hnode in Heq.
  cbn [negb] in Heq. unfold is_closed, G.
  destruct (aget false (inClosedSet st) (edge_to (edge_at g u i))); [left; reflexivity|].
  destruct (f_lt _ _); [|right; reflexivity].
  exfalso. apply (f_equal (fun x => length (queue_calls x))) in Heq.
  destruct (negb _) in Heq.
  - destruct (pq_push _ _ _) in Heq. cbn [queue_calls] in Heq.
    rewrite length_app in Heq. simpl in Heq. lia.
  - cbn [queue_calls] in Heq. rewrite length_app in Heq. simpl in Heq. lia.
Qed.

Lemma swept_relax (st : Search F) (u i : Z) (done : list Z) :
  shape g st -> traced g s st -> is_closed st u -> 0 <= i < edgeCount_at g u ->
  swept (fun u' j => u' <> u \/ j ∈ done) st ->
  swept (fun u' j => u' <> u \/ j ∈ done ++ [i]) (relax g t cfg u st i).
Proof.
  intros Hshape Htr Hcu Hi Hsw.
  pose proof (is_closed_range g st u Hshape Hcu) as Hu.
  pose proof (count_true_le (inClosedSet st)) as Hcle.
  rewrite (shape_inClosedSet g st Hshape) in Hcle.
  assert (edge_active (edge_at g u i) = true ->
          node_active (node_at g (edge_to (edge_at g u i))) = true ->
          f_lt (f_add (G st u) (edge_weight (edge_at g u i))) FLT_MAX = true) as Hlt.
  { intros Hact Hnode.
    destruct (tr_closed g s st Htr u Hcu) as (es & Hes & Hlen).
    rewrite <- (trail_cost g s st u es (tr_start g s st Htr) Hes), <- path_cost_snoc.
    apply (Hfinite _ (edge_to (edge_at g u i))).
    - apply walk_snoc; try assumption.
      exact (trail_walk g s st u es Hes).
    - rewrite length_app. simpl. lia. }
  destruct (relax_effect g s t cfg Htargets Hs st u i Hshape Hu Hi)
    as [Heq|(Hact & Hnode & Hnv & Hv & Hrel)].
  - rewrite Heq. constructor.
    + exact (sw_start _ st Hsw).
    + exact (sw_fresh _ st Hsw).
    + intros u' j Hu' Hj HP Hact Hnode.
      destruct HP as [Hne|Hin]; [apply (sw_reach _ st Hsw u' j); auto|].
      apply elem_of_app in Hin as [Hin|Hin]; [apply (sw_reach _ st Hsw u' j); auto|].
      apply list_elem_of_singleton in Hin as ->.
      destruct (decide (u' = u)) as [->|Hne]; [|apply (sw_reach _ st Hsw u' i); auto].
      destruct (relax_idle st u i Heq Hact Hnode) as [Hc|Hge]; [right; exact Hc|].
      set (v := edge_to (edge_at g u i)) in *.
      pose proof (Htargets u i Hu Hi Hact Hnode) as Hv. fold v in Hv.
      destruct (aget false (inOpenSet st) v) eqn:Ho; [left; exact Ho|].
      destruct (aget false (inClosedSet st) v) eqn:Hc; [right; exact Hc|].
      exfalso. rewrite (sw_fresh _ st Hsw v Hv) in Hge.
      * rewrite Hlt in Hge by assumption. discriminate.
      * unfold is_open. congruence.
      * unfold is_closed. congruence.
    + exact (sw_goal _ st Hsw).
  - set (e := edge_at g u i) in *. set (v := edge_to e) in *.
    set (st' := relax g t cfg u st i) in *.
    destruct Hrel as [HG _ Hcl Hop _ _ _ _ _ _].
    assert (forall x, is_closed st' x <-> is_closed st x) as Hclosed
        by (intros x; unfold is_closed; rewrite Hcl; reflexivity).
    assert (forall x, is_open st x \/ is_closed st x ->
                      is_open st' x \/ is_closed st' x) as Hmono.
    { intros x [Hx|Hx]; [left; apply Hop; auto|right; apply Hclosed, Hx]. }
    constructor.
    + apply Hmono, (sw_start _ st Hsw).
    + intros x Hx Hno Hnc.
      assert (x <> v) as Hxv by (intros ->; apply Hno, Hop; auto).
      unfold G. rewrite HG, aget_aset_ne by congruence.
      apply (sw_fresh _ st Hsw); [exact Hx| |].
      * intros Ho. apply Hno, Hop. auto.
      * intros Hc. apply Hnc, Hclosed, Hc.
    + intros u' j Hu' Hj HP Hact' Hnode'. apply Hclosed in Hu'.
      assert (u' = u /\ j = i -> is_open st' (edge_to (edge_at g u' j))) as Hnew.
      { intros [-> ->]. apply Hop. right. reflexivity. }
      destruct HP as [Hne|Hin]; [apply Hmono, (sw_reach _ st Hsw u' j); auto|].
      apply elem_of_app in Hin as [Hin|Hin];
        [apply Hmono, (sw_reach _ st Hsw u' j); auto|].
      apply list_elem_of_singleton in Hin as ->.
      destruct (decide (u' = u)) as [->|Hne];
        [left; apply Hnew; auto|apply Hmono, (sw_reach _ st Hsw u' i); auto].
    + intros Hc. apply Hclosed in Hc. exact (sw_goal _ st Hsw Hc).
Qed.

Lemma swept_relax_all (st : Search F) (u : Z) :
  shape g st -> traced g s st -> is_closed st u ->
  swept (fun u' _ => u' <> u) st ->
  swept (fun _ _ => True) (foldl (relax g t cfg u) st (seqZ 0 (edgeCount_at g u))).
Proof.
  intros Hshape Htr Hcu Hsw.
  pose proof (is_closed_range g st u Hshape Hcu) as Hu.
  assert (let st' := foldl (relax g t cfg u) st (seqZ 0 (edgeCount_at g u)) in
          shape g st' /\ traced g s st' /\ is_closed st' u
          /\ swept (fun u' j => u' <> u \/ j ∈ seqZ 0 (edgeCount_at g u)) st')
    as (_ & _ & _ & Hall).
  { apply (foldl_invariant _
      (fun done a => shape g a /\ traced g s a /\ is_closed a u
                     /\ swept (fun u' j => u' <> u \/ j ∈ done) a)).
    - split; [exact Hshape|]. split; [exact Htr|]. split; [exact Hcu|].
      destruct Hsw as [H1 H2 H3 H4]. constructor; try assumption.
      intros u' j Hu' Hj [Hne|Hin]; [apply H3; assumption|inversion Hin].
    - intros done i rest a Hl (Ha & Hb & Hc & Hd).
      assert (0 <= i < edgeCount_at g u) as Hi.
      { apply elem_of_seqZ_0. rewrite Hl. apply elem_of_app. right.
        apply elem_of_cons. left. reflexivity. }
      split; [apply shape_relax; assumption|].
      split; [apply (traced_relax g s t cfg Htargets Hs); assumption|].
      split; [unfold is_closed; rewrite relax_inClosedSet; exact Hc|].
      apply swept_relax; assumption. }
  destruct Hall as [H1 H2 H3 H4]. constructor; try assumption.
  intros u' j Hu' Hj _. apply H3; [exact Hu'|exact Hj|].
  destruct (decide (u' = u)) as [->|Hne]; [right; apply elem_of_seqZ_0, Hj|left; exact Hne].
Qed.

(** With the queue empty, every node that a path from the start leads to
    is closed. *)
Lemma swept_all_closed (st : Search F) :
  shape g st -> swept (fun _ _ => True) st -> pq_size (openSet st) = 0 ->
  forall es v, walk g s es v -> is_closed st v.
Proof.
  intros Hshape Hsw Hsize.
  assert (forall v, ~ is_open st v) as Hnone.
  { intros v Hv. apply (shape_open g st Hshape) in Hv.
    pose proof (length_pq_entries _ (shape_wf g st Hshape)) as Hl.
    unfold open_ids in Hv. destruct (pq_entries (openSet st)); [inversion Hv|].
    simpl in Hl. lia. }
  assert (forall v, is_open st v \/ is_closed st v -> is_closed st v) as Hc
      by (intros v [Hv|Hv]; [destruct (Hnone v Hv)|exact Hv]).
  induction 1 as [|es u j _ IH Hj Hact Hnode].
  - apply Hc, (sw_start _ st Hsw).
  - apply Hc, (sw_reach _ st Hsw u j); auto.
Qed.

Lemma astar_loop_complete (fuel : nat) (st : Search F) :
  shape g st -> traced g s st -> swept (fun _ _ => True) st ->
  (Z.to_nat (nodeCount g) - count_true (inClosedSet st) < fuel)%nat ->
  (exists es, walk g s es t) ->
  exists result st',
    astar_loop fuel g s t cfg st = Some (result, st') /\ found result = true.
Proof.
  intros Hshape Htr Hsw Hfuel Hroute. revert st Hshape Htr Hsw Hfuel.
  induction fuel as [|fuel IH]; intros st Hshape Htr Hsw Hfuel; [lia|].
  rewrite astar_loop_unfold.
  pose proof (count_true_le (inClosedSet st)) as Hcle.
  rewrite (shape_inClosedSet g st Hshape) in Hcle.
  destruct (pq_pop (openSet st)) as [[[u f] q]|] eqn:Hpop.
  2:{ exfalso. destruct Hroute as [es Hes].
      apply (sw_goal _ st Hsw).
      apply (swept_all_closed st Hshape Hsw (pq_pop_None_size _ Hpop) es t Hes). }
  destruct (shape_pop g st u f q Hshape Hpop) as (Hopen & Hnc & _ & _ & Hshape2).
  destruct (traced_close g s t Hs Ht st u f q Hshape Htr Hpop)
    as (Htr2 & Hcu & Hcount & _ & _).
  pose proof (count_true_le (inClosedSet (after_close (after_pop st u q) u))) as Hcle2.
  rewrite (shape_inClosedSet g _ Hshape2), Hcount in Hcle2.
  destruct (decide (u = t)) as [->|Hut].
  - destruct (tr_open g s st Htr t Hopen) as (es & Hes & Hlen).
    eexists _, _. split; [reflexivity|].
    rewrite (reconstruct_path_trail g s t Htargets Hs st es Hes) by lia.
    reflexivity.
  - unfold is_closed in Hnc.
    destruct (aget false (inClosedSet st) u) eqn:Hc; [contradiction|].
    pose proof (swept_close st u f q Hshape Hsw Hpop Hut) as Hsw2.
    destruct (traced_relax_all g s t cfg Htargets Hs _ u Hshape2 Htr2 Hcu)
      as [Hshape3 Htr3].
    apply IH; [exact Hshape3|exact Htr3| |].
    + apply swept_relax_all; assumption.
    + rewrite relax_all_inClosedSet, Hcount. lia.
Qed.

End SearchComplete.


Lemma astar_find_path_complete {F : Type} `{FloatOps F}
      (fuel : nat) (g : Graph F) (s t : Z) (config : option (AStarConfig F))
      (run : SearchRun F) :
  targets_in_range g ->
  0 <= s < nodeCount g -> 0 <= t < nodeCount g ->
  (Z.to_nat (nodeCount g) < fuel)%nat ->
  (forall es v, walk g s es v -> (length es <= Z.to_nat (nodeCount g))%nat ->
                f_lt (path_cost es) FLT_MAX = true) ->
  (exists es, walk g s es t) ->
  astar_find_path fuel g s t config = Some run ->
  found (run_result run) = true.
Proof.
  intros Htargets Hs Ht Hfuel Hfinite Hroute. unfold astar_find_path.
  destruct (decide (s < 0 \/ t < 0 \/ s >= nodeCount g \/ t >= nodeCount g)); [lia|].
  set (cfg := default astar_default_config config).
  destruct (astar_loop_complete g s t cfg Htargets Hs Ht Hfinite fuel
                                (astar_start g s t cfg))
    as (result & st' & -> & Hfound).
  - apply shape_start, Hs.
  - apply traced_start; assumption.
  - apply swept_start; assumption.
  - lia.
  - exact Hroute.
  - intros [= <-]. exact Hfound.
Qed.

(** *** Checking the costs of the short paths of a given graph *)

Section ShortPaths.
Context {F : Type} `{FloatOps F}.

(** The paths of at most [k] edges from [s], each with the node it ends
    in. *)
Fixpoint walks (g : Graph F) (s : Z) (k : nat) : list (list (Edge F) * Z) :=
  match k with
  | O => [([], s)]
  | S k' =>
      walks g s k'
      ++ flat_map
           (fun w =>
              flat_map
                (fun j =>
                   let e := edge_at g (snd w) j in
                   if edge_active e && node_active (node_at g (edge_to e))
                   then [(fst w ++ [e], edge_to e)]
                   else [])
                (seqZ 0 (edgeCount_at g (snd w))))
           (walks g s k')
  end.

Definition finite_check (g : Graph F) (s : Z) : bool :=
  forallb (fun w => f_lt (path_cost (fst w)) FLT_MAX)
          (walks g s (Z.to_nat (nodeCount g))).

Lemma walks_complete (g : Graph F) (s : Z) (es : list (Edge F)) (v : Z) :
  walk g s es v -> forall k, (length es <= k)%nat -> (es, v) ∈ walks g s k.
Proof.
  induction 1 as [|es u j _ IH Hj Hact Hnode]; intros k Hk.
  - induction k as [|k IHk]; [apply list_elem_of_singleton; reflexivity|].
    cbn [walks]. apply elem_of_app. left. apply IHk. simpl. lia.
  - rewrite length_app in Hk. simpl in Hk.
    destruct k as [|k]; [lia|]. cbn [walks]. apply elem_of_app. right.
    apply list_elem_of_In, in_flat_map. exists (es, u).
    split; [apply list_elem_of_In, IH; lia|].
    apply in_flat_map. exists j. split; [apply list_elem_of_In, elem_of_seqZ_0, Hj|].
    cbn [fst snd]. rewrite Hact, Hnode. left. reflexivity.
Qed.

Lemma finite_check_sound (g : Graph F) (s : Z) :
  finite_check g s = true ->
  forall es v, walk g s es v -> (length es <= Z.to_nat (nodeCount g))%nat ->
               f_lt (path_cost es) FLT_MAX = true.
Proof.
  intros Hcheck es v Hwalk Hlen. unfold finite_check in Hcheck.
  rewrite forallb_forall in Hcheck.
  apply (Hcheck (es, v)), list_elem_of_In, walks_complete; assumption.
Qed.

End ShortPaths.

(* ===================================================================== *)
(** ** The route search of the application *)

Section RouteSearchFacts.
Context {F : Type} `{FloatOps F}.

(** The text occurs in the name of the active node [i]. *)
Definition named (g : Graph F) (text : list byte) (i : Z) : Prop :=
  0 <= i < nodeCount g
  /\ node_active (node_at g i) = true
  /\ name_occurs text (node_name (node_at g i)).

(** The text occurs in the name of no active node. *)
Definition unknown (g : Graph F) (text : list byte) : Prop :=
  forall i, 0 <= i < nodeCount g -> node_active (node_at g i) = true ->
            ~ name_occurs text (node_name (node_at g i)).

Lemma graph_find_node_by_name_Some (g : Graph F) (name : list byte) (r : Z) :
  graph_wf g ->
  graph_find_node_by_name g name = Some r ->
  (r = -1 /\ unknown g name) \/ named g name r.
Proof.
  intros Hwf. unfold graph_find_node_by_name.
  destruct (find _ (seqZ 0 (nodeCount g))) as [i|] eqn:Hexact.
  - intros [= <-]. apply find_seqZ_Some in Hexact as (Hi & Hhit & _).
    apply exact_pass_true in Hhit as [Hact Heq].
    right. split; [exact Hi|]. split; [exact Hact|]. apply name_occurs_exact, Heq.
  - intros Hpartial.
    apply find_partial_spec in Hpartial
      as [[-> Hnone]|(done & rest & Hsplit & Hact & Hocc & _)].
    + left. split; [reflexivity|]. intros i Hi. apply Hnone, elem_of_seqZ_0, Hi.
    + apply seqZ_split in Hsplit as [Hr _]. right.
      split; [exact Hr|]. split; [exact Hact|exact Hocc].
    + apply (wf_name g Hwf).
    + intros i Hi. apply elem_of_seqZ_0 in Hi. lia.
Qed.

(** What [astar_get_exploration_order] gives the application. *)
Lemma exploration_for_display (fuel : nat) (g : Graph F) (s t : Z) :
  targets_in_range g ->
  0 <= s < nodeCount g -> 0 <= t ->
  (Z.to_nat (nodeCount g) < fuel)%nat ->
  exists written,
    astar_get_exploration_order fuel g s t MAX_NODES
    = Some (Z.of_nat (length written), written)
    /\ 1 <= Z.of_nat (length written) <= nodeCount g
    /\ written !! O = Some s.
Proof.
  intros Htargets Hs Ht Hfuel. unfold astar_get_exploration_order.
  destruct (decide (s < 0 \/ t < 0)); [lia|].
  destruct (explore_loop_traversal g s t MAX_NODES Htargets Hs fuel (explore_start g s t))
    as (st' & -> & _ & Hle & _ & _ & Hfirst & _).
  - apply exploring_start; assumption.
  - lia.
  - exists (ex_explored st'). split; [reflexivity|].
    assert (ex_explored st' !! O = Some s) as H0
        by (apply Hfirst; unfold MAX_NODES; lia).
    split; [|exact H0].
    apply lookup_lt_Some in H0. lia.
Qed.

(** What [astar_find_path] gives the application. *)
Lemma route_for_display (fuel : nat) (g : Graph F) (s t : Z) :
  targets_in_range g ->
  0 <= s < nodeCount g -> 0 <= t < nodeCount g ->
  (Z.to_nat (nodeCount g) < fuel)%nat ->
  exists result stats calls,
    astar_find_path fuel g s t (Some astar_default_config)
    = Some (mkRun result (Some stats) calls)
    /\ search_outcome g s t result stats.
Proof.
  intros Htargets Hs Ht Hfuel. unfold astar_find_path.
  destruct (decide (s < 0 \/ t < 0 \/ s >= nodeCount g \/ t >= nodeCount g)); [lia|].
  set (cfg := default astar_default_config (Some astar_default_config)).
  destruct (astar_loop_traced g s t cfg Htargets Hs Ht fuel (astar_start g s t cfg))
    as (result & st' & -> & Hout).
  - apply shape_start, Hs.
  - apply traced_start; assumption.
  - lia.
  - eexists _, _, _. split; [reflexivity|exact Hout].
Qed.


End RouteSearchFacts.


(* ===================================================================== *)
(** ** The properties above on sample inputs *)

Module EditSamples.

(** Three named nodes and three roads, built by editing calls. *)
Definition ops : list (GraphOp Binary32.t) :=
  [AddNode ["D"; "o"; "w"; "n"]%byte (Binary32.of_Z 0) (Binary32.of_Z 0);
   AddNode ["P"; "a"; "r"; "k"]%byte (Binary32.of_Z 10) (Binary32.of_Z 0);
   AddNode ["C"; "a"; "r"; " "; "P"; "A"; "R"; "K"]%byte
           (Binary32.of_Z 10) (Binary32.of_Z 10);
   AddEdge 0 1 (Binary32.of_Z 10);
   AddEdge 1 2 (Binary32.of_Z 10);
   AddEdge 0 2 (Binary32.of_Z 30)].

Definition town : Graph Binary32.t := graph_run ops graph_init.

(** A queue after three pushes. *)
Definition queue : PriorityQueue Binary32.t :=
  pq_run [PushOp 0 (Binary32.of_Z 5); PushOp 1 (Binary32.of_Z 3);
          PushOp 2 (Binary32.of_Z 4)]
         (pq_create 4).

(** The application with "down" and "car" typed into the search fields. *)
Definition desk : AppState Binary32.t :=
  mkAppState town (-1) (-1) path_result_create (mkStats 0 0 0) false f_zero
             (replicate (Z.to_nat MAX_NODES) 0) 0 f_zero false
             ["d"; "o"; "w"; "n"]%byte ["c"; "a"; "r"]%byte.

End EditSamples.

Lemma town_wf : graph_wf EditSamples.town.
Proof. apply graph_run_wf, graph_init_wf. Qed.

Lemma town_nodeCount : nodeCount EditSamples.town = 3.
Proof. vm_compute. reflexivity. Qed.

Lemma queue_good : pq_good not_nan EditSamples.queue.
Proof.
  apply (pq_run_good not_nan binary32_lt_le binary32_le_total binary32_le_trans).
  - apply pq_create_good.
  - repeat constructor.
Qed.

Lemma graph_add_node_then_get_node_witness :
  let g := EditSamples.town in
  let id := fst (graph_add_node g ["Z"; "o"; "o"]%byte Binary32.one Binary32.one) in
  let g' := snd (graph_add_node g ["Z"; "o"; "o"]%byte Binary32.one Binary32.one) in
  id = nodeCount g
  /\ nodeCount g' = nodeCount g + 1
  /\ (exists n, graph_get_node g' id = Some n
                /\ node_id n = id
                /\ c_str (node_name n)
                   = take (Z.to_nat (MAX_NAME_LENGTH - 1)) (c_str ["Z"; "o"; "o"]%byte)
                /\ node_x n = Binary32.one /\ node_y n = Binary32.one
                /\ node_active n = true)
  /\ (forall i, i <> id -> graph_get_node g' i = graph_get_node g i)
  /\ (forall a b, graph_has_edge g' a b = graph_has_edge g a b).
Proof.
  apply graph_add_node_then_get_node.
  - exact town_wf.
  - vm_compute. reflexivity.
Defined.

Lemma graph_add_edge_then_lookup_witness :
  let g := EditSamples.town in
  let g' := snd (graph_add_edge g 2 0 Binary32.one) in
  graph_has_edge g' 2 0 = true
  /\ graph_get_edge_weight g' 2 0 = Binary32.one
  /\ (forall a b, (a, b) <> (2, 0) ->
                  graph_has_edge g' a b = graph_has_edge g a b
                  /\ graph_get_edge_weight g' a b = graph_get_edge_weight g a b)
  /\ (forall weight', graph_add_edge g' 2 0 weight' = (false, g')).
Proof.
  apply graph_add_edge_then_lookup.
  - exact town_wf.
  - vm_compute. reflexivity.
Defined.

Lemma graph_remove_edge_then_lookup_witness :
  let g := EditSamples.town in
  let g' := snd (graph_remove_edge g 0 1) in
  fst (graph_remove_edge g 0 1) = graph_has_edge g 0 1
  /\ graph_has_edge g' 0 1 = false
  /\ graph_get_edge_weight g' 0 1 = f_minus_one
  /\ (forall a b, (a, b) <> (0, 1) ->
                  graph_has_edge g' a b = graph_has_edge g a b
                  /\ graph_get_edge_weight g' a b = graph_get_edge_weight g a b)
  /\ (forall i, edgeCount_at g' i = edgeCount_at g i).
Proof. apply graph_remove_edge_then_lookup. exact town_wf. Defined.

Lemma graph_add_edge_bidirectional_links_both_witness :
  let g := EditSamples.town in
  let g' := snd (graph_add_edge_bidirectional g 0 1 Binary32.one) in
  graph_has_edge g' 0 1 = true
  /\ graph_has_edge g' 1 0 = true
  /\ fst (graph_add_edge_bidirectional g 0 1 Binary32.one)
     = negb (graph_has_edge g 0 1 && graph_has_edge g 1 0).
Proof.
  apply graph_add_edge_bidirectional_links_both.
  - exact town_wf.
  - rewrite town_nodeCount. lia.
  - rewrite town_nodeCount. lia.
  - left. vm_compute. reflexivity.
  - right. vm_compute. reflexivity.
Defined.

Lemma graph_get_neighbors_lists_active_targets_witness :
  let g := EditSamples.town in
  snd (graph_get_neighbors g 0 20) = take (Z.to_nat 20) (neighbor_ids g 0)
  /\ fst (graph_get_neighbors g 0 20)
     = Z.of_nat (length (snd (graph_get_neighbors g 0 20)))
  /\ NoDup (snd (graph_get_neighbors g 0 20))
  /\ (edgeCount_at g 0 <= 20 ->
      forall y, y ∈ snd (graph_get_neighbors g 0 20)
                <-> graph_has_edge g 0 y = true /\ node_active (node_at g y) = true).
Proof.
  apply graph_get_neighbors_lists_active_targets.
  - exact town_wf.
  - rewrite town_nodeCount. lia.
Defined.

Lemma graph_remove_node_keeps_the_rest_witness :
  let g := EditSamples.town in
  let g' := snd (graph_remove_node g 1) in
  nodeCount g' = nodeCount g
  /\ graph_get_node g' 1 = None
  /\ (forall b, graph_has_edge g' 1 b = false)
  /\ (forall i, i <> 1 -> graph_get_node g' i = graph_get_node g i)
  /\ (forall a b, a <> 1 -> b <> 1 ->
                  graph_has_edge g' a b = graph_has_edge g a b
                  /\ graph_get_edge_weight g' a b = graph_get_edge_weight g a b).
Proof.
  apply graph_remove_node_keeps_the_rest.
  - exact town_wf.
  - rewrite town_nodeCount. lia.
Defined.

Lemma graph_find_node_at_position_nearest_witness :
  let g := EditSamples.town in
  let x := Binary32.of_Z 9 in
  let y := Binary32.of_Z 1 in
  let radius := Binary32.of_Z 5 in
  let r := graph_find_node_at_position g x y radius in
  f_lt (dist_sq g x y r) (f_mul radius radius) = true
  /\ (forall i, 0 <= i < nodeCount g -> node_active (node_at g i) = true ->
                f_le (dist_sq g x y r) (dist_sq g x y i) = true)
  /\ (forall i, 0 <= i < r -> node_active (node_at g i) = true ->
                f_lt (dist_sq g x y r) (dist_sq g x y i) = true).
Proof.
  apply (graph_find_node_at_position_nearest not_nan).
  - exact binary32_lt_le.
  - exact binary32_le_total.
  - exact binary32_le_trans.
  - vm_compute. reflexivity.
  - intros i Hi _. rewrite town_nodeCount in Hi.
    assert (i = 0 \/ i = 1 \/ i = 2) as [->|[->| ->]] by lia; vm_compute; reflexivity.
  - vm_compute. congruence.
Defined.

Lemma graph_find_node_by_name_finds_witness :
  let g := EditSamples.town in
  let name := ["p"; "a"; "r"; "k"]%byte in
  let r := 1 in
  (r = -1
   /\ forall i, 0 <= i < nodeCount g -> node_active (node_at g i) = true ->
                ~ name_occurs name (node_name (node_at g i)))
  \/ (0 <= r < nodeCount g
      /\ node_active (node_at g r) = true
      /\ name_occurs name (node_name (node_at g r))
      /\ ((folded (node_name (node_at g r)) = folded name
           /\ forall k, 0 <= k < r -> node_active (node_at g k) = true ->
                        folded (node_name (node_at g k)) <> folded name)
          \/ ((forall i, 0 <= i < nodeCount g -> node_active (node_at g i) = true ->
                         folded (node_name (node_at g i)) <> folded name)
              /\ forall k, 0 <= k < r -> node_active (node_at g k) = true ->
                           ~ name_occurs name (node_name (node_at g k))))).
Proof.
  apply graph_find_node_by_name_finds.
  - exact town_wf.
  - vm_compute. reflexivity.
Defined.

Lemma graph_find_node_by_name_reads_past_name_witness :
  graph_find_node_by_name EditSamples.town ["z"; "e"; "b"; "r"; "a"]%byte = None.
Proof.
  apply graph_find_node_by_name_reads_past_name.
  - exact town_wf.
  - vm_compute. reflexivity.
  - split.
    + intros i Hi _ Heq. rewrite town_nodeCount in Hi.
      assert (i = 0 \/ i = 1 \/ i = 2) as [->|[->| ->]] by lia;
        vm_compute in Heq; discriminate Heq.
    + exists 0. split; [rewrite town_nodeCount; lia|].
      split; [vm_compute; reflexivity|]. split; [vm_compute; reflexivity|].
      intros k Hk. lia.
Defined.

Lemma astar_find_path_returns_a_path_witness :
  exists run,
    astar_find_path 4 EditSamples.town 0 2 None = Some run
    /\ ((exists es, walk EditSamples.town 0 es 2
                    /\ run_result run
                       = mkPathResult (0 :: (edge_to <$> es))
                                      (Z.of_nat (length es) + 1) (path_cost es) true)
        \/ run_result run = mkPathResult [] 0 f_zero false).
Proof.
  apply astar_find_path_returns_a_path.
  - apply graph_wf_targets, town_wf.
  - rewrite town_nodeCount. lia.
  - rewrite town_nodeCount. lia.
  - rewrite town_nodeCount. lia.
Defined.

Lemma astar_find_path_statistics_witness :
  exists run stats,
    astar_find_path 4 EditSamples.town 0 2 None = Some run
    /\ run_stats run = Some stats
    /\ 1 <= nodesExplored stats <= nodeCount EditSamples.town
    /\ 1 <= maxOpenSetSize stats <= nodeCount EditSamples.town
    /\ 0 <= nodesInOpenSet stats < maxOpenSetSize stats
    /\ (found (run_result run) = false -> nodesInOpenSet stats = 0).
Proof.
  apply astar_find_path_statistics.
  - apply graph_wf_targets, town_wf.
  - rewrite town_nodeCount. lia.
  - rewrite town_nodeCount. lia.
  - rewrite town_nodeCount. lia.
Defined.

Lemma astar_get_exploration_order_is_a_traversal_witness :
  exists explored,
    astar_get_exploration_order 4 EditSamples.town 0 2 MAX_NODES
    = Some (Z.of_nat (length explored), explored)
    /\ Z.of_nat (length explored) <= Z.max 0 MAX_NODES
    /\ Z.of_nat (length explored) <= nodeCount EditSamples.town
    /\ NoDup explored
    /\ (forall v, v ∈ explored -> 0 <= v < nodeCount EditSamples.town)
    /\ (0 < MAX_NODES -> explored !! O = Some 0)
    /\ (forall k, explored !! k = Some 2 -> S k = length explored)
    /\ (forall k v, explored !! k = Some v -> (0 < k)%nat ->
                    exists (k' : nat) (u j : Z),
                      (k' < k)%nat /\ explored !! k' = Some u
                      /\ 0 <= j < edgeCount_at EditSamples.town u
                      /\ edge_active (edge_at EditSamples.town u j) = true
                      /\ edge_to (edge_at EditSamples.town u j) = v
                      /\ node_active (node_at EditSamples.town v) = true).
Proof.
  apply astar_get_exploration_order_is_a_traversal.
  - apply graph_wf_targets, town_wf.
  - rewrite town_nodeCount. lia.
  - rewrite town_nodeCount. lia.
  - rewrite town_nodeCount. lia.
Defined.

Lemma graph_save_length_witness :
  Z.of_nat (length (graph_save EditSamples.town))
  = 4012 + 141 * nodeCount EditSamples.town
    + 13 * foldr Z.add 0 (edgeCount_at EditSamples.town
                            <$> seqZ 0 (nodeCount EditSamples.town)).
Proof.
  apply graph_save_length.
  - exact binary32_bytes_length.
  - exact town_wf.
Defined.

Lemma pq_pop_returns_least_witness :
  exists nodeId fScore pq',
    pq_pop EditSamples.queue = Some (nodeId, fScore, pq')
    /\ pq_entries EditSamples.queue ≡ₚ mkPQNode nodeId fScore :: pq_entries pq'
    /\ (forall e, e ∈ pq_entries EditSamples.queue -> f_le fScore (pq_fScore e) = true)
    /\ pq_good not_nan pq'.
Proof.
  apply (pq_pop_returns_least not_nan).
  - exact binary32_lt_le.
  - exact binary32_le_total.
  - exact binary32_le_trans.
  - exact queue_good.
  - vm_compute. reflexivity.
Defined.

Lemma pq_pops_come_out_sorted_witness :
  let out := pq_drain (Z.to_nat (pq_size EditSamples.queue)) EditSamples.queue in
  out ≡ₚ pq_entries EditSamples.queue
  /\ forall (i j : nat) (e1 e2 : PQNode Binary32.t),
       (i <= j)%nat -> out !! i = Some e1 -> out !! j = Some e2 ->
       f_le (pq_fScore e1) (pq_fScore e2) = true.
Proof.
  apply (pq_pops_come_out_sorted not_nan).
  - exact binary32_lt_le.
  - exact binary32_le_total.
  - exact binary32_le_trans.
  - exact queue_good.
Defined.

Lemma pq_push_adds_one_entry_witness :
  let pq := EditSamples.queue in
  (fst (pq_push pq 3 Binary32.one) = true <-> pq_size pq < pq_capacity pq)
  /\ (pq_size pq < pq_capacity pq ->
      pq_entries (snd (pq_push pq 3 Binary32.one))
      ≡ₚ mkPQNode 3 Binary32.one :: pq_entries pq
      /\ pq_size (snd (pq_push pq 3 Binary32.one)) = pq_size pq + 1)
  /\ (pq_size pq >= pq_capacity pq -> snd (pq_push pq 3 Binary32.one) = pq).
Proof. apply pq_push_adds_one_entry. apply queue_good. Defined.

Lemma pq_decrease_priority_lowers_or_inserts_witness :
  let pq := EditSamples.queue in
  let pq' := pq_decrease_priority pq 2 Binary32.one in
  (2 ∉ pq_nodeId <$> pq_entries pq -> pq' = snd (pq_push pq 2 Binary32.one))
  /\ (2 ∈ pq_nodeId <$> pq_entries pq ->
      exists i old,
        pq_find pq 2 = Some i
        /\ pq_entries pq !! Z.to_nat i = Some (mkPQNode 2 old)
        /\ pq_size pq' = pq_size pq
        /\ if f_lt Binary32.one old
           then pq_entries pq'
                ≡ₚ <[Z.to_nat i := mkPQNode 2 Binary32.one]> (pq_entries pq)
           else pq' = pq).
Proof. apply pq_decrease_priority_lowers_or_inserts. apply queue_good. Defined.



